(** * Normal-mode vibrational solvers of i-PI: [ipi/engine/motion/nm.py]

    A shallow embedding of the control structure of the normal-mode
    calculators ([NormalModeMover], [IMF], [PC], [VSCFMapper], [VSCFSolver])
    and the properties of them that the specification states.

    Numbers.  The program computes in IEEE double precision.  The control
    flow (loops, tests, file checks) is modelled over exact rationals [Q],
    which keeps every definition executable; the acoustic-sum-rule
    projection needs square roots of the masses and is modelled over the
    real numbers [R] in its own module.  Numerical library routines
    (eigen-solvers, spline interpolation, [logsumexp], [exp], [sqrt],
    [polyfit]) are parameters of the sections that call them: nothing is
    assumed about their results.

    Loops.  Every [while True] loop of the source that has no iteration
    cap is modelled with a fuel argument and returns [None] when the fuel
    runs out; the one capped loop (the VSCF iteration) is shown to finish
    within its cap. *)

From stdpp Require Import gmap strings pretty.
From Stdlib Require Import QArith Qabs Qpower Qround Lia Lqa Ascii.
From Stdlib Require Import Reals Lra.

Local Open Scope Q_scope.

(** ** Rational arithmetic helpers *)

(** Strict comparison of two floats, as a boolean. *)
Definition Qltb (x y : Q) : bool := negb (Qle_bool y x).

(** [x ** 2] *)
Definition Qsquare (x : Q) : Q := x * x.

(** [np.dot] of two vectors. *)
Fixpoint dot (u v : list Q) : Q :=
  match u, v with
  | x :: u', y :: v' => x * y + dot u' v'
  | _, _ => 0
  end.

(** Element [i] of an array; the callers keep [i] in range. *)
Definition at_index (l : list Q) (i : nat) : Q := nth i l 0.

(** Relative change test [np.abs(a - b) / np.abs(b) < thr].  In numpy a zero
    denominator yields [inf] or [nan] (with a warning), and any comparison
    [... < thr] on those is false. *)
Definition rel_change_below (a b thr : Q) : bool :=
  if Qeq_bool (Qabs b) 0 then false
  else Qltb (Qabs (a - b) / Qabs b) thr.

(** The ways a calculator call can stop the run. *)
Inductive failure : Type :=
  | ValueError (msg : string)
  | TypeError (msg : string)
  | IndexError (msg : string)
  | IOError (file : string)
  | SoftExit (msg : string).

Lemma Qltb_lt (x y : Q) : Qltb x y = true <-> x < y.
Proof.
  unfold Qltb. rewrite negb_true_iff.
  split.
  - intros H. apply Qnot_le_lt. intros Hle.
    apply Qle_bool_iff in Hle. congruence.
  - intros H. destruct (Qle_bool y x) eqn:E; [|reflexivity].
    apply Qle_bool_iff in E. exfalso. apply (Qlt_not_le _ _ H E).
Qed.

Lemma Qltb_ge (x y : Q) : Qltb x y = false <-> y <= x.
Proof.
  unfold Qltb. rewrite negb_false_iff. apply Qle_bool_iff.
Qed.

Lemma rel_change_below_nonpos (a b thr : Q) :
  thr <= 0 -> rel_change_below a b thr = false.
Proof.
  intros Hthr. unfold rel_change_below.
  destruct (Qeq_bool (Qabs b) 0); [reflexivity|].
  apply Qltb_ge. apply Qle_trans with 0; [exact Hthr|].
  apply Qmult_le_0_compat; [apply Qabs_nonneg|].
  apply Qinv_le_0_compat. apply Qabs_nonneg.
Qed.

(** ** [IMF.bind]: the dynamical matrix handed to the calculator *)

Module IMF_bind.

(** [np.zeros((rows, cols), float)] *)
Definition zeros (rows cols : nat) : list (list Q) :=
  repeat (repeat 0 cols) rows.

(** [a.reshape((rows, cols))] of a flat array of [rows * cols] entries, in
    row-major order. *)
Fixpoint reshape (rows cols : nat) (a : list Q) : list (list Q) :=
  match rows with
  | O => []
  | S r => firstn cols a :: reshape r cols (skipn cols a)
  end.

(** Lines 233-240 of [IMF.bind].  [dynmatrix] is the user-supplied array by
    its flat content ([dynmatrix.size] is its length) and [qsize] is
    [beads.q.size], which is [3 * natoms] because [NormalModeMover.bind] has
    already refused more than one bead. *)
Definition bind_dynmatrix (dynmatrix : list Q) (qsize : nat)
  : failure + list (list Q) :=
  if negb (length dynmatrix =? qsize * qsize)%nat then
    if (length dynmatrix =? 0)%nat then inr (zeros qsize qsize)
    else inl (ValueError "Force constant matrix size does not match system size")
  else inr (reshape qsize qsize dynmatrix).

Lemma repeat_lookup_lt {A : Type} (x : A) (n i : nat) :
  (i < n)%nat -> repeat x n !! i = Some x.
Proof.
  revert i. induction n as [|n IH]; intros [|i] Hi; try lia; [reflexivity|].
  simpl. apply IH. lia.
Qed.

Lemma reshape_length (rows cols : nat) (a : list Q) :
  length (reshape rows cols a) = rows.
Proof.
  revert a. induction rows as [|rows IH]; intros a; [reflexivity|].
  simpl. by rewrite IH.
Qed.

Lemma reshape_lookup (rows cols : nat) :
  forall (a : list Q) (i : nat),
    (i < rows)%nat ->
    reshape rows cols a !! i = Some (take cols (drop (i * cols) a)).
Proof.
  induction rows as [|rows IH]; intros a i Hi; [lia|].
  destruct i as [|i]; simpl; [reflexivity|].
  rewrite IH by lia. by rewrite drop_drop.
Qed.

(** C10.  An empty dynamical matrix is replaced by a matrix of [qsize]
    rows of [qsize] entries that are all zero, and no error is raised; the
    size-mismatch [ValueError] is raised exactly when the supplied matrix is
    non-empty and its size differs from [qsize * qsize]; a matrix of the
    right size is taken row by row. *)
Theorem bind_dynmatrix_empty_is_zeros :
  (forall qsize : nat,
     exists m : list (list Q),
       bind_dynmatrix [] qsize = inr m /\ length m = qsize /\
       forall i, (i < qsize)%nat ->
         exists row, m !! i = Some row /\ length row = qsize /\
                     forall j, (j < qsize)%nat -> row !! j = Some 0) /\
  (forall (dynmatrix : list Q) (qsize : nat),
     (length dynmatrix <> 0 -> length dynmatrix <> qsize * qsize ->
      bind_dynmatrix dynmatrix qsize
      = inl (ValueError "Force constant matrix size does not match system size"))%nat) /\
  (forall (dynmatrix : list Q) (qsize : nat),
     (exists e, bind_dynmatrix dynmatrix qsize = inl e) <->
     (length dynmatrix <> 0 /\ length dynmatrix <> qsize * qsize)%nat) /\
  (forall (dynmatrix : list Q) (qsize : nat),
     length dynmatrix = (qsize * qsize)%nat ->
     exists m : list (list Q),
       bind_dynmatrix dynmatrix qsize = inr m /\ length m = qsize /\
       forall i j, (i < qsize)%nat -> (j < qsize)%nat ->
         exists row, m !! i = Some row /\ length row = qsize /\
                     row !! j = dynmatrix !! (i * qsize + j)%nat).
Proof.
  split; [|split; [|split]].
  - intros qsize. exists (zeros qsize qsize).
    split; [by destruct qsize|].
    split; [unfold zeros; by rewrite repeat_length|].
    intros i Hi. exists (repeat 0 qsize).
    split; [unfold zeros; by apply repeat_lookup_lt|].
    split; [by rewrite repeat_length|].
    intros j Hj. by apply repeat_lookup_lt.
  - intros dm n H0 Hne. unfold bind_dynmatrix.
    destruct (Nat.eqb_spec (length dm) (n * n)) as [Heq|_]; [contradiction|].
    simpl. destruct (Nat.eqb_spec (length dm) 0) as [Hz|_]; [contradiction|].
    reflexivity.
  - intros dm n. unfold bind_dynmatrix.
    destruct (Nat.eqb_spec (length dm) (n * n)) as [Heq|Hne]; simpl.
    + split; [intros [e He]; discriminate | intros [_ H]; contradiction].
    + destruct (Nat.eqb_spec (length dm) 0) as [H0|H0].
      * split; [intros [e He]; discriminate | intros [H _]; contradiction].
      * split; [intros _; split; assumption | intros _; eexists; reflexivity].
  - intros dm n Hlen. exists (reshape n n dm).
    split.
    { unfold bind_dynmatrix.
      destruct (Nat.eqb_spec (length dm) (n * n)) as [_|Hne]; [reflexivity|].
      contradiction. }
    split; [apply reshape_length|].
    intros i j Hi Hj. exists (take n (drop (i * n) dm)).
    split; [by apply reshape_lookup|].
    split.
    + rewrite length_take, length_drop. nia.
    + rewrite lookup_take_lt by exact Hj. by rewrite lookup_drop.
Qed.

End IMF_bind.

(** ** [IMF.step]: adaptive sampling of one normal mode *)

Module IMF.

(** The three lists [qlist], [vlist], [flist] that [step] grows together. *)
Record samples : Type := Samples {
  qlist : list Q;
  vlist : list Q;
  flist : list Q
}.

Definition append_sample (s : samples) (q dv df : Q) : samples :=
  {| qlist := qlist s ++ [q]; vlist := vlist s ++ [dv]; flist := flist s ++ [df] |}.

(** The fields of [self.imm] (the [NormalModeMover]) that [step] reads. *)
Record mover : Type := Mover {
  beads_q : list Q;          (* beads.q, one bead of 3 natoms coordinates *)
  V_T : list (list Q);       (* the rows of np.real(V.T) *)
  w : list Q;
  w2 : list Q;
  nmrms : list Q;
  nmevib : list Q;
  nz : nat;
  temp : Q;
  forces_pots : Q;           (* forces.pots[0], at the undisplaced geometry *)
  forces_f : list Q          (* forces.f[0] *)
}.

(** The fields of the calculator itself. *)
Record calculator : Type := Calculator {
  fnmrms : Q;
  nevib : Q;
  nbasis : nat;
  athresh : Q;
  nprim : Q;
  total_anhar_free_energy : Q;
  total_har_free_energy : Q;
  total_anhar_internal_energy : Q;
  total_har_internal_energy : Q;
  v0 : Q
}.

(** What one pass of the sampling-density loop leaves behind when the loop
    ends. *)
Record converged : Type := Converged {
  sampling_density_iter : nat;
  final_nmd : Q;
  final_samples : samples;
  Aanh : list Q;
  Eanh : list Q
}.

(** The last element of a list, [l[-1]], and the one before it, [l[-2]]. *)
Definition last1 (l : list Q) : Q := List.last l 0.
Definition last2 (l : list Q) : Q := List.last (removelast l) 0.

Section step.

(** The force evaluation engine: potential and force of a displaced copy
    of the system, [dforces.pots[0]] and [dforces.f[0]] once [dbeads.q] is
    set. *)
Variable pots : list Q -> Q.
Variable forces : list Q -> list Q.

(** Numerical routines. *)
Variable interp1d : list Q -> list Q -> Q -> Q.
Variable solve_schroedingers_equation : Q -> nat -> list Q -> (Q -> Q) -> Q * Q.
Variable logsumexp : list Q -> Q.
Variable exp : Q -> Q.
Variable sqrt : Q -> Q.

Variable imm : mover.
Variable self : calculator.
Variable step : nat.

Definition Vstep : list Q := nth step (V_T imm) [].
Definition w2s : Q := at_index (w2 imm) step.

(** [v0 = forces.pots[0] / nprim] *)
Definition v0_here : Q := forces_pots imm / nprim self.
Definition f0_here : Q := dot (forces_f imm) Vstep / nprim self.

(** [ffnmrms = self.fnmrms * 0.5**sampling_density_iter * 2.0] *)
Definition ffnmrms (iter : nat) : Q := fnmrms self * 0.5 ^ Z.of_nat iter * 2.0.

(** [nmd = ffnmrms * self.imm.nmrms[step]] *)
Definition nmd_of (iter : nat) : Q := ffnmrms iter * at_index (nmrms imm) step.

(** [dev = np.real(V.T[step]) * nmd * np.sqrt(nprim)] and the displaced
    geometry [beads.q + dev * counter]. *)
Definition dev (nmd : Q) : list Q :=
  map (fun v => v * nmd * sqrt (nprim self)) Vstep.
Definition displaced (nmd : Q) (counter : Z) : list Q :=
  zip_with (fun x d => x + d * inject_Z counter) (beads_q imm) (dev nmd).

(** The anharmonic residual [dv] and force [df] at [counter] steps. *)
Definition dv_at (nmd : Q) (counter : Z) : Q :=
  pots (displaced nmd counter) / nprim self
  - 0.50 * w2s * Qsquare (nmd * inject_Z counter) - v0_here.
Definition df_at (nmd : Q) (counter : Z) : Q :=
  dot (forces (displaced nmd counter)) Vstep / nprim self
  + w2s * (nmd * inject_Z counter).

(** Harmonic plus anharmonic energy of the sample, the quantity of the
    bailout test. *)
Definition total_energy (nmd : Q) (counter : Z) : Q :=
  0.50 * w2s * Qsquare (nmd * inject_Z counter) + dv_at nmd counter.

(** The threshold [self.nevib * self.imm.nmevib[step]]. *)
Definition threshold : Q := nevib self * at_index (nmevib imm) step.

(** Bailout condition. *)
Definition bailout (nmd : Q) (counter : Z) : bool :=
  Qltb threshold (Qabs (total_energy nmd counter)).

(** One of the two inner [while True] loops: sample at [counter], stop if
    the bailout condition holds, else move [counter] by [incr]
    ([delta_counter] in the positive direction, [- delta_counter] in the
    negative one).  Returns the lists and the final [counter]. *)
Fixpoint displace (fuel : nat) (nmd : Q) (incr counter : Z) (s : samples)
  : option (samples * Z) :=
  match fuel with
  | O => None
  | S fuel' =>
      let s' := append_sample s (nmd * inject_Z counter)
                  (dv_at nmd counter) (df_at nmd counter) in
      if bailout nmd counter then Some (s', counter)
      else displace fuel' nmd incr (counter + incr)%Z s'
  end.

(** Convergence with respect to the size of the basis:
    [nnbasis = max(1, nbasis - 5) + 5 * bs_iter]. *)
Fixpoint basis_loop (fuel : nat) (qs : list Q) (vspline : Q -> Q)
    (bs_iter : nat) (bs_Aanh bs_Eanh : list Q) : option (list Q * list Q) :=
  match fuel with
  | O => None
  | S fuel' =>
      let nnbasis := (Nat.max 1 (nbasis self - 5) + 5 * bs_iter)%nat in
      let bs_AEanh :=
        solve_schroedingers_equation (at_index (w imm) step) nnbasis qs vspline in
      let bs_Aanh' := bs_Aanh ++ [fst bs_AEanh] in
      let bs_Eanh' := bs_Eanh ++ [snd bs_AEanh] in
      if rel_change_below (last1 bs_Aanh') (last2 bs_Aanh') (athresh self)
      then Some (bs_Aanh', bs_Eanh')
      else basis_loop fuel' qs vspline (S bs_iter) bs_Aanh' bs_Eanh'
  end.

(** The outer loop over the sampling density.  [iter] is the value of
    [sampling_density_iter] after its increment at the top of the body;
    [inner] is the fuel handed to each inner loop. *)
Fixpoint density_loop (inner fuel : nat) (iter : nat) (s : samples)
    (A E : list Q) : option converged :=
  match fuel with
  | O => None
  | S fuel' =>
      let nmd := nmd_of iter in
      let delta_counter := if (iter =? 0)%nat then 1%Z else 2%Z in
      '(s1, _) ← displace inner nmd delta_counter 1 s;
      '(s2, _) ← displace inner nmd (- delta_counter) (-1) s1;
      let vspline := interp1d (qlist s2) (vlist s2) in
      '(bs_Aanh, bs_Eanh) ← basis_loop inner (qlist s2) vspline 0 [1e-20] [1e-20];
      let A' := A ++ [last1 bs_Aanh] in
      let E' := E ++ [last1 bs_Eanh] in
      if rel_change_below (last1 A') (last2 A') (athresh self)
      then Some {| sampling_density_iter := iter; final_nmd := nmd;
                   final_samples := s2; Aanh := A'; Eanh := E' |}
      else density_loop inner fuel' (S iter) s2 A' E'
  end.

(** The convergence test of the outer loop between the passes [p] and
    [p - 1] (the entry before pass 0 is the sentinel [1e-20]). *)
Definition density_converged (A : list Q) (p : nat) : bool :=
  rel_change_below (at_index A (S p)) (at_index A p) (athresh self).

(** Harmonic reference quantities of the mode. *)
Definition boltzmann_arg (i : nat) : Q :=
  -1.0 * sqrt w2s * (0.5 + inject_Z (Z.of_nat i)) / temp imm.
Definition Ahar : Q :=
  - logsumexp (map boltzmann_arg (seq 0 (nbasis self))) * temp imm.
Definition Zhar : Q :=
  fold_right Qplus 0 (map (fun i => exp (boltzmann_arg i)) (seq 0 (nbasis self))).
Definition Ehar : Q :=
  fold_right Qplus 0
    (map (fun i => sqrt w2s * (0.5 + inject_Z (Z.of_nat i)) * exp (boltzmann_arg i))
         (seq 0 (nbasis self))) / Zhar.

(** What a call of [step] did. *)
Inductive outcome : Type :=
  | IgnoredZeroMode                      (* step < nz *)
  | IgnoredSoftMode (nz' : nat)          (* frequency below the cutoff, nz += 1 *)
  | Treated (c : converged) (self' : calculator).

(** [IMF.step].  [None] when a loop runs out of fuel. *)
Definition IMF_step (inner fuel : nat) : option outcome :=
  if (step <? nz imm)%nat then Some IgnoredZeroMode
  else if Qltb (at_index (w imm) step) 9.1126705e-06
  then Some (IgnoredSoftMode (S (nz imm)))
  else
    let s0 := {| qlist := [0.0]; vlist := [0.0]; flist := [f0_here] |} in
    c ← density_loop inner fuel 0 s0 [1e-20] [];
    Some (Treated c
      {| fnmrms := fnmrms self; nevib := nevib self; nbasis := nbasis self;
         athresh := athresh self; nprim := nprim self;
         total_anhar_free_energy := total_anhar_free_energy self + last1 (Aanh c);
         total_har_free_energy := total_har_free_energy self + Ahar;
         total_anhar_internal_energy :=
           total_anhar_internal_energy self + last1 (Eanh c);
         total_har_internal_energy := total_har_internal_energy self + Ehar;
         v0 := v0_here |}).

(** The samples the loop takes at [counter], [counter + incr], ...,
    [counter + (n - 1) * incr]. *)
Fixpoint sampled (n : nat) (nmd : Q) (incr counter : Z) (s : samples) : samples :=
  match n with
  | O => s
  | S n' =>
      sampled n' nmd incr (counter + incr)%Z
        (append_sample s (nmd * inject_Z counter)
           (dv_at nmd counter) (df_at nmd counter))
  end.

(** The sample list that [step] starts from: the undisplaced point. *)
Definition s0_here : samples :=
  {| qlist := [0.0]; vlist := [0.0]; flist := [f0_here] |}.

(** The samples after the passes [iter], [iter + 1], ... of the
    sampling-density loop, when pass [iter + k] stops after [S npos]
    samples on the positive side and [S nneg] on the negative side, for
    [(npos, nneg)] the entry [k] of [counts]: pass [p] moves by the step
    [nmd_of p], from the counters 1 and -1, by one counter in the first
    pass and by two in the others. *)
Fixpoint resampled (iter : nat) (counts : list (nat * nat)) (s : samples)
  : samples :=
  match counts with
  | [] => s
  | (npos, nneg) :: rest =>
      let delta := if (iter =? 0)%nat then 1%Z else 2%Z in
      resampled (S iter) rest
        (sampled (S nneg) (nmd_of iter) (- delta) (-1)
           (sampled (S npos) (nmd_of iter) delta 1 s))
  end.

(** [start + n * incr] is the first counter of [start], [start + incr],
    ... that passes the bailout test. *)
Definition first_bailout (nmd : Q) (incr start : Z) (n : nat) : bool :=
  bailout nmd (start + Z.of_nat n * incr)
  && forallb (fun j => negb (bailout nmd (start + Z.of_nat j * incr))) (seq 0 n).

(** What the Schroedinger solver answers at pass [k] of the basis loop,
    the free energy of the pass before it (the sentinel [1e-20] before the
    first), and the test that ends the loop at pass [k]. *)
Definition basis_AE (qs : list Q) (vspline : Q -> Q) (k : nat) : Q * Q :=
  solve_schroedingers_equation (at_index (w imm) step)
    (Nat.max 1 (nbasis self - 5) + 5 * k) qs vspline.
Definition basis_prev (qs : list Q) (vspline : Q -> Q) (k : nat) : Q :=
  match k with
  | O => 1e-20
  | S k' => fst (basis_AE qs vspline k')
  end.
Definition basis_converged (qs : list Q) (vspline : Q -> Q) (k : nat) : bool :=
  rel_change_below (fst (basis_AE qs vspline k)) (basis_prev qs vspline k)
    (athresh self).
Definition first_basis (qs : list Q) (vspline : Q -> Q) (n : nat) : bool :=
  basis_converged qs vspline n
  && forallb (fun j => negb (basis_converged qs vspline j)) (seq 0 n).

(** A schedule of the sampling-density loop from pass [iter] on: entry [k]
    of [plan] holds, for pass [iter + k], the number of samples before the
    stopping one on each side and the number of basis sizes tried before
    the one that converged.  [follows] says that the loop, entered with the
    samples [s] and the free energy [aprev] of the pass before, runs by
    this schedule and ends with its last entry. *)
Fixpoint follows (iter : nat) (s : samples) (aprev : Q)
    (plan : list (nat * nat * nat)) : bool :=
  match plan with
  | [] => false
  | (npos, nneg, nb) :: rest =>
      let nmd := nmd_of iter in
      let delta := if (iter =? 0)%nat then 1%Z else 2%Z in
      let s2 := sampled (S nneg) nmd (- delta) (-1)
                  (sampled (S npos) nmd delta 1 s) in
      let vspline := interp1d (qlist s2) (vlist s2) in
      let a := fst (basis_AE (qlist s2) vspline nb) in
      first_bailout nmd delta 1 npos
      && first_bailout nmd (- delta) (-1) nneg
      && first_basis (qlist s2) vspline nb
      && match rest with
         | [] => rel_change_below a aprev (athresh self)
         | _ :: _ =>
             negb (rel_change_below a aprev (athresh self))
             && follows (S iter) s2 a rest
         end
  end.

End step.


(** *** The samples of a treated mode *)

(** The three lists have one entry per sample. *)
Definition aligned (s : samples) : Prop :=
  length (qlist s) = length (vlist s) /\ length (vlist s) = length (flist s).

(** The displacements [qs] are the multiples [ks] of the step [nmd]. *)
Definition multiples (nmd : Q) (ks : list Z) (qs : list Q) : Prop :=
  Forall2 (fun q k => q == nmd * inject_Z k) qs ks.

(** The counters that a displacement loop visits in [S n] passes. *)
Definition counters (incr counter : Z) (n : nat) : list Z :=
  map (fun j => (counter + Z.of_nat j * incr)%Z) (seq 0 (S n)).

(** The invariant of the sampling-density loop at the top of pass [iter]:
    the displacements sampled so far are distinct multiples of the step of
    the pass, the origin alone before the first pass and even multiples
    before each later one. *)
Definition sampled_on_grid (imm : mover) (self : calculator) (step : nat)
    (iter : nat) (s : samples) (ks : list Z) : Prop :=
  multiples (nmd_of imm self step iter) ks (qlist s) /\ NoDup ks /\
  Forall (fun k => if (iter =? 0)%nat then k = 0%Z else Z.even k = true) ks.

(** *** A one-dimensional test system

    One coordinate, one mode of unit frequency, a potential equal to the
    coordinate, and a Schroedinger solver that always answers [A = E = 1].
    [nevib * nmevib = 2]. *)

Module Example.

Definition pots (x : list Q) : Q := nth 0 x 0.
Definition forces (x : list Q) : list Q := [0].
Definition interp1d (qs vs : list Q) (x : Q) : Q := 0.
Definition solve_schroedingers_equation
  (hw : Q) (nb : nat) (qs : list Q) (vspline : Q -> Q) : Q * Q := (1, 1).
Definition logsumexp (l : list Q) : Q := 0.
Definition exp (x : Q) : Q := 1.
(** Exact on 1, the only argument it meets here. *)
Definition sqrt (x : Q) : Q := x.

Definition imm : mover :=
  {| beads_q := [0]; V_T := [[1]]; w := [1]; w2 := [1]; nmrms := [1];
     nmevib := [2]; nz := 0; temp := 1; forces_pots := 0; forces_f := [0] |}.

Definition self : calculator :=
  {| fnmrms := 1; nevib := 1; nbasis := 10; athresh := 1e-2; nprim := 1;
     total_anhar_free_energy := 0; total_har_free_energy := 0;
     total_anhar_internal_energy := 0; total_har_internal_energy := 0;
     v0 := 0 |}.

Definition s0 : samples := {| qlist := [0.0]; vlist := [0.0]; flist := [0] |}.

Definition displace := IMF.displace pots forces sqrt imm self 0.
Definition sampled := IMF.sampled pots forces sqrt imm self 0.
Definition total_energy := IMF.total_energy pots sqrt imm self 0.
Definition threshold := IMF.threshold imm self 0.
Definition nmd_of := IMF.nmd_of imm self 0.
Definition step := IMF_step pots forces interp1d solve_schroedingers_equation
                     logsumexp exp sqrt imm self 0.

(** A schedule of the sampling-density loop: two passes, each with one
    sample before the stopping one on either side and one basis size
    before the converged one. *)
Definition plan : list (nat * nat * nat) := [(1, 1, 1); (1, 1, 1)]%nat.

(** The result of [step] on the test system. *)
Definition treated : converged * calculator :=
  Eval vm_compute in
    match step 5 5 with
    | Some (Treated c self') => (c, self')
    | _ => ({| sampling_density_iter := 0; final_nmd := 0; final_samples := s0;
               Aanh := []; Eanh := [] |}, self)
    end.

End Example.

(** *** Properties of the sampling loops *)

Section step_facts.

Variable pots : list Q -> Q.
Variable forces : list Q -> list Q.
Variable interp1d : list Q -> list Q -> Q -> Q.
Variable solve_schroedingers_equation : Q -> nat -> list Q -> (Q -> Q) -> Q * Q.
Variable logsumexp : list Q -> Q.
Variable exp : Q -> Q.
Variable sqrt : Q -> Q.
Variable imm : mover.
Variable self : calculator.
Variable step : nat.

Local Abbreviation displace := (displace pots forces sqrt imm self step).
Local Abbreviation sampled := (sampled pots forces sqrt imm self step).
Local Abbreviation bailout := (bailout pots sqrt imm self step).
Local Abbreviation total_energy := (total_energy pots sqrt imm self step).
Local Abbreviation threshold := (threshold imm self step).
Local Abbreviation nmd_of := (nmd_of imm self step).
Local Abbreviation density_converged := (density_converged self).
Local Abbreviation density_loop :=
  (density_loop pots forces interp1d solve_schroedingers_equation sqrt imm self step).
Local Abbreviation IMF_step :=
  (IMF_step pots forces interp1d solve_schroedingers_equation logsumexp exp sqrt
     imm self step).
Local Abbreviation basis_loop :=
  (basis_loop solve_schroedingers_equation imm self step).
Local Abbreviation basis_AE := (basis_AE solve_schroedingers_equation imm self step).
Local Abbreviation basis_prev :=
  (basis_prev solve_schroedingers_equation imm self step).
Local Abbreviation basis_converged :=
  (basis_converged solve_schroedingers_equation imm self step).
Local Abbreviation first_basis :=
  (first_basis solve_schroedingers_equation imm self step).
Local Abbreviation first_bailout := (first_bailout pots sqrt imm self step).
Local Abbreviation resampled := (resampled pots forces sqrt imm self step).
Local Abbreviation follows :=
  (follows pots forces interp1d solve_schroedingers_equation sqrt imm self step).
Local Abbreviation s0_here := (s0_here imm self step).

Lemma bailout_true (nmd : Q) (counter : Z) :
  bailout nmd counter = true <-> threshold < Qabs (total_energy nmd counter).
Proof. apply Qltb_lt. Qed.

Lemma bailout_false (nmd : Q) (counter : Z) :
  bailout nmd counter = false <-> Qabs (total_energy nmd counter) <= threshold.
Proof. apply Qltb_ge. Qed.

(** The loop ends once it meets a sample that passes the bailout test:
    enough fuel always yields a result. *)
Lemma displace_reaches (n : nat) :
  forall (fuel : nat) (nmd : Q) (incr counter : Z) (s : samples),
    (n < fuel)%nat ->
    bailout nmd (counter + Z.of_nat n * incr) = true ->
    (forall j, (j < n)%nat -> bailout nmd (counter + Z.of_nat j * incr) = false) ->
    displace fuel nmd incr counter s
    = Some (sampled (S n) nmd incr counter s, (counter + Z.of_nat n * incr)%Z).
Proof.
  induction n as [|n IH]; intros fuel nmd incr counter s Hfuel Hlast Hbefore.
  - destruct fuel as [|fuel]; [lia|]. simpl.
    replace (counter + Z.of_nat 0 * incr)%Z with counter in Hlast by lia.
    rewrite Hlast. do 2 f_equal. lia.
  - destruct fuel as [|fuel]; [lia|]. simpl.
    pose proof (Hbefore 0%nat ltac:(lia)) as H0.
    replace (counter + Z.of_nat 0 * incr)%Z with counter in H0 by lia.
    rewrite H0.
    rewrite (IH fuel nmd incr (counter + incr)%Z); [ | lia | | ].
    + do 2 f_equal. lia.
    + replace (counter + incr + Z.of_nat n * incr)%Z
        with (counter + Z.of_nat (S n) * incr)%Z by lia.
      exact Hlast.
    + intros j Hj.
      replace (counter + incr + Z.of_nat j * incr)%Z
        with (counter + Z.of_nat (S j) * incr)%Z by lia.
      apply Hbefore. lia.
Qed.

(** C1 (as the code has it).  One run of a displacement loop, in either
    direction, appends the samples at [counter], [counter + incr], ... and
    stops exactly at the first of them whose [|harmonic + anharmonic|]
    energy is strictly above [nevib * nmevib]: the last sample is strictly
    above the threshold, and every earlier sample of the run is at or below
    it. *)
Theorem displace_stops_at_first_bailout
    (fuel : nat) (nmd : Q) (incr counter : Z) (s s' : samples) (cN : Z) :
  displace fuel nmd incr counter s = Some (s', cN) ->
  exists n : nat,
    (n < fuel)%nat /\
    cN = (counter + Z.of_nat n * incr)%Z /\
    s' = sampled (S n) nmd incr counter s /\
    threshold < Qabs (total_energy nmd cN) /\
    (forall j, (j < n)%nat ->
       Qabs (total_energy nmd (counter + Z.of_nat j * incr)) <= threshold).
Proof.
  revert counter s.
  induction fuel as [|fuel IH]; intros counter s H; [discriminate|].
  simpl in H.
  destruct (bailout nmd counter) eqn:Hb.
  - injection H as <- <-. exists 0%nat.
    repeat split; [lia | lia | | ].
    + apply bailout_true. exact Hb.
    + intros j Hj. lia.
  - apply IH in H as (n & Hn & HcN & Hs & Hlast & Hbefore).
    exists (S n). repeat split; [lia | lia | exact Hs | exact Hlast | ].
    intros [|j] Hj.
    + replace (counter + Z.of_nat 0 * incr)%Z with counter by lia.
      apply bailout_false. exact Hb.
    + replace (counter + Z.of_nat (S j) * incr)%Z
        with (counter + incr + Z.of_nat j * incr)%Z by lia.
      apply Hbefore. lia.
Qed.

Lemma last1_snoc (l : list Q) (a : Q) : last1 (l ++ [a]) = a.
Proof. unfold last1. apply last_last. Qed.

Lemma last2_snoc (l : list Q) (a : Q) : last2 (l ++ [a]) = last1 l.
Proof. unfold last2, last1. rewrite removelast_last. reflexivity. Qed.

Lemma last1_at_index (l : list Q) (i : nat) :
  length l = S i -> last1 l = at_index l i.
Proof.
  intros Hlen. unfold last1, at_index.
  destruct (exists_last (l := l)) as (l' & a & ->).
  { intros ->. discriminate. }
  rewrite last_last. rewrite length_app in Hlen. simpl in Hlen.
  rewrite app_nth2 by lia.
  replace (i - length l')%nat with 0%nat by lia. reflexivity.
Qed.

(** The step of the first pass is twice the configured one. *)
Lemma nmd_of_first : nmd_of 0 == 2 * (fnmrms self * at_index (nmrms imm) step).
Proof. unfold IMF.nmd_of, ffnmrms. simpl. field. Qed.

(** Each further pass halves the step. *)
Lemma nmd_of_halves (p : nat) : nmd_of (S p) == nmd_of p / 2.
Proof.
  unfold IMF.nmd_of, ffnmrms.
  rewrite Nat2Z.inj_succ. unfold Z.succ.
  rewrite Qpower_plus by discriminate.
  simpl. field.
Qed.

Lemma density_loop_inv (inner fuel : nat) :
  forall (i : nat) (s : samples) (A E : list Q) (c : converged),
    length A = S i ->
    density_loop inner fuel i s A E = Some c ->
    (i <= sampling_density_iter c)%nat /\
    final_nmd c = nmd_of (sampling_density_iter c) /\
    length (Aanh c) = (sampling_density_iter c + 2)%nat /\
    (forall p, (p <= i)%nat -> at_index (Aanh c) p = at_index A p) /\
    density_converged (Aanh c) (sampling_density_iter c) = true /\
    (forall p, (i <= p < sampling_density_iter c)%nat ->
       density_converged (Aanh c) p = false).
Proof.
  induction fuel as [|fuel IH]; intros i s A E c Hlen H; [discriminate|].
  simpl in H.
  destruct (IMF.displace _ _ _ _ _ _ inner _ _ 1 s) as [[s1 c1]|]; [|discriminate].
  simpl in H.
  destruct (IMF.displace _ _ _ _ _ _ inner _ _ (-1) s1) as [[s2 c2]|]; [|discriminate].
  simpl in H.
  destruct (basis_loop _ _ _ _ _ _) as [[bsA bsE]|]; [|discriminate].
  simpl in H.
  rewrite last1_snoc, last2_snoc in H.
  set (a := last1 bsA) in *.
  assert (Hlen' : length (A ++ [a]) = S (S i))
    by (rewrite length_app; simpl; lia).
  assert (Hpre : forall p, (p <= i)%nat -> at_index (A ++ [a]) p = at_index A p).
  { intros p Hp. unfold at_index. apply app_nth1. lia. }
  assert (Hnew : at_index (A ++ [a]) (S i) = a).
  { rewrite <- (last1_at_index _ _ Hlen'). apply last1_snoc. }
  destruct (rel_change_below a (last1 A) (athresh self)) eqn:Hconv.
  - injection H as <-. simpl.
    repeat split; [lia | lia | exact Hpre | | intros p Hp; lia].
    unfold IMF.density_converged.
    rewrite Hnew, (Hpre i) by lia.
    rewrite <- (last1_at_index _ _ Hlen). exact Hconv.
  - apply IH in H as (Hle & Hnmd & HlenA & Hsame & Hlast & Hbefore); [|exact Hlen'].
    repeat split; [lia | exact Hnmd | exact HlenA | | exact Hlast | ].
    + intros p Hp. rewrite Hsame by lia. apply Hpre. exact Hp.
    + intros p Hp. destruct (decide (p = i)) as [->|Hne].
      * unfold IMF.density_converged.
        rewrite (Hsame (S i)), (Hsame i) by lia.
        rewrite Hnew, (Hpre i) by lia.
        rewrite <- (last1_at_index _ _ Hlen). exact Hconv.
      * apply Hbefore. lia.
Qed.

(** **** The loops return what their schedule says *)

Lemma first_bailout_spec (nmd : Q) (incr start : Z) (n : nat) :
  first_bailout nmd incr start n = true <->
  bailout nmd (start + Z.of_nat n * incr) = true /\
  forall j, (j < n)%nat -> bailout nmd (start + Z.of_nat j * incr) = false.
Proof.
  unfold IMF.first_bailout. rewrite andb_true_iff, forallb_forall.
  split; intros [H1 H2]; (split; [exact H1|]).
  - intros j Hj. apply negb_true_iff. apply H2. apply in_seq. lia.
  - intros j Hj. apply in_seq in Hj. apply negb_true_iff. apply H2. lia.
Qed.

Lemma first_basis_spec (qs : list Q) (v : Q -> Q) (n : nat) :
  first_basis qs v n = true <->
  basis_converged qs v n = true /\
  forall j, (j < n)%nat -> basis_converged qs v j = false.
Proof.
  unfold IMF.first_basis. rewrite andb_true_iff, forallb_forall.
  split; intros [H1 H2]; (split; [exact H1|]).
  - intros j Hj. apply negb_true_iff. apply H2. apply in_seq. lia.
  - intros j Hj. apply in_seq in Hj. apply negb_true_iff. apply H2. lia.
Qed.

(** A displacement loop that returns has stopped at the first counter that
    passes the bailout test, with one sample per counter it met. *)
Lemma displace_first (fuel : nat) (nmd : Q) (incr : Z) :
  forall (counter : Z) (s s' : samples) (cN : Z),
    displace fuel nmd incr counter s = Some (s', cN) ->
    exists n : nat,
      (n < fuel)%nat /\ first_bailout nmd incr counter n = true /\
      s' = sampled (S n) nmd incr counter s.
Proof.
  induction fuel as [|fuel IH]; intros counter s s' cN H; [discriminate|].
  simpl in H. destruct (bailout nmd counter) eqn:Hb.
  - injection H as <- _. exists 0%nat. split; [lia|]. split; [|reflexivity].
    apply first_bailout_spec. split; [|intros j Hj; lia].
    by replace (counter + Z.of_nat 0 * incr)%Z with counter by lia.
  - apply IH in H as (n & Hn & Hfirst & ->).
    apply first_bailout_spec in Hfirst as [Hlast Hbefore].
    exists (S n). split; [lia|]. split; [|reflexivity].
    apply first_bailout_spec. split.
    + by replace (counter + Z.of_nat (S n) * incr)%Z
        with (counter + incr + Z.of_nat n * incr)%Z by lia.
    + intros [|j] Hj.
      * by replace (counter + Z.of_nat 0 * incr)%Z with counter by lia.
      * replace (counter + Z.of_nat (S j) * incr)%Z
          with (counter + incr + Z.of_nat j * incr)%Z by lia.
        apply Hbefore. lia.
Qed.

Lemma displace_scheduled (fuel : nat) (nmd : Q) (incr counter : Z)
    (s : samples) (n : nat) :
  (n < fuel)%nat -> first_bailout nmd incr counter n = true ->
  displace fuel nmd incr counter s
  = Some (sampled (S n) nmd incr counter s, (counter + Z.of_nat n * incr)%Z).
Proof.
  intros Hn Hfirst. apply first_bailout_spec in Hfirst as [Hlast Hbefore].
  by apply displace_reaches.
Qed.

(** One turn of the basis loop. *)
Lemma basis_loop_S (fuel : nat) (qs : list Q) (v : Q -> Q) (k : nat)
    (lA lE : list Q) :
  last1 lA = basis_prev qs v k ->
  basis_loop (S fuel) qs v k lA lE
  = if basis_converged qs v k
    then Some (lA ++ [fst (basis_AE qs v k)], lE ++ [snd (basis_AE qs v k)])
    else basis_loop fuel qs v (S k) (lA ++ [fst (basis_AE qs v k)])
           (lE ++ [snd (basis_AE qs v k)]).
Proof.
  intros Hprev. simpl. rewrite last1_snoc, last2_snoc, Hprev. reflexivity.
Qed.

(** The basis loop ends at the first basis size whose free energy is
    within [athresh] of that of the size before it. *)
Lemma basis_loop_reaches (qs : list Q) (v : Q -> Q) (n : nat) :
  forall (fuel k : nat) (lA lE : list Q),
    (n < fuel)%nat ->
    last1 lA = basis_prev qs v k ->
    basis_converged qs v (k + n) = true ->
    (forall j, (j < n)%nat -> basis_converged qs v (k + j) = false) ->
    exists lA' lE' : list Q,
      basis_loop fuel qs v k lA lE = Some (lA', lE') /\
      last1 lA' = fst (basis_AE qs v (k + n)) /\
      last1 lE' = snd (basis_AE qs v (k + n)).
Proof.
  induction n as [|n IH]; intros fuel k lA lE Hfuel Hprev Hlast Hbefore;
    (destruct fuel as [|fuel]; [lia|]); rewrite (basis_loop_S _ _ _ _ _ _ Hprev).
  - rewrite Nat.add_0_r in *. rewrite Hlast.
    eexists _, _. split; [reflexivity|]. by rewrite !last1_snoc.
  - pose proof (Hbefore 0%nat ltac:(lia)) as H0. rewrite Nat.add_0_r in H0.
    rewrite H0.
    destruct (IH fuel (S k) (lA ++ [fst (basis_AE qs v k)])
                (lE ++ [snd (basis_AE qs v k)]))
      as (lA' & lE' & Hrun & HA & HE).
    + lia.
    + by rewrite last1_snoc.
    + by replace (S k + n)%nat with (k + S n)%nat by lia.
    + intros j Hj. replace (S k + j)%nat with (k + S j)%nat by lia.
      apply Hbefore. lia.
    + exists lA', lE'. split; [exact Hrun|].
      by replace (k + S n)%nat with (S k + n)%nat by lia.
Qed.

Lemma basis_loop_first (qs : list Q) (v : Q -> Q) (fuel : nat) :
  forall (k : nat) (lA lE lA' lE' : list Q),
    basis_loop fuel qs v k lA lE = Some (lA', lE') ->
    last1 lA = basis_prev qs v k ->
    exists n : nat,
      (n < fuel)%nat /\
      basis_converged qs v (k + n) = true /\
      (forall j, (j < n)%nat -> basis_converged qs v (k + j) = false) /\
      last1 lA' = fst (basis_AE qs v (k + n)) /\
      last1 lE' = snd (basis_AE qs v (k + n)).
Proof.
  induction fuel as [|fuel IH]; intros k lA lE lA' lE' H Hprev; [discriminate|].
  rewrite (basis_loop_S _ _ _ _ _ _ Hprev) in H.
  destruct (basis_converged qs v k) eqn:Hconv.
  - injection H as <- <-. exists 0%nat. rewrite Nat.add_0_r, !last1_snoc.
    split; [lia|]. split; [exact Hconv|]. split; [intros j Hj; lia|]. done.
  - apply IH in H as (n & Hn & Hlast & Hbefore & HA & HE);
      [|by rewrite last1_snoc].
    exists (S n). replace (k + S n)%nat with (S k + n)%nat by lia.
    split; [lia|]. split; [exact Hlast|]. split; [|done].
    intros [|j] Hj.
    + by rewrite Nat.add_0_r.
    + replace (k + S j)%nat with (S k + j)%nat by lia. apply Hbefore. lia.
Qed.

(** [follows] at a schedule with a first entry. *)
Lemma follows_cons (iter : nat) (s : samples) (aprev : Q) (npos nneg nb : nat)
    (rest : list (nat * nat * nat)) :
  let d := if (iter =? 0)%nat then 1%Z else 2%Z in
  let s2 := sampled (S nneg) (nmd_of iter) (- d) (-1)
              (sampled (S npos) (nmd_of iter) d 1 s) in
  let a := fst (basis_AE (qlist s2) (interp1d (qlist s2) (vlist s2)) nb) in
  follows iter s aprev ((npos, nneg, nb) :: rest) = true <->
  first_bailout (nmd_of iter) d 1 npos = true /\
  first_bailout (nmd_of iter) (- d) (-1) nneg = true /\
  first_basis (qlist s2) (interp1d (qlist s2) (vlist s2)) nb = true /\
  match rest with
  | [] => rel_change_below a aprev (athresh self) = true
  | _ :: _ => rel_change_below a aprev (athresh self) = false /\
              follows (S iter) s2 a rest = true
  end.
Proof.
  intros d s2 a.
  change (follows iter s aprev ((npos, nneg, nb) :: rest))
    with (first_bailout (nmd_of iter) d 1 npos
          && first_bailout (nmd_of iter) (- d) (-1) nneg
          && first_basis (qlist s2) (interp1d (qlist s2) (vlist s2)) nb
          && match rest with
             | [] => rel_change_below a aprev (athresh self)
             | _ :: _ => negb (rel_change_below a aprev (athresh self))
                         && follows (S iter) s2 a rest
             end).
  rewrite !andb_true_iff.
  destruct rest; [tauto|]. rewrite andb_true_iff, negb_true_iff. tauto.
Qed.

(** The sampling-density loop runs by a schedule that it follows, given
    fuel for it. *)
Lemma density_loop_reaches (inner : nat) (plan : list (nat * nat * nat)) :
  forall (fuel iter : nat) (s : samples) (A E : list Q),
    follows iter s (last1 A) plan = true ->
    Forall (fun '(npos, nneg, nb) =>
              (npos < inner)%nat /\ (nneg < inner)%nat /\ (nb < inner)%nat) plan ->
    (length plan <= fuel)%nat ->
    exists c : converged,
      density_loop inner fuel iter s A E = Some c /\
      (iter + length plan)%nat = S (sampling_density_iter c) /\
      final_samples c = resampled iter (map fst plan) s.
Proof.
  induction plan as [|[[npos nneg] nb] rest IH];
    intros fuel iter s A E Hf Hin Hfuel; [discriminate|].
  destruct fuel as [|fuel]; [simpl in Hfuel; lia|].
  apply Forall_cons in Hin as [(Hp & Hn & Hb) Hin].
  apply follows_cons in Hf as (Hpos & Hneg & Hbasis & Hrest).
  cbn [IMF.density_loop].
  rewrite (displace_scheduled inner _ _ _ s npos Hp Hpos). cbn [mbind option_bind].
  rewrite (displace_scheduled inner _ _ _ _ nneg Hn Hneg). cbn [mbind option_bind].
  set (d := if (iter =? 0)%nat then 1%Z else 2%Z) in *.
  set (s2 := sampled (S nneg) (nmd_of iter) (- d) (-1)
               (sampled (S npos) (nmd_of iter) d 1 s)) in *.
  apply first_basis_spec in Hbasis as [Hblast Hbbefore].
  destruct (basis_loop_reaches (qlist s2) (interp1d (qlist s2) (vlist s2)) nb
              inner 0 [1e-20] [1e-20] Hb eq_refl Hblast Hbbefore)
    as (lA & lE & Hrun & HA & HE).
  rewrite Hrun. cbn [mbind option_bind]. rewrite last1_snoc, last2_snoc, HA.
  simpl (0 + nb)%nat.
  destruct rest as [|next rest].
  - rewrite Hrest. eexists. split; [reflexivity|]. simpl. split; [lia|reflexivity].
  - destruct Hrest as [Hnot Hrest]. rewrite Hnot.
    destruct (IH fuel (S iter) s2 (A ++ [fst (basis_AE (qlist s2)
                                           (interp1d (qlist s2) (vlist s2)) nb)])
                (E ++ [last1 lE]))
      as (c & Hc & Hlen & Hs).
    + by rewrite last1_snoc.
    + exact Hin.
    + simpl in Hfuel |- *. lia.
    + exists c. split; [exact Hc|]. split; [simpl in Hlen |- *; lia|].
      exact Hs.
Qed.

Lemma density_loop_follows (inner fuel : nat) :
  forall (iter : nat) (s : samples) (A E : list Q) (c : converged),
    density_loop inner fuel iter s A E = Some c ->
    exists plan : list (nat * nat * nat),
      follows iter s (last1 A) plan = true /\
      (iter + length plan)%nat = S (sampling_density_iter c) /\
      final_samples c = resampled iter (map fst plan) s.
Proof.
  induction fuel as [|fuel IH]; intros iter s A E c H; [discriminate|].
  cbn [IMF.density_loop] in H.
  destruct (IMF.displace _ _ _ _ _ _ inner _ _ 1 s) as [[s1 c1]|] eqn:H1;
    [|discriminate].
  cbn [mbind option_bind] in H.
  destruct (IMF.displace _ _ _ _ _ _ inner _ _ (-1) s1) as [[s2 c2]|] eqn:H2;
    [|discriminate].
  cbn [mbind option_bind] in H.
  destruct (basis_loop _ _ _ _ _ _) as [[bsA bsE]|] eqn:Hb; [|discriminate].
  cbn [mbind option_bind] in H.
  apply displace_first in H1 as (npos & _ & Hpos & ->).
  apply displace_first in H2 as (nneg & _ & Hneg & ->).
  apply basis_loop_first in Hb as (nb & _ & Hblast & Hbbefore & HA & _);
    [|reflexivity].
  simpl (0 + nb)%nat in *.
  rewrite last1_snoc, last2_snoc, HA in H.
  set (d := if (iter =? 0)%nat then 1%Z else 2%Z) in *.
  set (s2 := sampled (S nneg) (nmd_of iter) (- d) (-1)
               (sampled (S npos) (nmd_of iter) d 1 s)) in *.
  assert (Hbasis : first_basis (qlist s2) (interp1d (qlist s2) (vlist s2)) nb
                   = true) by (apply first_basis_spec; by split).
  destruct (rel_change_below _ (last1 A) _) eqn:Hconv.
  - injection H as <-. exists [(npos, nneg, nb)].
    split; [|split; [simpl; lia | reflexivity]].
    apply follows_cons. by repeat split.
  - apply IH in H as (plan & Hf & Hlen & Hs).
    rewrite last1_snoc in Hf.
    exists ((npos, nneg, nb) :: plan).
    split; [|split; [simpl; lia | exact Hs]].
    apply follows_cons.
    destruct plan as [|next plan]; [discriminate Hf|]. by repeat split.
Qed.

(** C2 (as the code has it).  The displacement step of the first pass of
    the sampling-density loop is [2 * fnmrms * nmrms[step]] and every
    further pass halves it (so the second pass uses [fnmrms * nmrms[step]]).
    On a mode that [step] treats, every schedule that the loop follows is
    run to its end, given fuel for it: pass [p] samples at multiples of its
    own step [nmd_of p].  Whatever [step] returns for a treated mode comes
    from such a schedule, and the loop has ended at the first pass whose
    free energy differs from that of the pass before it (the sentinel
    [1e-20] before the first pass) by a relative change below [athresh]. *)
Theorem IMF_step_halves_until_converged :
  nmd_of 0 == 2 * (fnmrms self * at_index (nmrms imm) step) /\
  (forall p, nmd_of (S p) == nmd_of p / 2) /\
  (forall (plan : list (nat * nat * nat)) (inner fuel : nat),
     (step <? nz imm)%nat = false ->
     Qltb (at_index (w imm) step) 9.1126705e-06 = false ->
     follows 0 s0_here 1e-20 plan = true ->
     Forall (fun '(npos, nneg, nb) =>
               (npos < inner)%nat /\ (nneg < inner)%nat /\ (nb < inner)%nat) plan ->
     (length plan <= fuel)%nat ->
     exists (c : converged) (self' : calculator),
       IMF_step inner fuel = Some (Treated c self') /\
       length plan = S (sampling_density_iter c) /\
       final_samples c = resampled 0 (map fst plan) s0_here) /\
  (forall (inner fuel : nat) (c : converged) (self' : calculator),
     IMF_step inner fuel = Some (Treated c self') ->
     (exists plan : list (nat * nat * nat),
        follows 0 s0_here 1e-20 plan = true /\
        length plan = S (sampling_density_iter c) /\
        final_samples c = resampled 0 (map fst plan) s0_here) /\
     final_nmd c = nmd_of (sampling_density_iter c) /\
     length (Aanh c) = (sampling_density_iter c + 2)%nat /\
     at_index (Aanh c) 0 = 1e-20 /\
     density_converged (Aanh c) (sampling_density_iter c) = true /\
     (forall p, (p < sampling_density_iter c)%nat ->
        density_converged (Aanh c) p = false)).
Proof.
  split; [apply nmd_of_first|].
  split; [apply nmd_of_halves|].
  split.
  - intros plan inner fuel Hnz Hw Hf Hin Hfuel. unfold IMF.IMF_step.
    rewrite Hnz, Hw.
    destruct (density_loop_reaches inner plan fuel 0 s0_here [1e-20] [] Hf Hin Hfuel)
      as (c & Hc & Hlen & Hs).
    unfold s0_here in Hc. rewrite Hc. cbn [mbind option_bind].
    eexists _, _. split; [reflexivity|]. split; [exact Hlen | exact Hs].
  - intros inner fuel c self'. unfold IMF.IMF_step.
    destruct (step <? nz imm)%nat; [discriminate|].
    destruct (Qltb _ _); [discriminate|].
    destruct (IMF.density_loop _ _ _ _ _ _ _ _ _ _ _ _ _ _) as [c'|] eqn:Hloop;
      [|discriminate].
    simpl. intros H. injection H as -> _.
    pose proof (density_loop_follows _ _ _ _ _ _ _ Hloop) as (plan & Hf & Hlen & Hs).
    apply density_loop_inv in Hloop as (_ & Hnmd & HlenA & Hsame & Hlast & Hbefore);
      [|reflexivity].
    split; [by exists plan|].
    repeat split; [exact Hnmd | exact HlenA | | exact Hlast | ].
    + rewrite Hsame by lia. reflexivity.
    + intros p Hp. apply Hbefore. lia.
Qed.

End step_facts.

(** *** The test system *)

Lemma example_displace_run :
  Example.displace 5 1 1 1 Example.s0
  = Some (Example.sampled 3 1 1 1 Example.s0, 3%Z).
Proof. vm_compute. reflexivity. Qed.

Lemma displace_stops_at_first_bailout_witness :
  exists n : nat,
    (n < 5)%nat /\
    3%Z = (1 + Z.of_nat n * 1)%Z /\
    Example.sampled 3 1 1 1 Example.s0 = Example.sampled (S n) 1 1 1 Example.s0 /\
    Example.threshold < Qabs (Example.total_energy 1 3) /\
    (forall j, (j < n)%nat ->
       Qabs (Example.total_energy 1 (1 + Z.of_nat j * 1)) <= Example.threshold).
Proof.
  apply (displace_stops_at_first_bailout
           Example.pots Example.forces Example.sqrt Example.imm Example.self 0
           5 1 1 1 Example.s0).
  vm_compute. reflexivity.
Defined.

(** The claim as the specification words it asks every sample before the
    last one to lie strictly below the threshold.  On the test system the
    sample at [counter = 2] has energy exactly [nevib * nmevib]: the loop
    keeps it and goes on to [counter = 3]. *)
Lemma displace_keeps_sample_on_threshold :
  Example.displace 5 1 1 1 Example.s0
  = Some (Example.sampled 3 1 1 1 Example.s0, 3%Z) /\
  ~ Qabs (Example.total_energy 1 2) < Example.threshold.
Proof.
  split; [exact example_displace_run|].
  vm_compute. intros H. discriminate H.
Qed.

Lemma example_step_run :
  Example.step 5 5 = Some (Treated (fst Example.treated) (snd Example.treated)).
Proof. vm_compute. reflexivity. Qed.

Lemma IMF_step_halves_until_converged_witness :
  IMF.follows Example.pots Example.forces Example.interp1d
    Example.solve_schroedingers_equation Example.sqrt Example.imm Example.self 0
    0 (IMF.s0_here Example.imm Example.self 0) 1e-20 Example.plan = true /\
  exists (c : converged) (self' : calculator),
    Example.step 5 5 = Some (Treated c self') /\
    length Example.plan = S (sampling_density_iter c) /\
    final_samples c
    = IMF.resampled Example.pots Example.forces Example.sqrt Example.imm
        Example.self 0 0 (map fst Example.plan)
        (IMF.s0_here Example.imm Example.self 0).
Proof.
  split; [vm_compute; reflexivity|].
  refine (proj1 (proj2 (proj2 (IMF_step_halves_until_converged
            Example.pots Example.forces Example.interp1d
            Example.solve_schroedingers_equation
            Example.logsumexp Example.exp Example.sqrt
            Example.imm Example.self 0))) Example.plan 5%nat 5%nat _ _ _ _ _).
  - reflexivity.
  - reflexivity.
  - vm_compute. reflexivity.
  - repeat constructor.
  - simpl. lia.
Defined.

(** The specification puts the first pass at [fnmrms * nmrms[step]].  On
    the test system [fnmrms * nmrms[0] = 1], and the first displaced sample
    of the run (entry 1 of [qlist], after the undisplaced point) sits at
    2. *)
Lemma IMF_first_pass_step_is_doubled :
  Example.step 5 5 = Some (Treated (fst Example.treated) (snd Example.treated)) /\
  at_index (qlist (final_samples (fst Example.treated))) 1 == 2 /\
  ~ Example.nmd_of 0
    == fnmrms Example.self * at_index (nmrms Example.imm) 0.
Proof.
  split; [exact example_step_run|].
  split; [vm_compute; reflexivity|].
  vm_compute. intros H. discriminate H.
Qed.

(** *** The samples of a treated mode: facts *)

Lemma counters_cons (incr counter : Z) (n : nat) :
  counters incr counter (S n) = counter :: counters incr (counter + incr) n.
Proof.
  unfold counters. rewrite <- cons_seq. rewrite <- seq_shift, map_cons, map_map.
  f_equal; [lia|]. apply map_ext. intros j. lia.
Qed.

Lemma counters_first (incr counter : Z) : counters incr counter 0 = [counter].
Proof. unfold counters. simpl. f_equal. lia. Qed.

Lemma counters_elem (incr counter : Z) (n : nat) (k : Z) :
  k ∈ counters incr counter n ->
  exists j : nat, k = (counter + Z.of_nat j * incr)%Z.
Proof.
  unfold counters. intros H. apply list_elem_of_fmap in H as (j & -> & _).
  by exists j.
Qed.

Lemma counters_NoDup (incr counter : Z) (n : nat) :
  incr <> 0%Z -> NoDup (counters incr counter n).
Proof.
  intros Hincr. unfold counters. apply NoDup_fmap_2.
  - intros j j' H. nia.
  - apply NoDup_seq.
Qed.

Section sampling_facts.

Variable pots : list Q -> Q.
Variable forces : list Q -> list Q.
Variable interp1d : list Q -> list Q -> Q -> Q.
Variable solve_schroedingers_equation : Q -> nat -> list Q -> (Q -> Q) -> Q * Q.
Variable logsumexp : list Q -> Q.
Variable exp : Q -> Q.
Variable sqrt : Q -> Q.
Variable imm : mover.
Variable self : calculator.
Variable step : nat.

Local Abbreviation displace := (displace pots forces sqrt imm self step).
Local Abbreviation nmd_of := (nmd_of imm self step).
Local Abbreviation sampled_on_grid := (sampled_on_grid imm self step).
Local Abbreviation density_loop :=
  (density_loop pots forces interp1d solve_schroedingers_equation sqrt imm self step).
Local Abbreviation IMF_step :=
  (IMF_step pots forces interp1d solve_schroedingers_equation logsumexp exp sqrt
     imm self step).

(** One run of a displacement loop appends, to each of the three lists,
    one entry per counter it visits. *)
Lemma displace_appends (fuel : nat) (nmd : Q) (incr : Z) :
  forall (counter : Z) (s s' : samples) (cN : Z),
    displace fuel nmd incr counter s = Some (s', cN) ->
    exists n : nat,
      qlist s' = qlist s ++ map (fun k => nmd * inject_Z k) (counters incr counter n) /\
      length (vlist s') = (length (vlist s) + S n)%nat /\
      length (flist s') = (length (flist s) + S n)%nat.
Proof.
  induction fuel as [|fuel IH]; intros counter s s' cN H; [discriminate|].
  simpl in H. destruct (bailout _ _ _ _ _ _ _).
  - injection H as <- <-. exists 0%nat. rewrite counters_first. simpl.
    rewrite !length_app. simpl. done.
  - apply IH in H as (n & Hq & Hv & Hf). exists (S n).
    rewrite counters_cons. simpl in *.
    rewrite Hq, Hv, Hf, <- app_assoc, !length_app. simpl.
    split; [done|]. lia.
Qed.

Lemma displace_aligned (fuel : nat) (nmd : Q) (incr counter : Z)
    (s s' : samples) (cN : Z) :
  displace fuel nmd incr counter s = Some (s', cN) -> aligned s -> aligned s'.
Proof.
  intros H [Hqv Hvf]. apply displace_appends in H as (n & Hq & Hv & Hf).
  unfold aligned. rewrite Hq, Hv, Hf, length_app, length_map.
  unfold counters. rewrite length_map, length_seq. lia.
Qed.

Lemma density_loop_aligned (inner fuel : nat) :
  forall (iter : nat) (s : samples) (A E : list Q) (c : converged),
    density_loop inner fuel iter s A E = Some c ->
    aligned s ->
    aligned (final_samples c) /\
    (length (qlist s) + 2 <= length (qlist (final_samples c)))%nat.
Proof.
  induction fuel as [|fuel IH]; intros iter s A E c H Hal; [discriminate|].
  simpl in H.
  destruct (IMF.displace _ _ _ _ _ _ inner _ _ 1 s) as [[s1 c1]|] eqn:H1;
    [|discriminate].
  simpl in H.
  destruct (IMF.displace _ _ _ _ _ _ inner _ _ (-1) s1) as [[s2 c2]|] eqn:H2;
    [|discriminate].
  simpl in H.
  destruct (basis_loop _ _ _ _ _ _) as [[bsA bsE]|]; [|discriminate].
  simpl in H.
  pose proof (displace_aligned _ _ _ _ _ _ _ H1 Hal) as Hal1.
  pose proof (displace_aligned _ _ _ _ _ _ _ H2 Hal1) as Hal2.
  apply displace_appends in H1 as (n1 & Hq1 & _).
  apply displace_appends in H2 as (n2 & Hq2 & _).
  assert (Hlen : (length (qlist s) + 2 <= length (qlist s2))%nat).
  { rewrite Hq2, Hq1, !length_app, !length_map. unfold counters.
    rewrite !length_map, !length_seq. lia. }
  destruct (rel_change_below _ _ _).
  - injection H as <-. simpl. done.
  - apply IH in H as [Hc Hl]; [|exact Hal2]. split; [exact Hc|]. lia.
Qed.

(** X14.  The three lists [qlist], [vlist] and [flist] that [IMF.step]
    hands to [interp1d] and to [np.savetxt] have the same length at the end
    of a treated mode, and hold at least three samples: the undisplaced
    point and at least one displacement on each side. *)
Theorem IMF_step_keeps_samples_aligned
    (inner fuel : nat) (c : converged) (self' : calculator) :
  IMF_step inner fuel = Some (Treated c self') ->
  aligned (final_samples c) /\ (3 <= length (qlist (final_samples c)))%nat.
Proof.
  unfold IMF.IMF_step.
  destruct (step <? nz imm)%nat; [discriminate|].
  destruct (Qltb _ _); [discriminate|].
  destruct (IMF.density_loop _ _ _ _ _ _ _ _ _ _ _ _ _ _) as [c'|] eqn:Hloop;
    [|discriminate].
  simpl. intros [= -> _].
  apply density_loop_aligned in Hloop as [Hal Hlen]; [|done].
  split; [exact Hal|]. simpl in Hlen. lia.
Qed.

(** **** No displacement is sampled twice *)

Lemma nmd_of_nonzero (p : nat) :
  ~ fnmrms self * at_index (nmrms imm) step == 0 -> ~ nmd_of p == 0.
Proof.
  intros Hne. induction p as [|p IH].
  - rewrite (nmd_of_first imm self step). intros H. apply Hne.
    apply (Qmult_integral_l 2); [intros E; vm_compute in E; discriminate E|].
    exact H.
  - rewrite (nmd_of_halves imm self step). intros H. apply IH.
    assert (Hp : nmd_of p == nmd_of p / 2 * 2) by field.
    rewrite Hp, H. ring.
Qed.

Lemma multiples_app (nmd : Q) (ks ks' : list Z) (qs : list Q) :
  multiples nmd ks qs ->
  multiples nmd (ks ++ ks') (qs ++ map (fun k => nmd * inject_Z k) ks').
Proof.
  intros H. apply Forall2_app; [exact H|].
  apply Forall2_fmap_l. apply Forall_Forall2_diag. by apply Forall_forall.
Qed.

Lemma multiples_halved (nmd nmd' : Q) (ks : list Z) (qs : list Q) :
  nmd' == nmd / 2 -> multiples nmd ks qs ->
  multiples nmd' (map (Z.mul 2) ks) qs.
Proof.
  intros Hn H. apply Forall2_fmap_r. eapply Forall2_impl; [exact H|].
  intros q k Hq. simpl. rewrite Hq, Hn, inject_Z_mult. field.
Qed.

Lemma pass_counters_fresh (iter : nat) (ks : list Z) (n1 n2 : nat) :
  NoDup ks ->
  Forall (fun k => if (iter =? 0)%nat then k = 0%Z else Z.even k = true) ks ->
  let delta := if (iter =? 0)%nat then 1%Z else 2%Z in
  NoDup (ks ++ counters delta 1 n1 ++ counters (- delta) (-1) n2).
Proof.
  intros Hnd Hall delta.
  assert (Hdelta : delta = 1%Z \/ delta = 2%Z)
    by (unfold delta; destruct (iter =? 0)%nat; auto).
  rewrite Forall_forall in Hall.
  apply NoDup_app. split; [exact Hnd|]. split.
  - intros k Hk Hin. specialize (Hall k Hk).
    apply elem_of_app in Hin as [Hin|Hin];
      apply counters_elem in Hin as (j & ->); unfold delta in *;
      destruct (iter =? 0)%nat; try lia;
      rewrite Z.even_add, Z.even_mul in Hall; simpl in Hall;
      rewrite ?orb_true_r in Hall; discriminate.
  - apply NoDup_app. split; [apply counters_NoDup; lia|].
    split; [|apply counters_NoDup; lia].
    intros k Hk Hin.
    apply counters_elem in Hk as (j & ->). apply counters_elem in Hin as (j' & H).
    lia.
Qed.

Lemma density_loop_grid (inner fuel : nat) :
  forall (iter : nat) (s : samples) (A E : list Q) (c : converged) (ks : list Z),
    density_loop inner fuel iter s A E = Some c ->
    sampled_on_grid iter s ks ->
    exists ks' : list Z,
      multiples (final_nmd c) ks' (qlist (final_samples c)) /\ NoDup ks' /\
      exists p : nat, final_nmd c = nmd_of p.
Proof.
  induction fuel as [|fuel IH]; intros iter s A E c ks H (Hmul & Hnd & Hall);
    [discriminate|].
  simpl in H.
  destruct (IMF.displace _ _ _ _ _ _ inner _ _ 1 s) as [[s1 c1]|] eqn:H1;
    [|discriminate].
  simpl in H.
  destruct (IMF.displace _ _ _ _ _ _ inner _ _ (-1) s1) as [[s2 c2]|] eqn:H2;
    [|discriminate].
  simpl in H.
  destruct (basis_loop _ _ _ _ _ _) as [[bsA bsE]|]; [|discriminate].
  simpl in H.
  apply displace_appends in H1 as (n1 & Hq1 & _).
  apply displace_appends in H2 as (n2 & Hq2 & _).
  set (delta := if (iter =? 0)%nat then 1%Z else 2%Z) in *.
  set (ks2 := ks ++ counters delta 1 n1 ++ counters (- delta) (-1) n2).
  assert (Hmul2 : multiples (nmd_of iter) ks2 (qlist s2)).
  { rewrite Hq2, Hq1. unfold ks2. rewrite app_assoc.
    by do 2 apply multiples_app. }
  assert (Hnd2 : NoDup ks2) by (by apply pass_counters_fresh).
  destruct (rel_change_below _ _ _).
  - injection H as <-. simpl. exists ks2. split; [exact Hmul2|].
    split; [exact Hnd2|]. by exists iter.
  - eapply (IH _ _ _ _ _ (map (Z.mul 2) ks2)) in H; [exact H|].
    split; [|split].
    + eapply multiples_halved; [|exact Hmul2]. apply nmd_of_halves.
    + apply NoDup_fmap_2; [|exact Hnd2]. intros x y Hxy. lia.
    + apply Forall_forall. intros k Hk.
      apply list_elem_of_fmap in Hk as (k' & -> & _). simpl.
      rewrite Z.even_mul. reflexivity.
Qed.

(** X15.  [IMF.step] never samples a displacement twice.  When the step
    [fnmrms * nmrms[step]] is not zero, the entries of [qlist] at the end of
    a treated mode are pairwise different: every pass after the first one
    moves by two steps of its halved spacing from an odd start, which keeps
    it off the points of all the passes before it. *)
Theorem IMF_step_never_resamples
    (inner fuel : nat) (c : converged) (self' : calculator)
    (i j : nat) (qi qj : Q) :
  ~ fnmrms self * at_index (nmrms imm) step == 0 ->
  IMF_step inner fuel = Some (Treated c self') ->
  i <> j ->
  qlist (final_samples c) !! i = Some qi ->
  qlist (final_samples c) !! j = Some qj ->
  ~ qi == qj.
Proof.
  intros Hne. unfold IMF.IMF_step.
  destruct (step <? nz imm)%nat; [discriminate|].
  destruct (Qltb _ _); [discriminate|].
  destruct (IMF.density_loop _ _ _ _ _ _ _ _ _ _ _ _ _ _) as [c'|] eqn:Hloop;
    [|discriminate].
  simpl. intros [= -> _] Hij Hi Hj.
  apply (density_loop_grid _ _ _ _ _ _ _ [0%Z]) in Hloop
    as (ks & Hmul & Hnd & p & Hp).
  2:{ split; [|split].
      - constructor; [|constructor]. simpl. ring.
      - apply NoDup_singleton.
      - by apply Forall_singleton. }
  destruct (Forall2_lookup_l _ _ _ _ _ Hmul Hi) as (ki & Hki & Hqi).
  destruct (Forall2_lookup_l _ _ _ _ _ Hmul Hj) as (kj & Hkj & Hqj).
  rewrite Hqi, Hqj, Hp. intros Heq.
  apply Qmult_inj_l in Heq; [|by apply nmd_of_nonzero].
  apply Hij. eapply NoDup_lookup; [exact Hnd | exact Hki |].
  rewrite Hkj. f_equal. symmetry.
  unfold Qeq in Heq. simpl in Heq. lia.
Qed.

End sampling_facts.

Lemma IMF_step_keeps_samples_aligned_witness :
  aligned (final_samples (fst Example.treated)) /\
  (3 <= length (qlist (final_samples (fst Example.treated))))%nat.
Proof.
  apply (IMF_step_keeps_samples_aligned
           Example.pots Example.forces Example.interp1d
           Example.solve_schroedingers_equation
           Example.logsumexp Example.exp Example.sqrt
           Example.imm Example.self 0 5 5 _ _ example_step_run).
Defined.

Lemma IMF_step_never_resamples_witness :
  ~ at_index (qlist (final_samples (fst Example.treated))) 1
    == at_index (qlist (final_samples (fst Example.treated))) 2.
Proof.
  apply (IMF_step_never_resamples
           Example.pots Example.forces Example.interp1d
           Example.solve_schroedingers_equation
           Example.logsumexp Example.exp Example.sqrt
           Example.imm Example.self 0 5 5 (fst Example.treated)
           (snd Example.treated) 1 2 _ _).
  - vm_compute. discriminate.
  - exact example_step_run.
  - lia.
  - reflexivity.
  - reflexivity.
Defined.

End IMF.

(** ** [PC]: the preconditioner *)

Module PC.

Import IMF.

(** The calculator: what [IMF.bind] set up, and the preconditioned
    position and squared frequencies.  [qpc] is [None] once its entries
    have left the finite numbers: numpy divides by a zero curvature
    without raising, and every entry of [qpc] is then [inf] or [nan] for
    good. *)
Record preconditioner : Type := Preconditioner {
  base : calculator;
  qpc : option (list Q);
  w2pc : list Q
}.

(** [PC.bind], after [IMF.bind] has built [c] from the configuration (so
    [fnmrms c] is the configured fraction): the fraction is overwritten by
    the constant 2.0. *)
Definition PC_bind (c : calculator) (dof : nat) : preconditioner :=
  {| base :=
       {| fnmrms := 2.0; nevib := nevib c; nbasis := nbasis c;
          athresh := athresh c; nprim := nprim c;
          total_anhar_free_energy := total_anhar_free_energy c;
          total_har_free_energy := total_har_free_energy c;
          total_anhar_internal_energy := total_anhar_internal_energy c;
          total_har_internal_energy := total_har_internal_energy c;
          v0 := v0 c |};
     qpc := Some (repeat 0 dof);
     w2pc := repeat 0 dof |}.

(** What a call of [PC.step] did. *)
Inductive outcome : Type :=
  | Ignored
  | Fitted (s : samples) (counter_pos counter_neg : Z) (abc : Q * Q * Q)
           (self' : preconditioner).

Section step.

Variable pots : list Q -> Q.
Variable forces : list Q -> list Q.
Variable sqrt : Q -> Q.
(** [np.polyfit(x, y, deg = 2)], highest power first. *)
Variable polyfit2 : list Q -> list Q -> Q * Q * Q.

Variable imm : mover.
Variable self : preconditioner.
Variable step : nat.

Definition ffnmrms : Q := fnmrms (base self).
Definition nmd : Q := ffnmrms * at_index (nmrms imm) step.
Definition v0_here : Q := forces_pots imm / nprim (base self).

(** [dv = dforces.pots[0] / nprim - v0]: here the whole energy difference,
    the harmonic part is not taken out. *)
Definition dv_at (counter : Z) : Q :=
  pots (displaced sqrt imm (base self) step nmd counter) / nprim (base self)
  - v0_here.
Definition df_at (counter : Z) : Q :=
  dot (forces (displaced sqrt imm (base self) step nmd counter)) (Vstep imm step)
  / nprim (base self).

(** The two sides of the test that ends a pass. *)
Definition tested_energy (counter : Z) : Q :=
  dv_at counter + 0.50 * w2s imm step * Qsquare (nmd * inject_Z counter).
Definition threshold : Q := at_index (nmevib imm) step * ffnmrms * 0.75.

(** One pass: only the sample that passes the test is stored. *)
Fixpoint displace (fuel : nat) (incr counter : Z) (s : samples)
  : option (samples * Z) :=
  match fuel with
  | O => None
  | S fuel' =>
      if Qltb threshold (tested_energy counter)
      then Some (append_sample s (nmd * inject_Z counter)
                   (dv_at counter) (df_at counter), counter)
      else displace fuel' incr (counter + incr)%Z s
  end.

(** [np.real(V.T[step]) * (-b / a / 2.0) * np.sqrt(nprim)].  For [a = 0]
    the quotient is [inf] or [nan], and so is every entry of the product. *)
Definition shift (a b : Q) : option (list Q) :=
  if Qeq_bool a 0 then None
  else Some (map (fun v => v * (- b / a / 2.0) * sqrt (nprim (base self)))
               (Vstep imm step)).

(** [self.qpc += ...]. *)
Definition moved (a b : Q) : option (list Q) :=
  q ← qpc self; d ← shift a b; Some (zip_with Qplus q d).

(** [PC.step]. *)
Definition PC_step (fuel : nat) : option outcome :=
  if Qltb (Qabs (w2s imm step)) 1e-10 then Some Ignored
  else
    let s0 := {| qlist := [0.0]; vlist := [0.0];
                 flist := [dot (forces_f imm) (Vstep imm step) / nprim (base self)] |} in
    '(s1, cpos) ← displace fuel 1 1 s0;
    '(s2, cneg) ← displace fuel (-1) (-1) s1;
    let '(a, b, c) := polyfit2 (qlist s2) (vlist s2) in
    Some (Fitted s2 cpos cneg (a, b, c)
            {| base :=
                 {| fnmrms := fnmrms (base self); nevib := nevib (base self);
                    nbasis := nbasis (base self); athresh := athresh (base self);
                    nprim := nprim (base self);
                    total_anhar_free_energy := total_anhar_free_energy (base self);
                    total_har_free_energy := total_har_free_energy (base self);
                    total_anhar_internal_energy :=
                      total_anhar_internal_energy (base self);
                    total_har_internal_energy :=
                      total_har_internal_energy (base self);
                    v0 := v0_here |};
               qpc := moved a b;
               w2pc := <[step := 2 * a]> (w2pc self) |}).

End step.

(** *** A test system: potential [x^2 / 4], unit frequency, [nmevib = 2],
    configured [fnmrms = 1]. *)

Module Example.

Definition pots (x : list Q) : Q := Qsquare (nth 0 x 0) / 4.
Definition forces (x : list Q) : list Q := [0].
Definition sqrt (x : Q) : Q := x.
(** A parabola through three points [(0, 0)], [(x1, y1)], [(x2, y2)]. *)
Definition polyfit2 (xs ys : list Q) : Q * Q * Q :=
  match xs, ys with
  | [_; x1; x2], [_; y1; y2] =>
      let a := (y1 / x1 - y2 / x2) / (x1 - x2) in
      (Qred a, Qred (y1 / x1 - a * x1), 0)
  | _, _ => (0, 0, 0)
  end.

Definition imm : mover :=
  {| beads_q := [0]; V_T := [[1]]; w := [1]; w2 := [1]; nmrms := [1];
     nmevib := [2]; nz := 0; temp := 1; forces_pots := 0; forces_f := [0] |}.

(** The calculator as configured: [fnmrms = 1]. *)
Definition configured : calculator :=
  {| fnmrms := 1; nevib := 25; nbasis := 10; athresh := 1e-2; nprim := 1;
     total_anhar_free_energy := 0; total_har_free_energy := 0;
     total_anhar_internal_energy := 0; total_har_internal_energy := 0;
     v0 := 0 |}.

Definition self : preconditioner := PC_bind configured 1.

Definition step := PC_step pots forces sqrt polyfit2 imm self 0.

Definition fitted : samples * Z * Z * (Q * Q * Q) * preconditioner :=
  Eval vm_compute in
    match step 5 with
    | Some (Fitted s cp cn abc self') => (s, cp, cn, abc, self')
    | _ => ({| qlist := []; vlist := []; flist := [] |}, 0%Z, 0%Z, (0, 0, 0), self)
    end.

End Example.

(** *** Properties *)

Section step_facts.

Variable pots : list Q -> Q.
Variable forces : list Q -> list Q.
Variable sqrt : Q -> Q.
Variable polyfit2 : list Q -> list Q -> Q * Q * Q.
Variable imm : mover.
Variable self : preconditioner.
Variable step : nat.

Local Abbreviation displace := (displace pots forces sqrt imm self step).
Local Abbreviation tested_energy := (tested_energy pots sqrt imm self step).
Local Abbreviation threshold := (threshold imm self step).
Local Abbreviation dv_at := (dv_at pots sqrt imm self step).
Local Abbreviation df_at := (df_at forces sqrt imm self step).
Local Abbreviation nmd := (nmd imm self step).
Local Abbreviation moved := (moved sqrt imm self step).
Local Abbreviation PC_step := (PC_step pots forces sqrt polyfit2 imm self step).

(** A pass returns at the first counter that passes the test, and stores
    that one sample. *)
Lemma displace_first_passing (fuel : nat) (incr : Z) :
  forall (counter : Z) (s s' : samples) (cN : Z),
    displace fuel incr counter s = Some (s', cN) ->
    exists n : nat,
      cN = (counter + Z.of_nat n * incr)%Z /\
      s' = append_sample s (nmd * inject_Z cN) (dv_at cN) (df_at cN) /\
      threshold < tested_energy cN /\
      (forall j, (j < n)%nat ->
         tested_energy (counter + Z.of_nat j * incr) <= threshold).
Proof.
  induction fuel as [|fuel IH]; intros counter s s' cN H; [discriminate|].
  simpl in H.
  destruct (Qltb threshold (tested_energy counter)) eqn:Hb.
  - injection H as <- <-. exists 0%nat.
    repeat split; [lia | | intros j Hj; lia].
    apply Qltb_lt. exact Hb.
  - apply IH in H as (n & HcN & Hs & Hlast & Hbefore).
    exists (S n). repeat split; [lia | exact Hs | exact Hlast | ].
    intros [|j] Hj.
    + replace (counter + Z.of_nat 0 * incr)%Z with counter by lia.
      apply Qltb_ge. exact Hb.
    + replace (counter + Z.of_nat (S j) * incr)%Z
        with (counter + incr + Z.of_nat j * incr)%Z by lia.
      apply Hbefore. lia.
Qed.

(** Given fuel for it, a pass reaches the first counter that passes the
    test. *)
Lemma PC_displace_reaches (n : nat) (incr : Z) :
  forall (fuel : nat) (counter : Z) (s : samples),
    (n < fuel)%nat ->
    threshold < tested_energy (counter + Z.of_nat n * incr) ->
    (forall j, (j < n)%nat ->
       tested_energy (counter + Z.of_nat j * incr) <= threshold) ->
    displace fuel incr counter s
    = Some (append_sample s (nmd * inject_Z (counter + Z.of_nat n * incr))
              (dv_at (counter + Z.of_nat n * incr))
              (df_at (counter + Z.of_nat n * incr)),
            (counter + Z.of_nat n * incr)%Z).
Proof.
  induction n as [|n IH]; intros fuel counter s Hfuel Hlast Hbefore;
    (destruct fuel as [|fuel]; [lia|]).
  - replace (counter + Z.of_nat 0 * incr)%Z with counter in * by lia.
    cbn [PC.displace]. apply Qltb_lt in Hlast. rewrite Hlast. reflexivity.
  - pose proof (Hbefore 0%nat ltac:(lia)) as H0.
    replace (counter + Z.of_nat 0 * incr)%Z with counter in H0 by lia.
    apply Qltb_ge in H0. cbn [PC.displace]. rewrite H0.
    replace (counter + Z.of_nat (S n) * incr)%Z
      with (counter + incr + Z.of_nat n * incr)%Z in * by lia.
    apply IH; [lia | exact Hlast |].
    intros j Hj. specialize (Hbefore (S j) ltac:(lia)).
    replace (counter + Z.of_nat (S j) * incr)%Z
      with (counter + incr + Z.of_nat j * incr)%Z in Hbefore by lia.
    exact Hbefore.
Qed.

(** C7 (as the code has it).  With the fraction 2.0 that [PC.bind] stores
    over the configured one, [PC.step] on a mode it does not skip makes one
    pass per sign and no convergence loop.  Each pass walks [counter] away
    from zero and stops at the first displacement whose
    [dv + 0.5 * w2 * q^2] is strictly above [nmevib * 2.0 * 0.75]: where
    such a displacement exists on either side, the step returns with these
    two counters, given fuel for them; and whatever the step returns has
    stopped at such counters.  Only the two stopping samples join the
    undisplaced point, a quadratic [a q^2 + b q + c] is fitted to these
    three, [w2pc[step]] becomes [2 * a], and [qpc] moves by [- b / a / 2]
    along the mode vector (times [sqrt(nprim)]), which for [a = 0] leaves
    the finite numbers. *)
Theorem PC_step_one_pass_per_sign :
  fnmrms (base self) = 2.0 ->
  (forall fuel np nn : nat,
     Qltb (Qabs (w2s imm step)) 1e-10 = false ->
     (np < fuel)%nat -> (nn < fuel)%nat ->
     at_index (nmevib imm) step * 2.0 * 0.75 < tested_energy (1 + Z.of_nat np) ->
     (forall j, (j < np)%nat ->
        tested_energy (1 + Z.of_nat j)
        <= at_index (nmevib imm) step * 2.0 * 0.75) ->
     at_index (nmevib imm) step * 2.0 * 0.75 < tested_energy (-1 - Z.of_nat nn) ->
     (forall j, (j < nn)%nat ->
        tested_energy (-1 - Z.of_nat j)
        <= at_index (nmevib imm) step * 2.0 * 0.75) ->
     exists (s : samples) (abc : Q * Q * Q) (self' : preconditioner),
       PC_step fuel
       = Some (Fitted s (1 + Z.of_nat np) (-1 - Z.of_nat nn) abc self')) /\
  (forall (fuel : nat) (s : samples) (cpos cneg : Z) (a b c : Q)
          (self' : preconditioner),
     PC_step fuel = Some (Fitted s cpos cneg (a, b, c) self') ->
     exists np nn : nat,
       cpos = (1 + Z.of_nat np)%Z /\ cneg = (-1 - Z.of_nat nn)%Z /\
       at_index (nmevib imm) step * 2.0 * 0.75 < tested_energy cpos /\
       (forall j, (j < np)%nat ->
          tested_energy (1 + Z.of_nat j)
          <= at_index (nmevib imm) step * 2.0 * 0.75) /\
       at_index (nmevib imm) step * 2.0 * 0.75 < tested_energy cneg /\
       (forall j, (j < nn)%nat ->
          tested_energy (-1 - Z.of_nat j)
          <= at_index (nmevib imm) step * 2.0 * 0.75) /\
       qlist s = [0.0; nmd * inject_Z cpos; nmd * inject_Z cneg] /\
       vlist s = [0.0; dv_at cpos; dv_at cneg] /\
       polyfit2 (qlist s) (vlist s) = (a, b, c) /\
       w2pc self' = <[step := 2 * a]> (w2pc self) /\
       (a == 0 -> qpc self' = None) /\
       (~ a == 0 ->
        qpc self'
        = option_map
            (fun q =>
               zip_with Qplus q
                 (map (fun v => v * (- b / a / 2.0) * sqrt (nprim (base self)))
                    (Vstep imm step)))
            (qpc self)) /\
       fnmrms (base self') = 2.0).
Proof.
  intros Hbound.
  assert (Hthr : threshold = at_index (nmevib imm) step * 2.0 * 0.75).
  { unfold PC.threshold, ffnmrms. rewrite Hbound. reflexivity. }
  split.
  - intros fuel np nn Hw Hnp Hnn Hlastp Hbeforep Hlastn Hbeforen.
    unfold PC.PC_step. rewrite Hw.
    rewrite <- Hthr in Hlastp, Hbeforep, Hlastn, Hbeforen.
    rewrite (PC_displace_reaches np 1 fuel 1 _ Hnp).
    2: { by replace (1 + Z.of_nat np * 1)%Z with (1 + Z.of_nat np)%Z by lia. }
    2: { intros j Hj.
         replace (1 + Z.of_nat j * 1)%Z with (1 + Z.of_nat j)%Z by lia.
         by apply Hbeforep. }
    cbn [mbind option_bind].
    rewrite (PC_displace_reaches nn (-1) fuel (-1) _ Hnn).
    2: { by replace (-1 + Z.of_nat nn * -1)%Z with (-1 - Z.of_nat nn)%Z by lia. }
    2: { intros j Hj.
         replace (-1 + Z.of_nat j * -1)%Z with (-1 - Z.of_nat j)%Z by lia.
         by apply Hbeforen. }
    cbn [mbind option_bind].
    destruct (polyfit2 _ _) as [[a b] c].
    replace (1 + Z.of_nat np * 1)%Z with (1 + Z.of_nat np)%Z by lia.
    replace (-1 + Z.of_nat nn * -1)%Z with (-1 - Z.of_nat nn)%Z by lia.
    eexists _, _, _. reflexivity.
  - intros fuel s cpos cneg a b c self'. unfold PC.PC_step.
    destruct (Qltb _ _); [discriminate|].
    destruct (PC.displace _ _ _ _ _ _ fuel 1 1 _) as [[s1 c1]|] eqn:Hpos;
      [|discriminate].
    simpl.
    destruct (PC.displace _ _ _ _ _ _ fuel (-1) (-1) s1) as [[s2 c2]|] eqn:Hneg;
      [|discriminate].
    simpl.
    destruct (polyfit2 (qlist s2) (vlist s2)) as [[a' b'] c'] eqn:Hfit.
    intros H. injection H as <- <- <- <- <- <- <-.
    apply displace_first_passing in Hpos as (np & Hcp & Hs1 & Hlastp & Hbeforep).
    apply displace_first_passing in Hneg as (nn & Hcn & Hs2 & Hlastn & Hbeforen).
    rewrite Hthr in *.
    exists np, nn.
    split; [lia|]. split; [lia|].
    split; [exact Hlastp|].
    split.
    { intros j Hj. specialize (Hbeforep j Hj).
      replace (1 + Z.of_nat j * 1)%Z with (1 + Z.of_nat j)%Z in Hbeforep by lia.
      exact Hbeforep. }
    split; [exact Hlastn|].
    split.
    { intros j Hj. specialize (Hbeforen j Hj).
      replace (-1 + Z.of_nat j * -1)%Z with (-1 - Z.of_nat j)%Z in Hbeforen by lia.
      exact Hbeforen. }
    subst s2 s1. cbn [qlist vlist append_sample qpc w2pc base fnmrms].
    split; [reflexivity|]. split; [reflexivity|]. split; [exact Hfit|].
    split; [reflexivity|].
    unfold moved, PC.shift.
    split; [|split; [|exact Hbound]].
    + intros Ha. apply Qeq_bool_iff in Ha. rewrite Ha.
      by destruct (qpc self).
    + intros Ha. destruct (Qeq_bool a' 0) eqn:E.
      * apply Qeq_bool_iff in E. contradiction.
      * by destruct (qpc self).
Qed.

End step_facts.

Lemma PC_bind_fnmrms (c : calculator) (dof : nat) :
  fnmrms (base (PC_bind c dof)) = 2.0.
Proof. reflexivity. Qed.

Lemma example_fit_run :
  Example.step 5
  = Some (Fitted (Example.fitted.1.1.1.1) (Example.fitted.1.1.1.2)
            (Example.fitted.1.1.2) (1 # 4, 0, 0) (Example.fitted.2)).
Proof. vm_compute. reflexivity. Qed.

Lemma PC_step_one_pass_per_sign_witness :
  fnmrms (base Example.self) = 2.0 /\
  exists (s : samples) (abc : Q * Q * Q) (self' : preconditioner),
    Example.step 5 = Some (Fitted s 2 (-2) abc self').
Proof.
  split; [reflexivity|].
  refine (proj1 (PC_step_one_pass_per_sign
            Example.pots Example.forces Example.sqrt Example.polyfit2
            Example.imm Example.self 0 eq_refl) 5%nat 1%nat 1%nat _ _ _ _ _ _ _).
  - reflexivity.
  - lia.
  - lia.
  - apply Qltb_lt. vm_compute. reflexivity.
  - intros [|j] Hj; [|lia]. apply Qltb_ge. vm_compute. reflexivity.
  - apply Qltb_lt. vm_compute. reflexivity.
  - intros [|j] Hj; [|lia]. apply Qltb_ge. vm_compute. reflexivity.
Defined.

(** The specification takes [nmevib * fnmrms * 0.75] with the configured
    fraction.  The test system is configured with [fnmrms = 1]: at
    [counter = 1] the tested energy is 3, above [2 * 1 * 0.75], and yet the
    pass goes on to [counter = 2], since the threshold in force is
    [2 * 2.0 * 0.75 = 3]. *)
Lemma PC_threshold_ignores_configured_fnmrms :
  fnmrms Example.configured == 1 /\
  at_index (nmevib Example.imm) 0 * fnmrms Example.configured * 0.75
  < tested_energy Example.pots Example.sqrt Example.imm Example.self 0 1 /\
  Example.fitted.1.1.1.2 = 2%Z /\
  Example.step 5
  = Some (Fitted (Example.fitted.1.1.1.1) (Example.fitted.1.1.1.2)
            (Example.fitted.1.1.2) (1 # 4, 0, 0) (Example.fitted.2)).
Proof.
  split; [reflexivity|].
  split; [vm_compute; reflexivity|].
  split; [reflexivity|].
  exact example_fit_run.
Qed.

End PC.

(** ** The files the Mapper and the Solver share *)

(** A text table as [np.savetxt] writes it and [np.loadtxt] reads it: rows
    of numbers.  Tables are taken to have the shape their writer gave them. *)
Abbreviation table := (list (list Q)).
Abbreviation disk := (gmap string table).

(** The error monad of a calculator call. *)
#[export] Instance failure_bind : MBind (sum failure) :=
  fun A B f m => match m with inl e => inl e | inr a => f a end.
#[export] Instance failure_ret : MRet (sum failure) := fun A a => inr a.

(** Modelled from the spec: [softexit.trigger] of [ipi.utils.softexit], which
    is not among the sources.  The specification calls it the termination
    signal, a stop-the-run notification that is raised: the call does not
    return to the calculator. *)
Definition softexit_trigger {A : Type} (msg : string) : failure + A :=
  inl (SoftExit msg).

(** [os.path.exists] *)
Definition exists_file (d : disk) (f : string) : bool := bool_decide (is_Some (d !! f)).

(** [np.loadtxt(f)]; a missing file raises [IOError]. *)
Definition loadtxt (d : disk) (f : string) : failure + table :=
  match d !! f with
  | Some t => inr t
  | None => inl (IOError f)
  end.

(** A one-column table as a vector and as integers. *)
Definition column (k : nat) (t : table) : list Q := map (fun row => nth k row 0) t.
Definition as_ints (t : table) : list nat :=
  map (fun x => Z.to_nat (Qfloor x)) (column 0 t).

(** The tables that [np.savetxt] writes for a list of integers and for a
    list of numbers: one entry per line. *)
Definition ints_table (l : list nat) : table :=
  map (fun n => [inject_Z (Z.of_nat n)]) l.
Definition column_table (l : list Q) : table := map (fun x => [x]) l.

(** A table of [r] lines of [c] numbers each. *)
Definition rect (r c : nat) (t : table) : Prop :=
  length t = r /\ Forall (fun row => length row = c) t.

(** *** Arrays as [np.loadtxt] returns them

    [np.loadtxt] skips blank lines, raises [ValueError] when the lines do
    not hold the same number of entries, and removes from the result every
    axis of length one: a file of a single number is read as an array
    without axes, a single line or a single column as a vector. *)
Inductive ndarray : Type :=
  | Scalar (x : Q)
  | Vector (v : list Q)
  | Matrix (m : list (list Q)).

Definition nonblank (t : table) : table :=
  List.filter (fun row => negb (length row =? 0)%nat) t.

Definition squeeze (t : table) : failure + ndarray :=
  match nonblank t with
  | [] => inr (Vector [])
  | r0 :: rest =>
      if forallb (fun row => (length row =? length r0)%nat) rest then
        match r0, rest with
        | [x], [] => inr (Scalar x)
        | _, [] => inr (Vector r0)
        | [_], _ => inr (Vector (column 0 (r0 :: rest)))
        | _, _ => inr (Matrix (r0 :: rest))
        end
      else inl (ValueError "Wrong number of columns")
  end.

(** [np.loadtxt(f)] as an array. *)
Definition load_array (d : disk) (f : string) : failure + ndarray :=
  t ← loadtxt d f; squeeze t.

(** [a.shape], and whether two shapes can be broadcast together: aligned
    at their last axes, the lengths are equal or one of them is 1. *)
Definition shape (a : ndarray) : list nat :=
  match a with
  | Scalar _ => []
  | Vector v => [length v]
  | Matrix m => [length m; length (hd [] m)]
  end.
Fixpoint compatible (s1 s2 : list nat) : bool :=
  match s1, s2 with
  | a :: s1', b :: s2' =>
      ((a =? b)%nat || (a =? 1)%nat || (b =? 1)%nat) && compatible s1' s2'
  | _, _ => true
  end.
Definition broadcastable (a b : ndarray) : bool :=
  compatible (rev (shape a)) (rev (shape b)).

(** [a.T[k]]: an array without axes cannot be indexed; for a vector [a.T]
    is [a]; for a matrix it is column [k]. *)
Definition transposed_row (k : nat) (a : ndarray) : failure + ndarray :=
  match a with
  | Scalar _ => inl (IndexError "too many indices for array")
  | Vector v =>
      match v !! k with
      | Some x => inr (Scalar x)
      | None => inl (IndexError "index out of bounds")
      end
  | Matrix m =>
      if (k <? length (hd [] m))%nat then inr (Vector (column k m))
      else inl (IndexError "index out of bounds")
  end.

(** An index into an axis of length [n]. *)
Definition check_index (n i : nat) : failure + unit :=
  if (i <? n)%nat then inr tt else inl (IndexError "index out of bounds").

(** Assignment of a value to a row of [n] entries and to a block of [n]
    rows of [n] entries: the value is broadcast, and [ValueError] is raised
    when its shape does not allow it. *)
Definition broadcast_row (n : nat) (v : list Q) : failure + list Q :=
  if (length v =? n)%nat then inr v
  else match v with
       | [x] => inr (repeat x n)
       | _ => inl (ValueError "could not broadcast input array")
       end.
Fixpoint broadcast_rows (n : nat) (m : list (list Q)) : failure + list (list Q) :=
  match m with
  | [] => inr []
  | row :: rest =>
      row' ← broadcast_row n row;
      rest' ← broadcast_rows n rest;
      inr (row' :: rest')
  end.
Definition to_row (n : nat) (a : ndarray) : failure + list Q :=
  match a with
  | Scalar x => inr (repeat x n)
  | Vector v => broadcast_row n v
  | Matrix [row] => broadcast_row n row
  | Matrix _ => inl (ValueError "could not broadcast input array")
  end.
Definition to_block (n : nat) (a : ndarray) : failure + list (list Q) :=
  match a with
  | Scalar x => inr (repeat (repeat x n) n)
  | Vector v => row ← broadcast_row n v; inr (repeat row n)
  | Matrix m =>
      rows ← broadcast_rows n m;
      if (length rows =? n)%nat then inr rows
      else match rows with
           | [row] => inr (repeat row n)
           | _ => inl (ValueError "could not broadcast input array")
           end
  end.

(** [a.reshape(-1)], row after row. *)
Definition flat (a : ndarray) : list Q :=
  match a with
  | Scalar x => [x]
  | Vector v => v
  | Matrix m => concat m
  end.

(** An entry read with [dtype=int] as a mode index.  [None]: the entry is
    negative or not an integer, which the model does not follow. *)
Definition to_index (x : Q) : option nat :=
  if Qle_bool 0 x && Qeq_bool (inject_Z (Qfloor x)) x
  then Some (Z.to_nat (Qfloor x)) else None.

(** An array of mode indices: one index without axes, or a vector. *)
Inductive index_array : Type :=
  | IScalar (i : nat)
  | IVector (l : list nat).
Definition as_indices (a : ndarray) : option index_array :=
  match a with
  | Scalar x => IScalar <$> to_index x
  | Vector v => IVector <$> mapM to_index v
  | Matrix _ => None
  end.

(** File names. *)
Definition vindep_file (inm : nat) : string :=
  "vindep." +:+ pretty inm +:+ ".dat".
Definition vindeps_file (inm : nat) : string :=
  "vindeps." +:+ pretty inm +:+ ".dat".
Definition vcoupled_file (inm jnm : nat) : string :=
  "vcoupled." +:+ pretty inm +:+ "." +:+ pretty jnm +:+ ".dat".
Definition vtriplet_file (inm jnm knm : nat) : string :=
  "vtriplet." +:+ pretty inm +:+ "." +:+ pretty jnm +:+ "." +:+ pretty knm +:+ ".dat".

(** The decimal form of an index holds no dot: this is what makes a file
    name determine its indices. *)
Fixpoint dot_free (s : string) : bool :=
  match s with
  | EmptyString => true
  | String c s' => negb (Ascii.eqb c ".") && dot_free s'
  end.

(** [np.zeros] in one, two and three dimensions, and [m.T]. *)
Definition zeros1 (n : nat) : list Q := repeat 0 n.
Definition zeros2 (n m : nat) : list (list Q) := repeat (zeros1 m) n.
Definition zeros3 (n m k : nat) : list (list (list Q)) := repeat (zeros2 m k) n.
Definition transpose (ncols : nat) (m : list (list Q)) : list (list Q) :=
  map (fun c => map (fun row => nth c row 0) m) (seq 0 ncols).

(** Array arithmetic of numpy on vectors and matrices. *)
Definition Qsum (l : list Q) : Q := fold_left Qplus l 0.
Definition Qprod (l : list Q) : Q := fold_left Qmult l 1.
Definition vadd (u v : list Q) : list Q := zip_with Qplus u v.
Definition vsub (u v : list Q) : list Q := zip_with Qminus u v.
Definition vmul (u v : list Q) : list Q := zip_with Qmult u v.
Definition vscale (a : Q) (v : list Q) : list Q := map (Qmult a) v.
(** [np.dot(m, v)] for a matrix and a vector, and [np.outer]. *)
Definition matvec (m : list (list Q)) (v : list Q) : list Q :=
  map (fun row => dot row v) m.
Definition outer (u v : list Q) : list (list Q) :=
  map (fun x => map (fun y => x * y) v) u.
(** [np.sum] of a matrix, and the entrywise product of two matrices. *)
Definition Qsum2 (m : list (list Q)) : Q := Qsum (concat m).
Definition mmul (a b : list (list Q)) : list (list Q) := zip_with vmul a b.

(** A list of mode indices in strictly ascending order, as [VSCFMapper]
    writes them to [modes.dat]. *)
Fixpoint ascending (l : list nat) : bool :=
  match l with
  | [] => true
  | x :: l' => forallb (fun y => (x <? y)%nat) l' && ascending l'
  end.

(** *** File names determine their indices *)

Lemma pretty_N_go_dot_free (x : N) :
  forall s, dot_free s = true -> dot_free (pretty_N_go x s) = true.
Proof.
  induction (N.lt_wf_0 x) as [x _ IH]; intros s Hs.
  destruct (decide (x = 0%N)) as [->|Hx].
  - by rewrite pretty_N_go_0.
  - rewrite pretty_N_go_step by lia. apply IH.
    + apply N.div_lt; lia.
    + simpl. rewrite Hs, andb_true_r.
      unfold pretty_N_char. by repeat case_match.
Qed.

Lemma pretty_nat_dot_free (n : nat) : dot_free (pretty n) = true.
Proof.
  unfold pretty, pretty_nat, pretty, pretty_N.
  case_decide; [reflexivity|]. by apply pretty_N_go_dot_free.
Qed.

Lemma dot_split (s1 : string) :
  forall s2 t1 t2,
    dot_free s1 = true -> dot_free s2 = true ->
    s1 +:+ String "." t1 = s2 +:+ String "." t2 -> s1 = s2 /\ t1 = t2.
Proof.
  induction s1 as [|c s1 IH]; intros [|c2 s2] t1 t2 H1 H2 H; simpl in *.
  - by injection H as ->.
  - injection H as <- _. discriminate.
  - injection H as -> _. discriminate.
  - injection H as -> H.
    apply andb_prop in H1 as [_ H1]. apply andb_prop in H2 as [_ H2].
    by destruct (IH _ _ _ H1 H2 H) as [-> ->].
Qed.

Lemma vcoupled_file_inj (i j i' j' : nat) :
  vcoupled_file i j = vcoupled_file i' j' -> i = i' /\ j = j'.
Proof.
  unfold vcoupled_file. intros H.
  apply (inj (String.append "vcoupled.")) in H.
  apply dot_split in H as [Hi H]; try apply pretty_nat_dot_free.
  apply (dot_split _ _ "dat" "dat") in H as [Hj _]; try apply pretty_nat_dot_free.
  split; by apply (inj pretty).
Qed.

Lemma vcoupled_not_vindep (i j k : nat) : vcoupled_file i j <> vindep_file k.
Proof. unfold vcoupled_file, vindep_file. simpl. discriminate. Qed.

Lemma vcoupled_not_vindeps (i j k : nat) : vcoupled_file i j <> vindeps_file k.
Proof. unfold vcoupled_file, vindeps_file. simpl. discriminate. Qed.

Lemma vcoupled_not_map (i j i' j' : nat) :
  vcoupled_file i j
  <> "vcoupledmap." +:+ pretty i' +:+ "." +:+ pretty j' +:+ ".dat".
Proof. unfold vcoupled_file. simpl. discriminate. Qed.

(** ** [VSCFSolver.step] *)

(** *** Tables of a given shape as arrays *)

Lemma nonblank_rect (r c : nat) (t : table) :
  rect r c t -> (1 <= c)%nat -> nonblank t = t.
Proof.
  intros [_ Hrows] Hc. unfold nonblank.
  induction Hrows as [|row t Hrow Hrows IH]; [reflexivity|].
  simpl. destruct (Nat.eqb_spec (length row) 0) as [E|_]; [lia|].
  simpl. by rewrite IH.
Qed.

Lemma rect_same_length (c : nat) (t : table) :
  Forall (fun row => length row = c) t ->
  forallb (fun row => (length row =? c)%nat) t = true.
Proof.
  intros H. apply forallb_forall. intros row Hin.
  rewrite Forall_forall in H. apply Nat.eqb_eq. apply H. by apply list_elem_of_In.
Qed.

(** A table of one column is read as an array whose shape depends on the
    number of its lines only. *)
Lemma squeeze_column (r : nat) (t : table) :
  rect r 1 t ->
  exists a : ndarray,
    squeeze t = inr a /\
    shape a = (if (r =? 1)%nat then [] else [r]) /\
    flat a = column 0 t.
Proof.
  intros Hrect. unfold squeeze. rewrite (nonblank_rect r 1 t Hrect) by lia.
  destruct Hrect as [Hlen Hrows].
  destruct t as [|r0 rest]; [subst r; by eexists|].
  apply Forall_cons in Hrows as [H0 Hrows].
  rewrite H0, (rect_same_length 1 rest Hrows).
  destruct r0 as [|x [|y r0]]; try discriminate.
  destruct rest as [|r1 rest].
  - subst r. by eexists.
  - eexists. split; [reflexivity|]. simpl in Hlen. subst r.
    split; [|reflexivity]. cbn [shape]. unfold column. rewrite length_map.
    reflexivity.
Qed.

Lemma squeeze_ints_table (l : list nat) :
  length l <> 1%nat ->
  squeeze (ints_table l) = inr (Vector (map (fun n => inject_Z (Z.of_nat n)) l)).
Proof.
  intros Hlen. unfold squeeze.
  rewrite (nonblank_rect (length l) 1).
  2: { split; [unfold ints_table; by rewrite length_map|]. apply Forall_forall.
       intros row Hin. apply list_elem_of_fmap in Hin as (n & -> & _). reflexivity. }
  2: lia.
  destruct l as [|n0 [|n1 l]]; [reflexivity | simpl in Hlen; lia |].
  change (ints_table (n0 :: n1 :: l))
    with ([inject_Z (Z.of_nat n0)] :: ints_table (n1 :: l)).
  cbv beta iota. change (length [inject_Z (Z.of_nat n0)]) with 1%nat.
  rewrite (rect_same_length 1).
  2: { apply Forall_forall. intros row Hin.
       apply list_elem_of_fmap in Hin as (n & -> & _). reflexivity. }
  simpl. do 4 f_equal. unfold column, ints_table. rewrite map_map. reflexivity.
Qed.

Lemma to_index_nat (n : nat) : to_index (inject_Z (Z.of_nat n)) = Some n.
Proof.
  unfold to_index. rewrite Qfloor_Z.
  assert (H1 : Qle_bool 0 (inject_Z (Z.of_nat n)) = true).
  { apply Qle_bool_iff. change 0 with (inject_Z 0). rewrite <- Zle_Qle. lia. }
  assert (H2 : Qeq_bool (inject_Z (Z.of_nat n)) (inject_Z (Z.of_nat n)) = true)
    by (apply Qeq_bool_iff; reflexivity).
  rewrite H1, H2. simpl. by rewrite Nat2Z.id.
Qed.

Lemma as_indices_ints (l : list nat) :
  as_indices (Vector (map (fun n => inject_Z (Z.of_nat n)) l)) = Some (IVector l).
Proof.
  simpl. replace (mapM to_index (map (fun n => inject_Z (Z.of_nat n)) l))
    with (Some l); [reflexivity|].
  symmetry. apply mapM_Some. induction l as [|n l IH]; constructor.
  - apply to_index_nat.
  - exact IH.
Qed.

Lemma matrix_two_columns (n : nat) (m : list (list Q)) :
  length m = n -> length (hd [] m) = 2%nat ->
  (transposed_row 0 (Matrix m) ≫= to_row n) = inr (column 0 m) /\
  (transposed_row 1 (Matrix m) ≫= to_row n) = inr (column 1 m).
Proof.
  intros Hlen Hhd. unfold transposed_row. rewrite Hhd.
  change (0 <? 2)%nat with true. change (1 <? 2)%nat with true.
  cbn [mbind failure_bind to_row]. unfold broadcast_row, column.
  rewrite !length_map, Hlen, Nat.eqb_refl. by split.
Qed.

(** A table of [n] lines of two numbers, as the two rows that line
    1085-1086 store. *)
Lemma squeeze_two_columns (n : nat) (t : table) :
  rect n 2 t -> (1 <= n)%nat ->
  exists a : ndarray,
    squeeze t = inr a /\
    (transposed_row 0 a ≫= to_row n) = inr (column 0 t) /\
    (transposed_row 1 a ≫= to_row n) = inr (column 1 t).
Proof.
  intros Hrect Hn. unfold squeeze. rewrite (nonblank_rect n 2 t Hrect) by lia.
  destruct Hrect as [Hlen Hrows].
  destruct t as [|r0 rest]; [simpl in Hlen; lia|].
  apply Forall_cons in Hrows as [H0 Hrows].
  rewrite H0, (rect_same_length 2 rest Hrows).
  destruct r0 as [|x [|y [|z r0]]]; try discriminate.
  destruct rest as [|r1 rest].
  - simpl in Hlen. subst n. eexists. split; [reflexivity|]. by split.
  - eexists. split; [reflexivity|]. by apply matrix_two_columns.
Qed.

Lemma broadcast_rows_id (n : nat) (m : list (list Q)) :
  Forall (fun row => length row = n) m -> broadcast_rows n m = inr m.
Proof.
  induction 1 as [|row m Hrow Hm IH]; [reflexivity|].
  simpl. unfold broadcast_row at 1. rewrite Hrow, Nat.eqb_refl. simpl.
  by rewrite IH.
Qed.

Lemma to_block_matrix (n : nat) (m : list (list Q)) :
  length m = n -> Forall (fun row => length row = n) m ->
  to_block n (Matrix m) = inr m.
Proof.
  intros Hlen Hrows. unfold to_block. rewrite (broadcast_rows_id n m Hrows).
  cbn [mbind failure_bind]. by rewrite Hlen, Nat.eqb_refl.
Qed.

(** A table of [n] lines of [n] numbers is stored as it is. *)
Lemma squeeze_square (n : nat) (t : table) :
  rect n n t ->
  exists a : ndarray, squeeze t = inr a /\ to_block n a = inr t.
Proof.
  intros Hrect. destruct (decide (n = 0%nat)) as [->|Hn].
  - destruct Hrect as [Hlen _]. destruct t; [|discriminate]. by eexists.
  - unfold squeeze. rewrite (nonblank_rect n n t Hrect) by lia.
    destruct Hrect as [Hlen Hrows].
    destruct t as [|r0 rest]; [simpl in Hlen; lia|].
    pose proof Hrows as Hall.
    apply Forall_cons in Hrows as [H0 Hrows].
    rewrite H0, (rect_same_length n rest Hrows).
    destruct rest as [|r1 rest].
    + simpl in Hlen. subst n. destruct r0 as [|x [|y r0]]; try discriminate.
      by eexists.
    + destruct r0 as [|x [|y r0]]; [simpl in H0; lia | simpl in *; lia |].
      eexists. split; [reflexivity|]. by apply to_block_matrix.
Qed.

Lemma concat_rect_length (r c : nat) (t : table) :
  rect r c t -> length (concat t) = (r * c)%nat.
Proof.
  intros [<- Hrows]. induction Hrows as [|row t Hrow Hrows IH]; [reflexivity|].
  simpl. rewrite length_app, IH, Hrow. reflexivity.
Qed.

(** A table of [c >= 1] columns is read without error, entry after
    entry. *)
Lemma squeeze_rect (r c : nat) (t : table) :
  rect r c t -> (1 <= c)%nat ->
  exists a : ndarray, squeeze t = inr a /\ flat a = concat t.
Proof.
  intros Hrect Hc. unfold squeeze. rewrite (nonblank_rect r c t Hrect) by lia.
  destruct Hrect as [Hlen Hrows].
  destruct t as [|r0 rest]; [by eexists|].
  apply Forall_cons in Hrows as [H0 Hrows].
  rewrite H0, (rect_same_length c rest Hrows).
  destruct r0 as [|x [|y r0]]; [simpl in H0; lia | |].
  - destruct rest as [|r1 rest]; [by eexists|].
    eexists. split; [reflexivity|]. simpl. f_equal.
    simpl in H0. subst c. clear Hlen.
    change (column 0 (r1 :: rest) = concat (r1 :: rest)).
    induction Hrows as [|row t Hrow Hrows IH]; [reflexivity|].
    destruct row as [|z [|z' row]]; try discriminate. simpl. f_equal. exact IH.
  - destruct rest as [|r1 rest]; eexists; (split; [reflexivity|]); simpl;
      by rewrite ?app_nil_r.
Qed.

Module VSCFSolver.

(** What the first part of [step] reads from the disk.  The arrays indexed
    by mode start as zeros; a mode that was never assigned reads as the
    zero block.  The sampling bounds and the potential offset are kept as
    read: the solver prints the offset and makes no other use of them. *)
Record artifacts : Type := Artifacts {
  inms : list nat;
  nptsmin : ndarray;
  nptsmax : ndarray;
  v0 : ndarray;
  igrid : gmap nat (list Q);
  vigrid : gmap nat (list Q);
  vijgrid : gmap (nat * nat) (list (list Q));
  vijkgrid : gmap (nat * nat * nat) (list (list (list Q)))
}.

Section load.

Variable nint dof : nat.
Variable threebody : bool.
Variable d : disk.

Definition vij (g : gmap (nat * nat) (list (list Q))) (inm jnm : nat)
  : list (list Q) := default (zeros2 nint nint) (g !! (inm, jnm)).

(** Lines 1085-1086: [igrid[inm] = vidata.T[0]] and
    [vigrid[inm] = vidata.T[1]], where [igrid] and [vigrid] have [dof] rows
    of [nint] entries. *)
Definition read_vindep (inm : nat) (vidata : ndarray) : failure + list Q * list Q :=
  qs ← transposed_row 0 vidata;
  _ ← check_index dof inm;
  qrow ← to_row nint qs;
  vs ← transposed_row 1 vidata;
  vrow ← to_row nint vs;
  inr (qrow, vrow).

(** Lines 1081-1088: the independent mode potentials. *)
Fixpoint load_vindep (modes : list nat) (ig vg : gmap nat (list Q))
  : failure + (gmap nat (list Q) * gmap nat (list Q)) :=
  match modes with
  | [] => inr (ig, vg)
  | inm :: rest =>
      if exists_file d (vindep_file inm) then
        vidata ← load_array d (vindep_file inm);
        '(qrow, vrow) ← read_vindep inm vidata;
        load_vindep rest (<[inm := qrow]> ig) (<[inm := vrow]> vg)
      else softexit_trigger
             ("ERROR : Indep mode potential for mode " +:+ pretty inm
              +:+ " not available: vindep." +:+ pretty inm +:+ ".dat. Exiting.")
  end.

(** Line 1097: [vijgrid[inm][jnm] = np.loadtxt(vijfile)], where
    [vijgrid[inm][jnm]] is a block of [nint] rows of [nint] entries. *)
Definition read_vcoupled (inm jnm : nat) (a : ndarray) : failure + list (list Q) :=
  _ ← check_index dof inm;
  _ ← check_index dof jnm;
  to_block nint a.

(** Lines 1092-1101: the pair couplings, one row of the double loop. *)
Fixpoint load_vcoupled_row (inm : nat) (modes : list nat)
    (g : gmap (nat * nat) (list (list Q)))
  : failure + gmap (nat * nat) (list (list Q)) :=
  match modes with
  | [] => inr g
  | jnm :: rest =>
      if (inm <? jnm)%nat then
        if exists_file d (vcoupled_file inm jnm) then
          a ← load_array d (vcoupled_file inm jnm);
          block ← read_vcoupled inm jnm a;
          load_vcoupled_row inm rest (<[(inm, jnm) := block]> g)
        else softexit_trigger
               ("ERROR : Coupling potential for modes " +:+ pretty inm +:+ " , "
                +:+ pretty jnm +:+ " not available. Exiting.")
      else
        _ ← check_index dof jnm;
        _ ← check_index dof inm;
        load_vcoupled_row inm rest
          (<[(inm, jnm) := transpose nint (vij g jnm inm)]> g)
  end.

Fixpoint load_vcoupled (outer modes : list nat)
    (g : gmap (nat * nat) (list (list Q)))
  : failure + gmap (nat * nat) (list (list Q)) :=
  match outer with
  | [] => inr g
  | inm :: rest =>
      g' ← load_vcoupled_row inm modes g;
      load_vcoupled rest modes g'
  end.

(** Line 1113: [np.loadtxt(f).reshape((nint, nint, nint, 4)).T[3].T], the
    last of the four numbers of every grid point as an [nint^3] block. *)
Definition triplet_block (a : ndarray) : failure + list (list (list Q)) :=
  if (length (flat a) =? nint * nint * nint * 4)%nat then
    inr (map (fun i => map (fun j => map (fun k =>
           nth (((i * nint + j) * nint + k) * 4 + 3) (flat a) 0) (seq 0 nint))
         (seq 0 nint)) (seq 0 nint))
  else inl (ValueError "cannot reshape array").

(** Lines 1107-1117: the triple couplings, for [inm < jnm < knm].  (The
    loop that follows in the source transposes in place blocks that were
    never loaded, which are all zero.) *)
Fixpoint load_vtriplet_list (triples : list (nat * nat * nat))
    (g : gmap (nat * nat * nat) (list (list (list Q))))
  : failure + gmap (nat * nat * nat) (list (list (list Q))) :=
  match triples with
  | [] => inr g
  | (inm, jnm, knm) :: rest =>
      if exists_file d (vtriplet_file inm jnm knm) then
        a ← load_array d (vtriplet_file inm jnm knm);
        block ← triplet_block a;
        _ ← check_index dof inm;
        _ ← check_index dof jnm;
        _ ← check_index dof knm;
        load_vtriplet_list rest (<[(inm, jnm, knm) := block]> g)
      else softexit_trigger
             ("ERROR : Coupling potential for modes " +:+ pretty inm +:+ " , "
              +:+ pretty jnm +:+ " , " +:+ pretty knm +:+ " not available. Exiting.")
  end.

(** The triples [inm < jnm < knm] in the order the three loops meet them. *)
Definition ordered_triples (modes : list nat) : list (nat * nat * nat) :=
  inm ← modes; jnm ← modes;
  if (inm <? jnm)%nat
  then knm ← modes; if (jnm <? knm)%nat then [(inm, jnm, knm)] else []
  else [].

(** Lines 1061-1117, once [modes.dat] has been read as [im]. *)
Definition load_grids (im : index_array) : failure + artifacts :=
  '(nmin, nmax) ← (if exists_file d "nptsmin.dat"
                   then nmin ← load_array d "nptsmin.dat";
                        nmax ← load_array d "nptsmax.dat";
                        inr (nmin, nmax)
                   else softexit_trigger
                          "ERROR : Indices for for vibr modes not available. Exiting.");
  _ ← (if broadcastable nmin nmax then inr tt
       else inl (ValueError "operands could not be broadcast together"));
  offset ← (if exists_file d "potoffset.dat"
            then load_array d "potoffset.dat"
            else softexit_trigger
                   "ERROR : Potential offset v0 not available. Exiting.");
  modes ← (match im with
           | IVector l => inr l
           | IScalar _ => inl (TypeError "iteration over a 0-d array")
           end);
  '(ig, vg) ← load_vindep modes ∅ ∅;
  vijg ← load_vcoupled modes modes ∅;
  vijkg ← (if threebody then load_vtriplet_list (ordered_triples modes) ∅
           else inr (∅ : gmap (nat * nat * nat) (list (list (list Q)))));
  inr {| inms := modes; nptsmin := nmin; nptsmax := nmax; v0 := offset;
         igrid := ig; vigrid := vg; vijgrid := vijg; vijkgrid := vijkg |}.

(** Lines 1052-1117.  [None]: [modes.dat] holds a table of several lines
    and columns, or an entry that is not a mode index; the model does not
    follow the run on such a file. *)
Definition load_artifacts (step : nat) : option (failure + artifacts) :=
  if (0 <? step)%nat
  then Some (softexit_trigger "VSCF has finished in first (previous) step. Exiting.")
  else if exists_file d "modes.dat" then
    match load_array d "modes.dat" with
    | inl e => Some (inl e)
    | inr a => load_grids <$> as_indices a
    end
  else Some (softexit_trigger
               "ERROR : Indices for for vibr modes not available. Exiting.").

End load.

(** *** Basis, independent modes, reduced manifold, mean-field loop *)

(** What the solver prints that the properties below are about. *)
Inductive message : Type :=
  | TooManyStates                          (* TOO MANY (>1e3) POSSIBLE GLOBAL ... *)
  | ConsideredStates (modes states : nat)  (* AMONG THE FIRST .. MODES WE CONSIDER .. *)
  | DidNotConverge.                        (* WARNING ... VSCF DID NOT CONVERGE *)

(** The state that the mean-field loop carries from one pass to the next. *)
Record vscf_state : Type := VscfState {
  vmft : gmap nat (list Q);
  evalsvscf : gmap nat (list Q);
  evecsvscf : gmap nat (list (list Q));
  aold : Q
}.

(** What the loop leaves when it ends. *)
Record vscf_result : Type := VscfResult {
  iiter : nat;
  final : vscf_state;
  acoupled : Q;
  evaltotcoupled : list Q;
  output : list message
}.

Section solve.

Variable nint nbasis dof : nat.
Variable temp nprim nkbt athresh : Q.
Variable mptwo threebody : bool.
Variable w2 : list Q.

(** Numerical routines: [scipy.special.hermite], [np.exp], [np.sqrt],
    [x ** 0.25], [np.pi], [np.linalg.eigh] (eigenvalues and the matrix [U]),
    [logsumexp]. *)
Variable hermite : nat -> Q -> Q.
Variable exp sqrt root4 : Q -> Q.
Variable pi : Q.
Variable eigh : list (list Q) -> list Q * list (list Q).
Variable logsumexp : list Q -> Q.

Variable a : artifacts.

Definition row (g : gmap nat (list Q)) (inm : nat) : list Q :=
  default (zeros1 nint) (g !! inm).
Definition levels (g : gmap nat (list Q)) (inm : nat) : list Q :=
  default (zeros1 nbasis) (g !! inm).
Definition vectors (g : gmap nat (list (list Q))) (inm : nat) : list (list Q) :=
  default (zeros2 nbasis nbasis) (g !! inm).
Definition vijk (inm jnm knm : nat) : list (list (list Q)) :=
  default (zeros3 nint nint nint) (vijkgrid a !! (inm, jnm, knm)).

Definition factorial (n : nat) : Q :=
  inject_Z (fold_left Z.mul (map Z.of_nat (seq 1 n)) 1%Z).

(** The local function [psi] of [step]. *)
Definition psi (n : nat) (mass freq x : Q) : Q :=
  let nu := mass * freq in
  let norm := root4 (nu / pi) * sqrt (1.0 / (2.0 ^ Z.of_nat n * factorial n)) in
  norm * exp (- nu * Qsquare x / 2.0) * hermite n (sqrt nu * x).

Definition psi_at (inm ibasis iinm : nat) : Q :=
  psi ibasis 1.0 (sqrt (at_index w2 inm)) (at_index (row (igrid a) inm) iinm).

(** [norm[inm][ibasis]], [psigrid[inm]] ([nint] rows of [nbasis] entries)
    and [psiigrid[inm][ibasis][jbasis]]. *)
Definition norm (inm ibasis : nat) : Q :=
  Qsum (map (fun iinm => Qsquare (psi_at inm ibasis iinm)) (seq 0 nint)).
Definition psigrid (inm : nat) : list (list Q) :=
  map (fun iinm =>
         map (fun ibasis => psi_at inm ibasis iinm / sqrt (norm inm ibasis))
             (seq 0 nbasis))
      (seq 0 nint).
Definition psiigrid (inm ibasis jbasis : nat) : list Q :=
  map (fun iinm =>
         psi_at inm ibasis iinm * psi_at inm jbasis iinm
         / sqrt (norm inm ibasis * norm inm jbasis))
      (seq 0 nint).

(** The Hamiltonian matrix of mode [inm] in the potential [v]: the upper
    triangle is filled, the diagonal halved and given the harmonic level,
    and [h += h.T] completes it. *)
Definition upper (inm : nat) (v : list Q) (ibasis jbasis : nat) : Q :=
  if (ibasis =? jbasis)%nat then
    dot (psiigrid inm ibasis jbasis) v * 0.5
    + 0.5 * (inject_Z (Z.of_nat ibasis) + 0.5) * sqrt (at_index w2 inm)
  else if (ibasis <? jbasis)%nat then dot (psiigrid inm ibasis jbasis) v
  else 0.
Definition hamiltonian (inm : nat) (v : list Q) : list (list Q) :=
  map (fun ibasis =>
         map (fun jbasis => upper inm v ibasis jbasis + upper inm v jbasis ibasis)
             (seq 0 nbasis))
      (seq 0 nbasis).

(** [evals[inm], U = np.linalg.eigh(h); evecs[inm] = U.T] *)
Definition diagonalise (inm : nat) (v : list Q)
    (ev : gmap nat (list Q)) (evec : gmap nat (list (list Q)))
  : gmap nat (list Q) * gmap nat (list (list Q)) :=
  let '(e, U) := eigh (hamiltonian inm v) in
  (<[inm := e]> ev, <[inm := transpose nbasis U]> evec).

(** Lines 1168-1194: the independent mode approximation.  The loop ends
    ([break]) at the first mode of vanishing frequency. *)
Fixpoint independent_modes (modes : list nat)
    (ev : gmap nat (list Q)) (evec : gmap nat (list (list Q)))
  : gmap nat (list Q) * gmap nat (list (list Q)) :=
  match modes with
  | [] => (ev, evec)
  | inm :: rest =>
      if Qltb (Qabs (at_index w2 inm)) 1e-10 then (ev, evec)
      else
        let '(ev', evec') := diagonalise inm (row (vigrid a) inm) ev evec in
        independent_modes rest ev' evec'
  end.

(** [-logsumexp(-1.0 * e / temp)] *)
Definition minus_lse (e : list Q) : Q :=
  - logsumexp (map (fun x => -1.0 * x / temp) e).

(** **** The reduced manifold of global states (lines 1196-1241) *)

(** [nmbasis], by the length of each [range(nbasiscurr)]. *)
Definition nmbasis (ev : gmap nat (list Q)) : list nat :=
  map (fun inm =>
         length (List.filter
                   (fun ibasis =>
                      Qltb (at_index (levels ev inm) ibasis - at_index (levels ev inm) 0)
                           (nkbt * temp))
                   (seq 0 nbasis)))
      (inms a).

(** Energy of a state of the first modes above their ground state. *)
Definition excitation (ev : gmap nat (list Q)) (state : list nat) : Q :=
  Qsum (zip_with (fun inm k => at_index (levels ev inm) k) (inms a) state)
  - Qsum (map (fun inm => at_index (levels ev inm) 0)
              (take (length state) (inms a))).

(** One pass of the loop over the modes after the first: the product of
    the states kept so far with the levels of the next mode, without those
    above [nkbt * temp]. *)
Definition merge_mode (ev : gmap nat (list Q)) (nb : nat) (sred : list (list nat))
  : list (list nat) :=
  List.filter
    (fun state => negb (Qltb (nkbt * temp) (excitation ev state)))
    (state ← sred; b ← seq 0 nb; [state ++ [b]]).

(** [if len(sred) > 1e3: print 'TOO MANY ...' else: print 'AMONG ...'] *)
Definition diagnostic (inm : nat) (sred : list (list nat)) : message :=
  if (1000 <? length sred)%nat then TooManyStates
  else ConsideredStates (inm + 1) (length sred).

Fixpoint merge_modes (ev : gmap nat (list Q)) (inm : nat) (rest : list nat)
    (sred : list (list nat)) (out : list message)
  : list (list nat) * list message :=
  match rest with
  | [] => (sred, out)
  | nb :: rest' =>
      let sred' := merge_mode ev nb sred in
      merge_modes ev (S inm) rest' sred' (out ++ [diagnostic inm sred'])
  end.

(** [sred] after the loop, and what was printed.  With no mode at all
    [nmbasis[0]] raises; that is [None]. *)
Definition reduced_manifold (ev : gmap nat (list Q))
  : option (list (list nat) * list message) :=
  match nmbasis ev with
  | [] => None
  | n0 :: rest => Some (merge_modes ev 1 rest (map (fun k => [k]) (seq 0 n0)) [])
  end.

(** [s[istate][inms] = sred[istate]] on a row of [dof] zeros. *)
Definition occupation (state : list nat) : list nat :=
  fold_left (fun r '(inm, k) => <[inm := k]> r) (zip (inms a) state) (repeat 0%nat dof).

(** [np.sum([ev[inm][s[istate][inm]] for inm in inms])] *)
Definition evaltot (ev : gmap nat (list Q)) (srow : list nat) : Q :=
  Qsum (map (fun inm => at_index (levels ev inm) (nth inm srow 0%nat)) (inms a)).

(** **** One pass of the mean-field loop (lines 1281-1369) *)

Definition alphamix : Q := 0.5.

(** The thermal density of mode [inm] for the eigenpairs of [st]. *)
Definition rhoigrid (st : vscf_state) (inm : nat) : list Q :=
  let e := levels (evalsvscf st) inm in
  let r :=
    fold_left
      (fun r ibasis =>
         vadd r (vscale (exp (-1.0 * (at_index e ibasis - at_index e 0) / temp))
                        (map Qsquare
                             (matvec (psigrid inm)
                                     (nth ibasis (vectors (evecsvscf st) inm) [])))))
      (seq 0 nbasis) (zeros1 nint) in
  map (fun x => x / Qsum r) r.

(** [np.sum(vijkgrid[inm][jnm][knm] * rhoijgrid[jnm,knm])] with
    [rhoijgrid[jnm,knm] = np.outer(rhoigrid[jnm], rhoigrid[knm])]. *)
Definition three_body_term (rho : nat -> list Q) (inm jnm knm : nat) : Q :=
  Qsum (map (fun block => Qsum2 (mmul block (outer (rho jnm) (rho knm))))
            (vijk inm jnm knm)).

(** The mean-field potential of mode [inm] after mixing. *)
Definition mean_field (rho : nat -> list Q) (v : gmap nat (list Q)) (inm : nat)
  : list Q :=
  let start :=
    vadd (row (vigrid a) inm)
         (vscale (1.0 - alphamix) (vsub (row v inm) (row (vigrid a) inm))) in
  fold_left
    (fun acc jnm =>
       if (jnm =? inm)%nat then acc
       else
         let two :=
           vadd acc
                (map (fun x => x / nprim)
                     (vscale alphamix
                             (matvec (transpose nint (vij nint (vijgrid a) inm jnm))
                                     (rho jnm)))) in
         if threebody then
           fold_left
             (fun acc' knm =>
                if ((knm =? inm) || (knm =? jnm))%nat then acc'
                else map (fun x => x + 0.5 * alphamix * three_body_term rho inm jnm knm
                                       / Qsquare nprim) acc')
             (inms a) two
         else two)
    (inms a) start.

(** The loop over the modes inside one pass: each mode in turn gets its
    new potential and is diagonalised; the densities are those computed at
    the top of the pass. *)
Definition update_mode (rho : nat -> list Q) (st : vscf_state) (inm : nat)
  : vscf_state :=
  let v := mean_field rho (vmft st) inm in
  let '(ev, evec) := diagonalise inm v (evalsvscf st) (evecsvscf st) in
  {| vmft := <[inm := v]> (vmft st); evalsvscf := ev; evecsvscf := evec;
     aold := aold st |}.

(** The free energy of the pass, and [evaltotcoupled] (computed only on
    the [mptwo] path). *)
Definition free_energy (s : list (list nat)) (st : vscf_state) : Q * list Q :=
  if mptwo then
    let etot := map (evaltot (evalsvscf st)) s in
    (minus_lse etot * temp, etot)
  else
    (Qsum (map (fun inm => minus_lse (levels (evalsvscf st) inm)) (inms a)) * temp,
     []).

Definition vscf_pass (s : list (list nat)) (st : vscf_state)
  : vscf_state * Q * list Q :=
  let rho := rhoigrid st in
  let st' := fold_left (update_mode rho) (inms a) st in
  let '(A, etot) := free_energy s st' in
  (st', A, etot).

(** **** The mean-field loop (lines 1277-1379) *)

(** [aold = acoupled.copy()] at the end of the body. *)
Definition carry (st' : vscf_state) (A : Q) : vscf_state :=
  {| vmft := vmft st'; evalsvscf := evalsvscf st'; evecsvscf := evecsvscf st';
     aold := A |}.

(** [prev] is [iiter] before its increment at the top of the body. *)
Fixpoint vscf_loop (fuel : nat) (s : list (list nat)) (prev : nat)
    (st : vscf_state) (out : list message) : option vscf_result :=
  match fuel with
  | O => None
  | S fuel' =>
      let iiter := S prev in
      let '(st', A, etot) := vscf_pass s st in
      let stop (o : list message) :=
        Some {| iiter := iiter; final := st'; acoupled := A;
                evaltotcoupled := etot; output := o |} in
      if (5 <? iiter)%nat then
        if rel_change_below A (aold st') athresh then stop out
        else if (200 <? iiter)%nat then stop (out ++ [DidNotConverge])
        else vscf_loop fuel' s iiter (carry st' A) out
      else vscf_loop fuel' s iiter (carry st' A) out
  end.

(** A whole pass that does not end the loop, the state at the top of pass
    [j] (from 1) when no earlier pass ended it, and the outcome of the
    convergence test in the pass that starts from [st]. *)
Definition advance (s : list (list nat)) (st : vscf_state) : vscf_state :=
  let '(st', A, _) := vscf_pass s st in carry st' A.
Definition pass_start (s : list (list nat)) (st : vscf_state) (j : nat)
  : vscf_state := Nat.iter (j - 1) (advance s) st.
Definition converged_at (s : list (list nat)) (st : vscf_state) : bool :=
  let '(st', A, _) := vscf_pass s st in rel_change_below A (aold st') athresh.

(** **** The MP2 correction (lines 1404-1484) *)

(** [psigrid[inm] / np.sqrt(np.sum(psigrid[inm]**2, axis=0))] applied to
    eigenvector [k] of mode [inm]: the wave function of level [k] on the
    grid. *)
Definition column_norm (inm ibasis : nat) : Q :=
  Qsum (map (fun r => Qsquare (nth ibasis r 0)) (psigrid inm)).
Definition wave (evec : gmap nat (list (list Q))) (inm k : nat) : list Q :=
  matvec (map (fun r => map (fun ibasis => nth ibasis r 0 / sqrt (column_norm inm ibasis))
                            (seq 0 nbasis))
              (psigrid inm))
         (nth k (vectors evec inm) []).

(** [dvmfti[inm]] for the global state with occupations [si]. *)
Definition dvmfti (evec : gmap nat (list (list Q))) (si : list nat) (inm : nat)
  : list Q :=
  fold_left
    (fun v jnm =>
       if (jnm =? inm)%nat then v
       else vadd v (matvec (transpose nint (vij nint (vijgrid a) inm jnm))
                           (map Qsquare (wave evec jnm (nth jnm si 0%nat)))))
    (inms a) (zeros1 nint).

(** Overlap of the levels that two global states give to mode [knm]. *)
Definition overlap (evec : gmap nat (list (list Q))) (si sj : list nat) (knm : nat)
  : Q :=
  dot (nth (nth knm sj 0%nat) (vectors evec knm) [])
      (nth (nth knm si 0%nat) (vectors evec knm) []).

(** [matel1], [matel2] and [matel3] of the source. *)
Definition matel1 (evec : gmap nat (list (list Q))) (si sj : list nat)
    (inm jnm : nat) : Q :=
  fold_left
    (fun m knm =>
       if ((knm =? inm) || (knm =? jnm))%nat then m
       else m * overlap evec si sj knm)
    (inms a) 1.0.
Definition matel2 (evec : gmap nat (list (list Q))) (si sj : list nat)
    (inm jnm : nat) : Q :=
  Qsum2 (mmul (mmul (outer (wave evec inm (nth inm sj 0%nat))
                           (wave evec jnm (nth jnm sj 0%nat)))
                    (transpose nint (vij nint (vijgrid a) inm jnm)))
              (outer (wave evec inm (nth inm si 0%nat))
                     (wave evec jnm (nth jnm si 0%nat)))).
Definition matel3 (evec : gmap nat (list (list Q)))
    (dv : nat -> list Q) (si sj : list nat) (inm : nat) : Q :=
  fold_left
    (fun m knm => if (knm =? inm)%nat then m else m * overlap evec si sj knm)
    (inms a) 1.0
  * Qsum (vmul (vmul (wave evec inm (nth inm sj 0%nat)) (dv inm))
               (wave evec inm (nth inm si 0%nat))).

(** The loop over [inm] that builds the matrix element between two global
    states.  The accumulators are [(matelmft, matelcpl)]; [matel3] is
    computed and then the statement [matelmft += matelmft] follows. *)
Definition matel_step (evec : gmap nat (list (list Q)))
    (dv : nat -> list Q) (si sj : list nat) (acc : Q * Q) (inm : nat) : Q * Q :=
  let '(matelmft, matelcpl) := acc in
  let matelcpl' :=
    fold_left
      (fun c jnm =>
         if (jnm =? inm)%nat then c
         else c + 0.5 * matel1 evec si sj inm jnm * matel2 evec si sj inm jnm)
      (inms a) matelcpl in
  let m3 := matel3 evec dv si sj inm in
  (matelmft + matelmft, matelcpl').

Definition matel_parts (evec : gmap nat (list (list Q)))
    (dv : nat -> list Q) (si sj : list nat) : Q * Q :=
  fold_left (matel_step evec dv si sj) (inms a) (0.0, 0.0).

(** [matel = matelcpl - matelmft] *)
Definition matel (evec : gmap nat (list (list Q)))
    (dv : nat -> list Q) (si sj : list nat) : Q :=
  let '(matelmft, matelcpl) := matel_parts evec dv si sj in
  matelcpl - matelmft.

(** [demptwo] of state [istate]: the sum over the other states of
    [matel**2 / (evaltotcoupled[istate] - evaltotcoupled[jstate])].  (A zero
    gap gives a non-finite term in numpy; the rational quotient is 0.) *)
Definition demptwo (evec : gmap nat (list (list Q))) (s : list (list nat))
    (etot : list Q) (istate : nat) : Q :=
  let si := nth istate s [] in
  fold_left
    (fun de jstate =>
       if (jstate =? istate)%nat then de
       else
         de + Qsquare (matel evec (dvmfti evec si) si (nth jstate s []))
              / (at_index etot istate - at_index etot jstate))
    (seq 0 (length s)) 0.0.

(** [devaltotcoupledmp2] and the corrected free energy. *)
Definition devaltotcoupledmp2 (evec : gmap nat (list (list Q)))
    (s : list (list nat)) (etot : list Q) : list Q :=
  map (demptwo evec s etot) (seq 0 (length s)).
Definition acoupledmp2 (evec : gmap nat (list (list Q)))
    (s : list (list nat)) (etot : list Q) : Q :=
  minus_lse (vadd etot (devaltotcoupledmp2 evec s etot)) * temp.

(** **** [step] after the files are read *)

(** What [step] reports at its end. *)
Record report : Type := Report {
  states : list (list nat);             (* sred, empty off the mptwo path *)
  loop : vscf_result;
  mp2_shifts : list Q;                  (* devaltotcoupledmp2 *)
  mp2_correction : option Q;            (* (acoupledmp2 - acoupled) / nprim *)
  printed : list message
}.

Definition solve (fuel : nat) : option report :=
  let '(ev, evec) := independent_modes (inms a) ∅ ∅ in
  '(sred, out) ← (if mptwo then reduced_manifold ev else Some ([], []));
  let s := map occupation sred in
  let aindep :=
    if mptwo then minus_lse (map (evaltot ev) s) * temp
    else Qsum (map (fun inm => minus_lse (levels ev inm)) (inms a)) * temp in
  r ← vscf_loop fuel s 0
        {| vmft := vigrid a; evalsvscf := ev; evecsvscf := evec; aold := aindep |}
        out;
  let shifts :=
    if mptwo
    then devaltotcoupledmp2 (evecsvscf (final r)) s (evaltotcoupled r)
    else [] in
  Some {| states := sred; loop := r; mp2_shifts := shifts;
          mp2_correction :=
            if mptwo
            then Some ((acoupledmp2 (evecsvscf (final r)) s (evaltotcoupled r)
                        - acoupled r) / nprim)
            else None;
          printed := output r |}.

End solve.

(** [VSCFSolver.step]: read the files, then solve.  [None] as in
    [load_artifacts]. *)
Definition VSCFSolver_step
    (nint nbasis dof : nat) (temp nprim nkbt athresh : Q) (mptwo threebody : bool)
    (w2 : list Q) (hermite : nat -> Q -> Q) (exp sqrt root4 : Q -> Q) (pi : Q)
    (eigh : list (list Q) -> list Q * list (list Q)) (logsumexp : list Q -> Q)
    (d : disk) (step fuel : nat) : option (failure + option report) :=
  res ← load_artifacts nint dof threebody d step;
  Some (a ← res;
        inr (solve nint nbasis dof temp nprim nkbt athresh mptwo threebody w2
                   hermite exp sqrt root4 pi eigh logsumexp a fuel)).

(** *** Test systems

    Two modes of frequencies 1 and 2, one grid point, no anharmonicity and
    no coupling, so that every Hamiltonian is diagonal and [eigh] below is
    exact on it.  The other numerical routines are simple stand-ins: the
    properties stated on these systems hold whatever they return. *)

Module Example.

(** Physicists' Hermite polynomials, by their recurrence. *)
Fixpoint hermite_pair (n : nat) (x : Q) : Q * Q :=
  match n with
  | O => (1, 0)
  | S n' =>
      let '(h, hprev) := hermite_pair n' x in
      (Qred (2 * x * h - 2 * inject_Z (Z.of_nat n') * hprev), h)
  end.
Definition hermite (n : nat) (x : Q) : Q := (hermite_pair n x).1.
Definition exp (x : Q) : Q := 1.
(** Exact on 1 and 4. *)
Definition sqrt (x : Q) : Q := if Qeq_bool x 4 then 2 else x.
Definition root4 (x : Q) : Q := 1.
Definition pi : Q := 3.14159.
(** Exact on diagonal matrices. *)
Definition eigh (h : list (list Q)) : list Q * list (list Q) :=
  (imap (fun i r => Qred (nth i r 0)) h,
   imap (fun i r => imap (fun j _ => if (i =? j)%nat then 1 else 0) r) h).
(** The largest term, which a sorted spectrum puts first. *)
Definition logsumexp (l : list Q) : Q := hd 0 l.

Definition w2 : list Q := [1; 4].

(** The disk after a Mapper run on two modes, but for the pair grid. *)
Definition disk_without_pair : disk :=
  list_to_map
    [("modes.dat", [[0]; [1]]); ("nptsmin.dat", [[1]; [1]]);
     ("nptsmax.dat", [[1]; [1]]); ("potoffset.dat", [[0]]);
     (vindep_file 0, [[1; 0]]); (vindep_file 1, [[1; 0]])].
Definition disk_complete : disk :=
  <[vcoupled_file 0 1 := [[0]]]> disk_without_pair.


Definition no_artifacts : artifacts :=
  {| inms := []; nptsmin := Vector []; nptsmax := Vector []; v0 := Scalar 0;
     igrid := ∅; vigrid := ∅; vijgrid := ∅; vijkgrid := ∅ |}.

Definition loaded : artifacts :=
  Eval vm_compute in
    match load_artifacts 1 2 false disk_complete 0 with
    | Some (inr a) => a
    | _ => no_artifacts
    end.

(** Two basis functions per mode, [mptwo] on. *)
Abbreviation small_solve :=
  (solve 1 2 2 1 1 4 1e-2 true false w2 hermite exp sqrt root4 pi eigh logsumexp
         loaded).

Definition small_report : option report := Eval vm_compute in small_solve 201.

(** Thirty-two basis functions per mode, all within [nkbt * temp = 400] of
    the ground state: 1024 global states. *)
Abbreviation large_solve :=
  (solve 1 32 2 100 1 4 1e-2 true false w2 hermite exp sqrt root4 pi eigh
         logsumexp loaded).

(** The size of a manifold whose enumeration printed the one diagnostic
    [TooManyStates]. *)
Definition oversized (m : option (list (list nat) * list message)) : option nat :=
  match m with
  | Some (sred, [TooManyStates]) => Some (length sred)
  | _ => None
  end.

(** A convergence threshold of zero, which no pass can meet. *)
Abbreviation strict_loop :=
  (vscf_loop 1 2 1 1 0 false false w2 hermite exp sqrt root4 pi eigh logsumexp
             loaded).
Definition strict_start : vscf_state :=
  {| vmft := vigrid loaded; evalsvscf := ∅; evecsvscf := ∅; aold := 1 |}.

End Example.

(** The artifacts that the claim on missing files lists, for the modes of
    [modes.dat]. *)
Definition pair_files (modes : list nat) : list string :=
  inm ← modes; jnm ← modes;
  if (inm <? jnm)%nat then [vcoupled_file inm jnm] else [].

Definition required_files (modes : list nat) : list string :=
  ["modes.dat"; "nptsmin.dat"; "nptsmax.dat"; "potoffset.dat"]
  ++ map vindep_file modes ++ pair_files modes.

(** A termination that names a missing artifact: the soft exit of the
    explicit checks, or the [IOError] of [np.loadtxt]. *)
Definition missing_artifact (e : failure) : Prop :=
  match e with
  | SoftExit _ | IOError _ => True
  | ValueError _ | TypeError _ | IndexError _ => False
  end.

(** The modes that [modes.dat] lists (none when the file is absent or does
    not hold mode indices). *)
Definition modes_on_disk (d : disk) : list nat :=
  match load_array d "modes.dat" with
  | inr a =>
      match as_indices a with
      | Some (IVector l) => l
      | Some (IScalar i) => [i]
      | None => []
      end
  | inl _ => []
  end.

(** The sampling bounds and the grids that are on the disk have the shape
    in which [VSCFMapper] writes them for [nint] integration points and
    [dof] degrees of freedom: the bounds one line per degree of freedom,
    the grid of a mode [nint] lines of two numbers, the grid of a pair
    [nint] lines of [nint] numbers, the grid of a triple [nint^3] lines of
    four numbers. *)
Definition grids_shaped (nint dof : nat) (d : disk) : Prop :=
  (forall t, d !! "nptsmin.dat" = Some t -> rect dof 1 t) /\
  (forall t, d !! "nptsmax.dat" = Some t -> rect dof 1 t) /\
  (forall i t, d !! vindep_file i = Some t -> rect nint 2 t) /\
  (forall i j t, d !! vcoupled_file i j = Some t -> rect nint nint t) /\
  (forall i j k t, d !! vtriplet_file i j k = Some t ->
     rect (nint * nint * nint) 4 t).

(** Every file that the solver reads and that is on the disk has the shape
    in which [VSCFMapper] writes it, for [nint >= 1] and a number of kept
    modes other than one: moreover [modes.dat] holds one index below [dof]
    per line, and the offset is a single number. *)
Definition mapper_shaped (nint dof : nat) (d : disk) : Prop :=
  (1 <= nint)%nat /\
  (forall t, d !! "modes.dat" = Some t ->
     exists l : list nat,
       t = ints_table l /\ length l <> 1%nat /\ Forall (fun i => (i < dof)%nat) l) /\
  (forall t, d !! "potoffset.dat" = Some t -> rect 1 1 t) /\
  grids_shaped nint dof d.

(** [h[i][j]] *)
Definition entry (h : list (list Q)) (i j : nat) : Q := at_index (nth i h []) j.

(** A state of the first [k] modes: one level below [nbasis] per mode. *)
Definition state_of (nbasis k : nat) (state : list nat) : Prop :=
  length state = k /\ Forall (fun b => (b < nbasis)%nat) state.

(** *** The loader stops on a missing file *)

Section load_facts.

Variable nint dof : nat.
Variable threebody : bool.
Variable d : disk.

Local Abbreviation load_vindep := (load_vindep nint dof d).
Local Abbreviation load_vcoupled_row := (load_vcoupled_row nint dof d).
Local Abbreviation load_vcoupled := (load_vcoupled nint dof d).
Local Abbreviation load_vtriplet_list := (load_vtriplet_list nint dof d).
Local Abbreviation load_grids := (load_grids nint dof threebody d).
Local Abbreviation load_artifacts := (load_artifacts nint dof threebody d).

Lemma exists_file_true (f : string) : exists_file d f = true <-> is_Some (d !! f).
Proof. unfold exists_file. apply bool_decide_eq_true. Qed.

Lemma exists_file_absent (f : string) : d !! f = None -> exists_file d f = false.
Proof.
  intros H. unfold exists_file. apply bool_decide_eq_false. rewrite H.
  by intros [? ?].
Qed.

Lemma loadtxt_inr (f : string) (t : table) : loadtxt d f = inr t -> d !! f = Some t.
Proof. unfold loadtxt. destruct (d !! f); intros H; congruence. Qed.

Lemma loadtxt_present (f : string) (t : table) :
  d !! f = Some t -> loadtxt d f = inr t.
Proof. unfold loadtxt. by intros ->. Qed.

Lemma load_array_inr (f : string) (a : ndarray) :
  load_array d f = inr a -> is_Some (d !! f).
Proof. unfold load_array, loadtxt. destruct (d !! f); [by eexists | discriminate]. Qed.

Lemma load_array_present (f : string) (t : table) :
  d !! f = Some t -> load_array d f = squeeze t.
Proof. intros H. unfold load_array. by rewrite (loadtxt_present _ _ H). Qed.

Lemma load_array_absent (f : string) :
  d !! f = None -> load_array d f = inl (IOError f).
Proof. intros H. unfold load_array, loadtxt. by rewrite H. Qed.

(** **** The loader goes on only when every required file is there *)

Lemma load_vindep_present (modes : list nat) :
  forall ig vg r, load_vindep modes ig vg = inr r ->
    forall inm, inm ∈ modes -> is_Some (d !! vindep_file inm).
Proof.
  induction modes as [|m rest IH]; intros ig vg r H inm Hin.
  - by apply elem_of_nil in Hin.
  - simpl in H. destruct (exists_file d (vindep_file m)) eqn:Hex; [|discriminate].
    apply elem_of_cons in Hin as [->|Hin].
    + by apply exists_file_true.
    + destruct (load_array d (vindep_file m)) as [e|a]; [discriminate|].
      simpl in H. destruct (read_vindep nint dof m a) as [e|[q v]]; [discriminate|].
      simpl in H. by eapply IH.
Qed.

Lemma load_vcoupled_row_present (inm : nat) (modes : list nat) :
  forall g g', load_vcoupled_row inm modes g = inr g' ->
    forall jnm, jnm ∈ modes -> (inm < jnm)%nat ->
      is_Some (d !! vcoupled_file inm jnm).
Proof.
  induction modes as [|m rest IH]; intros g g' H jnm Hin Hlt.
  - by apply elem_of_nil in Hin.
  - simpl in H. destruct (Nat.ltb_spec inm m) as [Hm|Hm].
    + destruct (exists_file d (vcoupled_file inm m)) eqn:Hex; [|discriminate].
      destruct (load_array d (vcoupled_file inm m)) as [e|a]; [discriminate|].
      simpl in H. destruct (read_vcoupled nint dof inm m a) as [e|b]; [discriminate|].
      simpl in H. apply elem_of_cons in Hin as [->|Hin].
      * by apply exists_file_true.
      * by eapply IH.
    + destruct (check_index dof m) as [e|[]]; [discriminate|]. simpl in H.
      destruct (check_index dof inm) as [e|[]]; [discriminate|]. simpl in H.
      apply elem_of_cons in Hin as [->|Hin]; [lia|]. by eapply IH.
Qed.

Lemma load_vcoupled_present (outer modes : list nat) :
  forall g g', load_vcoupled outer modes g = inr g' ->
    forall inm jnm, inm ∈ outer -> jnm ∈ modes -> (inm < jnm)%nat ->
      is_Some (d !! vcoupled_file inm jnm).
Proof.
  induction outer as [|m rest IH]; intros g g' H inm jnm Hin Hjn Hlt.
  - by apply elem_of_nil in Hin.
  - simpl in H.
    destruct (load_vcoupled_row m modes g) as [e|g1] eqn:Hrow; [discriminate|].
    simpl in H. apply elem_of_cons in Hin as [->|Hin].
    + by eapply load_vcoupled_row_present.
    + by eapply IH.
Qed.

Lemma pair_files_elem (modes : list nat) (f : string) :
  f ∈ pair_files modes ->
  exists inm jnm, inm ∈ modes /\ jnm ∈ modes /\ (inm < jnm)%nat /\
                  f = vcoupled_file inm jnm.
Proof.
  unfold pair_files. intros H.
  apply list_elem_of_bind in H as (inm & H & Hi).
  apply list_elem_of_bind in H as (jnm & H & Hj).
  destruct (Nat.ltb_spec inm jnm) as [Hlt|Hge].
  - apply list_elem_of_singleton in H. by exists inm, jnm.
  - by apply elem_of_nil in H.
Qed.

Lemma pair_files_intro (modes : list nat) (inm jnm : nat) :
  inm ∈ modes -> jnm ∈ modes -> (inm < jnm)%nat ->
  vcoupled_file inm jnm ∈ pair_files modes.
Proof.
  intros Hi Hj Hlt. unfold pair_files.
  apply list_elem_of_bind. exists inm. split; [|exact Hi].
  apply list_elem_of_bind. exists jnm. split; [|exact Hj].
  destruct (Nat.ltb_spec inm jnm); [by apply list_elem_of_singleton | lia].
Qed.

Lemma load_grids_all_present (im : index_array) (a : artifacts) :
  load_grids im = inr a ->
  im = IVector (inms a) /\
  forall f, f ∈ required_files (inms a) -> f <> "modes.dat" -> is_Some (d !! f).
Proof.
  unfold VSCFSolver.load_grids.
  destruct (exists_file d "nptsmin.dat") eqn:Emin; [|discriminate].
  destruct (load_array d "nptsmin.dat") as [e0|amin] eqn:Hmin; [discriminate|].
  cbn [mbind failure_bind].
  destruct (load_array d "nptsmax.dat") as [e0|amax] eqn:Hmax; [discriminate|].
  cbn [mbind failure_bind].
  destruct (broadcastable amin amax); [|discriminate].
  cbn [mbind failure_bind].
  destruct (exists_file d "potoffset.dat") eqn:Eoff; [|discriminate].
  destruct (load_array d "potoffset.dat") as [e0|aoff] eqn:Hoff; [discriminate|].
  cbn [mbind failure_bind].
  destruct im as [i|l]; [discriminate|].
  cbn [mbind failure_bind].
  destruct (load_vindep l ∅ ∅) as [e0|[ig vg]] eqn:Hvi; [discriminate|].
  cbn [mbind failure_bind].
  destruct (load_vcoupled l l ∅) as [e0|g] eqn:Hvc; [discriminate|].
  cbn [mbind failure_bind].
  intros H.
  assert (Hl : inms a = l).
  { destruct threebody.
    - destruct (load_vtriplet_list _ _) as [e0|g3]; [discriminate|].
      by injection H as <-.
    - by injection H as <-. }
  rewrite Hl. split; [reflexivity|].
  intros f Hf Hne. unfold required_files in Hf.
  apply exists_file_true in Emin, Eoff. apply load_array_inr in Hmax.
  rewrite !elem_of_app, !elem_of_cons in Hf.
  destruct Hf as [[->|[->|[->|[->|Hf]]]]|[Hf|Hf]]; try done.
  - by apply elem_of_nil in Hf.
  - apply list_elem_of_fmap in Hf as (inm & -> & Hin).
    by eapply load_vindep_present.
  - apply pair_files_elem in Hf as (inm & jnm & Hi & Hj & Hlt & ->).
    by eapply load_vcoupled_present.
Qed.


(** **** On files of the Mapper's shapes the loader stops for a missing
    file only *)

(** The outcome of a part of the loader: it went on, or it stopped on a
    missing file of the list [fs]. *)
Definition went_on_or_missed {A : Type} (fs : list string) (r : failure + A)
  : Prop :=
  match r with
  | inr _ => True
  | inl e => missing_artifact e /\ exists f, f ∈ fs /\ d !! f = None
  end.

Lemma load_vindep_shaped (modes : list nat) :
  (1 <= nint)%nat ->
  (forall i t, d !! vindep_file i = Some t -> rect nint 2 t) ->
  Forall (fun i => (i < dof)%nat) modes ->
  forall ig vg, went_on_or_missed (map vindep_file modes) (load_vindep modes ig vg).
Proof.
  intros Hn Hshape. induction 1 as [|m rest Hm Hrest IH]; intros ig vg; [done|].
  simpl. destruct (d !! vindep_file m) as [t|] eqn:Hf.
  - rewrite (proj2 (exists_file_true _)) by (by rewrite Hf).
    rewrite (load_array_present _ _ Hf).
    destruct (squeeze_two_columns nint t (Hshape m t Hf) Hn) as (a & -> & H0 & H1).
    cbn [mbind failure_bind]. unfold read_vindep, check_index.
    destruct (transposed_row 0 a) as [e|qs]; [discriminate|].
    cbn [mbind failure_bind] in H0 |- *.
    destruct (Nat.ltb_spec m dof); [|lia]. cbn [mbind failure_bind].
    rewrite H0. cbn [mbind failure_bind].
    destruct (transposed_row 1 a) as [e|vs]; [discriminate|].
    cbn [mbind failure_bind] in H1 |- *. rewrite H1. cbn [mbind failure_bind].
    specialize (IH (<[m := column 0 t]> ig) (<[m := column 1 t]> vg)).
    destruct (load_vindep rest _ _) as [e|r]; [|done].
    destruct IH as (Hmiss & f & Hin & Hnone).
    split; [exact Hmiss|]. exists f. split; [by right | exact Hnone].
  - rewrite (exists_file_absent _ Hf). split; [done|].
    exists (vindep_file m). split; [by left | exact Hf].
Qed.

Lemma load_vcoupled_row_shaped (inm : nat) (modes : list nat) :
  (forall i j t, d !! vcoupled_file i j = Some t -> rect nint nint t) ->
  (inm < dof)%nat ->
  Forall (fun i => (i < dof)%nat) modes ->
  forall g,
    went_on_or_missed
      (jnm ← modes; if (inm <? jnm)%nat then [vcoupled_file inm jnm] else [])
      (load_vcoupled_row inm modes g).
Proof.
  intros Hshape Hinm. induction 1 as [|m rest Hm Hrest IH]; intros g; [done|].
  simpl. unfold read_vcoupled, check_index.
  destruct (Nat.ltb_spec inm dof); [|lia].
  destruct (Nat.ltb_spec m dof); [|lia].
  destruct (Nat.ltb_spec inm m) as [Hlt|Hge]; cbn [mbind failure_bind].
  - destruct (d !! vcoupled_file inm m) as [t|] eqn:Hf.
    + rewrite (proj2 (exists_file_true _)) by (by rewrite Hf).
      rewrite (load_array_present _ _ Hf).
      destruct (squeeze_square nint t (Hshape inm m t Hf)) as (a & -> & Hb).
      cbn [mbind failure_bind]. rewrite Hb. cbn [mbind failure_bind].
      specialize (IH (<[(inm, m) := t]> g)).
      destruct (load_vcoupled_row inm rest _) as [e|r]; [|done].
      destruct IH as (Hmiss & f & Hin & Hnone).
      split; [exact Hmiss|]. exists f. split; [|exact Hnone].
      apply elem_of_app. by right.
    + rewrite (exists_file_absent _ Hf). split; [done|].
      exists (vcoupled_file inm m). split; [|exact Hf].
      apply elem_of_app. left. by apply list_elem_of_singleton.
  - specialize (IH (<[(inm, m) := transpose nint (vij nint g m inm)]> g)).
    destruct (load_vcoupled_row inm rest _) as [e|r]; [|done].
    exact IH.
Qed.

Lemma load_vcoupled_shaped (outer modes : list nat) :
  (forall i j t, d !! vcoupled_file i j = Some t -> rect nint nint t) ->
  Forall (fun i => (i < dof)%nat) outer ->
  Forall (fun i => (i < dof)%nat) modes ->
  forall g,
    went_on_or_missed
      (inm ← outer; jnm ← modes;
       if (inm <? jnm)%nat then [vcoupled_file inm jnm] else [])
      (load_vcoupled outer modes g).
Proof.
  intros Hshape Houter Hmodes.
  induction Houter as [|m rest Hm Hrest IH]; intros g; [done|].
  simpl.
  pose proof (load_vcoupled_row_shaped m modes Hshape Hm Hmodes g) as Hrow.
  destruct (load_vcoupled_row m modes g) as [e|g1]; cbn [mbind failure_bind].
  - destruct Hrow as (Hmiss & f & Hin & Hnone).
    split; [exact Hmiss|]. exists f. split; [|exact Hnone].
    apply elem_of_app. by left.
  - specialize (IH g1). destruct (load_vcoupled rest modes g1) as [e|r]; [|done].
    destruct IH as (Hmiss & f & Hin & Hnone).
    split; [exact Hmiss|]. exists f. split; [|exact Hnone].
    apply elem_of_app. by right.
Qed.

Lemma load_vtriplet_list_shaped (triples : list (nat * nat * nat)) :
  (forall i j k t, d !! vtriplet_file i j k = Some t ->
     rect (nint * nint * nint) 4 t) ->
  Forall (fun '(i, j, k) => (i < dof)%nat /\ (j < dof)%nat /\ (k < dof)%nat)
         triples ->
  forall g,
    went_on_or_missed (map (fun '(i, j, k) => vtriplet_file i j k) triples)
                      (load_vtriplet_list triples g).
Proof.
  intros Hshape. induction 1 as [|[[i j] k] rest (Hi & Hj & Hk) Hrest IH];
    intros g; [done|].
  simpl. destruct (d !! vtriplet_file i j k) as [t|] eqn:Hf.
  - rewrite (proj2 (exists_file_true _)) by (by rewrite Hf).
    rewrite (load_array_present _ _ Hf).
    destruct (squeeze_rect _ 4 t (Hshape i j k t Hf)) as (a & -> & Hflat); [lia|].
    cbn [mbind failure_bind]. unfold triplet_block, check_index.
    rewrite Hflat, (concat_rect_length _ _ _ (Hshape i j k t Hf)), Nat.eqb_refl.
    cbn [mbind failure_bind].
    destruct (Nat.ltb_spec i dof); [|lia].
    destruct (Nat.ltb_spec j dof); [|lia].
    destruct (Nat.ltb_spec k dof); [|lia].
    cbn [mbind failure_bind].
    match goal with
    | |- context [load_vtriplet_list rest ?g1] => specialize (IH g1)
    end.
    destruct (load_vtriplet_list rest _) as [e|r]; [|done].
    destruct IH as (Hmiss & f & Hin & Hnone).
    split; [exact Hmiss|]. exists f. split; [by right | exact Hnone].
  - rewrite (exists_file_absent _ Hf). split; [done|].
    exists (vtriplet_file i j k). split; [by left | exact Hf].
Qed.

Lemma ordered_triples_below (modes : list nat) :
  Forall (fun i => (i < dof)%nat) modes ->
  Forall (fun '(i, j, k) => (i < dof)%nat /\ (j < dof)%nat /\ (k < dof)%nat)
         (ordered_triples modes).
Proof.
  intros H. rewrite Forall_forall in H. apply Forall_forall.
  intros [[i j] k] Hin. unfold ordered_triples in Hin.
  apply list_elem_of_bind in Hin as (i' & Hin & Hi).
  apply list_elem_of_bind in Hin as (j' & Hin & Hj).
  destruct (i' <? j')%nat; [|by apply elem_of_nil in Hin].
  apply list_elem_of_bind in Hin as (k' & Hin & Hk).
  destruct (j' <? k')%nat; [|by apply elem_of_nil in Hin].
  apply list_elem_of_singleton in Hin as [= -> -> ->]. auto.
Qed.

(** The files of the triples, which the solver reads with [threebody]. *)
Definition triplet_files (modes : list nat) : list string :=
  if threebody
  then map (fun '(i, j, k) => vtriplet_file i j k) (ordered_triples modes)
  else [].

Lemma load_grids_shaped (l : list nat) :
  mapper_shaped nint dof d ->
  Forall (fun i => (i < dof)%nat) l ->
  went_on_or_missed (required_files l ++ triplet_files l) (load_grids (IVector l)).
Proof.
  intros (Hn & _ & Hoff & Hmin & Hmax & Hvi & Hvc & Hvt) Hl.
  unfold VSCFSolver.load_grids, required_files.
  destruct (d !! "nptsmin.dat") as [tmin|] eqn:Fmin.
  2: { rewrite (exists_file_absent _ Fmin). split; [done|].
       exists "nptsmin.dat". split; [|exact Fmin]. set_solver. }
  rewrite (proj2 (exists_file_true "nptsmin.dat")) by (by rewrite Fmin).
  rewrite (load_array_present _ _ Fmin).
  destruct (squeeze_column dof tmin (Hmin _ eq_refl)) as (amin & -> & Smin & _).
  cbn [mbind failure_bind].
  destruct (d !! "nptsmax.dat") as [tmax|] eqn:Fmax.
  2: { rewrite (load_array_absent _ Fmax). split; [done|].
       exists "nptsmax.dat". split; [|exact Fmax]. set_solver. }
  rewrite (load_array_present _ _ Fmax).
  destruct (squeeze_column dof tmax (Hmax _ eq_refl)) as (amax & -> & Smax & _).
  cbn [mbind failure_bind].
  assert (Hb : broadcastable amin amax = true).
  { unfold broadcastable. rewrite Smin, Smax.
    destruct (dof =? 1)%nat; [reflexivity|]. simpl.
    by rewrite Nat.eqb_refl. }
  rewrite Hb. cbn [mbind failure_bind].
  destruct (d !! "potoffset.dat") as [toff|] eqn:Foff.
  2: { rewrite (exists_file_absent _ Foff). split; [done|].
       exists "potoffset.dat". split; [|exact Foff]. set_solver. }
  rewrite (proj2 (exists_file_true "potoffset.dat")) by (by rewrite Foff).
  rewrite (load_array_present _ _ Foff).
  destruct (squeeze_column 1 toff (Hoff _ eq_refl)) as (aoff & -> & _ & _).
  cbn [mbind failure_bind].
  pose proof (load_vindep_shaped l Hn Hvi Hl ∅ ∅) as Hi.
  destruct (load_vindep l ∅ ∅) as [e|[ig vg]]; cbn [mbind failure_bind].
  { destruct Hi as (Hmiss & f & Hin & Hnone). split; [exact Hmiss|].
    exists f. split; [|exact Hnone]. rewrite !elem_of_app. tauto. }
  pose proof (load_vcoupled_shaped l l Hvc Hl Hl ∅) as Hc.
  destruct (load_vcoupled l l ∅) as [e|g]; cbn [mbind failure_bind].
  { destruct Hc as (Hmiss & f & Hin & Hnone). split; [exact Hmiss|].
    exists f. split; [|exact Hnone]. rewrite !elem_of_app. tauto. }
  unfold triplet_files. destruct threebody; [|done].
  pose proof (load_vtriplet_list_shaped (ordered_triples l) Hvt
                (ordered_triples_below l Hl) ∅) as Ht.
  destruct (load_vtriplet_list (ordered_triples l) ∅) as [e|g3];
    cbn [mbind failure_bind]; [|done].
  destruct Ht as (Hmiss & f & Hin & Hnone). split; [exact Hmiss|].
  exists f. split; [|exact Hnone]. rewrite !elem_of_app. tauto.
Qed.

(** On files of the Mapper's shapes the loader returns, and it has gone on
    with the modes of [modes.dat] or stopped on a missing file. *)
Lemma load_artifacts_shaped :
  mapper_shaped nint dof d ->
  exists r : failure + artifacts,
    load_artifacts 0 = Some r /\
    went_on_or_missed
      (required_files (modes_on_disk d) ++ triplet_files (modes_on_disk d)) r /\
    forall a, r = inr a -> inms a = modes_on_disk d.
Proof.
  intros Hshape. pose proof Hshape as (_ & Hmodes & _).
  unfold VSCFSolver.load_artifacts, modes_on_disk. simpl.
  destruct (d !! "modes.dat") as [tm|] eqn:Fm.
  2: { rewrite (exists_file_absent _ Fm). eexists. split; [reflexivity|].
       split; [|discriminate]. split; [done|].
       exists "modes.dat". split; [|exact Fm]. unfold required_files. set_solver. }
  rewrite (proj2 (exists_file_true "modes.dat")) by (by rewrite Fm).
  destruct (Hmodes tm eq_refl) as (l & -> & Hlen & Hbelow).
  rewrite (load_array_present _ _ Fm), (squeeze_ints_table l Hlen).
  rewrite as_indices_ints. simpl.
  eexists. split; [reflexivity|].
  split; [by apply load_grids_shaped|].
  intros a Ha. by apply load_grids_all_present in Ha as [[= <-] _].
Qed.


(** X4.  The converse of the missing-file stop: when [modes.dat],
    [nptsmin.dat], [nptsmax.dat], [potoffset.dat], the [vindep] file of
    every listed mode and the [vcoupled] file of every pair [i < j] of
    listed modes are on the disk (and, with [threebody], the [vtriplet]
    file of every triple [i < j < k]), all in the shapes in which
    [VSCFMapper] writes them, the first call of [step] reads them all
    without stopping, and the modes it works on are those of
    [modes.dat]. *)
Theorem load_artifacts_succeeds_when_complete :
  mapper_shaped nint dof d ->
  (forall f, f ∈ required_files (modes_on_disk d) -> is_Some (d !! f)) ->
  (threebody = true ->
   forall i j k, (i, j, k) ∈ ordered_triples (modes_on_disk d) ->
     is_Some (d !! vtriplet_file i j k)) ->
  exists a : artifacts,
    load_artifacts 0 = Some (inr a) /\ inms a = modes_on_disk d.
Proof.
  intros Hshape Hfiles Htriples.
  destruct (load_artifacts_shaped Hshape) as (r & Hr & Hout & Hmodes).
  destruct r as [e|a]; [|exists a; split; [exact Hr | by apply Hmodes]].
  exfalso. destruct Hout as (_ & f & Hin & Hnone).
  apply elem_of_app in Hin as [Hin|Hin].
  - destruct (Hfiles f Hin) as [t Ht]. congruence.
  - unfold triplet_files in Hin. destruct threebody; [|by apply elem_of_nil in Hin].
    apply list_elem_of_fmap in Hin as ([[i j] k] & -> & Hin).
    destruct (Htriples eq_refl i j k Hin) as [t Ht]. congruence.
Qed.

End load_facts.

(** *** The mean-field loop ends *)

Section solve_facts.

Variable nint nbasis dof : nat.
Variable temp nprim nkbt athresh : Q.
Variable mptwo threebody : bool.
Variable w2 : list Q.
Variable hermite : nat -> Q -> Q.
Variable exp sqrt root4 : Q -> Q.
Variable pi : Q.
Variable eigh : list (list Q) -> list Q * list (list Q).
Variable logsumexp : list Q -> Q.
Variable a : artifacts.

Local Abbreviation vscf_pass :=
  (vscf_pass nint nbasis temp nprim mptwo threebody w2 hermite exp sqrt root4 pi
     eigh logsumexp a).
Local Abbreviation vscf_loop :=
  (vscf_loop nint nbasis temp nprim athresh mptwo threebody w2 hermite exp sqrt
     root4 pi eigh logsumexp a).
Local Abbreviation update_mode :=
  (update_mode nint nbasis nprim threebody w2 hermite exp sqrt root4 pi eigh a).
Local Abbreviation advance :=
  (advance nint nbasis temp nprim mptwo threebody w2 hermite exp sqrt root4 pi
     eigh logsumexp a).
Local Abbreviation pass_start :=
  (pass_start nint nbasis temp nprim mptwo threebody w2 hermite exp sqrt root4 pi
     eigh logsumexp a).
Local Abbreviation converged_at :=
  (converged_at nint nbasis temp nprim athresh mptwo threebody w2 hermite exp sqrt
     root4 pi eigh logsumexp a).

Lemma update_mode_aold (rho : nat -> list Q) (st : vscf_state) (inm : nat) :
  aold (update_mode rho st inm) = aold st.
Proof.
  unfold VSCFSolver.update_mode.
  destruct (diagonalise _ _ _ _ _ _ _ _ _ _ _ _ _ _) as [ev evec]. reflexivity.
Qed.

Lemma vscf_pass_aold (s : list (list nat)) (st : vscf_state) :
  aold (vscf_pass s st).1.1 = aold st.
Proof.
  unfold VSCFSolver.vscf_pass.
  destruct (free_energy _ _ _ _ _ _ _) as [A etot]. simpl.
  generalize (rhoigrid nint nbasis temp w2 hermite exp sqrt root4 pi a st).
  intros rho. revert st.
  induction (inms a) as [|inm rest IH]; intros st; [reflexivity|].
  simpl. rewrite IH. apply update_mode_aold.
Qed.

Lemma pass_start_first (s : list (list nat)) (st : vscf_state) :
  pass_start s st 1 = st.
Proof. reflexivity. Qed.

(** From the top of any pass [prev + 1 <= 201] on, [201 - prev] units of
    fuel are enough. *)
Lemma vscf_loop_from (k : nat) :
  forall (prev fuel : nat) (s : list (list nat)) (st0 : vscf_state)
         (out : list message),
    (prev + k = 200)%nat -> (k < fuel)%nat ->
    exists r : vscf_result,
      vscf_loop fuel s prev (pass_start s st0 (S prev)) out = Some r /\
      (prev < iiter r <= 201)%nat /\ (6 <= iiter r)%nat /\
      (forall j, (prev < j < iiter r)%nat -> (6 <= j)%nat ->
         converged_at s (pass_start s st0 j) = false) /\
      ((converged_at s (pass_start s st0 (iiter r)) = true /\ output r = out) \/
       (converged_at s (pass_start s st0 (iiter r)) = false /\
        iiter r = 201%nat /\ output r = out ++ [DidNotConverge])).
Proof.
  induction k as [|k IH]; intros prev fuel s st0 out Hprev Hfuel.
  - destruct fuel as [|fuel]; [lia|].
    assert (prev = 200%nat) as -> by lia.
    simpl vscf_loop. unfold VSCFSolver.converged_at.
    destruct (vscf_pass s (pass_start s st0 201)) as [[st' A] etot] eqn:Hpass.
    destruct (rel_change_below A (aold st') athresh) eqn:Hconv.
    + eexists. split; [reflexivity|]. simpl.
      split; [lia|]. split; [lia|]. split; [intros j Hj; lia|].
      left. rewrite Hpass. split; [exact Hconv|reflexivity].
    + eexists. split; [reflexivity|]. simpl.
      split; [lia|]. split; [lia|]. split; [intros j Hj; lia|].
      right. rewrite Hpass. split; [exact Hconv|]. split; reflexivity.
  - destruct fuel as [|fuel]; [lia|].
    destruct (IH (S prev) fuel s st0 out) as (r & Hr & Hbound & Hsix & Hnot & Hend);
      [lia | lia |].
    assert (Hnext : pass_start s st0 (S (S prev))
                    = advance s (pass_start s st0 (S prev))).
    { unfold VSCFSolver.pass_start.
      replace (S (S prev) - 1)%nat with (S (S prev - 1)) by lia. reflexivity. }
    rewrite Hnext in Hr. unfold VSCFSolver.advance in Hr.
    simpl vscf_loop.
    destruct (vscf_pass s (pass_start s st0 (S prev))) as [[st' A] etot] eqn:Hpass.
    assert (Hhere : converged_at s (pass_start s st0 (S prev))
                    = rel_change_below A (aold st') athresh).
    { unfold VSCFSolver.converged_at. rewrite Hpass. reflexivity. }
    destruct (Nat.ltb_spec 5 (S prev)) as [H5|H5].
    + destruct (rel_change_below A (aold st') athresh) eqn:Hconv.
      * eexists. split; [reflexivity|]. simpl.
        split; [lia|]. split; [lia|]. split; [intros j Hj; lia|].
        left. split; [exact Hhere|reflexivity].
      * destruct (Nat.ltb_spec 200 (S prev)) as [H200|H200]; [lia|].
        exists r. split; [exact Hr|]. split; [lia|]. split; [exact Hsix|].
        split; [|exact Hend].
        intros j Hj Hj6. destruct (decide (j = S prev)) as [->|Hne].
        -- exact Hhere.
        -- apply Hnot; lia.
    + exists r. split; [exact Hr|]. split; [lia|]. split; [exact Hsix|].
      split; [|exact Hend].
      intros j Hj Hj6. apply Hnot; lia.
Qed.

(** C5 (as the code has it).  The mean-field loop ends: with fuel for 201
    passes it returns a result.  The convergence test is applied from pass
    6 on, so at least 6 passes run; the loop ends at the first pass from 6
    on whose test succeeds, and otherwise at pass 201 (the first with
    [iiter > 200]) after the warning, which does not stop the solver. *)
Theorem vscf_loop_terminates
    (extra : nat) (s : list (list nat)) (st : vscf_state) (out : list message) :
  exists r : vscf_result,
    vscf_loop (201 + extra) s 0 st out = Some r /\
    (6 <= iiter r <= 201)%nat /\
    (forall j, (6 <= j < iiter r)%nat ->
       converged_at s (pass_start s st j) = false) /\
    ((converged_at s (pass_start s st (iiter r)) = true /\ output r = out) \/
     (converged_at s (pass_start s st (iiter r)) = false /\
      iiter r = 201%nat /\ output r = out ++ [DidNotConverge])).
Proof.
  destruct (vscf_loop_from 200 0 (201 + extra) s st out)
    as (r & Hr & Hb & H6 & Hnot & Hend); [lia | lia |].
  exists r. split; [exact Hr|]. split; [lia|]. split; [|exact Hend].
  intros j Hj. apply Hnot; lia.
Qed.

(** A threshold that is not positive is never met. *)
Lemma vscf_loop_unreachable_threshold
    (s : list (list nat)) (st : vscf_state) (out : list message) :
  athresh <= 0 ->
  exists r : vscf_result,
    vscf_loop 201 s 0 st out = Some r /\
    iiter r = 201%nat /\ output r = out ++ [DidNotConverge].
Proof.
  intros Hthr.
  destruct (vscf_loop_from 200 0 201 s st out)
    as (r & Hr & _ & _ & _ & Hend); [lia | lia |].
  rewrite pass_start_first in Hr. exists r. split; [exact Hr|].
  destruct Hend as [[Hconv _]|(_ & Hit & Hout)]; [|split; assumption].
  exfalso. unfold VSCFSolver.converged_at in Hconv.
  destruct (vscf_pass s _) as [[st' A] etot].
  rewrite rel_change_below_nonpos in Hconv by exact Hthr. discriminate.
Qed.

(** *** The reduced manifold and the MP2 correction *)

Local Abbreviation merge_modes := (merge_modes nbasis temp nkbt a).
Local Abbreviation reduced_manifold := (reduced_manifold nbasis temp nkbt a).
Local Abbreviation matel_step :=
  (matel_step nint nbasis w2 hermite exp sqrt root4 pi a).
Local Abbreviation matel_parts :=
  (matel_parts nint nbasis w2 hermite exp sqrt root4 pi a).
Local Abbreviation matel := (matel nint nbasis w2 hermite exp sqrt root4 pi a).
Local Abbreviation devaltotcoupledmp2 :=
  (devaltotcoupledmp2 nint nbasis w2 hermite exp sqrt root4 pi a).
Lemma matel_parts_fold (evec : gmap nat (list (list Q))) (dv : nat -> list Q)
    (si sj : list nat) (modes : list nat) :
  forall acc : Q * Q,
    acc.1 == 0 -> (fold_left (matel_step evec dv si sj) modes acc).1 == 0.
Proof.
  induction modes as [|inm rest IH]; intros [mft cpl] Hacc; [exact Hacc|].
  simpl fold_left. apply IH. simpl in *. rewrite Hacc. reflexivity.
Qed.

(** C9.  In the MP2 loop the mean-field part of the matrix element is only
    ever added to itself, from 0.0: it is zero for every pair of states, the
    matrix element [matel] is the coupling part [matelcpl] alone, and the
    computed [matel3] (the one quantity that reads [dvmfti]) has no effect on
    it. *)
Theorem matel_is_the_coupling_part
    (evec : gmap nat (list (list Q))) (dv : nat -> list Q) (si sj : list nat) :
  (matel_parts evec dv si sj).1 == 0 /\
  matel evec dv si sj == (matel_parts evec dv si sj).2 /\
  (forall dv' : nat -> list Q, matel evec dv' si sj = matel evec dv si sj).
Proof.
  assert (Hmft : (matel_parts evec dv si sj).1 == 0).
  { unfold VSCFSolver.matel_parts. apply matel_parts_fold. reflexivity. }
  split; [exact Hmft|]. split.
  - unfold VSCFSolver.matel.
    destruct (matel_parts evec dv si sj) as [mft cpl]. simpl in *.
    rewrite Hmft. ring.
  - intros dv'. reflexivity.
Qed.

Lemma merge_modes_last (ev : gmap nat (list Q)) (rest : list nat) :
  forall (inm : nat) (sred : list (list nat)) (out : list message)
         (sred' : list (list nat)) (out' : list message),
    rest <> [] ->
    merge_modes ev inm rest sred out = (sred', out') ->
    exists (out0 : list message) (inm' : nat),
      out' = out0 ++ [diagnostic inm' sred'].
Proof.
  induction rest as [|nb rest IH]; intros inm sred out sred' out' Hne H;
    [contradiction|].
  simpl in H. destruct rest as [|nb' rest'].
  - simpl in H. injection H as <- <-. eauto.
  - eapply IH in H; [exact H | discriminate].
Qed.

Lemma vscf_loop_output (fuel : nat) :
  forall (s : list (list nat)) (prev : nat) (st : vscf_state)
         (out : list message) (r : vscf_result),
    vscf_loop fuel s prev st out = Some r ->
    output r = out \/ output r = out ++ [DidNotConverge].
Proof.
  induction fuel as [|fuel IH]; intros s prev st out r H; [discriminate|].
  simpl in H. destruct (vscf_pass s st) as [[st' A] etot].
  destruct (5 <? S prev)%nat; [|by eapply IH].
  destruct (rel_change_below A (aold st') athresh).
  - injection H as <-. by left.
  - destruct (200 <? S prev)%nat; [|by eapply IH].
    injection H as <-. by right.
Qed.

End solve_facts.

(** *** The [mptwo] path *)

Section mptwo_facts.

Variable nint nbasis dof : nat.
Variable temp nprim nkbt athresh : Q.
Variable threebody : bool.
Variable w2 : list Q.
Variable hermite : nat -> Q -> Q.
Variable exp sqrt root4 : Q -> Q.
Variable pi : Q.
Variable eigh : list (list Q) -> list Q * list (list Q).
Variable logsumexp : list Q -> Q.
Variable a : artifacts.

Local Abbreviation reduced_manifold := (reduced_manifold nbasis temp nkbt a).
Local Abbreviation independent_modes :=
  (independent_modes nint nbasis w2 hermite exp sqrt root4 pi eigh a).
Local Abbreviation devaltotcoupledmp2 :=
  (devaltotcoupledmp2 nint nbasis w2 hermite exp sqrt root4 pi a).
Local Abbreviation acoupledmp2 :=
  (acoupledmp2 nint nbasis temp w2 hermite exp sqrt root4 pi logsumexp a).
Local Abbreviation solve :=
  (solve nint nbasis dof temp nprim nkbt athresh true threebody w2 hermite exp
     sqrt root4 pi eigh logsumexp a).

(** What [solve] returns is fixed by the manifold, and fuel for 201 passes
    is enough. *)
Lemma solve_mptwo (sred : list (list nat)) (out : list message) :
  reduced_manifold (independent_modes (inms a) ∅ ∅).1 = Some (sred, out) ->
  (forall (fuel : nat) (r : report), solve fuel = Some r ->
     states r = sred /\
     (printed r = out \/ printed r = out ++ [DidNotConverge]) /\
     mp2_shifts r
     = devaltotcoupledmp2 (evecsvscf (final (loop r)))
         (map (occupation dof a) sred) (evaltotcoupled (loop r)) /\
     mp2_correction r
     = Some ((acoupledmp2 (evecsvscf (final (loop r)))
                (map (occupation dof a) sred) (evaltotcoupled (loop r))
              - acoupled (loop r)) / nprim)) /\
  (forall fuel : nat, (201 <= fuel)%nat -> exists r : report, solve fuel = Some r).
Proof.
  intros Hman. unfold VSCFSolver.solve.
  destruct (independent_modes _ _ _) as [ev evec].
  simpl in Hman. rewrite Hman. simpl.
  split.
  - intros fuel r H.
    destruct (vscf_loop _ _ _ _ _ _ _ _ _ _ _ _ _ _ _ _ _ _ _ _ _)
      as [l|] eqn:Hloop; [|discriminate].
    simpl in H. injection H as <-. simpl.
    split; [reflexivity|]. split; [by eapply vscf_loop_output|].
    split; reflexivity.
  - intros fuel Hfuel.
    replace fuel with (201 + (fuel - 201))%nat by lia.
    match goal with
    | |- context [vscf_loop _ _ _ _ _ _ _ _ _ _ _ _ _ _ _ _ _ ?s 0 ?st ?o] =>
        destruct (vscf_loop_from nint nbasis temp nprim athresh true threebody w2
                    hermite exp sqrt root4 pi eigh logsumexp a
                    200 0 (201 + (fuel - 201)) s st o)
          as (l & Hl & _); [lia | lia |]
    end.
    rewrite pass_start_first in Hl. rewrite Hl. by eexists.
Qed.

(** C8 (as the code has it).  On the [mptwo] path with two modes or more,
    let the enumeration of the reduced manifold give more than 1000 global
    states.  The solver then returns (fuel for 201 passes is enough), and
    whatever it returns has printed
    [TOO MANY (>1e3) POSSIBLE GLOBAL VIBRATIONAL STATES] and done nothing
    else about it: the states it worked on are the whole enumerated
    manifold, the MP2 energy shifts are those of the whole manifold, one
    for every enumerated state, and the MP2 correction of the free energy
    is computed from them. *)
Theorem solve_reports_oversized_manifold
    (sred : list (list nat)) (out : list message) :
  (2 <= length (inms a))%nat ->
  reduced_manifold (independent_modes (inms a) ∅ ∅).1 = Some (sred, out) ->
  (1000 < length sred)%nat ->
  (forall fuel : nat, (201 <= fuel)%nat -> exists r : report, solve fuel = Some r) /\
  (forall (fuel : nat) (r : report),
     solve fuel = Some r ->
     TooManyStates ∈ printed r /\
     states r = sred /\
     mp2_shifts r
     = devaltotcoupledmp2 (evecsvscf (final (loop r)))
         (map (occupation dof a) sred) (evaltotcoupled (loop r)) /\
     length (mp2_shifts r) = length sred /\
     mp2_correction r
     = Some ((acoupledmp2 (evecsvscf (final (loop r)))
                (map (occupation dof a) sred) (evaltotcoupled (loop r))
              - acoupled (loop r)) / nprim)).
Proof.
  intros Hmodes Hman Hbig.
  destruct (solve_mptwo sred out Hman) as [Hinv Htotal].
  split; [exact Htotal|].
  intros fuel r Hsolve.
  destruct (Hinv fuel r Hsolve) as (Hst & Hout & Hshift & Hcorr).
  split; [|split; [exact Hst|split; [exact Hshift|split; [|exact Hcorr]]]].
  - unfold VSCFSolver.reduced_manifold in Hman.
    assert (Hlen : length (nmbasis nbasis temp nkbt a
                             (independent_modes (inms a) ∅ ∅).1)
                   = length (inms a))
      by (unfold nmbasis; apply length_map).
    destruct (nmbasis _ _ _ _ _) as [|n0 rest]; [discriminate|].
    injection Hman as Hman.
    apply merge_modes_last in Hman as (out0 & inm' & ->);
      [|destruct rest; [simpl in Hlen; lia | discriminate]].
    assert (Hd : diagnostic inm' sred = TooManyStates).
    { unfold diagnostic.
      destruct (Nat.ltb_spec 1000 (length sred)); [reflexivity | lia]. }
    rewrite Hd in Hout.
    destruct Hout as [-> | ->]; rewrite !elem_of_app, !list_elem_of_singleton; auto.
  - rewrite Hshift. unfold VSCFSolver.devaltotcoupledmp2.
    rewrite length_map, length_seq, length_map. reflexivity.
Qed.

End mptwo_facts.

(** *** The test systems *)

Lemma example_load_complete :
  load_artifacts 1 2 false Example.disk_complete 0 = Some (inr Example.loaded).
Proof. vm_compute. reflexivity. Qed.

(** The specification caps the loop at 200 passes.  With a threshold of
    zero no pass can meet the test: the loop makes 201 passes and then
    prints the warning. *)
Lemma vscf_loop_makes_201_passes :
  exists r : vscf_result,
    Example.strict_loop 201 [] 0 Example.strict_start [] = Some r /\
    iiter r = 201%nat /\ output r = [DidNotConverge].
Proof.
  apply (vscf_loop_unreachable_threshold
           1 2 1 1 0 false false Example.w2 Example.hermite Example.exp
           Example.sqrt Example.root4 Example.pi Example.eigh Example.logsumexp
           Example.loaded [] Example.strict_start []).
  discriminate.
Qed.

Lemma example_small_run :
  exists r : report, Example.small_solve 201 = Some r /\
                     Example.small_report = Some r.
Proof. vm_compute. eexists. split; reflexivity. Qed.

Lemma example_large_manifold_size :
  Example.oversized
    (reduced_manifold 32 100 4 Example.loaded
       (independent_modes 1 32 Example.w2 Example.hermite Example.exp Example.sqrt
          Example.root4 Example.pi Example.eigh Example.loaded
          (inms Example.loaded) ∅ ∅).1)
  = Some 1024%nat.
Proof. vm_cast_no_check (eq_refl (Some 1024%nat)). Qed.

Lemma example_large_manifold :
  exists sred : list (list nat),
    reduced_manifold 32 100 4 Example.loaded
      (independent_modes 1 32 Example.w2 Example.hermite Example.exp Example.sqrt
         Example.root4 Example.pi Example.eigh Example.loaded
         (inms Example.loaded) ∅ ∅).1
    = Some (sred, [TooManyStates]) /\
    length sred = 1024%nat.
Proof.
  pose proof example_large_manifold_size as H.
  destruct (reduced_manifold _ _ _ _ _) as [[sred out]|]; [|discriminate].
  unfold Example.oversized in H.
  destruct out as [|[| |] [|m out]]; try discriminate.
  injection H as H. by exists sred.
Qed.

Lemma solve_reports_oversized_manifold_witness :
  exists sred : list (list nat),
    reduced_manifold 32 100 4 Example.loaded
      (independent_modes 1 32 Example.w2 Example.hermite Example.exp Example.sqrt
         Example.root4 Example.pi Example.eigh Example.loaded
         (inms Example.loaded) ∅ ∅).1
    = Some (sred, [TooManyStates]) /\
    (1000 < length sred)%nat /\
    exists r : report, Example.large_solve 201 = Some r.
Proof.
  destruct example_large_manifold as (sred & Hman & Hlen).
  assert (Hbig : (1000 < length sred)%nat) by (rewrite Hlen; lia).
  exists sred. split; [exact Hman|]. split; [exact Hbig|].
  refine (proj1 (solve_reports_oversized_manifold
            1 32 2 100 1 4 1e-2 false Example.w2 Example.hermite Example.exp
            Example.sqrt Example.root4 Example.pi Example.eigh Example.logsumexp
            Example.loaded sred [TooManyStates] _ Hman Hbig) 201%nat _).
  - vm_compute. lia.
  - lia.
Defined.

(** The specification has the correction skipped or truncated on an
    oversized manifold.  With thirty-two levels per mode within reach, the
    solver enumerates 1024 global states, prints the diagnostic, keeps all
    of them and computes an MP2 shift for each. *)
Lemma oversized_manifold_is_kept_whole :
  exists r : report,
    Example.large_solve 201 = Some r /\
    TooManyStates ∈ printed r /\
    length (states r) = 1024%nat /\
    length (mp2_shifts r) = 1024%nat /\
    is_Some (mp2_correction r).
Proof.
  destruct example_large_manifold as (sred & Hman & Hlen).
  destruct (solve_mptwo 1 32 2 100 1 4 1e-2 false Example.w2 Example.hermite
              Example.exp Example.sqrt Example.root4 Example.pi Example.eigh
              Example.logsumexp Example.loaded sred [TooManyStates] Hman)
    as [Hinv Htotal].
  destruct (Htotal 201%nat) as [r Hr]; [lia|].
  destruct (Hinv 201%nat r Hr) as (Hst & Hout & Hshift & Hcorr).
  exists r. split; [exact Hr|].
  split.
  { destruct Hout as [-> | ->]; rewrite ?elem_of_app, !list_elem_of_singleton; auto. }
  split; [by rewrite Hst|].
  split; [|by rewrite Hcorr].
  rewrite Hshift. unfold devaltotcoupledmp2.
  rewrite length_map, length_seq, length_map. exact Hlen.
Qed.

Lemma ascending_cons (x : nat) (l : list nat) :
  ascending (x :: l) = true ->
  (forall y, y ∈ l -> (x < y)%nat) /\ ascending l = true.
Proof.
  simpl. intros H. apply andb_prop in H as [Hall Hl]. split; [|exact Hl].
  intros y Hy. rewrite forallb_forall in Hall.
  apply Nat.ltb_lt. apply Hall. by apply list_elem_of_In.
Qed.

(** *** The pair couplings are filled symmetrically *)

Section load_symmetric.

Variable nint dof : nat.
Variable d : disk.

Local Abbreviation load_vcoupled_row := (load_vcoupled_row nint dof d).
Local Abbreviation load_vcoupled := (load_vcoupled nint dof d).
Local Abbreviation vij := (vij nint).

(** The block that line 1097 stores for a pair: the array of the pair's
    file, broadcast to [nint] rows of [nint] entries. *)
Definition stored_pair (inm jnm : nat) : option (list (list Q)) :=
  match load_array d (vcoupled_file inm jnm) ≫= to_block nint with
  | inr block => Some block
  | inl _ => None
  end.

(** A file of [nint] lines of [nint] numbers is stored as it is. *)
Lemma stored_pair_square (inm jnm : nat) (t : table) :
  d !! vcoupled_file inm jnm = Some t -> rect nint nint t ->
  stored_pair inm jnm = Some t.
Proof.
  intros Hf Hrect. unfold stored_pair, load_array, loadtxt. rewrite Hf.
  destruct (squeeze_square nint t Hrect) as (a & Ha & Hb).
  cbn [mbind failure_bind]. rewrite Ha. cbn [mbind failure_bind]. by rewrite Hb.
Qed.

(** One turn of the inner loop. *)
Lemma load_vcoupled_row_cons (inm m : nat) (rest : list nat)
    (g g' : gmap (nat * nat) (list (list Q))) :
  load_vcoupled_row inm (m :: rest) g = inr g' ->
  exists block : list (list Q),
    load_vcoupled_row inm rest (<[(inm, m) := block]> g) = inr g' /\
    if (inm <? m)%nat
    then is_Some (d !! vcoupled_file inm m) /\ stored_pair inm m = Some block
    else block = transpose nint (vij g m inm).
Proof.
  simpl. destruct (inm <? m)%nat.
  - destruct (exists_file d (vcoupled_file inm m)) eqn:Hex; [|discriminate].
    unfold stored_pair.
    destruct (load_array d (vcoupled_file inm m)) as [e|a] eqn:Ha; [discriminate|].
    cbn [mbind failure_bind]. unfold read_vcoupled.
    destruct (check_index dof inm) as [e|[]]; [discriminate|].
    destruct (check_index dof m) as [e|[]]; [discriminate|].
    cbn [mbind failure_bind].
    destruct (to_block nint a) as [e|block]; [discriminate|].
    cbn [mbind failure_bind].
    intros H. exists block. split; [exact H|].
    split; [|reflexivity]. by eapply load_array_inr.
  - destruct (check_index dof m) as [e|[]]; [discriminate|].
    destruct (check_index dof inm) as [e|[]]; [discriminate|].
    cbn [mbind failure_bind]. intros H. by eexists.
Qed.

(** A row of the double loop writes entries of its own row only. *)
Lemma load_vcoupled_row_other (inm : nat) (modes : list nat) :
  forall g g', load_vcoupled_row inm modes g = inr g' ->
    forall a b, a <> inm -> g' !! (a, b) = g !! (a, b).
Proof.
  induction modes as [|m rest IH]; intros g g' H a b Ha.
  - simpl in H. by injection H as <-.
  - apply load_vcoupled_row_cons in H as (block & H & _).
    rewrite (IH _ _ H a b Ha). apply lookup_insert_ne. congruence.
Qed.

Lemma load_vcoupled_row_skipped (inm : nat) (modes : list nat) :
  forall g g', load_vcoupled_row inm modes g = inr g' ->
    forall b, b ∉ modes -> g' !! (inm, b) = g !! (inm, b).
Proof.
  induction modes as [|m rest IH]; intros g g' H b Hb.
  - simpl in H. by injection H as <-.
  - apply not_elem_of_cons in Hb as [Hbm Hb].
    apply load_vcoupled_row_cons in H as (block & H & _).
    rewrite (IH _ _ H b Hb). apply lookup_insert_ne. congruence.
Qed.

(** Above the diagonal a row holds the files. *)
Lemma load_vcoupled_row_upper (inm : nat) (modes : list nat) :
  forall g g', load_vcoupled_row inm modes g = inr g' ->
    forall j, j ∈ modes -> (inm < j)%nat ->
      is_Some (d !! vcoupled_file inm j) /\
      is_Some (g' !! (inm, j)) /\ g' !! (inm, j) = stored_pair inm j.
Proof.
  induction modes as [|m rest IH]; intros g g' H j Hj Hlt.
  - by apply elem_of_nil in Hj.
  - apply load_vcoupled_row_cons in H as (block & H & Hblock).
    destruct (decide (j ∈ rest)) as [Hin|Hnin]; [by eapply IH|].
    apply elem_of_cons in Hj as [->|Hj]; [|done].
    destruct (Nat.ltb_spec inm m) as [_|Hge]; [|lia].
    destruct Hblock as [Hfile Hstored].
    rewrite (load_vcoupled_row_skipped _ _ _ _ H m Hnin), lookup_insert_eq.
    split; [exact Hfile|]. split; [by eexists | by rewrite Hstored].
Qed.

(** Below the diagonal a row holds the transpose of what the table held,
    at the start of the row, on the other side. *)
Lemma load_vcoupled_row_lower (inm : nat) (modes : list nat) :
  forall g g', load_vcoupled_row inm modes g = inr g' ->
    forall j, j ∈ modes -> (j < inm)%nat ->
      g' !! (inm, j) = Some (transpose nint (vij g j inm)).
Proof.
  induction modes as [|m rest IH]; intros g g' H j Hj Hlt.
  - by apply elem_of_nil in Hj.
  - assert (Hvij : forall t, vij (<[(inm, m) := t]> g) j inm = vij g j inm).
    { intros t. unfold VSCFSolver.vij. rewrite lookup_insert_ne; [done|].
      intros [= -> _]. lia. }
    apply load_vcoupled_row_cons in H as (block & H & Hblock).
    destruct (decide (j ∈ rest)) as [Hin|Hnin].
    + rewrite (IH _ _ H j Hin Hlt). by rewrite Hvij.
    + apply elem_of_cons in Hj as [->|Hj]; [|done].
      destruct (Nat.ltb_spec inm m) as [Hlt'|_]; [lia|].
      rewrite (load_vcoupled_row_skipped _ _ _ _ H m Hnin), lookup_insert_eq.
      by rewrite Hblock.
Qed.

Lemma load_vcoupled_other (outer modes : list nat) :
  forall g g', load_vcoupled outer modes g = inr g' ->
    forall a b, a ∉ outer -> g' !! (a, b) = g !! (a, b).
Proof.
  induction outer as [|m rest IH]; intros g g' H a b Ha; simpl in H.
  - by injection H as <-.
  - apply not_elem_of_cons in Ha as [Ham Ha].
    destruct (load_vcoupled_row m modes g) as [e|g1] eqn:Hrow; [discriminate|].
    simpl in H. rewrite (IH _ _ H a b Ha).
    by eapply load_vcoupled_row_other.
Qed.

Lemma load_vcoupled_rows (outer modes : list nat) :
  forall g g',
    ascending outer = true ->
    (forall x, x ∈ outer -> x ∈ modes) ->
    (forall i j, i ∈ modes -> j ∈ modes -> (i < j)%nat -> i ∉ outer ->
       is_Some (d !! vcoupled_file i j) /\
       is_Some (g !! (i, j)) /\ g !! (i, j) = stored_pair i j) ->
    load_vcoupled outer modes g = inr g' ->
    (forall i j, i ∈ modes -> j ∈ modes -> (i < j)%nat ->
       is_Some (d !! vcoupled_file i j) /\
       is_Some (g' !! (i, j)) /\ g' !! (i, j) = stored_pair i j) /\
    (forall i j, i ∈ modes -> j ∈ outer -> (i < j)%nat ->
       vij g' j i = transpose nint (vij g' i j)).
Proof.
  induction outer as [|h rest IH]; intros g g' Hasc Hsub Hpre H; simpl in H.
  - injection H as <-. split.
    + intros i j Hi Hj Hlt. apply Hpre; [done..|]. apply not_elem_of_nil.
    + intros i j _ Hj. by apply elem_of_nil in Hj.
  - apply ascending_cons in Hasc as [Habove Hasc].
    destruct (load_vcoupled_row h modes g) as [e|g1] eqn:Hrow; [discriminate|].
    simpl in H.
    assert (Hh : h ∉ rest).
    { intros Hin. specialize (Habove h Hin). lia. }
    destruct (IH g1 g' Hasc) as [HA HB]; [| |exact H|].
    { intros x Hx. apply Hsub. by right. }
    { intros i j Hi Hj Hlt Hni. destruct (decide (i = h)) as [->|Hne].
      - by eapply load_vcoupled_row_upper.
      - rewrite (load_vcoupled_row_other _ _ _ _ Hrow i j Hne).
        apply Hpre; [done..|]. by apply not_elem_of_cons. }
    split; [exact HA|].
    intros i j Hi Hj Hlt. apply elem_of_cons in Hj as [->|Hj]; [|by apply HB].
    assert (Hni : i ∉ h :: rest).
    { apply not_elem_of_cons. split; [lia|].
      intros Hin. specialize (Habove i Hin). lia. }
    assert (Hhm : h ∈ modes) by (apply Hsub; by left).
    unfold VSCFSolver.vij at 1.
    rewrite (load_vcoupled_other _ _ _ _ H h i Hh).
    rewrite (load_vcoupled_row_lower _ _ _ _ Hrow i Hi Hlt). simpl.
    f_equal. unfold VSCFSolver.vij.
    destruct (HA i h Hi Hhm Hlt) as (_ & _ & ->).
    by destruct (Hpre i h Hi Hhm Hlt Hni) as (_ & _ & ->).
Qed.

(** X5.  For a mode list in ascending order (as [VSCFMapper] writes it),
    the double loop that reads the pair couplings leaves a symmetric table:
    for [i < j] the block [(i, j)] holds the file of the pair (the array of
    the file broadcast to [nint] rows of [nint] entries, which for a file
    of [nint] lines of [nint] numbers is the file itself) and the block
    [(j, i)] holds its transpose.  (The block [(j, i)] is copied from the
    block [(i, j)] at the time row [j] is met, so the order matters.) *)
Theorem load_vcoupled_fills_both_triangles
    (modes : list nat) (g : gmap (nat * nat) (list (list Q))) :
  ascending modes = true ->
  load_vcoupled modes modes ∅ = inr g ->
  forall i j, i ∈ modes -> j ∈ modes -> (i < j)%nat ->
    is_Some (d !! vcoupled_file i j) /\
    is_Some (g !! (i, j)) /\
    g !! (i, j) = stored_pair i j /\
    (forall t, d !! vcoupled_file i j = Some t -> rect nint nint t ->
       g !! (i, j) = d !! vcoupled_file i j) /\
    vij g j i = transpose nint (vij g i j).
Proof.
  intros Hasc H i j Hi Hj Hlt.
  destruct (load_vcoupled_rows modes modes ∅ g Hasc) as [HA HB];
    [done | | exact H |].
  { intros i' j' Hi' _ _ Hni. done. }
  destruct (HA i j Hi Hj Hlt) as (Hfile & Hsome & Hstored).
  split; [exact Hfile|]. split; [exact Hsome|]. split; [exact Hstored|].
  split; [|by apply HB].
  intros t Ht Hrect. rewrite Hstored, Ht. by apply stored_pair_square.
Qed.

End load_symmetric.

(** The files of the test system have the shapes in which the Mapper
    writes them. *)
Lemma example_disks_shaped :
  mapper_shaped 1 2 Example.disk_without_pair /\
  mapper_shaped 1 2 Example.disk_complete.
Proof.
  assert (Hgrid : forall (f : string) (t : table),
            Example.disk_complete !! f = Some t ->
            (f = vcoupled_file 0 1 /\ t = [[0]]) \/
            (f = "modes.dat" /\ t = [[0]; [1]]) \/
            (f = "nptsmin.dat" /\ t = [[1]; [1]]) \/
            (f = "nptsmax.dat" /\ t = [[1]; [1]]) \/
            (f = "potoffset.dat" /\ t = [[0]]) \/
            (f = vindep_file 0 /\ t = [[1; 0]]) \/
            (f = vindep_file 1 /\ t = [[1; 0]])).
  { intros f t H. unfold Example.disk_complete, Example.disk_without_pair in H.
    cbn [list_to_map foldr fst snd] in H.
    repeat (apply lookup_insert_Some in H as [[<- <-]|[_ H]]; [tauto|]).
    by rewrite lookup_empty in H. }
  assert (Hsub : forall (f : string) (t : table),
            Example.disk_without_pair !! f = Some t ->
            Example.disk_complete !! f = Some t).
  { intros f t H. unfold Example.disk_complete.
    destruct (decide (vcoupled_file 0 1 = f)) as [<-|Hne].
    - vm_compute in H. discriminate H.
    - by rewrite lookup_insert_ne. }
  assert (Hshape : mapper_shaped 1 2 Example.disk_complete).
  { split; [lia|].
    split.
    { intros t H. vm_compute in H. injection H as <-. exists [0; 1]%nat.
      split; [reflexivity|]. split; [simpl; lia|]. repeat constructor. }
    split; [intros t H; vm_compute in H; injection H as <-; by repeat constructor|].
    split; [intros t H; vm_compute in H; injection H as <-; by repeat constructor|].
    split; [intros t H; vm_compute in H; injection H as <-; by repeat constructor|].
    split.
    { intros i t H. apply Hgrid in H.
      destruct H as [[E ->]|[[E ->]|[[E ->]|[[E ->]|[[E ->]|[[E ->]|[E ->]]]]]]];
        try (unfold vindep_file, vcoupled_file in E; simpl in E; discriminate E);
        by repeat constructor. }
    split.
    { intros i j t H. apply Hgrid in H.
      destruct H as [[E ->]|[[E ->]|[[E ->]|[[E ->]|[[E ->]|[[E ->]|[E ->]]]]]]];
        try (unfold vindep_file, vcoupled_file in E; simpl in E; discriminate E);
        by repeat constructor. }
    intros i j k t H. apply Hgrid in H.
    destruct H as [[E ->]|[[E ->]|[[E ->]|[[E ->]|[[E ->]|[[E ->]|[E ->]]]]]]];
      unfold vindep_file, vcoupled_file, vtriplet_file in E; simpl in E;
      discriminate E. }
  split; [|exact Hshape].
  destruct Hshape as (Hn & Hm & Hmin & Hmax & Hoff & Hvi & Hvc & Hvt).
  split; [exact Hn|].
  split; [intros t H; apply Hm; by apply Hsub|].
  split; [intros t H; apply Hmin; by apply Hsub|].
  split; [intros t H; apply Hmax; by apply Hsub|].
  split; [intros t H; apply Hoff; by apply Hsub|].
  split; [intros i t H; apply (Hvi i); by apply Hsub|].
  split; [intros i j t H; apply (Hvc i j); by apply Hsub|].
  intros i j k t H. apply (Hvt i j k). by apply Hsub.
Qed.



Lemma load_artifacts_succeeds_when_complete_witness :
  exists a : artifacts,
    load_artifacts 1 2 false Example.disk_complete 0 = Some (inr a) /\
    inms a = modes_on_disk Example.disk_complete.
Proof.
  apply (load_artifacts_succeeds_when_complete 1 2 false Example.disk_complete
           (proj2 example_disks_shaped)); [|discriminate].
  intros f Hf. apply list_elem_of_In in Hf. vm_compute in Hf.
  repeat (destruct Hf as [<-|Hf]; [vm_compute; by eexists|]).
  destruct Hf.
Defined.

Lemma load_vcoupled_fills_both_triangles_witness :
  is_Some (Example.disk_complete !! vcoupled_file 0 1) /\
  vijgrid Example.loaded !! (0%nat, 1%nat) = Example.disk_complete !! vcoupled_file 0 1 /\
  vij 1 (vijgrid Example.loaded) 1 0 = transpose 1 (vij 1 (vijgrid Example.loaded) 0 1).
Proof.
  destruct (load_vcoupled_fills_both_triangles 1 2 Example.disk_complete [0; 1]%nat
              (vijgrid Example.loaded)) with (i := 0%nat) (j := 1%nat)
    as (Hfile & _ & _ & Hsame & Hsym).
  - reflexivity.
  - vm_compute. reflexivity.
  - set_solver.
  - set_solver.
  - lia.
  - split; [exact Hfile|]. split; [|exact Hsym].
    apply (Hsame [[0]]); [reflexivity|]. split; [reflexivity|].
    by repeat constructor.
Defined.

Lemma nth_map_seq {A : Type} (f : nat -> A) (n i : nat) (dflt : A) :
  (i < n)%nat -> nth i (map f (seq 0 n)) dflt = f i.
Proof.
  intros Hi. rewrite (nth_indep _ dflt (f 0%nat)) by (rewrite length_map, length_seq; lia).
  rewrite map_nth, seq_nth by lia. reflexivity.
Qed.

Section hamiltonian_facts.

Variable nint nbasis : nat.
Variable w2 : list Q.
Variable hermite : nat -> Q -> Q.
Variable exp sqrt root4 : Q -> Q.
Variable pi : Q.
Variable a : artifacts.

Local Abbreviation hamiltonian :=
  (hamiltonian nint nbasis w2 hermite exp sqrt root4 pi a).
Local Abbreviation psiigrid := (psiigrid nint w2 hermite exp sqrt root4 pi a).
Local Abbreviation upper := (upper nint w2 hermite exp sqrt root4 pi a).

Lemma hamiltonian_entry (inm : nat) (v : list Q) (i j : nat) :
  (i < nbasis)%nat -> (j < nbasis)%nat ->
  entry (hamiltonian inm v) i j = upper inm v i j + upper inm v j i.
Proof.
  intros Hi Hj. unfold entry, VSCFSolver.hamiltonian, at_index.
  rewrite nth_map_seq by exact Hi. by rewrite nth_map_seq by exact Hj.
Qed.

(** X6.  The matrix handed to [np.linalg.eigh] is symmetric, and filling
    the upper triangle, halving the diagonal and adding the transpose
    counts every entry once: the diagonal entry [i] is the expectation of
    the potential in basis function [i] plus the harmonic level
    [(i + 1/2) * sqrt(w2)], and the entry [(i, j)] for [i < j] is the matrix
    element of the potential between [i] and [j]. *)
Theorem hamiltonian_is_symmetric (inm : nat) (v : list Q) (i j : nat) :
  (i < nbasis)%nat -> (j < nbasis)%nat ->
  entry (hamiltonian inm v) i j == entry (hamiltonian inm v) j i /\
  entry (hamiltonian inm v) i i
  == dot (psiigrid inm i i) v
     + (inject_Z (Z.of_nat i) + 0.5) * sqrt (at_index w2 inm) /\
  ((i < j)%nat -> entry (hamiltonian inm v) i j == dot (psiigrid inm i j) v).
Proof.
  intros Hi Hj. rewrite !hamiltonian_entry by assumption.
  split; [apply Qplus_comm|]. split.
  - unfold VSCFSolver.upper. rewrite Nat.eqb_refl. ring.
  - intros Hlt. unfold VSCFSolver.upper.
    destruct (Nat.eqb_spec i j) as [->|_]; [lia|].
    destruct (Nat.eqb_spec j i) as [->|_]; [lia|].
    destruct (Nat.ltb_spec i j) as [_|?]; [|lia].
    destruct (Nat.ltb_spec j i) as [?|_]; [lia|].
    ring.
Qed.

End hamiltonian_facts.

(** *** The reduced manifold starts at the ground state *)

Lemma insert_zero_repeat (n i : nat) :
  <[i := 0%nat]> (repeat 0%nat n) = repeat 0%nat n.
Proof.
  revert i. induction n as [|n IH]; intros [|i]; simpl; try reflexivity.
  by rewrite IH.
Qed.

Section manifold_facts.

Variable nbasis dof : nat.
Variable temp nkbt : Q.
Variable a : artifacts.

Local Abbreviation nmbasis := (nmbasis nbasis temp nkbt a).
Local Abbreviation excitation := (excitation nbasis a).
Local Abbreviation merge_mode := (merge_mode nbasis temp nkbt a).
Local Abbreviation merge_modes := (merge_modes nbasis temp nkbt a).
Local Abbreviation reduced_manifold := (reduced_manifold nbasis temp nkbt a).
Local Abbreviation occupation := (occupation dof a).

Local Abbreviation state_of := (state_of nbasis).

Hypothesis positive_window : 0 < nkbt * temp.

Lemma excitation_ground (ev : gmap nat (list Q)) (k : nat) :
  excitation ev (repeat 0%nat k) == 0.
Proof.
  unfold VSCFSolver.excitation. rewrite repeat_length.
  assert (Heq : forall modes,
            zip_with (fun inm b => at_index (levels nbasis ev inm) b)
                     modes (repeat 0%nat k)
            = map (fun inm => at_index (levels nbasis ev inm) 0) (take k modes)).
  { clear. induction k as [|k IH]; intros [|m modes]; simpl; try reflexivity.
    by rewrite IH. }
  rewrite Heq. ring.
Qed.

Lemma nmbasis_bounds (ev : gmap nat (list Q)) (nb : nat) :
  (0 < nbasis)%nat -> nb ∈ nmbasis ev -> (1 <= nb <= nbasis)%nat.
Proof using positive_window.
  intros Hnb Hin. unfold VSCFSolver.nmbasis in Hin.
  apply list_elem_of_fmap in Hin as (inm & -> & _).
  split.
  - destruct nbasis as [|n]; [lia|]. simpl.
    assert (Hfirst : Qltb (at_index (levels (S n) ev inm) 0
                           - at_index (levels (S n) ev inm) 0) (nkbt * temp) = true).
    { apply Qltb_lt. eapply Qle_lt_trans; [|exact positive_window].
      apply Qle_lteq. right. ring. }
    rewrite Hfirst. simpl. lia.
  - etransitivity; [apply filter_length_le|]. by rewrite length_seq.
Qed.

Lemma merge_mode_inv (ev : gmap nat (list Q)) (nb k : nat)
    (sred : list (list nat)) :
  (1 <= nb <= nbasis)%nat ->
  hd_error sred = Some (repeat 0%nat k) ->
  Forall (state_of k) sred ->
  hd_error (merge_mode ev nb sred) = Some (repeat 0%nat (S k)) /\
  Forall (state_of (S k)) (merge_mode ev nb sred).
Proof using positive_window.
  intros Hnb Hhd Hall. unfold VSCFSolver.merge_mode. split.
  - destruct sred as [|s0 sred]; [discriminate|]. injection Hhd as ->.
    destruct nb as [|nb]; [lia|]. simpl.
    assert (Hz : repeat 0%nat k ++ [0%nat] = repeat 0%nat (S k)).
    { change [0%nat] with (repeat 0%nat 1). rewrite <- repeat_app.
      f_equal. lia. }
    rewrite Hz.
    assert (Hkeep : Qltb (nkbt * temp) (excitation ev (repeat 0%nat (S k))) = false).
    { apply Qltb_ge. rewrite excitation_ground. by apply Qlt_le_weak. }
    by rewrite Hkeep.
  - apply Forall_forall. intros state Hin. apply list_elem_of_In in Hin.
    apply filter_In in Hin as [Hin _]. apply list_elem_of_In in Hin.
    apply list_elem_of_bind in Hin as (s & Hin & Hs).
    apply list_elem_of_bind in Hin as (b & Hin & Hb).
    apply list_elem_of_singleton in Hin as ->.
    rewrite Forall_forall in Hall. destruct (Hall s Hs) as [Hlen Hlev].
    apply elem_of_seq in Hb. split.
    + rewrite length_app. simpl. lia.
    + apply Forall_app. split; [exact Hlev|]. apply Forall_singleton. lia.
Qed.

Lemma merge_modes_inv (ev : gmap nat (list Q)) (rest : list nat) :
  forall (inm k : nat) (sred : list (list nat)) (out : list message),
    (forall nb, nb ∈ rest -> (1 <= nb <= nbasis)%nat) ->
    hd_error sred = Some (repeat 0%nat k) ->
    Forall (state_of k) sred ->
    hd_error (merge_modes ev inm rest sred out).1
    = Some (repeat 0%nat (k + length rest)) /\
    Forall (state_of (k + length rest)) (merge_modes ev inm rest sred out).1.
Proof using positive_window.
  induction rest as [|nb rest IH]; intros inm k sred out Hnb Hhd Hall; simpl.
  - by rewrite Nat.add_0_r.
  - destruct (merge_mode_inv ev nb k sred) as [Hhd' Hall'];
      [apply Hnb; by left | exact Hhd | exact Hall |].
    replace (k + S (length rest))%nat with (S k + length rest)%nat by lia.
    apply IH; [|exact Hhd'|exact Hall'].
    intros nb' Hin. apply Hnb. by right.
Qed.

(** X7.  When the energy window [nkbt * temp] is positive and there is at
    least one basis function, the reduced manifold of global states that
    the MP2 path enumerates starts with the ground state (every mode in its
    level 0), which the Boltzmann weights take as their reference
    [evaltotcoupled[0]]; each of its states gives every mode of [inms] one
    level below [nbasis], so that the lookups [evals[inm][s[istate][inm]]]
    stay inside the spectrum. *)
Theorem reduced_manifold_starts_at_ground_state
    (ev : gmap nat (list Q)) (sred : list (list nat)) (out : list message) :
  (0 < nbasis)%nat ->
  reduced_manifold ev = Some (sred, out) ->
  hd_error sred = Some (repeat 0%nat (length (inms a))) /\
  hd_error (map occupation sred) = Some (repeat 0%nat dof) /\
  Forall (state_of (length (inms a))) sred.
Proof using positive_window.
  intros Hnb. unfold VSCFSolver.reduced_manifold.
  destruct (nmbasis ev) as [|n0 rest] eqn:Hbasis; [discriminate|].
  intros [= Hmerge].
  assert (Hlen : length (inms a) = S (length rest)).
  { pose proof (f_equal length Hbasis) as Hl.
    unfold VSCFSolver.nmbasis in Hl. rewrite length_map in Hl. exact Hl. }
  assert (Hbounds : forall nb, nb ∈ n0 :: rest -> (1 <= nb <= nbasis)%nat).
  { intros nb Hin. apply (nmbasis_bounds ev nb Hnb). by rewrite Hbasis. }
  destruct (merge_modes_inv ev rest 1 1 (map (fun k => [k]) (seq 0 n0)) [])
    as [Hhd Hall].
  - intros nb Hin. apply Hbounds. by right.
  - destruct n0 as [|n0]; [|reflexivity].
    specialize (Hbounds 0%nat ltac:(by left)). lia.
  - apply Forall_forall. intros state Hin.
    apply list_elem_of_fmap in Hin as (b & -> & Hb). apply elem_of_seq in Hb.
    split; [reflexivity|]. apply Forall_singleton.
    specialize (Hbounds n0 ltac:(by left)). lia.
  - rewrite Hmerge in Hhd, Hall. cbn [fst] in Hhd, Hall.
    change (1 + length rest)%nat with (S (length rest)) in Hhd, Hall.
    rewrite <- Hlen in Hhd, Hall.
    split; [exact Hhd|]. split; [|exact Hall].
    destruct sred as [|s0 sred]; [discriminate|]. injection Hhd as ->.
    simpl. f_equal. unfold VSCFSolver.occupation.
    assert (Hfold : forall (l : list (nat * nat)) (n : nat),
              Forall (fun p => p.2 = 0%nat) l ->
              fold_left (fun r '(inm, k) => <[inm := k]> r) l (repeat 0%nat n)
              = repeat 0%nat n).
    { clear. induction l as [|[i k] l IH]; intros n Hl; simpl; [reflexivity|].
      apply Forall_cons in Hl as [Hk Hl]. simpl in Hk. subst k.
      rewrite insert_zero_repeat. by apply IH. }
    apply Hfold.
    apply Forall_forall. intros [i k] Hin.
    apply elem_of_zip_r in Hin. simpl.
    apply list_elem_of_In in Hin. by apply repeat_spec in Hin.
Qed.

End manifold_facts.

Lemma hamiltonian_is_symmetric_witness :
  entry (hamiltonian 1 2 Example.w2 Example.hermite Example.exp Example.sqrt
           Example.root4 Example.pi Example.loaded 0 [0]) 0 1
  == entry (hamiltonian 1 2 Example.w2 Example.hermite Example.exp Example.sqrt
              Example.root4 Example.pi Example.loaded 0 [0]) 1 0.
Proof.
  apply (hamiltonian_is_symmetric 1 2 Example.w2 Example.hermite Example.exp
           Example.sqrt Example.root4 Example.pi Example.loaded 0 [0] 0 1); lia.
Defined.

Lemma reduced_manifold_starts_at_ground_state_witness :
  exists (sred : list (list nat)) (out : list message),
    reduced_manifold 2 1 4 Example.loaded
      (independent_modes 1 2 Example.w2 Example.hermite Example.exp Example.sqrt
         Example.root4 Example.pi Example.eigh Example.loaded
         (inms Example.loaded) ∅ ∅).1
    = Some (sred, out) /\
    hd_error sred = Some [0; 0]%nat.
Proof.
  eexists _, _. split; [vm_compute; reflexivity|].
  refine (proj1 (reduced_manifold_starts_at_ground_state 2 2 1 4 Example.loaded _
                   (independent_modes 1 2 Example.w2 Example.hermite Example.exp
                      Example.sqrt Example.root4 Example.pi Example.eigh
                      Example.loaded (inms Example.loaded) ∅ ∅).1 _ _ _ _)).
  - vm_compute. reflexivity.
  - lia.
  - vm_compute. reflexivity.
Defined.

End VSCFSolver.

(** ** [VSCFMapper.step] *)

Module VSCFMapper.

(** The disk and, in order, the geometries at which the potential was
    asked of the force engine. *)
Record mstate : Type := MState {
  files : disk;
  evaluated : list (list Q)
}.

(** The sampling ranges of the modes and their one-dimensional slices:
    [nptsmin] and [nptsmax] have one entry per degree of freedom, [vis] one
    slice per mode of [inms], in that order. *)
Record ranges : Type := Ranges {
  nptsmin : list nat;
  nptsmax : list nat;
  vis : list (list Q)
}.

(** [np.linspace(a, b, n)] *)
Definition linspace (a b : Q) (n : nat) : list Q :=
  map (fun k => a + inject_Z (Z.of_nat k) * ((b - a) / inject_Z (Z.of_nat (n - 1))))
      (seq 0 n).

Section step.

Variable pots : list Q -> Q.
Variable sqrt : Q -> Q.
(** [interp2d(x, y, z, kind='cubic')] and [RegularGridInterpolator]. *)
Variable interp2d : list Q -> list Q -> list Q -> Q -> Q -> Q.
Variable interp3d :
  list Q -> list Q -> list Q -> list (list (list Q)) -> Q -> Q -> Q -> Q.

Variable nint dof : nat.
Variable nprim fnmrms nevib : Q.
Variable threebody print_2b_map : bool.
Variable w2 nmrms nmevib : list Q.
Variable beads_q : list Q.
Variable V_T : list (list Q).
Variable forces_pots : Q.

Definition v0 : Q := forces_pots / nprim.

(** The modes kept: [np.abs(w2[inm]) > 1e-10]. *)
Definition inms : list nat :=
  List.filter (fun inm => Qltb 1e-10 (Qabs (at_index w2 inm))) (seq 0 dof).

(** [np.real(V.T[inm]) * q * np.sqrt(nprim)] *)
Definition along (inm : nat) (q : Q) : list Q :=
  map (fun v => v * q * sqrt nprim) (nth inm V_T []).

(** **** Sampling range of one mode (lines 726-769) *)

Definition dnm (inm : nat) : Q := fnmrms * at_index nmrms inm.

(** [beads.q + dev * counter] *)
Definition displaced (inm : nat) (counter : Z) : list Q :=
  zip_with (fun x d => x + d * inject_Z counter) beads_q (along inm (dnm inm)).

(** One direction: [sign] is [-1] or [1].  At the bailout two more points
    are taken, by moving [dbeads.q] by [dev] twice. *)
Fixpoint sample_side (fuel : nat) (inm : nat) (sign counter : Z)
    (vi : list Q) (log : list (list Q)) : option (list Q * Z * list (list Q)) :=
  match fuel with
  | O => None
  | S fuel' =>
      let x := displaced inm counter in
      let dv := pots x / nprim - v0 in
      let vi' := vi ++ [v0 + dv] in
      if Qltb (nevib * at_index nmevib inm) (Qabs dv) then
        let x1 := zip_with (fun a d => a + inject_Z sign * d) x (along inm (dnm inm)) in
        let x2 := zip_with (fun a d => a + inject_Z sign * d) x1 (along inm (dnm inm)) in
        Some (vi' ++ [pots x1 / nprim; pots x2 / nprim], counter, log ++ [x; x1; x2])
      else sample_side fuel' inm sign (counter + sign)%Z vi' (log ++ [x])
  end.

(** The test that ends the sampling of a mode on one side, at [counter]. *)
Definition bails (inm : nat) (counter : Z) : bool :=
  Qltb (nevib * at_index nmevib inm)
       (Qabs (pots (displaced inm counter) / nprim - v0)).

(** The slice of one mode, from the most negative displacement to the most
    positive, and its two counts. *)
Definition sample_mode (fuel : nat) (inm : nat) (log : list (list Q))
  : option (list Q * nat * nat * list (list Q)) :=
  '(vneg, cneg, log1) ← sample_side fuel inm (-1) (-1) [v0] log;
  '(vi, cpos, log2) ← sample_side fuel inm 1 1 (rev vneg) log1;
  Some (vi, Z.to_nat (- cneg), Z.to_nat cpos, log2).

Fixpoint sample_modes (fuel : nat) (modes : list nat) (r : ranges) (st : mstate)
  : option (ranges * mstate) :=
  match modes with
  | [] => Some (r, st)
  | inm :: rest =>
      '(vi, nmin, nmax, log) ← sample_mode fuel inm (evaluated st);
      sample_modes fuel rest
        {| nptsmin := <[inm := nmin]> (nptsmin r);
           nptsmax := <[inm := nmax]> (nptsmax r);
           vis := vis r ++ [vi] |}
        {| files := <[vindeps_file inm := column_table vi]> (files st);
           evaluated := log |}
  end.

(** Lines 716-722: the ranges of an earlier run are read back. *)
Fixpoint load_vis (d : disk) (modes : list nat) (acc : list (list Q))
  : failure + list (list Q) :=
  match modes with
  | [] => inr acc
  | inm :: rest =>
      t ← loadtxt d (vindeps_file inm);
      load_vis d rest (acc ++ [column 0 t])
  end.

(** Lines 708-772.  [None]: a sampling loop ran out of fuel. *)
Definition sampling_ranges (fuel : nat) (st : mstate)
  : option (failure + ranges * mstate) :=
  if exists_file (files st) "nptsmax.dat" then
    Some (tmin ← loadtxt (files st) "nptsmin.dat";
          tmax ← loadtxt (files st) "nptsmax.dat";
          v ← load_vis (files st) inms [];
          inr ({| nptsmin := as_ints tmin; nptsmax := as_ints tmax; vis := v |}, st))
  else
    '(r, st') ← sample_modes fuel inms
                  {| nptsmin := repeat 0%nat dof; nptsmax := repeat 0%nat dof;
                     vis := [] |} st;
    Some (inr (r, {| files := <["nptsmax.dat" := ints_table (nptsmax r)]>
                                (<["nptsmin.dat" := ints_table (nptsmin r)]> (files st'));
                     evaluated := evaluated st' |})).

(** **** The map of one pair of modes (lines 841-920) *)

Variable r : ranges.

(** [npts[inm]], set for the modes of [inms]. *)
Definition npts (inm : nat) : nat :=
  (nth inm (nptsmin r) 0 + nth inm (nptsmax r) 0 + 1)%nat.

(** [(-nptsmin[inm] + i - 2)], the signed number of steps of grid index [i]. *)
Definition steps (inm i : nat) : Z :=
  (- Z.of_nat (nth inm (nptsmin r) 0%nat) + Z.of_nat i - 2)%Z.

(** [nmis]: the displacements of the sampled grid along mode [inm]. *)
Definition nms (inm : nat) : list Q :=
  map (fun i => inject_Z (steps inm i) * dnm inm) (seq 0 (npts inm + 4)).

(** The geometry displaced along two modes. *)
Definition displaced2 (inm jnm : nat) (qi qj : Q) : list Q :=
  vadd (vadd beads_q (along inm qi)) (along jnm qj).

Definition on_axis (inm jnm i j : nat) : bool :=
  (steps inm i =? 0)%Z || (steps jnm j =? 0)%Z.

(** [vtots[k]] for [k = i * (npts[jnm] + 4) + j]: the stored slices on the
    axes, the engine elsewhere. *)
Definition vtot (rinm rjnm inm jnm i j : nat) : Q :=
  if (steps inm i =? 0)%Z then at_index (nth rjnm (vis r) []) j
  else if (steps jnm j =? 0)%Z then at_index (nth rinm (vis r) []) i
  else pots (displaced2 inm jnm (at_index (nms inm) i) (at_index (nms jnm) j)) / nprim.

Definition grid_indices (inm jnm : nat) : list (nat * nat) :=
  i ← seq 0 (npts inm + 4); j ← seq 0 (npts jnm + 4); [(i, j)].

Definition vtots (rinm rjnm inm jnm : nat) : list Q :=
  map (fun '(i, j) => vtot rinm rjnm inm jnm i j) (grid_indices inm jnm).

(** The geometries asked of the engine while [vtots] is filled. *)
Definition asked (inm jnm : nat) : list (list Q) :=
  map (fun '(i, j) => displaced2 inm jnm (at_index (nms inm) i) (at_index (nms jnm) j))
      (List.filter (fun '(i, j) => negb (on_axis inm jnm i j)) (grid_indices inm jnm)).

(** The integration grid of a mode. *)
Definition integration_grid (inm : nat) : list Q :=
  linspace (- inject_Z (Z.of_nat (nth inm (nptsmin r) 0%nat)) * dnm inm)
           (inject_Z (Z.of_nat (nth inm (nptsmax r) 0%nat)) * dnm inm) nint.

(** The tables written from the fitted surface [vtspl]. *)
Definition vindep_table (inm : nat) (slice : Q -> Q) (origin : Q) : table :=
  map (fun q => [q; slice q - 0.5 * at_index w2 inm * Qsquare q - origin])
      (integration_grid inm).
Definition coupling_table (inm jnm : nat) (vtspl : Q -> Q -> Q) : table :=
  map (fun qj =>
         map (fun qi => vtspl qi qj - vtspl qi 0.0 - vtspl 0.0 qj + vtspl 0.0 0.0)
             (integration_grid inm))
      (integration_grid jnm).
Definition map_table (rinm rjnm inm jnm : nat) : table :=
  map (fun '(i, j) =>
         [at_index (nms inm) i; at_index (nms jnm) j;
          vtot rinm rjnm inm jnm i j - v0])
      (grid_indices inm jnm).

(** The coupling table of a pair, from the surface fitted to its grid. *)
Definition pair_table (rinm rjnm inm jnm : nat) : table :=
  coupling_table inm jnm (interp2d (nms inm) (nms jnm) (vtots rinm rjnm inm jnm)).

Definition write_if_absent (d : disk) (f : string) (t : table) : disk :=
  if exists_file d f then d else <[f := t]> d.

(** The body of the double loop for [jnm > inm]. *)
Definition map_pair (rinm rjnm inm jnm : nat) (st : mstate) : mstate :=
  if exists_file (files st) (vcoupled_file inm jnm) then st
  else
    let vtspl := interp2d (nms inm) (nms jnm) (vtots rinm rjnm inm jnm) in
    let d1 :=
      if print_2b_map
      then <["vcoupledmap." +:+ pretty inm +:+ "." +:+ pretty jnm +:+ ".dat"
             := map_table rinm rjnm inm jnm]> (files st)
      else files st in
    let d2 := write_if_absent d1 (vindep_file inm)
                (vindep_table inm (fun q => vtspl q 0.0) (vtspl 0.0 0.0)) in
    let d3 := write_if_absent d2 (vindep_file jnm)
                (vindep_table jnm (fun q => vtspl 0.0 q) (vtspl 0.0 0.0)) in
    {| files := <[vcoupled_file inm jnm := coupling_table inm jnm vtspl]> d3;
       evaluated := evaluated st ++ asked inm jnm |}.

(** The double loop over the modes, with their positions in [inms]. *)
Definition numbered (modes : list nat) : list (nat * nat) :=
  zip (seq 0 (length modes)) modes.

Definition map_pairs (st : mstate) : mstate :=
  fold_left
    (fun st1 '(rinm, inm) =>
       fold_left
         (fun st2 '(rjnm, jnm) =>
            if (inm <? jnm)%nat then map_pair rinm rjnm inm jnm st2 else st2)
         (numbered inms) st1)
    (numbered inms) st.

(** The pair [(inm, jnm)] has been mapped in this call: its grid file holds
    its coupling table and the engine was asked its off-axis points. *)
Definition mapped (inm jnm : nat) (st : mstate) : Prop :=
  exists (rinm rjnm : nat) (before after : list (list Q)),
    inms !! rinm = Some inm /\ inms !! rjnm = Some jnm /\
    files st !! vcoupled_file inm jnm = Some (pair_table rinm rjnm inm jnm) /\
    evaluated st = before ++ asked inm jnm ++ after.

(** The state of a pair during the loops: mapped in this call, or not yet
    on the disk. *)
Definition pending_or_mapped (i0 j0 : nat) (st : mstate) : Prop :=
  mapped i0 j0 st \/ files st !! vcoupled_file i0 j0 = None.

(** **** The map of one triple of modes (lines 934-1013) *)

Definition displaced3 (inm jnm knm : nat) (qi qj qk : Q) : list Q :=
  vadd (vadd (vadd beads_q (along inm qi)) (along jnm qj)) (along knm qk).

(** Every point of the three-dimensional grid is asked of the engine. *)
Definition vtots3 (inm jnm knm : nat) : list (list (list Q)) :=
  map (fun qi => map (fun qj => map (fun qk =>
         pots (displaced3 inm jnm knm qi qj qk) / nprim)
       (nms knm)) (nms jnm)) (nms inm).
Definition asked3 (inm jnm knm : nat) : list (list Q) :=
  qi ← nms inm; qj ← nms jnm; qk ← nms knm; [displaced3 inm jnm knm qi qj qk].

Definition triplet_table (inm jnm knm : nat) (vtspl : Q -> Q -> Q -> Q) : table :=
  qk ← integration_grid knm; qj ← integration_grid jnm; qi ← integration_grid inm;
  [[qi; qj; qk;
    vtspl qi qj qk
    - (vtspl qi qj 0.0 + vtspl qi 0.0 qk + vtspl 0.0 qj qk)
    + (vtspl qi 0.0 0.0 + vtspl 0.0 qj 0.0 + vtspl 0.0 0.0 qk)
    - vtspl 0.0 0.0 0.0]].

Definition map_triple (inm jnm knm : nat) (st : mstate) : mstate :=
  if exists_file (files st) (vtriplet_file inm jnm knm) then st
  else
    let vtspl := interp3d (nms inm) (nms jnm) (nms knm) (vtots3 inm jnm knm) in
    let o := vtspl 0.0 0.0 0.0 in
    let d1 := <[vindep_file inm := vindep_table inm (fun q => vtspl q 0.0 0.0) o]>
                (files st) in
    let d2 := <[vindep_file jnm := vindep_table jnm (fun q => vtspl 0.0 q 0.0) o]> d1 in
    let d3 := <[vindep_file knm := vindep_table knm (fun q => vtspl 0.0 0.0 q) o]> d2 in
    let d4 := <[vcoupled_file inm jnm
                := coupling_table inm jnm (fun qi qj => vtspl qi qj 0.0)]> d3 in
    let d5 := <[vcoupled_file inm knm
                := coupling_table inm knm (fun qi qk => vtspl qi 0.0 qk)]> d4 in
    let d6 := <[vcoupled_file jnm knm
                := coupling_table jnm knm (fun qj qk => vtspl 0.0 qj qk)]> d5 in
    {| files := <[vtriplet_file inm jnm knm := triplet_table inm jnm knm vtspl]> d6;
       evaluated := evaluated st ++ asked3 inm jnm knm |}.

Definition map_triples (st : mstate) : mstate :=
  fold_left
    (fun st1 inm =>
       fold_left
         (fun st2 jnm =>
            if (inm <? jnm)%nat then
              fold_left
                (fun st3 knm =>
                   if (jnm <? knm)%nat then map_triple inm jnm knm st3 else st3)
                inms st2
            else st2)
         inms st1)
    inms st.

End step.

(** [VSCFMapper.step].  [None]: a sampling loop ran out of fuel. *)
Definition VSCFMapper_step
    (pots : list Q -> Q) (sqrt : Q -> Q)
    (interp2d : list Q -> list Q -> list Q -> Q -> Q -> Q)
    (interp3d : list Q -> list Q -> list Q -> list (list (list Q)) -> Q -> Q -> Q -> Q)
    (nint dof : nat) (nprim fnmrms nevib : Q) (threebody print_2b_map : bool)
    (w2 nmrms nmevib beads_q : list Q) (V_T : list (list Q)) (forces_pots : Q)
    (fuel step : nat) (st : mstate) : option (failure + mstate) :=
  if (0 <? step)%nat
  then Some (softexit_trigger "VSCF has finished in first (previous) step. Exiting.")
  else
    let st1 :=
      {| files := <["modes.dat" := ints_table (inms dof w2)]>
                    (<["potoffset.dat" := [[v0 nprim forces_pots]]]> (files st));
         evaluated := evaluated st |} in
    res ← sampling_ranges pots sqrt dof nprim fnmrms nevib w2 nmrms nmevib beads_q
            V_T forces_pots fuel st1;
    Some ('(r, st2) ← res;
          inr (if threebody
               then map_triples pots sqrt interp3d nint dof nprim fnmrms w2 nmrms
                                beads_q V_T r st2
               else map_pairs pots sqrt interp2d nint dof nprim fnmrms print_2b_map
                              w2 nmrms beads_q V_T forces_pots r st2)).

(** A file that the pair map does not write: neither a pair grid, nor the
    grid of a single mode, nor a printed pair map. *)
Definition kept_by_pair_map (f : string) : Prop :=
  (forall i j, f <> vcoupled_file i j) /\
  (forall i, f <> vindep_file i) /\
  (forall i j : nat,
     f <> "vcoupledmap." +:+ pretty i +:+ "." +:+ pretty j +:+ ".dat").

(** A file that the sampling of the ranges does not write. *)
Definition kept_by_sampling (f : string) : Prop :=
  f <> "nptsmin.dat" /\ f <> "nptsmax.dat" /\ forall k, f <> vindeps_file k.

(** The sampling bounds and slices on the disk are those that an earlier
    call for the same modes wrote: the bounds one integer per degree of
    freedom, and for every kept mode a slice of [npts + 4] numbers, one per
    line.  (With two degrees of freedom or more, so that [np.loadtxt] gives
    the bounds back as vectors.) *)
Definition cache_well_formed (dof : nat) (w2 : list Q) (d : disk) : Prop :=
  (2 <= dof)%nat /\
  exists (nmin nmax : list nat) (slices : list (list Q)),
    length nmin = dof /\ length nmax = dof /\
    d !! "nptsmin.dat" = Some (ints_table nmin) /\
    d !! "nptsmax.dat" = Some (ints_table nmax) /\
    Forall2 (fun inm vi =>
               d !! vindeps_file inm = Some (column_table vi) /\
               length vi = (nth inm nmin 0 + nth inm nmax 0 + 1 + 4)%nat)
            (inms dof w2) slices.

(** Every pair grid on the disk comes with the grids of its two modes. *)
Definition slices_with_pairs (d : disk) : Prop :=
  forall i j, is_Some (d !! vcoupled_file i j) ->
              is_Some (d !! vindep_file i) /\ is_Some (d !! vindep_file j).

(** *** A test system

    Two coordinates that are the two modes, the potential
    [(x^2 + y^2) / 2 + x y / 10], unit step, [nevib * nmevib = 1/2], three
    integration points.  The fitted surface is taken to be the potential
    itself, which a cubic fit of a quadratic surface reproduces. *)

Module Example.

Definition surface (x y : Q) : Q := (Qsquare x + Qsquare y) / 2 + x * y / 10.
Definition pots (x : list Q) : Q := Qred (surface (nth 0 x 0) (nth 1 x 0)).
Definition sqrt (x : Q) : Q := x.
Definition interp2d (xs ys zs : list Q) (x y : Q) : Q := Qred (surface x y).
Definition interp3d (xs ys zs : list Q) (v : list (list (list Q))) (x y z : Q) : Q := 0.

Definition start : mstate := {| files := ∅; evaluated := [] |}.

Abbreviation step threebody :=
  (VSCFMapper_step pots sqrt interp2d interp3d 3 2 1 1 1 threebody false
     [1; 1] [1; 1] [1 # 2; 1 # 2] [0; 0] [[1; 0]; [0; 1]] 0 10 0 start).

(** The state after the step, with [threebody] off and on. *)
Definition after_pairs : mstate :=
  Eval vm_compute in
    match step false with Some (inr st) => st | _ => start end.
Definition after_triples : mstate :=
  Eval vm_compute in
    match step true with Some (inr st) => st | _ => start end.

End Example.

(** *** Properties of the pair map *)

Section step_facts.

Variable pots : list Q -> Q.
Variable sqrt : Q -> Q.
Variable interp2d : list Q -> list Q -> list Q -> Q -> Q -> Q.
Variable interp3d :
  list Q -> list Q -> list Q -> list (list (list Q)) -> Q -> Q -> Q -> Q.
Variable nint dof : nat.
Variable nprim fnmrms nevib : Q.
Variable print_2b_map : bool.
Variable w2 nmrms nmevib : list Q.
Variable beads_q : list Q.
Variable V_T : list (list Q).
Variable forces_pots : Q.

Local Abbreviation inms := (inms dof w2).
Local Abbreviation map_pair :=
  (map_pair pots sqrt interp2d nint nprim fnmrms print_2b_map w2 nmrms beads_q V_T
     forces_pots).
Local Abbreviation map_pairs :=
  (map_pairs pots sqrt interp2d nint dof nprim fnmrms print_2b_map w2 nmrms beads_q
     V_T forces_pots).
Local Abbreviation mapped :=
  (mapped pots sqrt interp2d nint dof nprim fnmrms w2 nmrms beads_q V_T).
Local Abbreviation pending_or_mapped :=
  (pending_or_mapped pots sqrt interp2d nint dof nprim fnmrms w2 nmrms beads_q V_T).
Local Abbreviation pair_table :=
  (pair_table pots sqrt interp2d nint nprim fnmrms nmrms beads_q V_T).
Local Abbreviation asked := (asked sqrt nprim fnmrms nmrms beads_q V_T).
Local Abbreviation vtots := (vtots pots sqrt nprim fnmrms nmrms beads_q V_T).
Local Abbreviation vtot := (vtot pots sqrt nprim fnmrms nmrms beads_q V_T).
Local Abbreviation nms := (nms fnmrms nmrms).
Local Abbreviation displaced2 := (displaced2 sqrt nprim beads_q V_T).
Local Abbreviation coupling_table := (coupling_table nint fnmrms nmrms).
Local Abbreviation sample_modes :=
  (sample_modes pots sqrt nprim fnmrms nevib nmrms nmevib beads_q V_T forces_pots).
Local Abbreviation sampling_ranges :=
  (sampling_ranges pots sqrt dof nprim fnmrms nevib w2 nmrms nmevib beads_q V_T
     forces_pots).

(** **** The sampled grid *)

Lemma bind_singleton_lookup {A B : Type} (g : A -> B) (l : list A) :
  (x ← l; [g x]) = map g l.
Proof. induction l as [|x l IH]; [reflexivity|]. simpl. by f_equal. Qed.

Lemma grid_indices_lookup (r : ranges) (inm jnm i j : nat) :
  (i < npts r inm + 4)%nat -> (j < npts r jnm + 4)%nat ->
  grid_indices r inm jnm !! (i * (npts r jnm + 4) + j)%nat = Some (i, j).
Proof.
  unfold grid_indices. generalize (npts r inm + 4)%nat (npts r jnm + 4)%nat.
  intros ni nj Hi Hj.
  assert (Hgen : forall k n, (i < n)%nat ->
            (a ← seq k n; b ← seq 0 nj; [(a, b)]) !! (i * nj + j)%nat
            = Some ((k + i)%nat, j)).
  { intros k n. revert k i Hi. induction n as [|n IH]; intros k i Hi Hn; [lia|].
    simpl. rewrite bind_singleton_lookup.
    destruct i as [|i].
    - rewrite lookup_app_l by (rewrite length_map, length_seq; lia).
      rewrite list_lookup_fmap, lookup_seq_lt by lia. simpl. do 2 f_equal. lia.
    - rewrite lookup_app_r by (rewrite length_map, length_seq; lia).
      rewrite length_map, length_seq.
      replace (S i * nj + j - nj)%nat with (i * nj + j)%nat by lia.
      rewrite IH by lia. do 2 f_equal. lia. }
  by rewrite Hgen.
Qed.

Lemma grid_indices_length (r : ranges) (inm jnm : nat) :
  length (grid_indices r inm jnm) = ((npts r inm + 4) * (npts r jnm + 4))%nat.
Proof.
  unfold grid_indices. generalize (npts r inm + 4)%nat (npts r jnm + 4)%nat.
  intros ni nj.
  assert (Hgen : forall k n,
            length (a ← seq k n; b ← seq 0 nj; [(a, b)]) = (n * nj)%nat).
  { intros k n. revert k. induction n as [|n IH]; intros k; [reflexivity|].
    simpl. rewrite length_app, IH, bind_singleton_lookup, length_map, length_seq.
    reflexivity. }
  apply Hgen.
Qed.

(** The grid has [(npts_i + 4) * (npts_j + 4)] points; a point on either
    axis takes the stored slice of the other mode, and only the points off
    both axes are asked of the engine. *)
Lemma vtots_spec (r : ranges) (rinm rjnm inm jnm : nat) :
  length (vtots r rinm rjnm inm jnm) = ((npts r inm + 4) * (npts r jnm + 4))%nat /\
  forall i j, (i < npts r inm + 4)%nat -> (j < npts r jnm + 4)%nat ->
    at_index (vtots r rinm rjnm inm jnm) (i * (npts r jnm + 4) + j)
    = if (steps r inm i =? 0)%Z then at_index (nth rjnm (vis r) []) j
      else if (steps r jnm j =? 0)%Z then at_index (nth rinm (vis r) []) i
      else pots (displaced2 inm jnm (at_index (nms r inm) i) (at_index (nms r jnm) j))
           / nprim.
Proof.
  split.
  - unfold VSCFMapper.vtots. rewrite length_map. apply grid_indices_length.
  - intros i j Hi Hj. unfold VSCFMapper.vtots, at_index.
    rewrite nth_lookup, list_lookup_fmap, grid_indices_lookup by assumption.
    reflexivity.
Qed.

(** **** Files touched *)

Lemma exists_file_false (d : disk) (f : string) :
  exists_file d f = false <-> d !! f = None.
Proof.
  unfold exists_file. rewrite bool_decide_eq_false, <- eq_None_not_Some. done.
Qed.

Lemma write_if_absent_other (d : disk) (f g : string) (t : table) :
  f <> g -> write_if_absent d g t !! f = d !! f.
Proof.
  intros Hne. unfold write_if_absent.
  destruct (exists_file d g); [reflexivity|]. by rewrite lookup_insert_ne.
Qed.

Lemma map_pair_not_cached (r : ranges) (rinm rjnm inm jnm : nat) (st : mstate) :
  files st !! vcoupled_file inm jnm = None ->
  files (map_pair r rinm rjnm inm jnm st) !! vcoupled_file inm jnm
  = Some (pair_table r rinm rjnm inm jnm) /\
  evaluated (map_pair r rinm rjnm inm jnm st) = evaluated st ++ asked r inm jnm.
Proof.
  intros Hnone. unfold VSCFMapper.map_pair.
  apply exists_file_false in Hnone. rewrite Hnone. simpl.
  split; [|reflexivity]. by rewrite lookup_insert_eq.
Qed.

Lemma map_pair_cached (r : ranges) (rinm rjnm inm jnm : nat) (st : mstate) :
  is_Some (files st !! vcoupled_file inm jnm) ->
  map_pair r rinm rjnm inm jnm st = st.
Proof.
  intros Hsome. unfold VSCFMapper.map_pair.
  apply VSCFSolver.exists_file_true in Hsome. by rewrite Hsome.
Qed.

Lemma map_pair_other (r : ranges) (rinm rjnm inm jnm i0 j0 : nat) (st : mstate) :
  (inm, jnm) <> (i0, j0) ->
  files (map_pair r rinm rjnm inm jnm st) !! vcoupled_file i0 j0
  = files st !! vcoupled_file i0 j0.
Proof.
  intros Hne. unfold VSCFMapper.map_pair.
  destruct (exists_file (files st) (vcoupled_file inm jnm)); [reflexivity|].
  simpl. rewrite lookup_insert_ne.
  2:{ intros H. apply vcoupled_file_inj in H as [-> ->]. by apply Hne. }
  rewrite !write_if_absent_other by apply vcoupled_not_vindep.
  destruct print_2b_map; [|reflexivity].
  rewrite lookup_insert_ne; [reflexivity|].
  intros H. symmetry in H. by apply vcoupled_not_map in H.
Qed.

Lemma map_pair_evaluated (r : ranges) (rinm rjnm inm jnm : nat) (st : mstate) :
  exists more, evaluated (map_pair r rinm rjnm inm jnm st) = evaluated st ++ more.
Proof.
  unfold VSCFMapper.map_pair.
  destruct (exists_file (files st) (vcoupled_file inm jnm)).
  - exists []. by rewrite app_nil_r.
  - by eexists.
Qed.

Lemma map_pair_keeps_mapped (r : ranges) (rinm rjnm inm jnm i0 j0 : nat)
    (st : mstate) :
  mapped r i0 j0 st -> mapped r i0 j0 (map_pair r rinm rjnm inm jnm st).
Proof.
  intros (a & b & before & after & Ha & Hb & Hfile & Hlog).
  destruct (decide ((inm, jnm) = (i0, j0))) as [[= -> ->]|Hne].
  - rewrite map_pair_cached by (by eexists). by exists a, b, before, after.
  - destruct (map_pair_evaluated r rinm rjnm inm jnm st) as [more Hmore].
    exists a, b, before, (after ++ more).
    split; [exact Ha|]. split; [exact Hb|]. split.
    + by rewrite map_pair_other.
    + rewrite Hmore, Hlog. by rewrite <- !app_assoc.
Qed.

(** **** The double loop *)

Lemma numbered_lookup (l : list nat) (a x : nat) :
  (a, x) ∈ numbered l -> l !! a = Some x.
Proof.
  unfold numbered. intros H.
  apply list_elem_of_lookup in H as [k Hk].
  apply lookup_zip_with_Some in Hk as (a' & x' & [= <- <-] & Ha & Hx).
  apply lookup_seq in Ha as [-> _]. exact Hx.
Qed.

Lemma numbered_elem (l : list nat) (x : nat) :
  x ∈ l -> exists a, (a, x) ∈ numbered l.
Proof.
  intros H. apply list_elem_of_lookup in H as [a Ha].
  exists a. unfold numbered. apply list_elem_of_lookup. exists a.
  apply lookup_zip_with_Some. exists a, x.
  split; [reflexivity|]. split; [|exact Ha].
  apply lookup_seq. split; [reflexivity|]. by eapply lookup_lt_Some.
Qed.

Lemma inner_loop (r : ranges) (i0 j0 rinm inm : nat) (row : list (nat * nat)) :
  forall st : mstate,
    inms !! rinm = Some inm ->
    (forall b j, (b, j) ∈ row -> inms !! b = Some j) ->
    pending_or_mapped r i0 j0 st ->
    let st' :=
      fold_left
        (fun st2 '(rjnm, jnm) =>
           if (inm <? jnm)%nat then map_pair r rinm rjnm inm jnm st2 else st2)
        row st in
    pending_or_mapped r i0 j0 st' /\
    (mapped r i0 j0 st -> mapped r i0 j0 st') /\
    (inm = i0 -> (i0 < j0)%nat -> (exists b, (b, j0) ∈ row) -> mapped r i0 j0 st').
Proof.
  induction row as [|[b j] row IH]; intros st Hrinm Hrow Hinv; simpl.
  - split; [exact Hinv|]. split; [done|].
    intros _ _ [b Hb]. by apply elem_of_nil in Hb.
  - set (st1 := if (inm <? j)%nat then map_pair r rinm b inm j st else st).
    assert (Hb : inms !! b = Some j) by (apply Hrow; left).
    assert (Hkeep : mapped r i0 j0 st -> mapped r i0 j0 st1).
    { intros Hm. unfold st1. destruct (inm <? j)%nat; [|exact Hm].
      by apply map_pair_keeps_mapped. }
    assert (Hhere : inm = i0 -> j = j0 -> (i0 < j0)%nat -> mapped r i0 j0 st1).
    { intros -> -> Hlt. destruct Hinv as [Hm|Hnone]; [by apply Hkeep|].
      unfold st1. destruct (Nat.ltb_spec i0 j0) as [_|Hge]; [|lia].
      destruct (map_pair_not_cached r rinm b i0 j0 st Hnone) as [Hf Hl].
      exists rinm, b, (evaluated st), [].
      split; [exact Hrinm|]. split; [exact Hb|]. split; [exact Hf|].
      by rewrite app_nil_r. }
    assert (Hinv1 : pending_or_mapped r i0 j0 st1).
    { destruct Hinv as [Hm|Hnone]; [left; by apply Hkeep|].
      destruct (inm <? j)%nat eqn:E.
      - apply Nat.ltb_lt in E.
        destruct (decide ((inm, j) = (i0, j0))) as [[= -> ->]|Hne].
        + left. by apply Hhere.
        + right. unfold st1. by rewrite map_pair_other.
      - right. exact Hnone. }
    destruct (IH st1 Hrinm) as (Hfin & Hmap & Hprog); [|exact Hinv1|].
    { intros b' j' Hin. apply Hrow. by right. }
    split; [exact Hfin|]. split; [intros Hm; apply Hmap, Hkeep, Hm|].
    intros Hi Hlt [b' Hin]. apply elem_of_cons in Hin as [[= -> ->]|Hin].
    + apply Hmap. by apply Hhere.
    + apply Hprog; [done..|]. by exists b'.
Qed.

Lemma outer_loop (r : ranges) (i0 j0 : nat) (rows : list (nat * nat)) :
  forall st : mstate,
    (forall a i, (a, i) ∈ rows -> inms !! a = Some i) ->
    pending_or_mapped r i0 j0 st ->
    let st' :=
      fold_left
        (fun st1 '(rinm, inm) =>
           fold_left
             (fun st2 '(rjnm, jnm) =>
                if (inm <? jnm)%nat then map_pair r rinm rjnm inm jnm st2 else st2)
             (numbered inms) st1)
        rows st in
    pending_or_mapped r i0 j0 st' /\
    (mapped r i0 j0 st -> mapped r i0 j0 st') /\
    ((i0 < j0)%nat -> (exists a, (a, i0) ∈ rows) ->
     (exists b, (b, j0) ∈ numbered inms) -> mapped r i0 j0 st').
Proof.
  induction rows as [|[a i] rows IH]; intros st Hrows Hinv; simpl.
  - split; [exact Hinv|]. split; [done|].
    intros _ [a Ha]. by apply elem_of_nil in Ha.
  - assert (Ha : inms !! a = Some i) by (apply Hrows; left).
    destruct (inner_loop r i0 j0 a i (numbered inms) st Ha) as (Hinv1 & Hkeep & Hhere);
      [intros b j; apply numbered_lookup | exact Hinv |].
    match goal with
    | |- context [fold_left _ rows ?s] => set (st1 := s) in *
    end.
    destruct (IH st1) as (Hfin & Hmap & Hprog); [|exact Hinv1|].
    { intros a' i' Hin. apply Hrows. by right. }
    split; [exact Hfin|]. split; [intros Hm; apply Hmap, Hkeep, Hm|].
    intros Hlt [a' Hin] Hj. apply elem_of_cons in Hin as [[= -> ->]|Hin].
    + apply Hmap. by apply Hhere.
    + apply Hprog; [done| |done]. by exists a'.
Qed.

(** **** What comes before the loops leaves the pair files alone *)

Lemma sample_modes_files (fuel : nat) (modes : list nat) :
  forall (r r' : ranges) (st st' : mstate) (f : string),
    sample_modes fuel modes r st = Some (r', st') ->
    (forall k, f <> vindeps_file k) ->
    files st' !! f = files st !! f.
Proof.
  induction modes as [|inm rest IH]; intros r r' st st' f H Hf; simpl in H.
  - by injection H as _ <-.
  - destruct (sample_mode _ _ _ _ _ _ _ _ _ _ _ _ _) as [[[[vi nmin] nmax] log]|];
      [|discriminate].
    simpl in H. rewrite (IH _ _ _ _ f H Hf). simpl.
    by rewrite lookup_insert_ne.
Qed.

Lemma sampling_ranges_files (fuel : nat) (st st' : mstate) (r : ranges)
    (i j : nat) :
  sampling_ranges fuel st = Some (inr (r, st')) ->
  files st' !! vcoupled_file i j = files st !! vcoupled_file i j.
Proof.
  unfold VSCFMapper.sampling_ranges.
  destruct (exists_file (files st) "nptsmax.dat").
  - intros [= H].
    destruct (loadtxt (files st) "nptsmin.dat") as [e|tmin]; [discriminate|].
    destruct (loadtxt (files st) "nptsmax.dat") as [e|tmax]; [discriminate|].
    simpl in H.
    destruct (load_vis (files st) inms []) as [e|v]; [discriminate|].
    simpl in H. by injection H as _ <-.
  - destruct (sample_modes fuel inms _ st) as [[r1 st1]|] eqn:Hs; [|discriminate].
    simpl. intros [= <- <-]. simpl.
    rewrite !lookup_insert_ne by (unfold vcoupled_file; simpl; discriminate).
    eapply sample_modes_files; [exact Hs|].
    intros k H. by apply vcoupled_not_vindeps in H.
Qed.

End step_facts.

(** *** The test system *)

Lemma example_step_pairs : Example.step false = Some (inr Example.after_pairs).
Proof. vm_compute. reflexivity. Qed.

Lemma example_step_triples : Example.step true = Some (inr Example.after_triples).
Proof. vm_compute. reflexivity. Qed.

(** The specification has every pair that is not on the disk mapped.  With
    [threebody] on the pair loop is not run at all: on the two-mode test
    system no triple exists, and the grid file of the pair (0, 1) is still
    absent after the step. *)
Lemma threebody_step_leaves_pair_unmapped :
  Example.step true = Some (inr Example.after_triples) /\
  0%nat ∈ inms 2 [1; 1] /\ 1%nat ∈ inms 2 [1; 1] /\
  files Example.start !! vcoupled_file 0 1 = None /\
  files Example.after_triples !! vcoupled_file 0 1 = None.
Proof.
  split; [exact example_step_triples|].
  split; [apply list_elem_of_In; vm_compute; by left|].
  split; [apply list_elem_of_In; vm_compute; right; by left|].
  split; [reflexivity|]. vm_compute. reflexivity.
Qed.

(** *** The kept modes *)

Lemma ascending_seq (n a : nat) : ascending (seq a n) = true.
Proof.
  revert a. induction n as [|n IH]; intros a; [reflexivity|].
  simpl. rewrite IH, andb_true_r. apply forallb_forall.
  intros y Hy. apply in_seq in Hy. apply Nat.ltb_lt. lia.
Qed.

Lemma ascending_filter (P : nat -> bool) (l : list nat) :
  ascending l = true -> ascending (List.filter P l) = true.
Proof.
  induction l as [|x l IH]; intros H; [reflexivity|].
  simpl in H. apply andb_prop in H as [Hall Hl]. simpl.
  destruct (P x); [|by apply IH].
  simpl. rewrite (IH Hl), andb_true_r. apply forallb_forall.
  intros y Hy. apply filter_In in Hy as [Hy _].
  rewrite forallb_forall in Hall. by apply Hall.
Qed.

(** X8.  The modes that [VSCFMapper.step] keeps and writes to [modes.dat]
    are exactly the indices below [dof] whose [|w2|] exceeds [1e-10], in
    strictly ascending order: the double loop [jnm > inm] therefore meets
    each unordered pair of kept modes once. *)
Theorem inms_are_the_vibrations_in_order (dof : nat) (w2 : list Q) :
  ascending (inms dof w2) = true /\
  forall inm, inm ∈ inms dof w2 <->
              (inm < dof)%nat /\ 1e-10 < Qabs (at_index w2 inm).
Proof.
  split.
  - unfold inms. apply ascending_filter, ascending_seq.
  - intros inm. unfold inms. rewrite list_elem_of_In, filter_In, in_seq, Qltb_lt.
    split; intros [H1 H2]; (split; [lia | exact H2]).
Qed.

(** *** Names of the files *)

Lemma index_name_inj (pre : string) (i j : nat) :
  pre +:+ pretty i +:+ ".dat" = pre +:+ pretty j +:+ ".dat" -> i = j.
Proof.
  intros H. apply (inj (String.append pre)) in H.
  apply (dot_split _ _ "dat" "dat") in H as [H _]; try apply pretty_nat_dot_free.
  by apply (inj pretty).
Qed.

Lemma vindep_file_inj (i j : nat) : vindep_file i = vindep_file j -> i = j.
Proof. apply index_name_inj. Qed.

Lemma vindeps_file_inj (i j : nat) : vindeps_file i = vindeps_file j -> i = j.
Proof. apply index_name_inj. Qed.

Lemma vtriplet_file_inj (i j k i' j' k' : nat) :
  vtriplet_file i j k = vtriplet_file i' j' k' -> i = i' /\ j = j' /\ k = k'.
Proof.
  unfold vtriplet_file. intros H.
  apply (inj (String.append "vtriplet.")) in H.
  apply dot_split in H as [Hi H]; try apply pretty_nat_dot_free.
  apply dot_split in H as [Hj H]; try apply pretty_nat_dot_free.
  apply (dot_split _ _ "dat" "dat") in H as [Hk _]; try apply pretty_nat_dot_free.
  repeat split; by apply (inj pretty).
Qed.

(** X9.  The names of the files that the Mapper writes and the Solver
    reads determine the modes they are about: two pairs (or two modes, or
    two triples) never share a file, whatever the number of digits of their
    indices, and no pair file is the file of a single mode.  (Mode 1 with
    mode 12 and mode 11 with mode 2 are kept apart by the dot between the
    indices.) *)
Theorem file_names_determine_modes :
  (forall i j, vindep_file i = vindep_file j -> i = j) /\
  (forall i j, vindeps_file i = vindeps_file j -> i = j) /\
  (forall i j i' j', vcoupled_file i j = vcoupled_file i' j' -> i = i' /\ j = j') /\
  (forall i j k i' j' k',
     vtriplet_file i j k = vtriplet_file i' j' k' -> i = i' /\ j = j' /\ k = k') /\
  (forall i j k, vcoupled_file i j <> vindep_file k /\
                 vcoupled_file i j <> vindeps_file k /\
                 vindep_file i <> vindeps_file k).
Proof.
  split; [apply vindep_file_inj|]. split; [apply vindeps_file_inj|].
  split; [apply vcoupled_file_inj|]. split; [apply vtriplet_file_inj|].
  intros i j k. split; [apply vcoupled_not_vindep|].
  split; [apply vcoupled_not_vindeps|].
  unfold vindep_file, vindeps_file. simpl. discriminate.
Qed.

(** *** The slice of one mode *)

Section sample_facts.

Variable pots : list Q -> Q.
Variable sqrt : Q -> Q.
Variable nprim fnmrms nevib : Q.
Variable nmrms nmevib : list Q.
Variable beads_q : list Q.
Variable V_T : list (list Q).
Variable forces_pots : Q.

Local Abbreviation sample_side :=
  (sample_side pots sqrt nprim fnmrms nevib nmrms nmevib beads_q V_T forces_pots).
Local Abbreviation sample_mode :=
  (sample_mode pots sqrt nprim fnmrms nevib nmrms nmevib beads_q V_T forces_pots).
Local Abbreviation v0 := (v0 nprim forces_pots).

Lemma sample_side_grows (fuel : nat) (inm : nat) (sign : Z) :
  forall (counter : Z) (vi : list Q) (log : list (list Q))
         (vi' : list Q) (c' : Z) (log' : list (list Q)),
    sample_side fuel inm sign counter vi log = Some (vi', c', log') ->
    exists (n : nat) (more : list Q),
      c' = (counter + Z.of_nat n * sign)%Z /\
      vi' = vi ++ more /\ length more = (n + 3)%nat /\
      length log' = (length log + n + 3)%nat.
Proof.
  induction fuel as [|fuel IH]; intros counter vi log vi' c' log' H;
    [discriminate|].
  simpl in H. destruct (Qltb _ _).
  - injection H as <- <- <-. exists 0%nat. eexists.
    split; [lia|]. split; [by rewrite <- app_assoc|].
    split; [reflexivity|]. rewrite length_app. simpl. lia.
  - apply IH in H as (n & more & Hc & Hvi & Hlen & Hlog).
    exists (S n). eexists.
    split; [lia|]. split; [by rewrite Hvi, <- app_assoc|].
    split; [simpl; lia|]. rewrite Hlog, length_app. simpl. lia.
Qed.

(** X10.  The one-dimensional slice that the Mapper stores for a mode has
    [nptsmin + nptsmax + 5] entries, that is [npts + 4] (the samples from
    [-nptsmin] to [nptsmax] steps and two more points at each end), with
    the potential of the undisplaced geometry at index [nptsmin + 2]: the
    pair map that follows reads [vis[.][j]] for [j < npts + 4] and takes the
    entry with [-nptsmin + j - 2 = 0] for the origin.  Both counts are at
    least 1, and the engine is asked [nptsmin + nptsmax + 4] potentials. *)
Theorem sample_mode_fills_the_grid_axis
    (fuel inm : nat) (log log' : list (list Q)) (vi : list Q) (nmin nmax : nat) :
  sample_mode fuel inm log = Some (vi, nmin, nmax, log') ->
  (1 <= nmin)%nat /\ (1 <= nmax)%nat /\
  length vi = (nmin + nmax + 5)%nat /\
  vi !! (nmin + 2)%nat = Some v0 /\
  length log' = (length log + nmin + nmax + 4)%nat.
Proof.
  unfold VSCFMapper.sample_mode.
  destruct (sample_side fuel inm (-1) (-1) [v0] log) as [[[vneg cneg] log1]|] eqn:Hneg;
    [|discriminate].
  simpl.
  destruct (sample_side fuel inm 1 1 (rev vneg) log1) as [[[vpos cpos] log2]|] eqn:Hpos;
    [|discriminate].
  simpl. intros [= <- <- <- <-].
  apply sample_side_grows in Hneg as (n & more & -> & -> & Hmore & Hlog1).
  apply sample_side_grows in Hpos as (n' & more' & -> & -> & Hmore' & Hlog2).
  replace (Z.to_nat (- (-1 + Z.of_nat n * -1))) with (n + 1)%nat by lia.
  replace (Z.to_nat (1 + Z.of_nat n' * 1)) with (n' + 1)%nat by lia.
  split; [lia|]. split; [lia|].
  rewrite rev_app_distr. simpl.
  split; [|split].
  - rewrite !length_app, length_rev. simpl. lia.
  - rewrite <- app_assoc. rewrite lookup_app_r by (rewrite length_rev; lia).
    rewrite length_rev.
    replace (n + 1 + 2 - length more)%nat with 0%nat by lia. reflexivity.
  - lia.
Qed.

End sample_facts.

Lemma sample_mode_fills_the_grid_axis_witness :
  exists (vi : list Q) (log' : list (list Q)),
    sample_mode Example.pots Example.sqrt 1 1 1 [1; 1] [1 # 2; 1 # 2] [0; 0]
      [[1; 0]; [0; 1]] 0 10 0 [] = Some (vi, 2%nat, 2%nat, log') /\
    length vi = 9%nat /\ vi !! 4%nat = Some (v0 1 0).
Proof.
  eexists _, _. split; [vm_compute; reflexivity|].
  destruct (sample_mode_fills_the_grid_axis
              Example.pots Example.sqrt 1 1 1 [1; 1] [1 # 2; 1 # 2] [0; 0]
              [[1; 0]; [0; 1]] 0 10 0 [] _ _ 2 2 eq_refl)
    as (_ & _ & Hlen & Hv0 & _).
  split; [exact Hlen | exact Hv0].
Defined.

(** *** A second run on the files of the first *)

Lemma fold_left_inv {A S : Type} (R : S -> S -> Prop) (F : S -> A -> S)
    (l : list A) :
  (forall s, R s s) -> (forall s1 s2 s3, R s1 s2 -> R s2 s3 -> R s1 s3) ->
  (forall s x, R s (F s x)) -> forall s, R s (fold_left F l s).
Proof.
  intros Hrefl Htrans Hstep. induction l as [|x l IH]; intros s; simpl.
  - apply Hrefl.
  - eapply Htrans; [apply Hstep | apply IH].
Qed.

Lemma fold_left_fixed {A S : Type} (F : S -> A -> S) (l : list A) (s : S) :
  (forall x, x ∈ l -> F s x = s) -> fold_left F l s = s.
Proof.
  induction l as [|x l IH]; intros H; simpl; [reflexivity|].
  rewrite H by (by left). apply IH. intros y Hy. apply H. by right.
Qed.

Lemma as_ints_table (l : list nat) : as_ints (ints_table l) = l.
Proof.
  unfold as_ints, column, ints_table. rewrite !map_map.
  transitivity (map (fun n : nat => n) l); [|apply map_id].
  apply map_ext. intros n.
  change (nth 0 [inject_Z (Z.of_nat n)] 0) with (inject_Z (Z.of_nat n)).
  rewrite Qfloor_Z. apply Nat2Z.id.
Qed.

Lemma column_column_table (v : list Q) : column 0 (column_table v) = v.
Proof.
  unfold column, column_table. rewrite map_map. simpl. apply map_id.
Qed.

Lemma ascending_NoDup (l : list nat) : ascending l = true -> NoDup l.
Proof.
  induction l as [|x l IH]; intros H; [constructor|].
  apply VSCFSolver.ascending_cons in H as [Habove Hl]. constructor; [|by apply IH].
  intros Hin. specialize (Habove x Hin). lia.
Qed.

Section rerun_facts.

Variable pots : list Q -> Q.
Variable sqrt : Q -> Q.
Variable interp2d : list Q -> list Q -> list Q -> Q -> Q -> Q.
Variable interp3d :
  list Q -> list Q -> list Q -> list (list (list Q)) -> Q -> Q -> Q -> Q.
Variable nint dof : nat.
Variable nprim fnmrms nevib : Q.
Variable print_2b_map : bool.
Variable w2 nmrms nmevib : list Q.
Variable beads_q : list Q.
Variable V_T : list (list Q).
Variable forces_pots : Q.

Local Abbreviation inms := (inms dof w2).
Local Abbreviation map_pair :=
  (map_pair pots sqrt interp2d nint nprim fnmrms print_2b_map w2 nmrms beads_q V_T
     forces_pots).
Local Abbreviation map_pairs :=
  (map_pairs pots sqrt interp2d nint dof nprim fnmrms print_2b_map w2 nmrms beads_q
     V_T forces_pots).
Local Abbreviation sample_mode :=
  (sample_mode pots sqrt nprim fnmrms nevib nmrms nmevib beads_q V_T forces_pots).
Local Abbreviation sample_modes :=
  (sample_modes pots sqrt nprim fnmrms nevib nmrms nmevib beads_q V_T forces_pots).
Local Abbreviation sampling_ranges :=
  (sampling_ranges pots sqrt dof nprim fnmrms nevib w2 nmrms nmevib beads_q V_T
     forces_pots).
Local Abbreviation step :=
  (VSCFMapper_step pots sqrt interp2d interp3d nint dof nprim fnmrms nevib false
     print_2b_map w2 nmrms nmevib beads_q V_T forces_pots).

(** **** What the pair map leaves alone *)

Lemma write_if_absent_mono (d : disk) (f g : string) (t : table) :
  is_Some (d !! f) -> is_Some (write_if_absent d g t !! f).
Proof.
  intros H. unfold write_if_absent. destruct (exists_file d g); [exact H|].
  apply lookup_insert_is_Some'. by right.
Qed.

Lemma map_pair_mono (r : ranges) (rinm rjnm inm jnm : nat) (st : mstate)
    (f : string) :
  is_Some (files st !! f) -> is_Some (files (map_pair r rinm rjnm inm jnm st) !! f).
Proof.
  intros H. unfold VSCFMapper.map_pair.
  destruct (exists_file (files st) (vcoupled_file inm jnm)); [exact H|].
  simpl. apply lookup_insert_is_Some'. right.
  do 2 apply write_if_absent_mono.
  destruct print_2b_map; [|exact H].
  apply lookup_insert_is_Some'. by right.
Qed.

Lemma map_pair_keeps (r : ranges) (rinm rjnm inm jnm : nat) (st : mstate)
    (f : string) :
  kept_by_pair_map f ->
  files (map_pair r rinm rjnm inm jnm st) !! f = files st !! f.
Proof.
  intros (Hc & Hi & Hm). unfold VSCFMapper.map_pair.
  destruct (exists_file (files st) (vcoupled_file inm jnm)); [reflexivity|].
  simpl. rewrite lookup_insert_ne by (intros E; by apply (Hc inm jnm)).
  rewrite !write_if_absent_other by (intros E; by eapply Hi).
  destruct print_2b_map; [|reflexivity].
  apply lookup_insert_ne. intros E. by apply (Hm inm jnm).
Qed.

Lemma map_pairs_mono (r : ranges) (st : mstate) (f : string) :
  is_Some (files st !! f) -> is_Some (files (map_pairs r st) !! f).
Proof.
  unfold VSCFMapper.map_pairs.
  apply (fold_left_inv
           (fun s s' => is_Some (files s !! f) -> is_Some (files s' !! f)));
    [auto | auto |].
  intros s [rinm inm].
  apply (fold_left_inv
           (fun s s' => is_Some (files s !! f) -> is_Some (files s' !! f)));
    [auto | auto |].
  intros s' [rjnm jnm]. destruct (inm <? jnm)%nat; [|auto].
  apply map_pair_mono.
Qed.

Lemma map_pairs_keeps (r : ranges) (st : mstate) (f : string) :
  kept_by_pair_map f -> files (map_pairs r st) !! f = files st !! f.
Proof.
  intros Hf. unfold VSCFMapper.map_pairs.
  apply (fold_left_inv (fun s s' => files s' !! f = files s !! f));
    [done | intros s1 s2 s3 H1 H2; by rewrite H2 |].
  intros s [rinm inm].
  apply (fold_left_inv (fun s s' => files s' !! f = files s !! f));
    [done | intros s1 s2 s3 H1 H2; by rewrite H2 |].
  intros s' [rjnm jnm]. destruct (inm <? jnm)%nat; [|done].
  by apply map_pair_keeps.
Qed.

(** With every pair on the disk the pair map does nothing. *)
Lemma map_pairs_all_cached (r : ranges) (st : mstate) :
  (forall i j, i ∈ inms -> j ∈ inms -> (i < j)%nat ->
     is_Some (files st !! vcoupled_file i j)) ->
  map_pairs r st = st.
Proof.
  intros Hall. unfold VSCFMapper.map_pairs.
  apply fold_left_fixed. intros [rinm inm] Hi.
  apply fold_left_fixed. intros [rjnm jnm] Hj.
  destruct (Nat.ltb_spec inm jnm) as [Hlt|_]; [|reflexivity].
  apply map_pair_cached. apply Hall; [| |exact Hlt].
  - apply numbered_lookup in Hi. by eapply list_elem_of_lookup_2.
  - apply numbered_lookup in Hj. by eapply list_elem_of_lookup_2.
Qed.

(** After the pair map every pair is on the disk. *)
Lemma map_pairs_complete (r : ranges) (st : mstate) (i j : nat) :
  i ∈ inms -> j ∈ inms -> (i < j)%nat ->
  is_Some (files (map_pairs r st) !! vcoupled_file i j).
Proof.
  intros Hi Hj Hlt.
  destruct (files st !! vcoupled_file i j) as [t|] eqn:Hf.
  - apply map_pairs_mono. by rewrite Hf.
  - destruct (outer_loop pots sqrt interp2d nint dof nprim fnmrms print_2b_map
                w2 nmrms beads_q V_T forces_pots r i j (numbered inms) st)
      as (_ & _ & Hprog); [intros a x; apply numbered_lookup | by right |].
    destruct Hprog as (rinm & rjnm & before & after & _ & _ & Hfile & _);
      [exact Hlt | by apply numbered_elem | by apply numbered_elem |].
    unfold VSCFMapper.map_pairs. by rewrite Hfile.
Qed.

(** **** What the sampling of the ranges leaves alone, and what it writes *)

Lemma sample_modes_keeps (fuel : nat) (modes : list nat) :
  forall (r r' : ranges) (st st' : mstate) (f : string),
    sample_modes fuel modes r st = Some (r', st') ->
    (forall k, k ∈ modes -> f <> vindeps_file k) ->
    files st' !! f = files st !! f.
Proof.
  induction modes as [|m rest IH]; intros r r' st st' f H Hf; simpl in H.
  - by injection H as _ <-.
  - destruct (sample_mode fuel m (evaluated st)) as [[[[vi nmin] nmax] log]|];
      [|discriminate].
    simpl in H. rewrite (IH _ _ _ _ f H) by (intros k Hk; apply Hf; by right).
    simpl. apply lookup_insert_ne. intros E. symmetry in E. revert E.
    apply Hf. by left.
Qed.

(** The slices of the sampled modes, and the files that hold them. *)
Lemma sample_modes_slices (fuel : nat) (modes : list nat) :
  forall (r r' : ranges) (st st' : mstate),
    NoDup modes ->
    sample_modes fuel modes r st = Some (r', st') ->
    exists slices : list (list Q),
      vis r' = vis r ++ slices /\
      Forall2 (fun inm vi => files st' !! vindeps_file inm = Some (column_table vi))
              modes slices.
Proof.
  induction modes as [|m rest IH]; intros r r' st st' Hnd H; simpl in H.
  - injection H as <- <-. exists []. by rewrite app_nil_r.
  - apply NoDup_cons in Hnd as [Hm Hnd].
    destruct (sample_mode fuel m (evaluated st)) as [[[[vi nmin] nmax] log]|];
      [|discriminate].
    simpl in H. pose proof H as Hkeep.
    apply IH in H as (slices & Hvis & Hall); [|exact Hnd].
    simpl in Hvis. exists (vi :: slices).
    split; [by rewrite Hvis, <- app_assoc|].
    constructor; [|exact Hall].
    rewrite (sample_modes_keeps _ _ _ _ _ _ _ Hkeep).
    + simpl. apply lookup_insert_eq.
    + intros k Hk E. apply vindeps_file_inj in E as ->. contradiction.
Qed.

Lemma load_vis_slices (d : disk) (modes : list nat) :
  forall (slices acc : list (list Q)),
    Forall2 (fun inm vi => d !! vindeps_file inm = Some (column_table vi))
            modes slices ->
    load_vis d modes acc = inr (acc ++ slices).
Proof.
  induction modes as [|m rest IH]; intros slices acc Hall.
  - apply Forall2_nil_inv_l in Hall as ->. simpl. by rewrite app_nil_r.
  - apply Forall2_cons_inv_l in Hall as (vi & slices' & Hm & Hall & ->).
    simpl. unfold loadtxt. rewrite Hm. simpl.
    rewrite (IH slices' _ Hall), column_column_table, <- app_assoc. reflexivity.
Qed.

Lemma load_vis_ext (d d' : disk) (modes : list nat) :
  (forall k, d !! vindeps_file k = d' !! vindeps_file k) ->
  forall acc, load_vis d modes acc = load_vis d' modes acc.
Proof.
  intros H. induction modes as [|m rest IH]; intros acc; simpl; [reflexivity|].
  unfold loadtxt. rewrite H. destruct (d' !! vindeps_file m); simpl; [|reflexivity].
  apply IH.
Qed.

Lemma sampling_ranges_keeps (fuel : nat) (st st' : mstate) (r : ranges)
    (f : string) :
  sampling_ranges fuel st = Some (inr (r, st')) ->
  kept_by_sampling f ->
  files st' !! f = files st !! f.
Proof.
  intros H (Hmin & Hmax & Hvis). revert H. unfold VSCFMapper.sampling_ranges.
  destruct (exists_file (files st) "nptsmax.dat").
  - intros [= H].
    destruct (loadtxt (files st) "nptsmin.dat") as [e|tmin]; [discriminate|].
    destruct (loadtxt (files st) "nptsmax.dat") as [e|tmax]; [discriminate|].
    simpl in H.
    destruct (load_vis (files st) inms []) as [e|v]; [discriminate|].
    simpl in H. by injection H as _ <-.
  - destruct (sample_modes fuel inms _ st) as [[r1 st1]|] eqn:Hs; [|discriminate].
    simpl. intros [= <- <-]. simpl.
    rewrite !lookup_insert_ne by done.
    eapply sample_modes_keeps; [exact Hs|]. intros k _. apply Hvis.
Qed.

(** X11.  The ranges that a run samples are read back as they were: when
    [nptsmax.dat] is absent, [step] samples every kept mode, writes
    [nptsmin.dat], [nptsmax.dat] and one [vindeps] file per mode, and a later
    call that finds these files reads the same counts and the same slices
    from them, and asks nothing of the engine.  (Stated for at least two
    degrees of freedom: [np.loadtxt] gives a file of one number back as a
    scalar.) *)
Theorem sampled_ranges_are_read_back
    (fuel fuel' : nat) (st st' : mstate) (r : ranges) :
  (2 <= dof)%nat ->
  files st !! "nptsmax.dat" = None ->
  sampling_ranges fuel st = Some (inr (r, st')) ->
  sampling_ranges fuel' st' = Some (inr (r, st')).
Proof.
  intros _ Hnone. unfold VSCFMapper.sampling_ranges.
  rewrite (proj2 (exists_file_false (files st) _) Hnone).
  destruct (sample_modes fuel inms _ st) as [[r1 st1]|] eqn:Hs; [|discriminate].
  simpl. intros [= <- <-]. simpl.
  assert (Hex : exists_file
                  (<["nptsmax.dat" := ints_table (nptsmax r1)]>
                     (<["nptsmin.dat" := ints_table (nptsmin r1)]> (files st1)))
                  "nptsmax.dat" = true).
  { apply VSCFSolver.exists_file_true. rewrite lookup_insert_eq. by eexists. }
  rewrite Hex. unfold loadtxt.
  rewrite lookup_insert_eq.
  rewrite lookup_insert_ne, lookup_insert_eq by done.
  simpl.
  apply sample_modes_slices in Hs as (slices & Hvis & Hall).
  2:{ apply ascending_NoDup. unfold inms. apply ascending_filter, ascending_seq. }
  simpl in Hvis.
  rewrite (load_vis_slices _ inms slices []).
  2:{ eapply Forall2_impl; [exact Hall|]. intros inm vi Hf. simpl in Hf.
      rewrite !lookup_insert_ne by (unfold vindeps_file; simpl; discriminate).
      exact Hf. }
  simpl. rewrite !as_ints_table, <- Hvis. by destruct r1.
Qed.

(** X12.  A two-body run can be repeated: calling [step] again on the
    files that a completed call left changes no file and asks nothing of
    the force engine (the ranges and slices are read back, and every pair
    is found on the disk). *)
Theorem step_is_idempotent (fuel fuel' : nat) (st st' : mstate) :
  (2 <= dof)%nat ->
  step fuel 0 st = Some (inr st') ->
  step fuel' 0 st' = Some (inr st').
Proof.
  intros _. unfold VSCFMapper_step. simpl.
  set (T := ints_table inms). set (V := [[v0 nprim forces_pots]]).
  remember {| files := <["modes.dat" := T]> (<["potoffset.dat" := V]> (files st));
              evaluated := evaluated st |} as st1 eqn:Hst1.
  destruct (sampling_ranges fuel st1) as [[e|[r st2]]|] eqn:Hr;
    [discriminate| |discriminate].
  simpl. intros [= <-].
  set (S' := map_pairs r st2).
  assert (Hkm : forall f, f = "modes.dat" \/ f = "potoffset.dat" ->
                          kept_by_pair_map f /\ kept_by_sampling f).
  { intros f [-> | ->]; repeat split; try done;
      intros; unfold vcoupled_file, vindep_file, vindeps_file; simpl; discriminate. }
  assert (Hmodes : files S' !! "modes.dat" = Some T).
  { unfold S'. rewrite map_pairs_keeps by (apply Hkm; by left).
    rewrite (sampling_ranges_keeps _ _ _ _ _ Hr) by (apply Hkm; by left).
    rewrite Hst1. apply lookup_insert_eq. }
  assert (Hpot : files S' !! "potoffset.dat" = Some V).
  { unfold S'. rewrite map_pairs_keeps by (apply Hkm; by right).
    rewrite (sampling_ranges_keeps _ _ _ _ _ Hr) by (apply Hkm; by right).
    rewrite Hst1. simpl. rewrite lookup_insert_ne by done. apply lookup_insert_eq. }
  assert (Hst : {| files := <["modes.dat" := T]> (<["potoffset.dat" := V]> (files S'));
                   evaluated := evaluated S' |} = S').
  { rewrite (insert_id (files S') "potoffset.dat" V Hpot).
    rewrite (insert_id (files S') "modes.dat" T Hmodes). by destruct S'. }
  rewrite Hst.
  assert (Hks : forall f, f = "nptsmin.dat" \/ f = "nptsmax.dat" \/
                          (exists k, f = vindeps_file k) ->
                          kept_by_pair_map f).
  { intros f [-> | [-> | [k ->]]]; repeat split;
      intros; unfold vcoupled_file, vindep_file, vindeps_file; simpl; discriminate. }
  assert (Hsame : forall f, f = "nptsmin.dat" \/ f = "nptsmax.dat" \/
                            (exists k, f = vindeps_file k) ->
                            files S' !! f = files st2 !! f).
  { intros f Hf. unfold S'. apply map_pairs_keeps. by apply Hks. }
  assert (Hread : exists r2, sampling_ranges fuel' S' = Some (inr (r2, S'))).
  { revert Hr. unfold VSCFMapper.sampling_ranges.
    destruct (exists_file (files st1) "nptsmax.dat") eqn:Hex.
    - intros [= Hr].
      destruct (loadtxt (files st1) "nptsmin.dat") as [e|tmin] eqn:Hmin;
        [discriminate|].
      destruct (loadtxt (files st1) "nptsmax.dat") as [e|tmax] eqn:Hmax;
        [discriminate|].
      simpl in Hr.
      destruct (load_vis (files st1) inms []) as [e|v] eqn:Hv; [discriminate|].
      simpl in Hr. injection Hr as <- <-.
      assert (Hex' : exists_file (files S') "nptsmax.dat" = true).
      { unfold exists_file in *. rewrite Hsame by auto. exact Hex. }
      rewrite Hex'. unfold loadtxt in *.
      rewrite !Hsame by auto. rewrite Hmin, Hmax. simpl.
      rewrite (load_vis_ext (files S') (files st1)) by (intros k; apply Hsame; eauto).
      rewrite Hv. simpl. by eexists.
    - destruct (sample_modes fuel inms _ st1) as [[r1 sts]|] eqn:Hs; [|discriminate].
      simpl. intros [= <- <-].
      apply sample_modes_slices in Hs as (slices & Hvis & Hall).
      2:{ apply ascending_NoDup. unfold inms. apply ascending_filter, ascending_seq. }
      assert (Hex' : exists_file (files S') "nptsmax.dat" = true).
      { apply VSCFSolver.exists_file_true. rewrite Hsame by auto. simpl.
        rewrite lookup_insert_eq. by eexists. }
      rewrite Hex'. unfold loadtxt.
      rewrite !Hsame by auto. simpl.
      rewrite lookup_insert_eq.
      rewrite lookup_insert_ne, lookup_insert_eq by done.
      simpl.
      rewrite (load_vis_slices _ inms slices []).
      2:{ eapply Forall2_impl; [exact Hall|]. intros inm vi Hf. simpl in Hf.
          rewrite Hsame by eauto. simpl.
          rewrite !lookup_insert_ne by (unfold vindeps_file; simpl; discriminate).
          exact Hf. }
      simpl. by eexists. }
  destruct Hread as [r2 Hread]. rewrite Hread. simpl.
  do 2 f_equal. apply map_pairs_all_cached.
  intros i j Hi Hj Hlt. unfold S'. by apply map_pairs_complete.
Qed.

(** X13.  With fewer than two kept modes there is no pair to map: a
    two-body call of [step] writes no [vindep] file and no [vcoupled] file
    (the grid of a single mode is written only from the fit of a pair), and
    asks the engine nothing beyond the sampling of the ranges. *)
Theorem step_without_pairs_writes_no_grid
    (fuel : nat) (st st' : mstate) :
  (length inms <= 1)%nat ->
  step fuel 0 st = Some (inr st') ->
  (forall k, files st' !! vindep_file k = files st !! vindep_file k) /\
  (forall i j, files st' !! vcoupled_file i j = files st !! vcoupled_file i j).
Proof.
  intros Hlen. unfold VSCFMapper_step. simpl.
  destruct (sampling_ranges fuel _) as [[e|[r st2]]|] eqn:Hr;
    [discriminate| |discriminate].
  simpl. intros [= <-].
  rewrite map_pairs_all_cached.
  2:{ intros i j Hi Hj Hlt.
      apply list_elem_of_lookup in Hi as [a Ha].
      apply list_elem_of_lookup in Hj as [b Hb].
      pose proof (lookup_lt_Some _ _ _ Ha). pose proof (lookup_lt_Some _ _ _ Hb).
      assert (a = 0%nat) by lia. assert (b = 0%nat) by lia. subst.
      rewrite Ha in Hb. injection Hb as ->. lia. }
  split.
  - intros k. rewrite (sampling_ranges_keeps _ _ _ _ _ Hr).
    + simpl. by rewrite !lookup_insert_ne by done.
    + repeat split; try done;
        intros k'; unfold vindep_file, vindeps_file; simpl; discriminate.
  - intros i j. rewrite (sampling_ranges_keeps _ _ _ _ _ Hr).
    + simpl. by rewrite !lookup_insert_ne by (unfold vcoupled_file; simpl; discriminate).
    + repeat split; try (unfold vcoupled_file; simpl; discriminate);
        intros k; apply vcoupled_not_vindeps.
Qed.

End rerun_facts.

Lemma sampled_ranges_are_read_back_witness :
  exists (r : ranges) (st' : mstate),
    sampling_ranges Example.pots Example.sqrt 2 1 1 1 [1; 1] [1; 1] [1 # 2; 1 # 2]
      [0; 0] [[1; 0]; [0; 1]] 0 10 Example.start = Some (inr (r, st')) /\
    sampling_ranges Example.pots Example.sqrt 2 1 1 1 [1; 1] [1; 1] [1 # 2; 1 # 2]
      [0; 0] [[1; 0]; [0; 1]] 0 0 st' = Some (inr (r, st')).
Proof.
  eexists _, _. split; [vm_compute; reflexivity|].
  apply (sampled_ranges_are_read_back Example.pots Example.sqrt 2 1 1 1 [1; 1]
           [1; 1] [1 # 2; 1 # 2] [0; 0] [[1; 0]; [0; 1]] 0 10 0 Example.start).
  - lia.
  - reflexivity.
  - vm_compute. reflexivity.
Defined.

Lemma step_is_idempotent_witness :
  VSCFMapper_step Example.pots Example.sqrt Example.interp2d Example.interp3d
    3 2 1 1 1 false false [1; 1] [1; 1] [1 # 2; 1 # 2] [0; 0] [[1; 0]; [0; 1]] 0
    0 0 Example.after_pairs
  = Some (inr Example.after_pairs).
Proof.
  apply (step_is_idempotent Example.pots Example.sqrt Example.interp2d
           Example.interp3d 3 2 1 1 1 false [1; 1] [1; 1] [1 # 2; 1 # 2] [0; 0]
           [[1; 0]; [0; 1]] 0 10 0 Example.start).
  - lia.
  - exact example_step_pairs.
Defined.

Lemma step_without_pairs_writes_no_grid_witness :
  exists st' : mstate,
    VSCFMapper_step Example.pots Example.sqrt Example.interp2d Example.interp3d
      3 2 1 1 1 false false [0; 1] [1; 1] [1 # 2; 1 # 2] [0; 0] [[1; 0]; [0; 1]] 0
      10 0 Example.start
    = Some (inr st') /\
    files st' !! vindep_file 1 = None.
Proof.
  eexists. split; [vm_compute; reflexivity|].
  match goal with
  | |- files ?s !! _ = None =>
      assert (Hrun : VSCFMapper_step Example.pots Example.sqrt Example.interp2d
                       Example.interp3d 3 2 1 1 1 false false [0; 1] [1; 1]
                       [1 # 2; 1 # 2] [0; 0] [[1; 0]; [0; 1]] 0 10 0 Example.start
                     = Some (inr s)) by (vm_compute; reflexivity);
      assert (Hlen : (length (inms 2 [0; 1]%Q) <= 1)%nat) by (vm_compute; lia);
      rewrite (proj1 (step_without_pairs_writes_no_grid Example.pots Example.sqrt
                        Example.interp2d Example.interp3d 3 2 1 1 1 false [0; 1]
                        [1; 1] [1 # 2; 1 # 2] [0; 0] [[1; 0]; [0; 1]] 0 10
                        Example.start s Hlen Hrun))
  end.
  reflexivity.
Defined.

(** *** The Solver reads what the Mapper wrote *)

Section handover_facts.

Variable pots : list Q -> Q.
Variable sqrt : Q -> Q.
Variable interp2d : list Q -> list Q -> list Q -> Q -> Q -> Q.
Variable interp3d :
  list Q -> list Q -> list Q -> list (list (list Q)) -> Q -> Q -> Q -> Q.
Variable nint dof : nat.
Variable nprim fnmrms nevib : Q.
Variable print_2b_map : bool.
Variable w2 nmrms nmevib : list Q.
Variable beads_q : list Q.
Variable V_T : list (list Q).
Variable forces_pots : Q.

Local Abbreviation inms := (inms dof w2).
Local Abbreviation map_pair :=
  (map_pair pots sqrt interp2d nint nprim fnmrms print_2b_map w2 nmrms beads_q V_T
     forces_pots).
Local Abbreviation map_pairs :=
  (map_pairs pots sqrt interp2d nint dof nprim fnmrms print_2b_map w2 nmrms beads_q
     V_T forces_pots).
Local Abbreviation sampling_ranges :=
  (sampling_ranges pots sqrt dof nprim fnmrms nevib w2 nmrms nmevib beads_q V_T
     forces_pots).
Local Abbreviation step :=
  (VSCFMapper_step pots sqrt interp2d interp3d nint dof nprim fnmrms nevib false
     print_2b_map w2 nmrms nmevib beads_q V_T forces_pots).

Lemma write_if_absent_here (d : disk) (g : string) (t : table) :
  is_Some (write_if_absent d g t !! g).
Proof.
  unfold write_if_absent. destruct (exists_file d g) eqn:E.
  - by apply VSCFSolver.exists_file_true.
  - rewrite lookup_insert_eq. by eexists.
Qed.

Lemma map_pair_writes_slices (r : ranges) (rinm rjnm inm jnm : nat) (st : mstate) :
  files st !! vcoupled_file inm jnm = None ->
  is_Some (files (map_pair r rinm rjnm inm jnm st) !! vindep_file inm) /\
  is_Some (files (map_pair r rinm rjnm inm jnm st) !! vindep_file jnm).
Proof.
  intros Hnone. unfold VSCFMapper.map_pair.
  destruct (exists_file (files st) (vcoupled_file inm jnm)) eqn:E.
  { apply VSCFSolver.exists_file_true in E. rewrite Hnone in E.
    by destruct E. }
  simpl. split.
  - apply lookup_insert_is_Some'. right.
    apply write_if_absent_mono, write_if_absent_here.
  - apply lookup_insert_is_Some'. right. apply write_if_absent_here.
Qed.

Lemma map_pair_slices (r : ranges) (rinm rjnm inm jnm : nat) (st : mstate) :
  slices_with_pairs (files st) ->
  slices_with_pairs (files (map_pair r rinm rjnm inm jnm st)).
Proof.
  intros Hinv i j Hij.
  destruct (decide ((inm, jnm) = (i, j))) as [[= -> ->]|Hne].
  - destruct (files st !! vcoupled_file i j) as [t|] eqn:Hf.
    + rewrite map_pair_cached by (by rewrite Hf). apply Hinv. by rewrite Hf.
    + by apply map_pair_writes_slices.
  - rewrite map_pair_other in Hij by exact Hne.
    destruct (Hinv i j Hij) as [Hi Hj]. split; by apply map_pair_mono.
Qed.

Lemma map_pairs_slices (r : ranges) (st : mstate) :
  slices_with_pairs (files st) -> slices_with_pairs (files (map_pairs r st)).
Proof.
  unfold VSCFMapper.map_pairs.
  apply (fold_left_inv
           (fun s s' => slices_with_pairs (files s) -> slices_with_pairs (files s')));
    [auto | auto |].
  intros s [rinm inm].
  apply (fold_left_inv
           (fun s s' => slices_with_pairs (files s) -> slices_with_pairs (files s')));
    [auto | auto |].
  intros s' [rjnm jnm]. destruct (inm <? jnm)%nat; [|done].
  apply map_pair_slices.
Qed.

Lemma sampling_ranges_writes_counts (fuel : nat) (st st' : mstate) (r : ranges) :
  sampling_ranges fuel st = Some (inr (r, st')) ->
  is_Some (files st' !! "nptsmin.dat") /\ is_Some (files st' !! "nptsmax.dat").
Proof.
  unfold VSCFMapper.sampling_ranges.
  destruct (exists_file (files st) "nptsmax.dat") eqn:Hex.
  - intros [= H]. unfold loadtxt in H.
    destruct (files st !! "nptsmin.dat") as [tmin|] eqn:Hmin; [|discriminate].
    destruct (files st !! "nptsmax.dat") as [tmax|] eqn:Hmax; [|discriminate].
    simpl in H.
    destruct (load_vis (files st) inms []) as [e|v]; [discriminate|].
    simpl in H. injection H as _ <-. rewrite Hmin, Hmax. by split; eexists.
  - destruct (sample_modes _ _ _ _ _ _ _ _ _ _ _ _ _ _) as [[r1 st1]|];
      [|discriminate].
    simpl. intros [= <- <-]. simpl. split.
    + rewrite lookup_insert_ne by done. rewrite lookup_insert_eq. by eexists.
    + rewrite lookup_insert_eq. by eexists.
Qed.

Lemma another_mode (l : list nat) (i : nat) :
  NoDup l -> (2 <= length l)%nat -> i ∈ l -> exists j, j ∈ l /\ j <> i.
Proof.
  intros Hnd Hlen Hi. destruct l as [|a [|b rest]]; simpl in Hlen; try lia.
  apply NoDup_cons in Hnd as [Ha _].
  destruct (decide (i = a)) as [->|Hne].
  - exists b. split; [by right; left|]. intros E. apply Ha. rewrite <- E. by left.
  - exists a. split; [by left | done].
Qed.

(** **** The shapes of what the Mapper writes *)

Lemma ints_table_rect (l : list nat) : rect (length l) 1 (ints_table l).
Proof.
  split; [unfold ints_table; by rewrite length_map|].
  apply Forall_forall. intros row Hin.
  apply list_elem_of_fmap in Hin as (n & -> & _). reflexivity.
Qed.

Lemma integration_grid_length (r : ranges) (inm : nat) :
  length (integration_grid nint fnmrms nmrms r inm) = nint.
Proof. unfold integration_grid, linspace. by rewrite length_map, length_seq. Qed.

Lemma vindep_table_rect (r : ranges) (inm : nat) (slice : Q -> Q) (o : Q) :
  rect nint 2 (vindep_table nint fnmrms w2 nmrms r inm slice o).
Proof.
  unfold vindep_table. split.
  - by rewrite length_map, integration_grid_length.
  - apply Forall_forall. intros row Hin.
    apply list_elem_of_fmap in Hin as (q & -> & _). reflexivity.
Qed.

Lemma coupling_table_rect (r : ranges) (inm jnm : nat) (vtspl : Q -> Q -> Q) :
  rect nint nint (coupling_table nint fnmrms nmrms r inm jnm vtspl).
Proof.
  unfold coupling_table. split.
  - by rewrite length_map, integration_grid_length.
  - apply Forall_forall. intros row Hin.
    apply list_elem_of_fmap in Hin as (q & -> & _).
    by rewrite length_map, integration_grid_length.
Qed.

Lemma write_if_absent_lookup (d : disk) (g f : string) (T t : table) :
  write_if_absent d g T !! f = Some t -> d !! f = Some t \/ (f = g /\ t = T).
Proof.
  unfold write_if_absent. destruct (exists_file d g); [by left|].
  intros H. apply lookup_insert_Some in H as [[<- <-]|[_ H]]; [by right | by left].
Qed.

(** A file of the disk after the map of a pair was there before, or is one
    of the three grids that the map writes, or the printed map. *)
Lemma map_pair_lookup (r : ranges) (rinm rjnm inm jnm : nat) (st : mstate)
    (f : string) (t : table) :
  files (map_pair r rinm rjnm inm jnm st) !! f = Some t ->
  files st !! f = Some t \/
  (f = vcoupled_file inm jnm /\ rect nint nint t) \/
  ((f = vindep_file inm \/ f = vindep_file jnm) /\ rect nint 2 t) \/
  f = "vcoupledmap." +:+ pretty inm +:+ "." +:+ pretty jnm +:+ ".dat".
Proof.
  unfold VSCFMapper.map_pair.
  destruct (exists_file (files st) (vcoupled_file inm jnm)); [by left|].
  simpl. intros H.
  apply lookup_insert_Some in H as [[<- <-]|[_ H]].
  { right. left. split; [reflexivity | apply coupling_table_rect]. }
  apply write_if_absent_lookup in H as [H|[-> ->]].
  2: { right. right. left. split; [by right | apply vindep_table_rect]. }
  apply write_if_absent_lookup in H as [H|[-> ->]].
  2: { right. right. left. split; [by left | apply vindep_table_rect]. }
  destruct print_2b_map; [|by left].
  apply lookup_insert_Some in H as [[<- _]|[_ H]]; [by do 3 right | by left].
Qed.

Lemma map_pair_shaped (r : ranges) (rinm rjnm inm jnm : nat) (st : mstate) :
  VSCFSolver.grids_shaped nint dof (files st) ->
  VSCFSolver.grids_shaped nint dof (files (map_pair r rinm rjnm inm jnm st)).
Proof.
  intros (Hmin & Hmax & Hvi & Hvc & Hvt).
  assert (Hkeep : forall f, kept_by_pair_map f ->
            files (map_pair r rinm rjnm inm jnm st) !! f = files st !! f)
    by (intros f; apply map_pair_keeps).
  assert (Hnames : forall f,
            f = "nptsmin.dat" \/ f = "nptsmax.dat" \/
            (exists i j k, f = vtriplet_file i j k) -> kept_by_pair_map f).
  { intros f [-> | [-> | (i & j & k & ->)]]; repeat split; intros;
      unfold vcoupled_file, vindep_file, vtriplet_file; simpl; discriminate. }
  split; [intros t; rewrite Hkeep by (apply Hnames; tauto); apply Hmin|].
  split; [intros t; rewrite Hkeep by (apply Hnames; tauto); apply Hmax|].
  split; [|split].
  - intros i t H.
    apply map_pair_lookup in H as [H|[[E _]|[[_ Hrect]|E]]];
      [by eapply Hvi | | exact Hrect | ].
    + symmetry in E. by apply vcoupled_not_vindep in E.
    + unfold vindep_file in E. simpl in E. discriminate E.
  - intros i j t H.
    apply map_pair_lookup in H as [H|[[_ Hrect]|[[[E|E] _]|E]]];
      [by eapply Hvc | exact Hrect | | | ].
    + by apply vcoupled_not_vindep in E.
    + by apply vcoupled_not_vindep in E.
    + by apply vcoupled_not_map in E.
  - intros i j k t.
    rewrite Hkeep by (apply Hnames; do 2 right; by exists i, j, k). apply Hvt.
Qed.

Lemma map_pairs_shaped (r : ranges) (st : mstate) :
  VSCFSolver.grids_shaped nint dof (files st) ->
  VSCFSolver.grids_shaped nint dof (files (map_pairs r st)).
Proof.
  unfold VSCFMapper.map_pairs.
  apply (fold_left_inv
           (fun s s' => VSCFSolver.grids_shaped nint dof (files s) ->
                        VSCFSolver.grids_shaped nint dof (files s')));
    [auto | auto |].
  intros s [rinm inm].
  apply (fold_left_inv
           (fun s s' => VSCFSolver.grids_shaped nint dof (files s) ->
                        VSCFSolver.grids_shaped nint dof (files s')));
    [auto | auto |].
  intros s' [rjnm jnm]. destruct (inm <? jnm)%nat; [|done].
  apply map_pair_shaped.
Qed.

Lemma sample_modes_lengths (fuel : nat) (modes : list nat) :
  forall (r r' : ranges) (st st' : mstate),
    sample_modes pots sqrt nprim fnmrms nevib nmrms nmevib beads_q V_T forces_pots
      fuel modes r st = Some (r', st') ->
    length (nptsmin r') = length (nptsmin r) /\
    length (nptsmax r') = length (nptsmax r).
Proof.
  induction modes as [|m rest IH]; intros r r' st st' H; simpl in H.
  - by injection H as <- _.
  - destruct (sample_mode _ _ _ _ _ _ _ _ _ _ _ _ _) as [[[[vi nmin] nmax] log]|];
      [|discriminate].
    simpl in H. apply IH in H as [H1 H2]. simpl in H1, H2.
    by rewrite length_insert in H1, H2.
Qed.

Lemma sampling_ranges_shaped (fuel : nat) (st st' : mstate) (r : ranges) :
  sampling_ranges fuel st = Some (inr (r, st')) ->
  VSCFSolver.grids_shaped nint dof (files st) ->
  VSCFSolver.grids_shaped nint dof (files st').
Proof.
  intros Hr (Hmin & Hmax & Hvi & Hvc & Hvt).
  assert (Hkeep : forall f, kept_by_sampling f -> files st' !! f = files st !! f)
    by (intros f; by apply (sampling_ranges_keeps _ _ _ _ _ _ _ _ _ _ _ _ _ _ _ _ _ Hr)).
  assert (Hnames : forall f,
            (exists i, f = vindep_file i) \/ (exists i j, f = vcoupled_file i j) \/
            (exists i j k, f = vtriplet_file i j k) -> kept_by_sampling f).
  { intros f [(i & ->) | [(i & j & ->) | (i & j & k & ->)]]; repeat split; intros;
      unfold vcoupled_file, vindep_file, vindeps_file, vtriplet_file; simpl;
      discriminate. }
  assert (Hbounds : (forall t, files st' !! "nptsmin.dat" = Some t -> rect dof 1 t) /\
                    (forall t, files st' !! "nptsmax.dat" = Some t -> rect dof 1 t)).
  { revert Hr. unfold VSCFMapper.sampling_ranges.
    destruct (exists_file (files st) "nptsmax.dat").
    - intros [= H].
      destruct (loadtxt (files st) "nptsmin.dat") as [e|tmin]; [discriminate|].
      destruct (loadtxt (files st) "nptsmax.dat") as [e|tmax]; [discriminate|].
      simpl in H.
      destruct (load_vis (files st) inms []) as [e|v]; [discriminate|].
      simpl in H. injection H as _ <-. by split.
    - destruct (VSCFMapper.sample_modes _ _ _ _ _ _ _ _ _ _ _ _ _ _) as [[r1 st1]|]
        eqn:Hs; [|discriminate].
      simpl. intros [= <- <-]. simpl.
      apply sample_modes_lengths in Hs as [H1 H2]. simpl in H1, H2.
      rewrite repeat_length in H1, H2.
      split; intros t Ht.
      + rewrite lookup_insert_ne, lookup_insert_eq in Ht by done.
        injection Ht as <-. rewrite <- H1. apply ints_table_rect.
      + rewrite lookup_insert_eq in Ht.
        injection Ht as <-. rewrite <- H2. apply ints_table_rect. }
  split; [apply Hbounds|]. split; [apply Hbounds|].
  split; [|split].
  - intros i t. rewrite Hkeep by (apply Hnames; left; by exists i). apply Hvi.
  - intros i j t. rewrite Hkeep by (apply Hnames; right; left; by exists i, j).
    apply Hvc.
  - intros i j k t. rewrite Hkeep by (apply Hnames; do 2 right; by exists i, j, k).
    apply Hvt.
Qed.

(** X21.  The files that a completed call of [VSCFMapper.step] leaves
    behind are enough for a [VSCFSolver.step] with the same number of
    integration points and of degrees of freedom: when [nint >= 1], the
    Mapper has kept at least two modes, every pair grid that was on the
    disk before the call came with the grids of its two modes, the sampling
    bounds and grids that were on the disk had the shapes in which the
    Mapper writes them, and the bounds, if any, were those of an earlier
    call with their slices (an empty disk, or one left by an earlier call),
    the Solver without [threebody] reads all its input without stopping,
    and works on the modes that the Mapper kept. *)
Theorem solver_reads_what_the_mapper_wrote
    (fuel : nat) (st st' : mstate) :
  (1 <= nint)%nat ->
  (2 <= length inms)%nat ->
  slices_with_pairs (files st) ->
  VSCFSolver.grids_shaped nint dof (files st) ->
  files st !! "nptsmax.dat" = None \/ cache_well_formed dof w2 (files st) ->
  step fuel 0 st = Some (inr st') ->
  exists a : VSCFSolver.artifacts,
    VSCFSolver.load_artifacts nint dof false (files st') 0 = Some (inr a) /\
    VSCFSolver.inms a = inms.
Proof.
  intros Hnint Htwo Hinv Hshape0 _. unfold VSCFMapper_step. simpl.
  set (T := ints_table inms). set (V := [[v0 nprim forces_pots]]).
  remember {| files := <["modes.dat" := T]> (<["potoffset.dat" := V]> (files st));
              evaluated := evaluated st |} as st1 eqn:Hst1.
  destruct (sampling_ranges fuel st1) as [[e|[r st2]]|] eqn:Hr;
    [discriminate| |discriminate].
  simpl. intros [= <-].
  set (S' := map_pairs r st2).
  assert (Hkm : forall f, f = "modes.dat" \/ f = "potoffset.dat" ->
                          kept_by_pair_map f /\ kept_by_sampling f).
  { intros f [-> | ->]; repeat split; try done;
      intros; unfold vcoupled_file, vindep_file, vindeps_file; simpl; discriminate. }
  assert (Hmodes : files S' !! "modes.dat" = Some T).
  { unfold S'. rewrite map_pairs_keeps by (apply Hkm; by left).
    rewrite (sampling_ranges_keeps _ _ _ _ _ _ _ _ _ _ _ _ _ _ _ _ _ Hr)
      by (apply Hkm; by left).
    rewrite Hst1. apply lookup_insert_eq. }
  assert (Hpot : files S' !! "potoffset.dat" = Some V).
  { unfold S'. rewrite map_pairs_keeps by (apply Hkm; by right).
    rewrite (sampling_ranges_keeps _ _ _ _ _ _ _ _ _ _ _ _ _ _ _ _ _ Hr)
      by (apply Hkm; by right).
    rewrite Hst1. simpl. rewrite lookup_insert_ne by done. apply lookup_insert_eq. }
  destruct (sampling_ranges_writes_counts _ _ _ _ Hr) as [Hmin2 Hmax2].
  assert (Hmin : is_Some (files S' !! "nptsmin.dat")) by (by apply map_pairs_mono).
  assert (Hmax : is_Some (files S' !! "nptsmax.dat")) by (by apply map_pairs_mono).
  assert (Hgrid : forall f, (exists i j, f = vcoupled_file i j) \/
                            (exists i, f = vindep_file i) ->
                            files st2 !! f = files st !! f).
  { intros f Hf.
    rewrite (sampling_ranges_keeps _ _ _ _ _ _ _ _ _ _ _ _ _ _ _ _ _ Hr).
    - rewrite Hst1. simpl.
      destruct Hf as [(i & j & ->) | (i & ->)];
        rewrite !lookup_insert_ne
          by (unfold vcoupled_file, vindep_file; simpl; discriminate);
        reflexivity.
    - destruct Hf as [(i & j & ->) | (i & ->)]; repeat split;
        unfold vcoupled_file, vindep_file, vindeps_file; simpl; discriminate. }
  assert (Hinv2 : slices_with_pairs (files st2)).
  { intros i j. rewrite !Hgrid by eauto. apply Hinv. }
  assert (Hinv' : slices_with_pairs (files S')) by (by apply map_pairs_slices).
  assert (Hnd : NoDup inms).
  { apply ascending_NoDup. unfold VSCFMapper.inms.
    apply ascending_filter, ascending_seq. }
  assert (Hvi : forall inm, inm ∈ inms -> is_Some (files S' !! vindep_file inm)).
  { intros i Hi. destruct (another_mode inms i Hnd Htwo Hi) as (j & Hj & Hne).
    destruct (Nat.lt_total i j) as [Hlt | [-> | Hlt]]; [|done|].
    - apply (Hinv' i j). by apply map_pairs_complete.
    - apply (Hinv' j i). by apply map_pairs_complete. }
  assert (Hshape1 : VSCFSolver.grids_shaped nint dof (files st1)).
  { destruct Hshape0 as (H1 & H2 & H3 & H4 & H5). rewrite Hst1. simpl.
    split; [intros t Ht; rewrite !lookup_insert_ne in Ht by done; by apply H1|].
    split; [intros t Ht; rewrite !lookup_insert_ne in Ht by done; by apply H2|].
    split; [|split].
    - intros i t Ht.
      rewrite !lookup_insert_ne in Ht by (unfold vindep_file; simpl; discriminate).
      by eapply H3.
    - intros i j t Ht.
      rewrite !lookup_insert_ne in Ht by (unfold vcoupled_file; simpl; discriminate).
      by eapply H4.
    - intros i j k t Ht.
      rewrite !lookup_insert_ne in Ht by (unfold vtriplet_file; simpl; discriminate).
      by eapply H5. }
  assert (Hshape : VSCFSolver.mapper_shaped nint dof (files S')).
  { split; [exact Hnint|]. split; [|split].
    - intros t Ht. rewrite Hmodes in Ht. injection Ht as <-.
      exists inms. split; [reflexivity|]. split; [lia|].
      apply Forall_forall. intros i Hi. unfold VSCFMapper.inms in Hi.
      apply list_elem_of_In, filter_In in Hi as [Hi _]. apply in_seq in Hi. lia.
    - intros t Ht. rewrite Hpot in Ht. injection Ht as <-.
      split; [reflexivity | by repeat constructor].
    - apply map_pairs_shaped. by eapply sampling_ranges_shaped. }
  assert (Hmd : VSCFSolver.modes_on_disk (files S') = inms).
  { unfold VSCFSolver.modes_on_disk, load_array, loadtxt. rewrite Hmodes.
    cbn [mbind failure_bind]. unfold T.
    rewrite squeeze_ints_table by lia. by rewrite as_indices_ints. }
  destruct (VSCFSolver.load_artifacts_shaped nint dof false (files S') Hshape)
    as (res & Hres & Hout & Hin).
  rewrite Hmd in Hout, Hin.
  destruct res as [e|a]; [|exists a; split; [exact Hres | by apply Hin]].
  exfalso. destruct Hout as (_ & f & Hf & Hnone).
  rewrite app_nil_r in Hf. unfold VSCFSolver.required_files in Hf.
  rewrite !elem_of_app, !elem_of_cons in Hf.
  destruct Hf as [[->|[->|[->|[->|Hf]]]]|[Hf|Hf]].
  - congruence.
  - rewrite Hnone in Hmin. by destruct Hmin.
  - rewrite Hnone in Hmax. by destruct Hmax.
  - congruence.
  - by apply elem_of_nil in Hf.
  - apply list_elem_of_fmap in Hf as (i & -> & Hi).
    apply Hvi in Hi. rewrite Hnone in Hi. by destruct Hi.
  - apply VSCFSolver.pair_files_elem in Hf as (i & j & Hi & Hj & Hlt & ->).
    assert (Hc : is_Some (files S' !! vcoupled_file i j))
      by (by apply map_pairs_complete).
    rewrite Hnone in Hc. by destruct Hc.
Qed.

End handover_facts.

Lemma solver_reads_what_the_mapper_wrote_witness :
  exists a : VSCFSolver.artifacts,
    VSCFSolver.load_artifacts 3 2 false (files Example.after_pairs) 0
    = Some (inr a) /\
    VSCFSolver.inms a = [0; 1]%nat.
Proof.
  refine (solver_reads_what_the_mapper_wrote Example.pots Example.sqrt
            Example.interp2d Example.interp3d 3 2 1 1 1 false [1; 1] [1; 1]
            [1 # 2; 1 # 2] [0; 0] [[1; 0]; [0; 1]] 0 10 Example.start
            Example.after_pairs _ _ _ _ _ _).
  - lia.
  - vm_compute. lia.
  - intros i j [t Ht]. discriminate Ht.
  - repeat split; intros; discriminate.
  - by left.
  - vm_compute. reflexivity.
Defined.

(** *** The map of the pairs *)

Section pair_map_facts.

Variable pots : list Q -> Q.
Variable sqrt : Q -> Q.
Variable interp2d : list Q -> list Q -> list Q -> Q -> Q -> Q.
Variable interp3d :
  list Q -> list Q -> list Q -> list (list (list Q)) -> Q -> Q -> Q -> Q.
Variable nint dof : nat.
Variable nprim fnmrms nevib : Q.
Variable print_2b_map : bool.
Variable w2 nmrms nmevib : list Q.
Variable beads_q : list Q.
Variable V_T : list (list Q).
Variable forces_pots : Q.

Local Abbreviation inms := (inms dof w2).
Local Abbreviation map_pairs :=
  (map_pairs pots sqrt interp2d nint dof nprim fnmrms print_2b_map w2 nmrms beads_q
     V_T forces_pots).
Local Abbreviation sample_side :=
  (sample_side pots sqrt nprim fnmrms nevib nmrms nmevib beads_q V_T forces_pots).
Local Abbreviation sample_mode :=
  (sample_mode pots sqrt nprim fnmrms nevib nmrms nmevib beads_q V_T forces_pots).
Local Abbreviation sample_modes :=
  (sample_modes pots sqrt nprim fnmrms nevib nmrms nmevib beads_q V_T forces_pots).
Local Abbreviation sampling_ranges :=
  (sampling_ranges pots sqrt dof nprim fnmrms nevib w2 nmrms nmevib beads_q V_T
     forces_pots).
Local Abbreviation bails :=
  (bails pots sqrt nprim fnmrms nevib nmrms nmevib beads_q V_T forces_pots).
Local Abbreviation displaced2 := (displaced2 sqrt nprim beads_q V_T).
Local Abbreviation step :=
  (VSCFMapper_step pots sqrt interp2d interp3d nint dof nprim fnmrms nevib false
     print_2b_map w2 nmrms nmevib beads_q V_T forces_pots).

(** **** The sampling loops return *)

Lemma sample_side_reaches (inm : nat) (sign : Z) (n : nat) :
  forall (fuel : nat) (counter : Z) (vi : list Q) (log : list (list Q)),
    (n < fuel)%nat ->
    bails inm (counter + Z.of_nat n * sign) = true ->
    exists res, sample_side fuel inm sign counter vi log = Some res.
Proof.
  induction n as [|n IH]; intros fuel counter vi log Hfuel Hbail;
    (destruct fuel as [|fuel]; [lia|]); cbn [VSCFMapper.sample_side].
  - replace (counter + Z.of_nat 0 * sign)%Z with counter in Hbail by lia.
    unfold VSCFMapper.bails in Hbail. rewrite Hbail. by eexists.
  - destruct (Qltb _ _); [by eexists|].
    apply IH; [lia|].
    by replace (counter + sign + Z.of_nat n * sign)%Z
      with (counter + Z.of_nat (S n) * sign)%Z by lia.
Qed.

Lemma sample_mode_reaches (fuel inm nneg npos : nat) (log : list (list Q)) :
  (nneg < fuel)%nat -> (npos < fuel)%nat ->
  bails inm (-1 - Z.of_nat nneg) = true ->
  bails inm (1 + Z.of_nat npos) = true ->
  exists res, sample_mode fuel inm log = Some res.
Proof.
  intros Hneg Hpos Bneg Bpos. unfold VSCFMapper.sample_mode.
  destruct (sample_side_reaches inm (-1) nneg fuel (-1) [v0 nprim forces_pots] log)
    as [[[vneg cneg] log1] ->]; [lia | |].
  { by replace (-1 + Z.of_nat nneg * -1)%Z with (-1 - Z.of_nat nneg)%Z by lia. }
  cbn [mbind option_bind].
  destruct (sample_side_reaches inm 1 npos fuel 1 (rev vneg) log1)
    as [[[vi cpos] log2] ->]; [lia | |].
  { by replace (1 + Z.of_nat npos * 1)%Z with (1 + Z.of_nat npos)%Z by lia. }
  cbn [mbind option_bind]. by eexists.
Qed.

Lemma sample_modes_reaches (fuel : nat) (modes : list nat) :
  (forall inm, inm ∈ modes ->
     exists nneg npos : nat,
       (nneg < fuel)%nat /\ (npos < fuel)%nat /\
       bails inm (-1 - Z.of_nat nneg) = true /\
       bails inm (1 + Z.of_nat npos) = true) ->
  forall (r : ranges) (st : mstate),
    exists res, sample_modes fuel modes r st = Some res.
Proof.
  induction modes as [|m rest IH]; intros Hall r st; [by eexists|].
  cbn [VSCFMapper.sample_modes].
  destruct (Hall m) as (nneg & npos & Hneg & Hpos & Bneg & Bpos); [by left|].
  destruct (sample_mode_reaches fuel m nneg npos (evaluated st) Hneg Hpos Bneg Bpos)
    as [[[[vi nmin] nmax] log] ->].
  cbn [mbind option_bind]. apply IH. intros inm Hin. apply Hall. by right.
Qed.

(** **** The ranges, and the files that hold them *)

(** The ranges [r] are those of the files of [d]: the two counts per
    degree of freedom, and one slice of [npts + 4] points per kept mode. *)
Definition tied (r : ranges) (d : disk) : Prop :=
  length (nptsmin r) = dof /\ length (nptsmax r) = dof /\
  d !! "nptsmin.dat" = Some (ints_table (nptsmin r)) /\
  d !! "nptsmax.dat" = Some (ints_table (nptsmax r)) /\
  Forall2 (fun inm vi =>
             d !! vindeps_file inm = Some (column_table vi) /\
             length vi = (npts r inm + 4)%nat)
          inms (vis r).

Lemma sample_mode_length (fuel inm : nat) (log log' : list (list Q)) (vi : list Q)
    (nmin nmax : nat) :
  sample_mode fuel inm log = Some (vi, nmin, nmax, log') ->
  length vi = (nmin + nmax + 1 + 4)%nat.
Proof.
  unfold VSCFMapper.sample_mode.
  destruct (sample_side fuel inm (-1) (-1) _ log) as [[[vneg cneg] log1]|] eqn:Hneg;
    [|discriminate].
  cbn [mbind option_bind].
  destruct (sample_side fuel inm 1 1 (rev vneg) log1) as [[[vpos cpos] log2]|] eqn:Hpos;
    [|discriminate].
  cbn [mbind option_bind]. intros [= <- <- <- <-].
  apply sample_side_grows in Hneg as (n & more & -> & -> & Hmore & _).
  apply sample_side_grows in Hpos as (n' & more' & -> & -> & Hmore' & _).
  rewrite !length_app, length_rev, length_app. simpl. lia.
Qed.

Lemma sample_modes_other (fuel : nat) (modes : list nat) :
  forall (r r' : ranges) (st st' : mstate) (k : nat),
    sample_modes fuel modes r st = Some (r', st') ->
    k ∉ modes ->
    nptsmin r' !! k = nptsmin r !! k /\ nptsmax r' !! k = nptsmax r !! k.
Proof.
  induction modes as [|m rest IH]; intros r r' st st' k H Hk; simpl in H.
  - by injection H as <- _.
  - apply not_elem_of_cons in Hk as [Hkm Hk].
    destruct (sample_mode fuel m (evaluated st)) as [[[[vi nmin] nmax] log]|];
      [|discriminate].
    simpl in H. destruct (IH _ _ _ _ k H Hk) as [-> ->]. simpl.
    by rewrite !list_lookup_insert_ne.
Qed.

Lemma sample_modes_tied (fuel : nat) (modes : list nat) :
  forall (r r' : ranges) (st st' : mstate),
    NoDup modes ->
    Forall (fun inm => (inm < length (nptsmin r))%nat /\
                       (inm < length (nptsmax r))%nat) modes ->
    sample_modes fuel modes r st = Some (r', st') ->
    exists slices : list (list Q),
      vis r' = vis r ++ slices /\
      Forall2 (fun inm vi =>
                 files st' !! vindeps_file inm = Some (column_table vi) /\
                 length vi = (npts r' inm + 4)%nat)
              modes slices.
Proof.
  induction modes as [|m rest IH]; intros r r' st st' Hnd Hlen H; simpl in H.
  - injection H as <- <-. exists []. by rewrite app_nil_r.
  - apply NoDup_cons in Hnd as [Hm Hnd].
    apply Forall_cons in Hlen as [[Hm1 Hm2] Hlen].
    destruct (sample_mode fuel m (evaluated st)) as [[[[vi nmin] nmax] log]|] eqn:Hs;
      [|discriminate].
    simpl in H. pose proof H as Hkeep. pose proof H as Hother.
    apply IH in H as (slices & Hvis & Hall); [|exact Hnd|].
    2: { simpl. eapply Forall_impl; [exact Hlen|]. intros k [H1 H2].
         by rewrite !length_insert. }
    simpl in Hvis. exists (vi :: slices).
    split; [by rewrite Hvis, <- app_assoc|].
    constructor; [|exact Hall]. split.
    + rewrite (sample_modes_keeps _ _ _ _ _ _ _ _ _ _ _ _ _ _ _ _ _ Hkeep).
      * simpl. apply lookup_insert_eq.
      * intros k Hk E. apply vindeps_file_inj in E as ->. contradiction.
    + apply (sample_modes_other _ _ _ _ _ _ m) in Hother as [H1 H2]; [|exact Hm].
      simpl in H1, H2.
      rewrite list_lookup_insert_eq in H1 by exact Hm1.
      rewrite list_lookup_insert_eq in H2 by exact Hm2.
      unfold npts. rewrite !nth_lookup, H1, H2. simpl.
      by eapply sample_mode_length.
Qed.

Lemma sampling_ranges_tied (fuel : nat) (st st' : mstate) (r : ranges) :
  files st !! "nptsmax.dat" = None \/ cache_well_formed dof w2 (files st) ->
  sampling_ranges fuel st = Some (inr (r, st')) ->
  tied r (files st').
Proof.
  intros Hcase. unfold VSCFMapper.sampling_ranges.
  destruct (exists_file (files st) "nptsmax.dat") eqn:Hex.
  - destruct Hcase as [Hnone|Hwf].
    { apply VSCFSolver.exists_file_true in Hex. rewrite Hnone in Hex.
      by destruct Hex. }
    destruct Hwf as (_ & nmin & nmax & slices & Hlmin & Hlmax & Hfmin & Hfmax & Hall).
    unfold loadtxt. rewrite Hfmin, Hfmax. cbn [mbind failure_bind].
    rewrite (load_vis_slices _ inms slices []).
    2: { eapply Forall2_impl; [exact Hall|]. by intros inm vi [Hf _]. }
    cbn [mbind failure_bind]. rewrite !as_ints_table. intros [= <- <-].
    split; [exact Hlmin|]. split; [exact Hlmax|].
    split; [exact Hfmin|]. split; [exact Hfmax|].
    eapply Forall2_impl; [exact Hall|]. intros inm vi [Hf Hlen].
    split; [exact Hf|]. rewrite Hlen. unfold npts. simpl. lia.
  - destruct (sample_modes fuel inms _ st) as [[r1 st1]|] eqn:Hs; [|discriminate].
    cbn [mbind option_bind]. intros [= <- <-]. simpl.
    pose proof (sample_modes_lengths _ _ _ _ _ _ _ _ _ _ _ _ _ _ _ _ Hs) as [H1 H2].
    simpl in H1, H2. rewrite repeat_length in H1, H2.
    split; [exact H1|]. split; [exact H2|].
    split; [by rewrite lookup_insert_ne, lookup_insert_eq|].
    split; [by rewrite lookup_insert_eq|].
    apply sample_modes_tied in Hs as (slices & Hvis & Hall).
    + simpl in Hvis. rewrite Hvis.
      eapply Forall2_impl; [exact Hall|]. intros inm vi [Hf Hlen].
      split; [|exact Hlen].
      rewrite !lookup_insert_ne by (unfold vindeps_file; simpl; discriminate).
      exact Hf.
    + apply ascending_NoDup. unfold VSCFMapper.inms.
      apply ascending_filter, ascending_seq.
    + simpl. rewrite repeat_length. apply Forall_forall. intros i Hi.
      unfold VSCFMapper.inms in Hi.
      apply list_elem_of_In, filter_In in Hi as [Hi _]. apply in_seq in Hi. lia.
Qed.

Lemma map_pairs_tied (r : ranges) (st : mstate) :
  tied r (files st) -> tied r (files (map_pairs r st)).
Proof.
  intros (H1 & H2 & Hmin & Hmax & Hall).
  assert (Hnames : forall f,
            f = "nptsmin.dat" \/ f = "nptsmax.dat" \/ (exists i, f = vindeps_file i) ->
            kept_by_pair_map f).
  { intros f [-> | [-> | (i & ->)]]; repeat split; intros;
      unfold vcoupled_file, vindep_file, vindeps_file; simpl; discriminate. }
  split; [exact H1|]. split; [exact H2|].
  split; [rewrite map_pairs_keeps by (apply Hnames; tauto); exact Hmin|].
  split; [rewrite map_pairs_keeps by (apply Hnames; tauto); exact Hmax|].
  eapply Forall2_impl; [exact Hall|]. intros inm vi [Hf Hlen].
  split; [|exact Hlen].
  rewrite map_pairs_keeps by (apply Hnames; do 2 right; by exists inm). exact Hf.
Qed.

(** **** The table of a pair, entry by entry *)

Lemma coupling_table_entry (r : ranges) (inm jnm : nat) (vtspl : Q -> Q -> Q)
    (a b : nat) :
  (a < nint)%nat -> (b < nint)%nat ->
  VSCFSolver.entry (coupling_table nint fnmrms nmrms r inm jnm vtspl) b a
  = vtspl (at_index (integration_grid nint fnmrms nmrms r inm) a)
          (at_index (integration_grid nint fnmrms nmrms r jnm) b)
    - vtspl (at_index (integration_grid nint fnmrms nmrms r inm) a) 0.0
    - vtspl 0.0 (at_index (integration_grid nint fnmrms nmrms r jnm) b)
    + vtspl 0.0 0.0.
Proof.
  intros Ha Hb.
  destruct (lookup_lt_is_Some_2 (integration_grid nint fnmrms nmrms r inm) a)
    as [qa Hqa]; [by rewrite integration_grid_length|].
  destruct (lookup_lt_is_Some_2 (integration_grid nint fnmrms nmrms r jnm) b)
    as [qb Hqb]; [by rewrite integration_grid_length|].
  unfold VSCFSolver.entry, coupling_table, at_index.
  rewrite !nth_lookup, list_lookup_fmap, Hqa, Hqb. simpl.
  rewrite list_lookup_fmap, Hqa. reflexivity.
Qed.

Lemma integration_grid_point (r : ranges) (inm a : nat) :
  (a < nint)%nat ->
  at_index (integration_grid nint fnmrms nmrms r inm) a
  = - inject_Z (Z.of_nat (nth inm (nptsmin r) 0%nat)) * (fnmrms * at_index nmrms inm)
    + inject_Z (Z.of_nat a)
      * ((inject_Z (Z.of_nat (nth inm (nptsmax r) 0%nat)) * (fnmrms * at_index nmrms inm)
          - - inject_Z (Z.of_nat (nth inm (nptsmin r) 0%nat))
              * (fnmrms * at_index nmrms inm))
         / inject_Z (Z.of_nat (nint - 1))).
Proof.
  intros Ha. unfold integration_grid, linspace, at_index.
  rewrite VSCFSolver.nth_map_seq by exact Ha. reflexivity.
Qed.

Lemma nms_point (r : ranges) (inm i : nat) :
  (i < npts r inm + 4)%nat ->
  at_index (nms fnmrms nmrms r inm) i
  = inject_Z (- Z.of_nat (nth inm (nptsmin r) 0%nat) + Z.of_nat i - 2)
    * (fnmrms * at_index nmrms inm).
Proof.
  intros Hi. unfold nms, at_index.
  rewrite VSCFSolver.nth_map_seq by exact Hi. reflexivity.
Qed.

Lemma asked_spec (r : ranges) (inm jnm : nat) (x : list Q) :
  x ∈ asked sqrt nprim fnmrms nmrms beads_q V_T r inm jnm <->
  exists i j : nat,
    (i < npts r inm + 4)%nat /\ (j < npts r jnm + 4)%nat /\
    steps r inm i <> 0%Z /\ steps r jnm j <> 0%Z /\
    x = displaced2 inm jnm (at_index (nms fnmrms nmrms r inm) i)
                           (at_index (nms fnmrms nmrms r jnm) j).
Proof.
  unfold asked. rewrite list_elem_of_fmap. split.
  - intros ([i j] & -> & Hin). apply list_elem_of_In, filter_In in Hin as [Hin Hoff].
    apply list_elem_of_In in Hin. unfold grid_indices in Hin.
    apply list_elem_of_bind in Hin as (i' & Hin & Hi).
    apply list_elem_of_bind in Hin as (j' & Hin & Hj).
    apply list_elem_of_singleton in Hin as [= -> ->].
    apply list_elem_of_In, in_seq in Hi. apply list_elem_of_In, in_seq in Hj.
    unfold on_axis in Hoff. apply negb_true_iff, orb_false_elim in Hoff as [H1 H2].
    apply Z.eqb_neq in H1, H2.
    exists i', j'. repeat split; [lia | lia | exact H1 | exact H2].
  - intros (i & j & Hi & Hj & H1 & H2 & ->). exists (i, j). split; [reflexivity|].
    apply list_elem_of_In, filter_In. split.
    + apply list_elem_of_In. unfold grid_indices.
      apply list_elem_of_bind. exists i. split; [|apply list_elem_of_In, in_seq; lia].
      apply list_elem_of_bind. exists j. split; [|apply list_elem_of_In, in_seq; lia].
      by apply list_elem_of_singleton.
    + unfold on_axis. apply negb_true_iff, orb_false_intro; by apply Z.eqb_neq.
Qed.

(** C4 (as the code has it).  With [threebody] off, on a disk without
    sampling bounds or with the bounds and slices of an earlier call:

    - [step] returns, provided that on a disk without bounds the sampling
      of every kept mode meets the bailout on either side within the fuel;

    - whatever it returns has the sampling ranges [r] on the disk
      ([nptsmin.dat], [nptsmax.dat]), and for every pair [(inm, jnm)] of
      kept modes with [jnm > inm] whose grid file was not on the disk, with
      [vi] and [vj] the slices of the two modes stored in their [vindeps]
      files: the sampled grid has [(npts_i + 4) * (npts_j + 4)] points,
      where [npts = nptsmin + nptsmax + 1]; the point [(i, j)] is at
      [(-nptsmin + i - 2) * fnmrms * nmrms] along either mode; its value is
      [vj[j]] on the axis of [jnm], [vi[i]] on the axis of [inm], and the
      potential of the engine elsewhere, and the engine is asked the points
      off both axes, and only those; the grid file of the pair receives
      [nint] lines of [nint] numbers, the entry at line [b] and column [a]
      being [V(qa, qb) - V(qa, 0) - V(0, qb) + V(0, 0)] for the surface [V]
      that [interp2d] fits to the sampled grid, at the points [qa] and [qb]
      of the two integration grids, which divide
      [[-nptsmin * fnmrms * nmrms, nptsmax * fnmrms * nmrms]] in [nint - 1]
      equal steps. *)
Theorem VSCFMapper_step_maps_uncached_pairs (fuel : nat) (st : mstate) :
  files st !! "nptsmax.dat" = None \/ cache_well_formed dof w2 (files st) ->
  ((files st !! "nptsmax.dat" = None ->
    forall inm, inm ∈ inms ->
      exists nneg npos : nat,
        (nneg < fuel)%nat /\ (npos < fuel)%nat /\
        bails inm (-1 - Z.of_nat nneg) = true /\
        bails inm (1 + Z.of_nat npos) = true) ->
   exists st' : mstate, step fuel 0 st = Some (inr st')) /\
  (forall st' : mstate,
     step fuel 0 st = Some (inr st') ->
     exists r : ranges,
       length (nptsmin r) = dof /\ length (nptsmax r) = dof /\
       files st' !! "nptsmin.dat" = Some (ints_table (nptsmin r)) /\
       files st' !! "nptsmax.dat" = Some (ints_table (nptsmax r)) /\
       forall inm jnm : nat,
         inm ∈ inms -> jnm ∈ inms -> (inm < jnm)%nat ->
         files st !! vcoupled_file inm jnm = None ->
         exists (vi vj vtots : list Q) (t : table),
           let mini := nth inm (nptsmin r) 0%nat in
           let minj := nth jnm (nptsmin r) 0%nat in
           let ni := (mini + nth inm (nptsmax r) 0 + 1 + 4)%nat in
           let nj := (minj + nth jnm (nptsmax r) 0 + 1 + 4)%nat in
           let dnmi := fnmrms * at_index nmrms inm in
           let dnmj := fnmrms * at_index nmrms jnm in
           let nmi := fun i : nat =>
             inject_Z (- Z.of_nat mini + Z.of_nat i - 2) * dnmi in
           let nmj := fun j : nat =>
             inject_Z (- Z.of_nat minj + Z.of_nat j - 2) * dnmj in
           let V := interp2d (map nmi (seq 0 ni)) (map nmj (seq 0 nj)) vtots in
           let qa := fun a : nat =>
             - inject_Z (Z.of_nat mini) * dnmi
             + inject_Z (Z.of_nat a)
               * ((inject_Z (Z.of_nat (nth inm (nptsmax r) 0%nat)) * dnmi
                   - - inject_Z (Z.of_nat mini) * dnmi)
                  / inject_Z (Z.of_nat (nint - 1))) in
           let qb := fun b : nat =>
             - inject_Z (Z.of_nat minj) * dnmj
             + inject_Z (Z.of_nat b)
               * ((inject_Z (Z.of_nat (nth jnm (nptsmax r) 0%nat)) * dnmj
                   - - inject_Z (Z.of_nat minj) * dnmj)
                  / inject_Z (Z.of_nat (nint - 1))) in
           files st' !! vindeps_file inm = Some (column_table vi) /\
           length vi = ni /\
           files st' !! vindeps_file jnm = Some (column_table vj) /\
           length vj = nj /\
           length vtots = (ni * nj)%nat /\
           (forall i j : nat, (i < ni)%nat -> (j < nj)%nat ->
              at_index vtots (i * nj + j)
              = if (- Z.of_nat mini + Z.of_nat i - 2 =? 0)%Z then at_index vj j
                else if (- Z.of_nat minj + Z.of_nat j - 2 =? 0)%Z then at_index vi i
                else pots (displaced2 inm jnm (nmi i) (nmj j)) / nprim) /\
           (exists (asked : list (list Q)) (before after : list (list Q)),
              evaluated st' = before ++ asked ++ after /\
              forall x : list Q,
                x ∈ asked <->
                exists i j : nat,
                  (i < ni)%nat /\ (j < nj)%nat /\
                  (- Z.of_nat mini + Z.of_nat i - 2 <> 0)%Z /\
                  (- Z.of_nat minj + Z.of_nat j - 2 <> 0)%Z /\
                  x = displaced2 inm jnm (nmi i) (nmj j)) /\
           files st' !! vcoupled_file inm jnm = Some t /\
           rect nint nint t /\
           (forall a b : nat, (a < nint)%nat -> (b < nint)%nat ->
              VSCFSolver.entry t b a
              = V (qa a) (qb b) - V (qa a) 0.0 - V 0.0 (qb b) + V 0.0 0.0)).
Proof.
  intros Hcase.
  set (st1 := {| files := <["modes.dat" := ints_table inms]>
                            (<["potoffset.dat" := [[v0 nprim forces_pots]]]> (files st));
                 evaluated := evaluated st |}).
  assert (Hsame : forall f, f <> "modes.dat" -> f <> "potoffset.dat" ->
                            files st1 !! f = files st !! f).
  { intros f H1 H2. simpl. by rewrite !lookup_insert_ne. }
  assert (Hcase1 : files st1 !! "nptsmax.dat" = None \/
                   cache_well_formed dof w2 (files st1)).
  { destruct Hcase as [Hnone|(Hdof & nmin & nmax & slices & H1 & H2 & H3 & H4 & H5)].
    - left. by rewrite Hsame.
    - right. split; [exact Hdof|]. exists nmin, nmax, slices.
      split; [exact H1|]. split; [exact H2|].
      split; [by rewrite Hsame|]. split; [by rewrite Hsame|].
      eapply Forall2_impl; [exact H5|]. intros inm vi [Hf Hlen].
      split; [|exact Hlen].
      rewrite Hsame by (unfold vindeps_file; simpl; discriminate). exact Hf. }
  assert (Hstep : forall fuel',
            step fuel' 0 st
            = res ← sampling_ranges fuel' st1;
              Some ('(r, st2) ← res; inr (map_pairs r st2))) by reflexivity.
  split.
  - intros Hbail. rewrite Hstep. unfold VSCFMapper.sampling_ranges.
    destruct (exists_file (files st1) "nptsmax.dat") eqn:Hex.
    + destruct Hcase1 as [Hnone|Hwf].
      { apply VSCFSolver.exists_file_true in Hex. rewrite Hnone in Hex.
        by destruct Hex. }
      destruct Hwf as (_ & nmin & nmax & slices & _ & _ & Hfmin & Hfmax & Hall).
      unfold loadtxt. rewrite Hfmin, Hfmax. cbn [mbind failure_bind option_bind].
      rewrite (load_vis_slices _ inms slices []).
      2: { eapply Forall2_impl; [exact Hall|]. by intros inm vi [Hf _]. }
      cbn [mbind failure_bind option_bind]. by eexists.
    + assert (Hnone : files st !! "nptsmax.dat" = None).
      { rewrite <- Hsame by done. by apply exists_file_false. }
      destruct (sample_modes_reaches fuel inms (Hbail Hnone)
                  {| nptsmin := repeat 0%nat dof; nptsmax := repeat 0%nat dof;
                     vis := [] |} st1) as [[r1 s1] ->].
      cbn [mbind failure_bind option_bind]. by eexists.
  - intros st'. rewrite Hstep.
    destruct (sampling_ranges fuel st1) as [[e|[r st2]]|] eqn:Hr;
      [discriminate| |discriminate].
    cbn [mbind failure_bind option_bind]. intros [= <-].
    pose proof (map_pairs_tied r st2 (sampling_ranges_tied _ _ _ _ Hcase1 Hr))
      as (H1 & H2 & Hmin & Hmax & Hall).
    exists r. split; [exact H1|]. split; [exact H2|].
    split; [exact Hmin|]. split; [exact Hmax|].
    intros inm jnm Hi Hj Hlt Hnone.
    assert (Hnone2 : files st2 !! vcoupled_file inm jnm = None).
    { rewrite (sampling_ranges_files _ _ _ _ _ _ _ _ _ _ _ _ _ _ _ _ _ _ Hr).
      rewrite Hsame by (unfold vcoupled_file; simpl; discriminate). exact Hnone. }
    destruct (outer_loop pots sqrt interp2d nint dof nprim fnmrms print_2b_map
                w2 nmrms beads_q V_T forces_pots r inm jnm (numbered inms) st2)
      as (_ & _ & Hprog); [intros a i; apply numbered_lookup | by right |].
    destruct Hprog as (rinm & rjnm & before & after & Ha & Hb & Hfile & Hlog);
      [exact Hlt | by apply numbered_elem | by apply numbered_elem |].
    destruct (Forall2_lookup_l _ _ _ _ _ Hall Ha) as (vi & Hvi & Hfi & Hli).
    destruct (Forall2_lookup_l _ _ _ _ _ Hall Hb) as (vj & Hvj & Hfj & Hlj).
    exists vi, vj, (vtots pots sqrt nprim fnmrms nmrms beads_q V_T r rinm rjnm inm jnm),
      (pair_table pots sqrt interp2d nint nprim fnmrms nmrms beads_q V_T r
         rinm rjnm inm jnm).
    cbv zeta.
    destruct (vtots_spec pots sqrt nprim fnmrms nmrms beads_q V_T r rinm rjnm inm jnm)
      as [Hlen Hat].
    split; [exact Hfi|]. split; [exact Hli|].
    split; [exact Hfj|]. split; [exact Hlj|].
    split; [exact Hlen|].
    split.
    { intros i j Hi' Hj'. unfold npts in Hat. rewrite (Hat i j Hi' Hj').
      rewrite !nms_point by assumption. unfold steps.
      rewrite !nth_lookup, Hvi, Hvj. reflexivity. }
    split.
    { exists (asked sqrt nprim fnmrms nmrms beads_q V_T r inm jnm), before, after.
      split; [exact Hlog|]. intros x. rewrite asked_spec.
      split; intros (i & j & Hi' & Hj' & Hs1 & Hs2 & ->); exists i, j;
        (split; [exact Hi'|]); (split; [exact Hj'|]);
        (split; [exact Hs1|]); (split; [exact Hs2|]);
        by rewrite !nms_point by assumption. }
    split; [exact Hfile|].
    split; [apply coupling_table_rect|].
    intros a b Ha' Hb'. unfold pair_table.
    rewrite coupling_table_entry by assumption.
    rewrite !integration_grid_point by assumption. reflexivity.
Qed.

End pair_map_facts.

Lemma VSCFMapper_step_maps_uncached_pairs_witness :
  files Example.start !! "nptsmax.dat" = None /\
  exists st' : mstate, Example.step false = Some (inr st').
Proof.
  split; [reflexivity|].
  refine (proj1 (VSCFMapper_step_maps_uncached_pairs
            Example.pots Example.sqrt Example.interp2d Example.interp3d
            3 2 1 1 1 false [1; 1] [1; 1] [1 # 2; 1 # 2] [0; 0]
            [[1; 0]; [0; 1]] 0 10 Example.start (or_introl eq_refl)) _).
  intros _ inm Hin. exists 1%nat, 1%nat.
  apply list_elem_of_In in Hin. vm_compute in Hin.
  destruct Hin as [<-|[<-|[]]]; repeat split; try lia; vm_compute; reflexivity.
Defined.

End VSCFMapper.

(** ** [NormalModeMover.apply_asr]: the acoustic sum rule

    The projection takes square roots of the masses and divides by norms;
    what it does to the translations rests on [sqrt(m)^2 = m], so this part
    is modelled over the real numbers.  Arrays are index functions with
    their sizes given apart.  (Where numpy would divide by a zero norm and
    fill a row with [nan], the real quotient is some number: the properties
    below that need a norm state that it is positive.) *)

Module ASR.

Local Open Scope R_scope.

(** [sum(f(k) for k in range(n))] *)
Fixpoint Rsum (n : nat) (f : nat -> R) : R :=
  match n with
  | O => 0
  | S k => Rsum k f + f k
  end.

Definition vector := nat -> R.
Definition matrix := nat -> nat -> R.

(** [np.dot] on vectors, on a matrix and a vector, and on matrices; [np.eye]. *)
Definition vdot (n : nat) (u v : vector) : R := Rsum n (fun a => u a * v a).
Definition matvec (n : nat) (A : matrix) (v : vector) : vector :=
  fun a => Rsum n (fun b => A a b * v b).
Definition matmul (n : nat) (A B : matrix) : matrix :=
  fun a b => Rsum n (fun c => A a c * B c b).
Definition transpose (A : matrix) : matrix := fun a b => A b a.
Definition eye : matrix := fun a b => if (a =? b)%nat then 1 else 0.
(** [np.linalg.norm] *)
Definition norm (n : nat) (v : vector) : R := sqrt (vdot n v v).

(** The cross product of two vectors of three entries. *)
Definition cross (u v : vector) : vector :=
  fun c =>
    match c with
    | O => u 1%nat * v 2%nat - u 2%nat * v 1%nat
    | S O => u 2%nat * v 0%nat - u 0%nat * v 2%nat
    | _ => u 0%nat * v 1%nat - u 1%nat * v 0%nat
    end.

Section apply_asr.

(** [natoms], the masses [self.m] of the atoms, the positions [beads.q] of
    the one bead, and [np.linalg.eig(.)[1]]. *)
Variable natoms : nat.
Variable m : nat -> R.
Variable q : nat -> R.
Variable eig_vectors : matrix -> matrix.

(** [beads.m3[-1]] and [self.ism = 1 / np.sqrt(m3)] *)
Definition m3 (a : nat) : R := m (a / 3).
Definition ism (a : nat) : R := 1 / sqrt (m3 a).

(** The centre of mass and the positions relative to it. *)
Definition com (c : nat) : R :=
  Rsum natoms (fun k => q (3 * k + c) * m k) / Rsum natoms m.
Definition qminuscom (k c : nat) : R := q (3 * k + c) - com c.

(** The moment of inertia tensor:
    [moi -= dot(cross(qminuscom[k], I), cross(qminuscom[k], I)) * m[k]]. *)
Definition cross_identity (k : nat) : matrix :=
  fun row => cross (qminuscom k) (eye row).
Definition moi : matrix :=
  fun a b =>
    Rsum natoms
      (fun k => - (matmul 3 (cross_identity k) (cross_identity k) a b * m k)).

Definition U : matrix := eig_vectors moi.
(** [R = np.dot(qminuscom, U)] *)
Definition Rrot (k c : nat) : R := Rsum 3 (fun e => qminuscom k e * U e c).

(** The rows of [D] before they are normalised: three translations
    [np.tile(e_k, natoms) / ism], then three rotations. *)
Definition D (row : nat) : vector :=
  fun i =>
    let iatom := (i / 3)%nat in
    let idof := (i mod 3)%nat in
    match row with
    | 0%nat | 1%nat | 2%nat => (if (idof =? row)%nat then 1 else 0) / ism i
    | 3%nat => (Rrot iatom 1 * U idof 2%nat - Rrot iatom 2 * U idof 1%nat) / ism i
    | 4%nat => (Rrot iatom 2 * U idof 0%nat - Rrot iatom 0 * U idof 2%nat) / ism i
    | _ => (Rrot iatom 0 * U idof 1%nat - Rrot iatom 1 * U idof 0%nat) / ism i
    end.

(** [D[k] = D[k] / np.linalg.norm(D[k])] *)
Definition Dunit (row : nat) : vector :=
  fun i => D row i / norm (3 * natoms) (D row).

(** [transfmatrix = np.eye(3 * natoms) - np.dot(D.T, D)] for a [D] of
    [rows] rows. *)
Definition transfmatrix (rows : nat) : matrix :=
  fun a b => eye a b - Rsum rows (fun k => Dunit k a * Dunit k b).

(** [r = np.dot(transfmatrix.T, np.dot(dm, transfmatrix))] *)
Definition project (rows : nat) (dm : matrix) : matrix :=
  matmul (3 * natoms) (transpose (transfmatrix rows))
         (matmul (3 * natoms) dm (transfmatrix rows)).

(** [apply_asr]: the matrix returned ([None] when no branch is taken) and
    the value of [self.nz] after the call. *)
Definition apply_asr (asr : string) (dm : matrix) (nz : nat)
  : option matrix * nat :=
  if String.eqb asr "none" then (Some dm, nz)
  else if String.eqb asr "crystal" then (Some (project 3 dm), 3%nat)
  else if String.eqb asr "poly" then (Some (project 6 dm), 6%nat)
  else (None, nz).

End apply_asr.

(** A vector of the kernel of an [n x n] matrix, a vector of the span of
    three others, and the reading of "exactly three zero eigenvalues"
    that goes with three given zero modes: the kernel is their span and no
    more. *)
Definition in_kernel (n : nat) (A : matrix) (v : vector) : Prop :=
  forall a, (a < n)%nat -> matvec n A v a = 0.
Definition in_span3 (n : nat) (u0 u1 u2 v : vector) : Prop :=
  exists c0 c1 c2 : R,
    forall a, (a < n)%nat -> v a = c0 * u0 a + c1 * u1 a + c2 * u2 a.
Definition kernel_is_span3 (n : nat) (A : matrix) (u0 u1 u2 : vector) : Prop :=
  forall v, in_kernel n A v <-> in_span3 n u0 u1 u2 v.

(** The same for the span of [rows] vectors. *)
Definition in_span (n rows : nat) (u : nat -> vector) (v : vector) : Prop :=
  exists c : nat -> R,
    forall a, (a < n)%nat -> v a = Rsum rows (fun k => c k * u k a).
Definition kernel_is_span (n : nat) (A : matrix) (rows : nat) (u : nat -> vector)
  : Prop :=
  forall v, in_kernel n A v <-> in_span n rows u v.

(** A matrix that equals its transpose on the first [n] indices. *)
Definition symmetric (n : nat) (A : matrix) : Prop :=
  forall a b, (a < n)%nat -> (b < n)%nat -> A a b = A b a.

(** *** Test systems: atoms of unit mass at the origin *)

Module Example.

Definition unit_masses : nat -> R := fun _ => 1.
Definition origin : nat -> R := fun _ => 0.
(** Not called by the [crystal] branch. *)
Definition no_eig : matrix -> matrix := fun A => A.
Definition zero_matrix : matrix := fun _ _ => 0.
(** A displacement of the first coordinate alone. *)
Definition first_coordinate : vector := fun a => if (a =? 0)%nat then 1 else 0.

(** Four atoms of unit mass at the corners of a square in the plane
    [z = 0], whose axes of inertia are the coordinate axes. *)
Definition square : nat -> R :=
  fun i =>
    match i with
    | 0%nat => 1 | 3%nat => -1 | 7%nat => 1 | 10%nat => -1 | _ => 0
    end.
Definition axes : matrix -> matrix := fun _ => eye.

End Example.

(** *** Finite sums *)

Lemma Rsum_ext (n : nat) (f g : nat -> R) :
  (forall a, (a < n)%nat -> f a = g a) -> Rsum n f = Rsum n g.
Proof.
  induction n as [|n IH]; intros H; [reflexivity|].
  simpl. rewrite IH by (intros a Ha; apply H; lia).
  rewrite (H n) by lia. reflexivity.
Qed.

Lemma Rsum_zero (n : nat) (f : nat -> R) :
  (forall a, (a < n)%nat -> f a = 0) -> Rsum n f = 0.
Proof.
  induction n as [|n IH]; intros H; [reflexivity|].
  simpl. rewrite IH by (intros a Ha; apply H; lia).
  rewrite (H n) by lia. lra.
Qed.

Lemma Rsum_scal (n : nat) (c : R) (f : nat -> R) :
  Rsum n (fun a => c * f a) = c * Rsum n f.
Proof. induction n as [|n IH]; simpl; [lra|]. rewrite IH. lra. Qed.

Lemma Rsum_plus (n : nat) (f g : nat -> R) :
  Rsum n (fun a => f a + g a) = Rsum n f + Rsum n g.
Proof. induction n as [|n IH]; simpl; [lra|]. rewrite IH. lra. Qed.

Lemma Rsum_swap (n k : nat) (f : nat -> nat -> R) :
  Rsum n (fun a => Rsum k (fun b => f a b))
  = Rsum k (fun b => Rsum n (fun a => f a b)).
Proof.
  induction n as [|n IH]; simpl.
  - symmetry. apply Rsum_zero. reflexivity.
  - rewrite IH, <- Rsum_plus. reflexivity.
Qed.

Lemma Rsum_nonneg_term (n k : nat) (f : nat -> R) :
  (forall a, 0 <= f a) -> (k < n)%nat -> f k <= Rsum n f.
Proof.
  intros Hf. induction n as [|n IH]; intros Hk; [lia|].
  simpl. destruct (decide (k = n)) as [->|Hne].
  - assert (0 <= Rsum n f); [|lra].
    clear IH Hk. induction n as [|n IH]; simpl; [lra|].
    specialize (Hf n). lra.
  - specialize (IH ltac:(lia)). specialize (Hf n). lra.
Qed.

Lemma Rsum_eye (n : nat) (v : vector) (a : nat) :
  (a < n)%nat -> Rsum n (fun b => eye a b * v b) = v a.
Proof.
  induction n as [|n IH]; intros Ha; [lia|].
  simpl. destruct (decide (a = n)) as [->|Hne].
  - rewrite Rsum_zero.
    + unfold eye. rewrite Nat.eqb_refl. lra.
    + intros b Hb. unfold eye.
      destruct (Nat.eqb_spec n b); [lia|lra].
  - rewrite IH by lia. unfold eye at 1.
    destruct (Nat.eqb_spec a n); [lia|lra].
Qed.

(** [np.dot] is associative on a product of two matrices and a vector. *)
Lemma matvec_matmul (n : nat) (A B : matrix) (v : vector) (a : nat) :
  matvec n (matmul n A B) v a = matvec n A (matvec n B v) a.
Proof.
  unfold matvec, matmul.
  transitivity (Rsum n (fun b => Rsum n (fun c => A a c * B c b * v b))).
  - apply Rsum_ext. intros b _.
    rewrite Rmult_comm, <- Rsum_scal. apply Rsum_ext. intros c _. lra.
  - rewrite Rsum_swap. apply Rsum_ext. intros c _.
    rewrite <- Rsum_scal. apply Rsum_ext. intros b _. lra.
Qed.

Lemma matvec_zero (n : nat) (A : matrix) (v : vector) (a : nat) :
  (forall b, (b < n)%nat -> v b = 0) -> matvec n A v a = 0.
Proof.
  intros Hv. unfold matvec. apply Rsum_zero. intros b Hb. rewrite Hv by exact Hb. lra.
Qed.

(** *** The translations *)

Section apply_asr_facts.

Variable natoms : nat.
Variable m : nat -> R.
Variable q : nat -> R.
Variable eig_vectors : matrix -> matrix.

Hypothesis some_atom : (0 < natoms)%nat.
Hypothesis positive_masses : forall k, (k < natoms)%nat -> 0 < m k.

Local Abbreviation D := (D natoms m q eig_vectors).
Local Abbreviation Dunit := (Dunit natoms m q eig_vectors).
Local Abbreviation transfmatrix := (transfmatrix natoms m q eig_vectors).
Local Abbreviation project := (project natoms m q eig_vectors).
Local Abbreviation apply_asr := (apply_asr natoms m q eig_vectors).
Local Abbreviation n := (3 * natoms)%nat.

Lemma D_translation (k i : nat) :
  (k < 3)%nat -> D k i = (if (i mod 3 =? k)%nat then 1 else 0) / ism m i.
Proof. intros Hk. unfold ASR.D. destruct k as [|[|[|k]]]; try reflexivity. lia. Qed.

Lemma D_translations_orthogonal (k l : nat) :
  (k < 3)%nat -> (l < 3)%nat -> k <> l -> vdot n (D k) (D l) = 0.
Proof.
  intros Hk Hl Hne. unfold vdot. apply Rsum_zero. intros i _.
  rewrite !D_translation by assumption.
  destruct (Nat.eqb_spec (i mod 3) k) as [Hik|Hik];
    destruct (Nat.eqb_spec (i mod 3) l) as [Hil|Hil];
    try (unfold Rdiv; ring).
  congruence.
Qed.

Lemma D_translation_norm_positive (k : nat) :
  (k < 3)%nat -> 0 < vdot n (D k) (D k).
Proof using some_atom positive_masses.
  intros Hk.
  apply Rlt_le_trans with (D k k * D k k).
  - rewrite D_translation by exact Hk.
    rewrite Nat.mod_small by lia. rewrite Nat.eqb_refl.
    unfold ism, m3. rewrite Nat.div_small by lia.
    pose proof (positive_masses 0%nat some_atom) as Hm.
    pose proof (sqrt_lt_R0 _ Hm) as Hs.
    replace (1 / (1 / sqrt (m 0%nat)) * (1 / (1 / sqrt (m 0%nat))))
      with (sqrt (m 0%nat) * sqrt (m 0%nat)) by (field; lra).
    rewrite sqrt_sqrt by lra. exact Hm.
  - unfold vdot. apply (Rsum_nonneg_term n k (fun a => D k a * D k a)).
    + intros a. apply Rle_0_sqr.
    + lia.
Qed.

(** The three normalised translation rows are orthonormal. *)
Lemma Dunit_orthonormal (k l : nat) :
  (k < 3)%nat -> (l < 3)%nat ->
  vdot n (Dunit k) (Dunit l) = if (k =? l)%nat then 1 else 0.
Proof using some_atom positive_masses.
  intros Hk Hl.
  pose proof (D_translation_norm_positive k Hk) as Hnk.
  pose proof (D_translation_norm_positive l Hl) as Hnl.
  pose proof (sqrt_lt_R0 _ Hnk) as Hsk. pose proof (sqrt_lt_R0 _ Hnl) as Hsl.
  assert (Hsum : vdot n (Dunit k) (Dunit l)
                 = / (norm n (D k) * norm n (D l)) * vdot n (D k) (D l)).
  { unfold vdot. rewrite <- Rsum_scal. apply Rsum_ext. intros i _.
    unfold ASR.Dunit, norm. field. lra. }
  rewrite Hsum. destruct (Nat.eqb_spec k l) as [->|Hne].
  - unfold norm. rewrite sqrt_sqrt by lra. field. lra.
  - rewrite D_translations_orthogonal by assumption. lra.
Qed.

(** [transfmatrix] sends each normalised translation to zero. *)
Lemma transfmatrix_translation (l a : nat) :
  (l < 3)%nat -> (a < n)%nat -> matvec n (transfmatrix 3) (Dunit l) a = 0.
Proof using some_atom positive_masses.
  intros Hl Ha. unfold matvec, ASR.transfmatrix.
  rewrite (Rsum_ext n _
             (fun b => eye a b * Dunit l b
                       + (- Dunit 0 a) * (Dunit 0 b * Dunit l b)
                       + (- Dunit 1 a) * (Dunit 1 b * Dunit l b)
                       + (- Dunit 2 a) * (Dunit 2 b * Dunit l b)))
    by (intros b _; simpl; ring).
  rewrite !Rsum_plus, !Rsum_scal, Rsum_eye by exact Ha.
  fold (vdot n (Dunit 0) (Dunit l)) (vdot n (Dunit 1) (Dunit l))
       (vdot n (Dunit 2) (Dunit l)).
  rewrite !Dunit_orthonormal by lia.
  destruct l as [|[|[|l]]]; simpl; try lra. lia.
Qed.

End apply_asr_facts.

(** *** Test systems *)

(** *** The projection as a matrix *)

Lemma Rsum_eye_r (n : nat) (v : vector) (b : nat) :
  (b < n)%nat -> Rsum n (fun c => v c * eye c b) = v b.
Proof.
  intros Hb. rewrite <- (Rsum_eye n v b Hb). apply Rsum_ext. intros c _.
  unfold eye. rewrite (Nat.eqb_sym c b). lra.
Qed.

Lemma matmul_ext (n : nat) (A A' B B' : matrix) (a b : nat) :
  (forall c, (c < n)%nat -> A a c = A' a c) ->
  (forall c, (c < n)%nat -> B c b = B' c b) ->
  matmul n A B a b = matmul n A' B' a b.
Proof.
  intros HA HB. unfold matmul. apply Rsum_ext. intros c Hc.
  by rewrite HA, HB.
Qed.

(** [np.dot] is associative. *)
Lemma matmul_assoc (n : nat) (A B C : matrix) (a b : nat) :
  matmul n (matmul n A B) C a b = matmul n A (matmul n B C) a b.
Proof.
  unfold matmul.
  transitivity (Rsum n (fun c => Rsum n (fun d => A a d * B d c * C c b))).
  - apply Rsum_ext. intros c _.
    rewrite Rmult_comm, <- Rsum_scal. apply Rsum_ext. intros d _. lra.
  - rewrite Rsum_swap. apply Rsum_ext. intros d _.
    rewrite <- Rsum_scal. apply Rsum_ext. intros c _. lra.
Qed.

Section projection_facts.

Variable natoms : nat.
Variable m : nat -> R.
Variable q : nat -> R.
Variable eig_vectors : matrix -> matrix.

Local Abbreviation D := (D natoms m q eig_vectors).
Local Abbreviation Dunit := (Dunit natoms m q eig_vectors).
Local Abbreviation transfmatrix := (transfmatrix natoms m q eig_vectors).
Local Abbreviation project := (project natoms m q eig_vectors).
Local Abbreviation apply_asr := (apply_asr natoms m q eig_vectors).
Local Abbreviation n := (3 * natoms)%nat.

Lemma transfmatrix_transpose (rows a b : nat) :
  transfmatrix rows a b = transfmatrix rows b a.
Proof.
  unfold ASR.transfmatrix, eye. rewrite (Nat.eqb_sym a b). f_equal.
  apply Rsum_ext. intros k _. lra.
Qed.

Lemma project_entry (rows : nat) (dm : matrix) (a b : nat) :
  project rows dm a b
  = Rsum n (fun c => Rsum n (fun d =>
      transfmatrix rows c a * dm c d * transfmatrix rows d b)).
Proof.
  unfold ASR.project, matmul, transpose. apply Rsum_ext. intros c _.
  rewrite <- Rsum_scal. apply Rsum_ext. intros d _. lra.
Qed.

Lemma project_symmetric (rows : nat) (dm : matrix) :
  symmetric n dm -> forall a b, project rows dm a b = project rows dm b a.
Proof.
  intros Hdm a b. rewrite !project_entry, Rsum_swap.
  apply Rsum_ext. intros d Hd. apply Rsum_ext. intros c Hc.
  rewrite (Hdm c d Hc Hd). lra.
Qed.

(** X1.  [apply_asr] keeps the matrix symmetric: whatever branch is taken
    ([none], [crystal] or [poly]), a dynamical matrix that equals its
    transpose is returned as a matrix that equals its transpose, which is
    what [np.linalg.eigh] in [IMF.bind] takes for granted. *)
Theorem apply_asr_keeps_symmetry
    (asr : string) (dm r : matrix) (nz nz' : nat) :
  symmetric n dm ->
  apply_asr asr dm nz = (Some r, nz') ->
  symmetric n r.
Proof.
  intros Hdm. unfold ASR.apply_asr.
  destruct (String.eqb asr "none").
  { intros [= <- _]. exact Hdm. }
  destruct (String.eqb asr "crystal").
  { intros [= <- _] a b _ _. by apply project_symmetric. }
  destruct (String.eqb asr "poly"); [|discriminate].
  intros [= <- _] a b _ _. by apply project_symmetric.
Qed.

Hypothesis some_atom : (0 < natoms)%nat.
Hypothesis positive_masses : forall k, (k < natoms)%nat -> 0 < m k.

(** The [crystal] projector is idempotent. *)
Lemma transfmatrix_idempotent (a b : nat) :
  (a < n)%nat -> (b < n)%nat ->
  matmul n (transfmatrix 3) (transfmatrix 3) a b = transfmatrix 3 a b.
Proof using some_atom positive_masses.
  intros Ha Hb. unfold matmul.
  rewrite (Rsum_ext n _
             (fun c => transfmatrix 3 a c * eye c b
                       + (- Dunit 0 b) * (transfmatrix 3 a c * Dunit 0 c)
                       + (- Dunit 1 b) * (transfmatrix 3 a c * Dunit 1 c)
                       + (- Dunit 2 b) * (transfmatrix 3 a c * Dunit 2 c))).
  2:{ intros c _. unfold ASR.transfmatrix at 2. simpl. ring. }
  rewrite !Rsum_plus, !Rsum_scal, Rsum_eye_r by exact Hb.
  pose proof (transfmatrix_translation natoms m q eig_vectors
                some_atom positive_masses 0 a ltac:(lia) Ha) as H0.
  pose proof (transfmatrix_translation natoms m q eig_vectors
                some_atom positive_masses 1 a ltac:(lia) Ha) as H1.
  pose proof (transfmatrix_translation natoms m q eig_vectors
                some_atom positive_masses 2 a ltac:(lia) Ha) as H2.
  unfold matvec in H0, H1, H2. rewrite H0, H1, H2. lra.
Qed.

(** X2.  Applying the [crystal] sum rule twice is the same as applying it
    once: the projected matrix is left as it is by a second projection. *)
Theorem apply_asr_crystal_idempotent (dm : matrix) (nz a b : nat) :
  (a < n)%nat -> (b < n)%nat ->
  exists r r' : matrix,
    apply_asr "crystal" dm nz = (Some r, 3%nat) /\
    apply_asr "crystal" r 3 = (Some r', 3%nat) /\
    r' a b = r a b.
Proof using some_atom positive_masses.
  intros Ha Hb. exists (project 3 dm), (project 3 (project 3 dm)).
  split; [reflexivity|]. split; [reflexivity|].
  set (P := transfmatrix 3). set (Pt := transpose P).
  assert (HPt : forall x y, Pt x y = P x y)
    by (intros x y; unfold Pt, transpose, P; apply transfmatrix_transpose).
  assert (HPP : forall x y, (x < n)%nat -> (y < n)%nat -> matmul n P P x y = P x y)
    by (intros x y Hx Hy; by apply transfmatrix_idempotent).
  assert (HPtPt : forall x y, (x < n)%nat -> (y < n)%nat ->
                              matmul n Pt Pt x y = Pt x y).
  { intros x y Hx Hy. rewrite HPt, <- (HPP x y Hx Hy).
    apply matmul_ext; intros c _; apply HPt. }
  unfold ASR.project. fold P. fold Pt.
  (* Pt (Pt (dm P) P)  =  (Pt Pt) (dm (P P)) *)
  transitivity (matmul n Pt (matmul n Pt (matmul n (matmul n dm P) P)) a b).
  { apply matmul_ext; [reflexivity|]. intros c _. apply matmul_assoc. }
  rewrite <- matmul_assoc.
  transitivity (matmul n Pt (matmul n (matmul n dm P) P) a b).
  { apply matmul_ext; [|reflexivity]. intros c Hc. by apply HPtPt. }
  apply matmul_ext; [reflexivity|]. intros c _.
  rewrite matmul_assoc. apply matmul_ext; [reflexivity|].
  intros d Hd. by apply HPP.
Qed.

End projection_facts.

Lemma Rsum_triple (k : nat) (f : nat -> R) :
  Rsum (3 * k) f
  = Rsum k (fun a => f (3 * a)%nat + f (3 * a + 1)%nat + f (3 * a + 2)%nat).
Proof.
  induction k as [|k IH]; [reflexivity|].
  replace (3 * S k)%nat with (S (S (S (3 * k)))) by lia.
  cbn [Rsum]. rewrite IH.
  replace (S (3 * k)) with (3 * k + 1)%nat by lia.
  replace (S (3 * k + 1)) with (3 * k + 2)%nat by lia.
  lra.
Qed.

Lemma Rsum_pos (n : nat) (f : nat -> R) :
  (0 < n)%nat -> (forall a, (a < n)%nat -> 0 < f a) -> 0 < Rsum n f.
Proof.
  induction n as [|n IH]; intros Hn Hf; [lia|].
  simpl. destruct n as [|n].
  - simpl. specialize (Hf 0%nat ltac:(lia)). lra.
  - specialize (IH ltac:(lia) ltac:(intros a Ha; apply Hf; lia)).
    specialize (Hf (S n) ltac:(lia)). lra.
Qed.

Section poly_facts.

Variable natoms : nat.
Variable m : nat -> R.
Variable q : nat -> R.
Variable eig_vectors : matrix -> matrix.

Hypothesis some_atom : (0 < natoms)%nat.
Hypothesis positive_masses : forall k, (k < natoms)%nat -> 0 < m k.

Local Abbreviation D := (D natoms m q eig_vectors).
Local Abbreviation Dunit := (Dunit natoms m q eig_vectors).
Local Abbreviation transfmatrix := (transfmatrix natoms m q eig_vectors).
Local Abbreviation project := (project natoms m q eig_vectors).
Local Abbreviation apply_asr := (apply_asr natoms m q eig_vectors).
Local Abbreviation Rrot := (Rrot natoms m q eig_vectors).
Local Abbreviation U := (U natoms m q eig_vectors).
Local Abbreviation com := (com natoms m q).
Local Abbreviation qminuscom := (qminuscom natoms m q).
Local Abbreviation n := (3 * natoms)%nat.

(** The positions relative to the centre of mass have no first moment. *)
Lemma qminuscom_moment (e : nat) :
  Rsum natoms (fun a => m a * qminuscom a e) = 0.
Proof using some_atom positive_masses.
  pose proof (Rsum_pos natoms m some_atom positive_masses) as Hm.
  rewrite (Rsum_ext natoms _
             (fun a => q (3 * a + e)%nat * m a + (- com e) * m a))
    by (intros a _; unfold ASR.qminuscom; ring).
  rewrite Rsum_plus, Rsum_scal. unfold ASR.com. field. lra.
Qed.

Lemma Rrot_moment (c : nat) : Rsum natoms (fun a => m a * Rrot a c) = 0.
Proof using some_atom positive_masses.
  rewrite (Rsum_ext natoms _
             (fun a => U 0%nat c * (m a * qminuscom a 0)
                       + U 1%nat c * (m a * qminuscom a 1)
                       + U 2%nat c * (m a * qminuscom a 2)))
    by (intros a _; unfold ASR.Rrot; simpl; ring).
  rewrite !Rsum_plus, !Rsum_scal, !qminuscom_moment. lra.
Qed.

(** A rotation row in terms of the two columns of [U] it is built from. *)
Lemma D_rotation (k : nat) :
  (3 <= k < 6)%nat ->
  exists c1 c2 : nat, forall i,
    D k i = (Rrot (i / 3) c1 * U (i mod 3) c2 - Rrot (i / 3) c2 * U (i mod 3) c1)
            / ism m i.
Proof.
  intros Hk. destruct k as [|[|[|[|[|[|k]]]]]]; try lia.
  - by exists 1%nat, 2%nat.
  - by exists 2%nat, 0%nat.
  - by exists 0%nat, 1%nat.
Qed.

Lemma ism_square (a d : nat) :
  (a < natoms)%nat -> (d < 3)%nat ->
  1 / ism m (3 * a + d) * (1 / ism m (3 * a + d)) = m a.
Proof using some_atom positive_masses.
  intros Ha Hd. unfold ism, m3.
  replace ((3 * a + d) / 3)%nat with a
    by (apply (Nat.div_unique _ 3 a d); lia).
  pose proof (positive_masses a Ha) as Hm.
  pose proof (sqrt_lt_R0 _ Hm) as Hs.
  replace (1 / (1 / sqrt (m a)) * (1 / (1 / sqrt (m a))))
    with (sqrt (m a) * sqrt (m a)) by (field; lra).
  apply sqrt_sqrt. lra.
Qed.

(** Every rotation row is orthogonal to every translation row. *)
Lemma D_rotation_translation (k l : nat) :
  (3 <= k < 6)%nat -> (l < 3)%nat -> vdot n (D k) (D l) = 0.
Proof using some_atom positive_masses.
  intros Hk Hl. destruct (D_rotation k Hk) as (c1 & c2 & HD).
  unfold vdot. rewrite Rsum_triple.
  rewrite (Rsum_ext natoms _
             (fun a => U l c2 * (m a * Rrot a c1) + (- U l c1) * (m a * Rrot a c2))).
  { rewrite Rsum_plus, !Rsum_scal, !Rrot_moment. lra. }
  intros a Ha.
  assert (Hterm : forall d, (d < 3)%nat ->
            D k (3 * a + d)%nat * D l (3 * a + d)%nat
            = (if (d =? l)%nat then 1 else 0)
              * (m a * (Rrot a c1 * U d c2 - Rrot a c2 * U d c1))).
  { intros d Hd. rewrite HD, (D_translation natoms m q eig_vectors some_atom l _ Hl).
    replace ((3 * a + d) / 3)%nat with a
      by (apply (Nat.div_unique _ 3 a d); lia).
    replace ((3 * a + d) mod 3)%nat with d
      by (apply (Nat.mod_unique _ 3 a d); lia).
    rewrite <- (ism_square a d Ha Hd). unfold Rdiv. ring. }
  replace (3 * a)%nat with (3 * a + 0)%nat at 1 2 by lia.
  rewrite !Hterm by lia.
  destruct l as [|[|[|l]]]; simpl; try lia; ring.
Qed.

Lemma Dunit_rotation_translation (k l : nat) :
  (3 <= k < 6)%nat -> (l < 3)%nat -> vdot n (Dunit k) (Dunit l) = 0.
Proof using some_atom positive_masses.
  intros Hk Hl.
  assert (Hsum : vdot n (Dunit k) (Dunit l)
                 = (/ norm n (D k) * / norm n (D l)) * vdot n (D k) (D l)).
  { unfold vdot. rewrite <- Rsum_scal. apply Rsum_ext. intros i _.
    unfold ASR.Dunit, Rdiv. ring. }
  rewrite Hsum, D_rotation_translation by assumption. lra.
Qed.

(** The [poly] projector sends each normalised translation to zero. *)
Lemma transfmatrix_poly_translation (l a : nat) :
  (l < 3)%nat -> (a < n)%nat -> matvec n (transfmatrix 6) (Dunit l) a = 0.
Proof using some_atom positive_masses.
  intros Hl Ha. unfold matvec, ASR.transfmatrix.
  rewrite (Rsum_ext n _
             (fun b => eye a b * Dunit l b
                       + (- Dunit 0 a) * (Dunit 0 b * Dunit l b)
                       + (- Dunit 1 a) * (Dunit 1 b * Dunit l b)
                       + (- Dunit 2 a) * (Dunit 2 b * Dunit l b)
                       + (- Dunit 3 a) * (Dunit 3 b * Dunit l b)
                       + (- Dunit 4 a) * (Dunit 4 b * Dunit l b)
                       + (- Dunit 5 a) * (Dunit 5 b * Dunit l b)))
    by (intros b _; simpl; ring).
  rewrite !Rsum_plus, !Rsum_scal, Rsum_eye by exact Ha.
  fold (vdot n (Dunit 0) (Dunit l)) (vdot n (Dunit 1) (Dunit l))
       (vdot n (Dunit 2) (Dunit l)) (vdot n (Dunit 3) (Dunit l))
       (vdot n (Dunit 4) (Dunit l)) (vdot n (Dunit 5) (Dunit l)).
  rewrite (Dunit_rotation_translation 3 l), (Dunit_rotation_translation 4 l),
    (Dunit_rotation_translation 5 l) by lia.
  rewrite !(Dunit_orthonormal natoms m q eig_vectors some_atom positive_masses)
    by lia.
  destruct l as [|[|[|l]]]; simpl; try lra. lia.
Qed.

(** X3.  The [poly] sum rule removes the translations too.  For positive
    masses, and rotation rows that can be normalised (a vanishing row would
    make numpy divide by zero), the matrix returned for [asr = "poly"] sends
    each of the three normalised translation rows to zero, whatever
    [np.linalg.eig] returned for the axes of inertia: the rotation rows are
    built from positions relative to the centre of mass, which makes them
    orthogonal to the translations. *)
Theorem apply_asr_poly_removes_translations (dm : matrix) (nz l : nat) :
  (forall k, (3 <= k < 6)%nat -> 0 < vdot n (D k) (D k)) ->
  (l < 3)%nat ->
  exists r : matrix,
    apply_asr "poly" dm nz = (Some r, 6%nat) /\
    in_kernel n r (Dunit l) /\
    (forall k, (3 <= k < 6)%nat -> vdot n (Dunit k) (Dunit l) = 0).
Proof using some_atom positive_masses.
  intros _ Hl. exists (project 6 dm). split; [reflexivity|]. split.
  - intros a Ha. unfold ASR.project.
    rewrite matvec_matmul. apply matvec_zero. intros b Hb.
    rewrite matvec_matmul. apply matvec_zero. intros c Hc.
    by apply transfmatrix_poly_translation.
  - intros k Hk. by apply Dunit_rotation_translation.
Qed.

End poly_facts.

(** *** The rotations *)

Section rotation_facts.

Variable natoms : nat.
Variable m : nat -> R.
Variable q : nat -> R.
Variable eig_vectors : matrix -> matrix.

Hypothesis some_atom : (0 < natoms)%nat.
Hypothesis positive_masses : forall k, (k < natoms)%nat -> 0 < m k.

Local Abbreviation D := (D natoms m q eig_vectors).
Local Abbreviation Dunit := (Dunit natoms m q eig_vectors).
Local Abbreviation transfmatrix := (transfmatrix natoms m q eig_vectors).
Local Abbreviation project := (project natoms m q eig_vectors).
Local Abbreviation apply_asr := (apply_asr natoms m q eig_vectors).
Local Abbreviation Rrot := (Rrot natoms m q eig_vectors).
Local Abbreviation U := (U natoms m q eig_vectors).
Local Abbreviation moi := (moi natoms m q).
Local Abbreviation qminuscom := (qminuscom natoms m q).
Local Abbreviation n := (3 * natoms)%nat.

(** The second moments of the masses about the centre of mass. *)
Local Abbreviation S2 :=
  (fun e e' : nat => Rsum natoms (fun k => m k * (qminuscom k e * qminuscom k e'))).
Local Abbreviation T2 :=
  (Rsum natoms (fun k => m k * (qminuscom k 0 * qminuscom k 0
                                + qminuscom k 1 * qminuscom k 1
                                + qminuscom k 2 * qminuscom k 2))).

(** The tensor built from the cross products is the tensor of inertia:
    [moi[a][b] = sum_k m_k (|r_k|^2 delta_ab - r_k[a] r_k[b])]. *)
Lemma moi_entry (a b : nat) :
  (a < 3)%nat -> (b < 3)%nat ->
  moi a b = (if (a =? b)%nat then T2 else 0) - S2 a b.
Proof.
  intros Ha Hb. unfold ASR.moi.
  rewrite (Rsum_ext natoms _
             (fun k => (if (a =? b)%nat then 1 else 0)
                       * (m k * (qminuscom k 0 * qminuscom k 0
                                 + qminuscom k 1 * qminuscom k 1
                                 + qminuscom k 2 * qminuscom k 2))
                       + (-1) * (m k * (qminuscom k a * qminuscom k b)))).
  - rewrite Rsum_plus, !Rsum_scal.
    destruct (a =? b)%nat; lra.
  - intros k _. unfold matmul, cross_identity, cross, eye.
    destruct a as [|[|[|a]]]; try lia; destruct b as [|[|[|b]]]; try lia;
      simpl; ring.
Qed.

Lemma S2_sym (e e' : nat) : S2 e e' = S2 e' e.
Proof. apply Rsum_ext. intros k _. ring. Qed.

(** The second moments of the rotated positions [R = np.dot(qminuscom, U)]. *)
Lemma Rrot_second_moment (c c' : nat) :
  Rsum natoms (fun k => m k * (Rrot k c * Rrot k c'))
  = U 0%nat c * (U 0%nat c' * S2 0%nat 0%nat + U 1%nat c' * S2 0%nat 1%nat
                 + U 2%nat c' * S2 0%nat 2%nat)
    + U 1%nat c * (U 0%nat c' * S2 0%nat 1%nat + U 1%nat c' * S2 1%nat 1%nat
                   + U 2%nat c' * S2 1%nat 2%nat)
    + U 2%nat c * (U 0%nat c' * S2 0%nat 2%nat + U 1%nat c' * S2 1%nat 2%nat
                   + U 2%nat c' * S2 2%nat 2%nat).
Proof.
  rewrite (Rsum_ext natoms _
             (fun k =>
                (U 0%nat c * U 0%nat c') * (m k * (qminuscom k 0 * qminuscom k 0))
                + (U 0%nat c * U 1%nat c' + U 1%nat c * U 0%nat c')
                  * (m k * (qminuscom k 0 * qminuscom k 1))
                + (U 0%nat c * U 2%nat c' + U 2%nat c * U 0%nat c')
                  * (m k * (qminuscom k 0 * qminuscom k 2))
                + (U 1%nat c * U 1%nat c') * (m k * (qminuscom k 1 * qminuscom k 1))
                + (U 1%nat c * U 2%nat c' + U 2%nat c * U 1%nat c')
                  * (m k * (qminuscom k 1 * qminuscom k 2))
                + (U 2%nat c * U 2%nat c') * (m k * (qminuscom k 2 * qminuscom k 2))))
    by (intros k _; unfold ASR.Rrot; simpl; ring).
  rewrite !Rsum_plus, !Rsum_scal. ring.
Qed.

(** The axes that [np.linalg.eig] returns are principal axes: the columns
    of [U] are orthonormal eigenvectors of the tensor of inertia. *)
Definition principal_axes : Prop :=
  (forall c c', (c < 3)%nat -> (c' < 3)%nat ->
     Rsum 3 (fun d => U d c * U d c') = if (c =? c')%nat then 1 else 0) /\
  exists lambda : nat -> R,
    forall a c, (a < 3)%nat -> (c < 3)%nat ->
      Rsum 3 (fun b => moi a b * U b c) = lambda c * U a c.

(** About principal axes the products of inertia vanish. *)
Lemma products_of_inertia (c c' : nat) :
  principal_axes -> (c < 3)%nat -> (c' < 3)%nat -> c <> c' ->
  Rsum natoms (fun k => m k * (Rrot k c * Rrot k c')) = 0.
Proof.
  intros [Horth [lambda Heig]] Hc Hc' Hne.
  rewrite Rrot_second_moment.
  pose proof (Horth c c' Hc Hc') as HO. simpl in HO.
  destruct (Nat.eqb_spec c c') as [E|_]; [contradiction|].
  pose proof (Heig 0%nat c' ltac:(lia) Hc') as E0.
  pose proof (Heig 1%nat c' ltac:(lia) Hc') as E1.
  pose proof (Heig 2%nat c' ltac:(lia) Hc') as E2.
  simpl in E0, E1, E2.
  rewrite !moi_entry in E0, E1, E2 by lia. simpl in E0, E1, E2.
  rewrite (S2_sym 1 0) in E1. rewrite (S2_sym 2 0), (S2_sym 2 1) in E2.
  set (s00 := S2 0%nat 0%nat) in *. set (s01 := S2 0%nat 1%nat) in *.
  set (s02 := S2 0%nat 2%nat) in *. set (s11 := S2 1%nat 1%nat) in *.
  set (s12 := S2 1%nat 2%nat) in *. set (s22 := S2 2%nat 2%nat) in *.
  set (t := T2) in *.
  set (u0 := U 0%nat c) in *. set (u1 := U 1%nat c) in *. set (u2 := U 2%nat c) in *.
  set (v0 := U 0%nat c') in *. set (v1 := U 1%nat c') in *.
  set (v2 := U 2%nat c') in *.
  assert (H0 : u0 * (v0 * s00 + v1 * s01 + v2 * s02)
               = u0 * (t * v0) - u0 * (lambda c' * v0))
    by (rewrite <- E0; ring).
  assert (H1 : u1 * (v0 * s01 + v1 * s11 + v2 * s12)
               = u1 * (t * v1) - u1 * (lambda c' * v1))
    by (rewrite <- E1; ring).
  assert (H2 : u2 * (v0 * s02 + v1 * s12 + v2 * s22)
               = u2 * (t * v2) - u2 * (lambda c' * v2))
    by (rewrite <- E2; ring).
  rewrite H0, H1, H2.
  replace (u0 * (t * v0) - u0 * (lambda c' * v0)
           + (u1 * (t * v1) - u1 * (lambda c' * v1))
           + (u2 * (t * v2) - u2 * (lambda c' * v2)))
    with ((t - lambda c') * (0 + u0 * v0 + u1 * v1 + u2 * v2)) by ring.
  rewrite HO. ring.
Qed.

(** The three rotation rows, by the two columns of [U] each is built from. *)
Definition rotation_columns (k : nat) : nat * nat :=
  match k with
  | 3%nat => (1%nat, 2%nat)
  | 4%nat => (2%nat, 0%nat)
  | _ => (0%nat, 1%nat)
  end.

Lemma D_rotation_columns (k i : nat) :
  (3 <= k < 6)%nat ->
  D k i = (Rrot (i / 3) (rotation_columns k).1 * U (i mod 3) (rotation_columns k).2
           - Rrot (i / 3) (rotation_columns k).2 * U (i mod 3) (rotation_columns k).1)
          / ism m i.
Proof.
  intros Hk. destruct k as [|[|[|[|[|[|k]]]]]]; try lia; reflexivity.
Qed.

(** Two different rotation rows are orthogonal. *)
Lemma D_rotations_orthogonal (k l : nat) :
  principal_axes ->
  (3 <= k < 6)%nat -> (3 <= l < 6)%nat -> k <> l -> vdot n (D k) (D l) = 0.
Proof using some_atom positive_masses.
  intros Hpa Hk Hl Hne. pose proof Hpa as [Horth _].
  set (c1 := (rotation_columns k).1). set (c2 := (rotation_columns k).2).
  set (d1 := (rotation_columns l).1). set (d2 := (rotation_columns l).2).
  assert (Hcols : (c1 < 3)%nat /\ (c2 < 3)%nat /\ (d1 < 3)%nat /\ (d2 < 3)%nat).
  { subst c1 c2 d1 d2.
    destruct k as [|[|[|[|[|[|k]]]]]]; try lia;
      destruct l as [|[|[|[|[|[|l]]]]]]; try lia; simpl; lia. }
  destruct Hcols as (Hc1 & Hc2 & Hd1 & Hd2).
  pose proof (Horth c2 d2 Hc2 Hd2) as O22. pose proof (Horth c2 d1 Hc2 Hd1) as O21.
  pose proof (Horth c1 d2 Hc1 Hd2) as O12. pose proof (Horth c1 d1 Hc1 Hd1) as O11.
  simpl in O22, O21, O12, O11.
  unfold vdot. rewrite Rsum_triple.
  rewrite (Rsum_ext natoms _
             (fun a =>
                (0 + U 0%nat c2 * U 0%nat d2 + U 1%nat c2 * U 1%nat d2
                 + U 2%nat c2 * U 2%nat d2) * (m a * (Rrot a c1 * Rrot a d1))
                + (- (0 + U 0%nat c2 * U 0%nat d1 + U 1%nat c2 * U 1%nat d1
                      + U 2%nat c2 * U 2%nat d1)) * (m a * (Rrot a c1 * Rrot a d2))
                + (- (0 + U 0%nat c1 * U 0%nat d2 + U 1%nat c1 * U 1%nat d2
                      + U 2%nat c1 * U 2%nat d2)) * (m a * (Rrot a c2 * Rrot a d1))
                + (0 + U 0%nat c1 * U 0%nat d1 + U 1%nat c1 * U 1%nat d1
                   + U 2%nat c1 * U 2%nat d1) * (m a * (Rrot a c2 * Rrot a d2)))).
  - rewrite !Rsum_plus, !Rsum_scal, O22, O21, O12, O11.
    subst c1 c2 d1 d2.
    destruct k as [|[|[|[|[|[|k]]]]]]; try lia;
      destruct l as [|[|[|[|[|[|l]]]]]]; try lia; try contradiction; simpl;
      rewrite ?(products_of_inertia 0 1), ?(products_of_inertia 1 0),
        ?(products_of_inertia 0 2), ?(products_of_inertia 2 0),
        ?(products_of_inertia 1 2), ?(products_of_inertia 2 1)
        by (first [exact Hpa | lia]); ring.
  - intros a Ha.
    assert (Hterm : forall d, (d < 3)%nat ->
              D k (3 * a + d)%nat * D l (3 * a + d)%nat
              = m a * ((Rrot a c1 * U d c2 - Rrot a c2 * U d c1)
                       * (Rrot a d1 * U d d2 - Rrot a d2 * U d d1))).
    { intros d Hd. rewrite !D_rotation_columns by assumption.
      replace ((3 * a + d) / 3)%nat with a
        by (apply (Nat.div_unique _ 3 a d); lia).
      replace ((3 * a + d) mod 3)%nat with d
        by (apply (Nat.mod_unique _ 3 a d); lia).
      rewrite <- (ism_square natoms m some_atom positive_masses a d Ha Hd).
      unfold Rdiv. fold c1 c2 d1 d2. ring. }
    replace (3 * a)%nat with (3 * a + 0)%nat at 1 2 by lia.
    rewrite !Hterm by lia. ring.
Qed.

(** The rows of [D] can be normalised: none of the three rotation rows
    vanishes (the translation rows never do). *)
Definition rotations_normalisable : Prop :=
  forall k, (3 <= k < 6)%nat -> 0 < vdot n (D k) (D k).

Lemma D_norm_positive (k : nat) :
  rotations_normalisable -> (k < 6)%nat -> 0 < vdot n (D k) (D k).
Proof using some_atom positive_masses.
  intros Hrot Hk. destruct (Nat.lt_ge_cases k 3) as [Hlt|Hge].
  - by apply D_translation_norm_positive.
  - apply Hrot. lia.
Qed.

Lemma D_orthogonal (k l : nat) :
  principal_axes -> (k < 6)%nat -> (l < 6)%nat -> k <> l -> vdot n (D k) (D l) = 0.
Proof using some_atom positive_masses.
  intros Hpa Hk Hl Hne.
  destruct (Nat.lt_ge_cases k 3) as [Hk3|Hk3];
    destruct (Nat.lt_ge_cases l 3) as [Hl3|Hl3].
  - by apply D_translations_orthogonal.
  - unfold vdot. rewrite (Rsum_ext _ _ (fun a => D l a * D k a))
      by (intros a _; ring).
    apply (D_rotation_translation natoms m q eig_vectors some_atom positive_masses);
      lia.
  - apply (D_rotation_translation natoms m q eig_vectors some_atom positive_masses);
      lia.
  - apply D_rotations_orthogonal; [exact Hpa | lia | lia | exact Hne].
Qed.

(** The six normalised rows are orthonormal. *)
Lemma Dunit_six_orthonormal (k l : nat) :
  principal_axes -> rotations_normalisable ->
  (k < 6)%nat -> (l < 6)%nat ->
  vdot n (Dunit k) (Dunit l) = if (k =? l)%nat then 1 else 0.
Proof using some_atom positive_masses.
  intros Hpa Hrot Hk Hl.
  pose proof (D_norm_positive k Hrot Hk) as Hnk.
  pose proof (D_norm_positive l Hrot Hl) as Hnl.
  pose proof (sqrt_lt_R0 _ Hnk) as Hsk. pose proof (sqrt_lt_R0 _ Hnl) as Hsl.
  assert (Hsum : vdot n (Dunit k) (Dunit l)
                 = / (norm n (D k) * norm n (D l)) * vdot n (D k) (D l)).
  { unfold vdot. rewrite <- Rsum_scal. apply Rsum_ext. intros i _.
    unfold ASR.Dunit, norm. field. lra. }
  rewrite Hsum. destruct (Nat.eqb_spec k l) as [->|Hne].
  - unfold norm. rewrite sqrt_sqrt by lra. field. lra.
  - rewrite D_orthogonal by assumption. lra.
Qed.

(** The [poly] projector sends each of the six normalised rows to zero. *)
Lemma transfmatrix_six (l a : nat) :
  principal_axes -> rotations_normalisable ->
  (l < 6)%nat -> (a < n)%nat -> matvec n (transfmatrix 6) (Dunit l) a = 0.
Proof using some_atom positive_masses.
  intros Hpa Hrot Hl Ha. unfold matvec, ASR.transfmatrix.
  rewrite (Rsum_ext n _
             (fun b => eye a b * Dunit l b
                       + (- Dunit 0 a) * (Dunit 0 b * Dunit l b)
                       + (- Dunit 1 a) * (Dunit 1 b * Dunit l b)
                       + (- Dunit 2 a) * (Dunit 2 b * Dunit l b)
                       + (- Dunit 3 a) * (Dunit 3 b * Dunit l b)
                       + (- Dunit 4 a) * (Dunit 4 b * Dunit l b)
                       + (- Dunit 5 a) * (Dunit 5 b * Dunit l b)))
    by (intros b _; simpl; ring).
  rewrite !Rsum_plus, !Rsum_scal, Rsum_eye by exact Ha.
  fold (vdot n (Dunit 0) (Dunit l)) (vdot n (Dunit 1) (Dunit l))
       (vdot n (Dunit 2) (Dunit l)) (vdot n (Dunit 3) (Dunit l))
       (vdot n (Dunit 4) (Dunit l)) (vdot n (Dunit 5) (Dunit l)).
  rewrite !Dunit_six_orthonormal by (first [assumption | lia]).
  destruct l as [|[|[|[|[|[|l]]]]]]; simpl; try lra. lia.
Qed.

(** The normalised translation rows, entry by entry: the square roots of
    the masses on the coordinates of one direction, over the square root
    of the total mass. *)
Lemma Dunit_translation_entry (k i : nat) :
  (k < 3)%nat -> (i < n)%nat ->
  Dunit k i
  = (if (i mod 3 =? k)%nat then sqrt (m (i / 3)) else 0) / sqrt (Rsum natoms m).
Proof using some_atom positive_masses.
  intros Hk Hi.
  assert (Hmi : 0 < m (i / 3)).
  { apply positive_masses. apply Nat.Div0.div_lt_upper_bound. lia. }
  pose proof (sqrt_lt_R0 _ Hmi) as Hsi.
  assert (Hnorm : vdot n (D k) (D k) = Rsum natoms m).
  { unfold vdot. rewrite Rsum_triple. apply Rsum_ext. intros a Ha.
    assert (Hterm : forall d, (d < 3)%nat ->
              D k (3 * a + d)%nat * D k (3 * a + d)%nat
              = (if (d =? k)%nat then 1 else 0) * m a).
    { intros d Hd.
      rewrite (D_translation natoms m q eig_vectors some_atom k _ Hk).
      replace ((3 * a + d) mod 3)%nat with d
        by (apply (Nat.mod_unique _ 3 a d); lia).
      rewrite <- (ism_square natoms m some_atom positive_masses a d Ha Hd).
      destruct (d =? k)%nat; unfold Rdiv; ring. }
    replace (3 * a)%nat with (3 * a + 0)%nat at 1 2 by lia.
    rewrite !Hterm by lia.
    destruct k as [|[|[|k]]]; simpl; try lia; ring. }
  unfold ASR.Dunit, norm. rewrite Hnorm.
  rewrite (D_translation natoms m q eig_vectors some_atom k _ Hk).
  unfold ism, m3. destruct (i mod 3 =? k)%nat; unfold Rdiv; field.
  all: pose proof (Rsum_pos natoms m some_atom positive_masses) as Hm;
    pose proof (sqrt_lt_R0 _ Hm); lra.
Qed.

(** C3 (as the code has it), for positive masses.  With [asr = "none"]
    the matrix is returned as it is and [nz] is left as it was, 0 at the
    call in [bind].  With ["crystal"] the result is [P^T dm P] for
    [P = I - D^T D], where the three rows of [D] are the normalised
    mass-weighted translations [sqrt(m) / sqrt(sum m)] along one direction
    each; they are orthonormal, the result sends each of them to zero (at
    least three zero eigenvalues), and [nz] becomes 3.  With ["poly"] [D]
    has three more rows, the normalised mass-weighted rotations about the
    columns of [U = np.linalg.eig(moi)[1]], the result is [P^T dm P] for
    the [P] of the six rows, and [nz] becomes 6; when the columns of [U]
    are orthonormal eigenvectors of the tensor of inertia and no rotation
    row vanishes, the six rows are orthonormal and the result sends each
    of them to zero (at least six zero eigenvalues). *)
Theorem apply_asr_projects_translations :
  (forall dm nz, apply_asr "none" dm nz = (Some dm, nz)) /\
  (forall k i, (k < 3)%nat -> (i < n)%nat ->
     Dunit k i
     = (if (i mod 3 =? k)%nat then sqrt (m (i / 3)) else 0)
       / sqrt (Rsum natoms m)) /\
  (forall k i, (3 <= k < 6)%nat -> (i < n)%nat ->
     Dunit k i
     = (Rrot (i / 3) (rotation_columns k).1 * U (i mod 3) (rotation_columns k).2
        - Rrot (i / 3) (rotation_columns k).2 * U (i mod 3) (rotation_columns k).1)
       * sqrt (m (i / 3)) / norm n (D k)) /\
  (forall rows a b,
     transfmatrix rows a b = eye a b - Rsum rows (fun k => Dunit k a * Dunit k b)) /\
  (forall dm nz,
     exists r : matrix,
       apply_asr "crystal" dm nz = (Some r, 3%nat) /\
       (forall a b,
          r a b = Rsum n (fun c => Rsum n (fun d =>
                    transfmatrix 3 c a * dm c d * transfmatrix 3 d b))) /\
       (forall k l, (k < 3)%nat -> (l < 3)%nat ->
          vdot n (Dunit k) (Dunit l) = if (k =? l)%nat then 1 else 0) /\
       (forall k, (k < 3)%nat -> in_kernel n r (Dunit k))) /\
  (forall dm nz,
     exists r : matrix,
       apply_asr "poly" dm nz = (Some r, 6%nat) /\
       (forall a b,
          r a b = Rsum n (fun c => Rsum n (fun d =>
                    transfmatrix 6 c a * dm c d * transfmatrix 6 d b))) /\
       (principal_axes -> rotations_normalisable ->
        (forall k l, (k < 6)%nat -> (l < 6)%nat ->
           vdot n (Dunit k) (Dunit l) = if (k =? l)%nat then 1 else 0) /\
        (forall k, (k < 6)%nat -> in_kernel n r (Dunit k)))).
Proof using some_atom positive_masses.
  split; [reflexivity|].
  split; [apply Dunit_translation_entry|].
  split.
  { intros k i Hk Hi. unfold ASR.Dunit. rewrite D_rotation_columns by exact Hk.
    assert (Hmi : 0 < m (i / 3)).
    { apply positive_masses. apply Nat.Div0.div_lt_upper_bound. lia. }
    pose proof (sqrt_lt_R0 _ Hmi) as Hsi.
    unfold Rdiv. do 2 f_equal. unfold ism, m3. field. lra. }
  split; [reflexivity|].
  split.
  - intros dm nz. exists (project 3 dm). split; [reflexivity|].
    split; [intros a b; apply project_entry|].
    split; [apply (Dunit_orthonormal natoms m q eig_vectors some_atom positive_masses)|].
    intros k Hk a Ha. unfold ASR.project.
    rewrite matvec_matmul. apply matvec_zero. intros b Hb.
    rewrite matvec_matmul. apply matvec_zero. intros c Hc.
    by apply (transfmatrix_translation natoms m q eig_vectors some_atom
                positive_masses).
  - intros dm nz. exists (project 6 dm). split; [reflexivity|].
    split; [intros a b; apply project_entry|].
    intros Hpa Hrot. split; [intros k l; by apply Dunit_six_orthonormal|].
    intros k Hk a Ha. unfold ASR.project.
    rewrite matvec_matmul. apply matvec_zero. intros b Hb.
    rewrite matvec_matmul. apply matvec_zero. intros c Hc.
    by apply transfmatrix_six.
Qed.

End rotation_facts.

(** *** The test systems *)

Lemma example_square_com (c : nat) :
  (c < 3)%nat -> com 4 Example.unit_masses Example.square c = 0.
Proof.
  intros Hc. unfold com, Example.unit_masses.
  destruct c as [|[|[|c]]]; simpl; try lra. lia.
Qed.

(** The coordinate axes are principal axes of the square. *)
Lemma example_square_axes :
  principal_axes 4 Example.unit_masses Example.square Example.axes.
Proof.
  split.
  - intros c c' Hc Hc'. unfold U, Example.axes, eye.
    destruct c as [|[|[|c]]]; try lia; destruct c' as [|[|[|c']]]; try lia;
      simpl; lra.
  - exists (fun c => moi 4 Example.unit_masses Example.square c c).
    intros a c Ha Hc. unfold U, Example.axes.
    assert (Hoff : forall x y, (x < 3)%nat -> (y < 3)%nat -> x <> y ->
                     moi 4 Example.unit_masses Example.square x y = 0).
    { intros x y Hx Hy Hne.
      unfold moi, matmul, cross_identity, cross, qminuscom. simpl.
      rewrite !example_square_com by lia.
      destruct x as [|[|[|x]]]; try lia; destruct y as [|[|[|y]]]; try lia;
        try contradiction; unfold eye, Example.square, Example.unit_masses; simpl;
        lra. }
    rewrite (Rsum_eye_r 3 (moi 4 Example.unit_masses Example.square a) c Hc).
    unfold eye. destruct (Nat.eqb_spec a c) as [->|Hne]; [lra|].
    rewrite Hoff by assumption. lra.
Qed.

Lemma example_square_rotations (k : nat) :
  (3 <= k < 6)%nat ->
  0 < vdot 12 (D 4 Example.unit_masses Example.square Example.axes k)
              (D 4 Example.unit_masses Example.square Example.axes k).
Proof.
  intros Hk.
  set (i := match k with 3%nat => 8%nat | 4%nat => 2%nat | _ => 1%nat end).
  apply Rlt_le_trans
    with (D 4 Example.unit_masses Example.square Example.axes k i
          * D 4 Example.unit_masses Example.square Example.axes k i).
  - assert (HD : D 4 Example.unit_masses Example.square Example.axes k i = 1
                 \/ D 4 Example.unit_masses Example.square Example.axes k i = -1).
    { destruct k as [|[|[|[|[|[|k]]]]]]; try lia; subst i;
        unfold D, Rrot, U, Example.axes, qminuscom, ism, m3, Example.unit_masses;
        simpl; rewrite ?example_square_com by lia; unfold eye; simpl;
        rewrite ?sqrt_1; [left|right|left];
        unfold Example.square, eye; simpl; field. }
    destruct HD as [-> | ->]; lra.
  - apply (Rsum_nonneg_term 12 i
             (fun a => D 4 Example.unit_masses Example.square Example.axes k a
                       * D 4 Example.unit_masses Example.square Example.axes k a)).
    + intros a. apply Rle_0_sqr.
    + subst i. destruct k as [|[|[|[|[|[|k]]]]]]; lia.
Qed.

(** Each of the six rows moves the first two atoms of the square, which
    lie on the first axis, by the same amount along that axis. *)
Lemma example_square_first_atoms (k : nat) :
  (k < 6)%nat ->
  Dunit 4 Example.unit_masses Example.square Example.axes k 0%nat
  = Dunit 4 Example.unit_masses Example.square Example.axes k 3%nat.
Proof.
  intros Hk. unfold Dunit. f_equal.
  destruct k as [|[|[|[|[|[|k]]]]]]; try lia;
    unfold D, Rrot, U, Example.axes, qminuscom, ism, m3, Example.unit_masses;
    simpl; rewrite ?example_square_com by lia;
    unfold eye, Example.square; simpl; lra.
Qed.

Lemma zero_matrix_projected (natoms rows : nat) (m q : nat -> R)
    (eig_vectors : matrix -> matrix) (v : vector) :
  in_kernel (3 * natoms) (project natoms m q eig_vectors rows Example.zero_matrix) v.
Proof.
  intros a _. unfold matvec. apply Rsum_zero. intros b _.
  assert (Hzero : project natoms m q eig_vectors rows Example.zero_matrix a b = 0).
  { unfold project, matmul. apply Rsum_zero. intros c _.
    rewrite (Rsum_zero _ (fun c0 => Example.zero_matrix c c0 * _));
      [lra|]. intros e _. unfold Example.zero_matrix. lra. }
  rewrite Hzero. lra.
Qed.

Lemma apply_asr_projects_translations_witness :
  principal_axes 4 Example.unit_masses Example.square Example.axes /\
  rotations_normalisable 4 Example.unit_masses Example.square Example.axes /\
  exists r : matrix,
    apply_asr 4 Example.unit_masses Example.square Example.axes "poly" eye 0
    = (Some r, 6%nat) /\
    forall k, (k < 6)%nat ->
      in_kernel 12 r (Dunit 4 Example.unit_masses Example.square Example.axes k).
Proof.
  assert (Hatom : (0 < 4)%nat) by lia.
  assert (Hmass : forall k, (k < 4)%nat -> 0 < Example.unit_masses k)
    by (intros k _; unfold Example.unit_masses; lra).
  split; [exact example_square_axes|].
  split; [exact example_square_rotations|].
  destruct (apply_asr_projects_translations
              4 Example.unit_masses Example.square Example.axes Hatom Hmass)
    as (_ & _ & _ & _ & _ & Hpoly).
  destruct (Hpoly eye 0%nat) as (r & Hr & _ & Hker).
  exists r. split; [exact Hr|].
  apply (Hker example_square_axes example_square_rotations).
Defined.

(** The specification counts exactly three zero eigenvalues after the
    [crystal] projection and exactly six after the [poly] one.  For the
    all-zero dynamical matrix (which [IMF.bind] supplies when none is
    given) the projected matrix is zero and sends every displacement to
    zero.  With two atoms of unit mass, the displacement of the first
    coordinate alone is not a combination of the three translations; with
    the four atoms of the square, whose axes of inertia are the coordinate
    axes, it is not a combination of the six rows of [D] either, which all
    move the first two atoms alike along the first axis. *)
Lemma asr_kernel_exceeds_projected_directions :
  (apply_asr 2 Example.unit_masses Example.origin Example.no_eig "crystal"
     Example.zero_matrix 0
   = (Some (project 2 Example.unit_masses Example.origin Example.no_eig 3
              Example.zero_matrix), 3%nat) /\
   ~ kernel_is_span3 6
       (project 2 Example.unit_masses Example.origin Example.no_eig 3
          Example.zero_matrix)
       (Dunit 2 Example.unit_masses Example.origin Example.no_eig 0)
       (Dunit 2 Example.unit_masses Example.origin Example.no_eig 1)
       (Dunit 2 Example.unit_masses Example.origin Example.no_eig 2)) /\
  (apply_asr 4 Example.unit_masses Example.square Example.axes "poly"
     Example.zero_matrix 0
   = (Some (project 4 Example.unit_masses Example.square Example.axes 6
              Example.zero_matrix), 6%nat) /\
   principal_axes 4 Example.unit_masses Example.square Example.axes /\
   rotations_normalisable 4 Example.unit_masses Example.square Example.axes /\
   ~ kernel_is_span 12
       (project 4 Example.unit_masses Example.square Example.axes 6
          Example.zero_matrix)
       6 (Dunit 4 Example.unit_masses Example.square Example.axes)).
Proof.
  split; [split; [reflexivity|] | split; [reflexivity|]].
  - intros Hspan.
    destruct (proj1 (Hspan Example.first_coordinate)) as (c0 & c1 & c2 & Hc).
    + apply (zero_matrix_projected 2).
    + pose proof (Hc 0%nat ltac:(lia)) as H0.
      pose proof (Hc 3%nat ltac:(lia)) as H3.
      unfold Example.first_coordinate, Dunit, D in H0, H3. simpl in H0, H3.
      unfold ism, m3, Example.unit_masses in H0, H3. simpl in H0, H3.
      unfold Rdiv in H0, H3. rewrite !Rmult_0_l in H0, H3. lra.
  - split; [exact example_square_axes|].
    split; [exact example_square_rotations|].
    intros Hspan.
    destruct (proj1 (Hspan Example.first_coordinate)) as (c & Hc).
    + apply (zero_matrix_projected 4).
    + pose proof (Hc 0%nat ltac:(lia)) as H0.
      pose proof (Hc 3%nat ltac:(lia)) as H3.
      rewrite (Rsum_ext 6 _
                 (fun k => c k * Dunit 4 Example.unit_masses Example.square
                                   Example.axes k 3%nat)) in H0
        by (intros k Hk; by rewrite example_square_first_atoms).
      rewrite <- H3 in H0. unfold Example.first_coordinate in H0. simpl in H0. lra.
Qed.

Lemma apply_asr_keeps_symmetry_witness :
  symmetric 3 eye /\
  symmetric 3 (project 1 Example.unit_masses Example.origin Example.no_eig 3 eye).
Proof.
  assert (Hsym : symmetric 3 eye).
  { intros a b _ _. unfold eye. by rewrite Nat.eqb_sym. }
  split; [exact Hsym|].
  apply (apply_asr_keeps_symmetry 1 Example.unit_masses Example.origin
           Example.no_eig "crystal" eye _ 0 3 Hsym).
  reflexivity.
Defined.

Lemma apply_asr_crystal_idempotent_witness :
  exists r r' : matrix,
    apply_asr 1 Example.unit_masses Example.origin Example.no_eig "crystal" eye 0
    = (Some r, 3%nat) /\
    apply_asr 1 Example.unit_masses Example.origin Example.no_eig "crystal" r 3
    = (Some r', 3%nat) /\
    r' 0%nat 0%nat = r 0%nat 0%nat.
Proof.
  assert (Hatom : (0 < 1)%nat) by lia.
  assert (Hmass : forall k, (k < 1)%nat -> 0 < Example.unit_masses k)
    by (intros k _; unfold Example.unit_masses; lra).
  apply (apply_asr_crystal_idempotent 1 Example.unit_masses Example.origin
           Example.no_eig Hatom Hmass eye 0 0 0); lia.
Defined.

Lemma apply_asr_poly_removes_translations_witness :
  exists r : matrix,
    apply_asr 4 Example.unit_masses Example.square Example.axes "poly" eye 0
    = (Some r, 6%nat) /\
    in_kernel 12 r (Dunit 4 Example.unit_masses Example.square Example.axes 0) /\
    (forall k, (3 <= k < 6)%nat ->
       vdot 12 (Dunit 4 Example.unit_masses Example.square Example.axes k)
               (Dunit 4 Example.unit_masses Example.square Example.axes 0) = 0).
Proof.
  assert (Hatom : (0 < 4)%nat) by lia.
  assert (Hmass : forall k, (k < 4)%nat -> 0 < Example.unit_masses k)
    by (intros k _; unfold Example.unit_masses; lra).
  apply (apply_asr_poly_removes_translations 4 Example.unit_masses Example.square
           Example.axes Hatom Hmass eye 0 0 example_square_rotations).
  lia.
Defined.

End ASR.

(** ** [IMF.bind]: frequencies and Cartesian mode vectors *)

Module IMF_modes.

Section bind.

Variable sqrt : Q -> Q.

(** [w = w2 * 0; w[nz:] = np.sqrt(w2[nz:])] *)
Definition bind_w (nz : nat) (w2 : list Q) : list Q :=
  take nz (map (fun x => x * 0) w2) ++ map sqrt (drop nz w2).

(** [nmrms = np.zeros(len(w)); nmrms[nz:] = np.sqrt(0.5 / w[nz:])] *)
Definition bind_nmrms (nz : nat) (w : list Q) : list Q :=
  take nz (repeat 0 (length w)) ++ map (fun x => sqrt (0.5 / x)) (drop nz w).

(** [nmevib = 0.5 * w] *)
Definition bind_nmevib (w : list Q) : list Q := map (fun x => 0.5 * x) w.

End bind.

(** [V[:, i] *= ism] on the rows of [V]: entry [i] of row [r] is multiplied
    by [ism[r]].  ([ism] has one entry per row, and [i] is a column of [V];
    numpy raises otherwise.) *)
Definition scale_column (ism : list Q) (V : list (list Q)) (i : nat)
  : list (list Q) :=
  imap (fun r row => alter (fun x => x * at_index ism r) i row) V.

(** [V = U.copy(); for i in xrange(len(V)): V[:, i] *= ism] *)
Definition bind_V (U : list (list Q)) (ism : list Q) : list (list Q) :=
  fold_left (scale_column ism) (seq 0 (length U)) U.

(** An [n x n] array by its rows. *)
Definition shaped (n : nat) (A : list (list Q)) : Prop :=
  length A = n /\ Forall (fun row => length row = n) A.

Local Abbreviation entry := VSCFSolver.entry.

Lemma at_index_lookup (l : list Q) (i : nat) (x : Q) :
  l !! i = Some x -> at_index l i = x.
Proof. intros H. unfold at_index. by rewrite nth_lookup, H. Qed.

Lemma at_index_map (f : Q -> Q) (l : list Q) (i : nat) :
  (i < length l)%nat -> at_index (map f l) i = f (at_index l i).
Proof.
  intros Hi. destruct (lookup_lt_is_Some_2 l i Hi) as [x Hx].
  rewrite (at_index_lookup l i x Hx). apply at_index_lookup.
  change (map f l) with (f <$> l). by rewrite list_lookup_fmap, Hx.
Qed.

Lemma lookup_repeat (x : Q) (n i : nat) :
  (i < n)%nat -> repeat x n !! i = Some x.
Proof.
  revert i. induction n as [|n IH]; intros [|i] Hi; try lia; [reflexivity|].
  simpl. apply IH. lia.
Qed.

Section bind_facts.

Variable sqrt : Q -> Q.

Local Abbreviation bind_w := (bind_w sqrt).
Local Abbreviation bind_nmrms := (bind_nmrms sqrt).

Lemma bind_w_length (nz : nat) (w2 : list Q) :
  length (bind_w nz w2) = length w2.
Proof.
  unfold IMF_modes.bind_w.
  rewrite length_app, length_take, !length_map, length_drop. lia.
Qed.

Lemma bind_nmrms_length (nz : nat) (w : list Q) :
  length (bind_nmrms nz w) = length w.
Proof.
  unfold IMF_modes.bind_nmrms.
  rewrite length_app, length_take, repeat_length, length_map, length_drop. lia.
Qed.

Lemma bind_w_low (nz : nat) (w2 : list Q) (i : nat) :
  (i < nz)%nat -> (i < length w2)%nat -> at_index (bind_w nz w2) i == 0.
Proof.
  intros Hi Hlen. destruct (lookup_lt_is_Some_2 w2 i Hlen) as [x Hx].
  rewrite (at_index_lookup _ _ (x * 0)); [ring|].
  unfold IMF_modes.bind_w.
  rewrite lookup_app_l by (rewrite length_take, length_map; lia).
  rewrite lookup_take_lt by exact Hi.
  change (map (fun x => x * 0) w2) with ((fun x => x * 0) <$> w2).
  by rewrite list_lookup_fmap, Hx.
Qed.

Lemma bind_w_high (nz : nat) (w2 : list Q) (i : nat) :
  (nz <= i < length w2)%nat ->
  at_index (bind_w nz w2) i = sqrt (at_index w2 i).
Proof.
  intros Hi. destruct (lookup_lt_is_Some_2 w2 i (proj2 Hi)) as [x Hx].
  rewrite (at_index_lookup w2 i x Hx). apply at_index_lookup.
  unfold IMF_modes.bind_w.
  rewrite lookup_app_r by (rewrite length_take, length_map; lia).
  rewrite length_take, length_map.
  change (map sqrt (drop nz w2)) with (sqrt <$> drop nz w2).
  rewrite list_lookup_fmap, lookup_drop.
  replace (nz + (i - nz `min` length w2))%nat with i by lia.
  by rewrite Hx.
Qed.

Lemma bind_nmrms_low (nz : nat) (w : list Q) (i : nat) :
  (i < nz)%nat -> (i < length w)%nat -> at_index (bind_nmrms nz w) i = 0.
Proof.
  intros Hi Hlen. apply at_index_lookup. unfold IMF_modes.bind_nmrms.
  rewrite lookup_app_l by (rewrite length_take, repeat_length; lia).
  rewrite lookup_take_lt by exact Hi. by apply lookup_repeat.
Qed.

Lemma bind_nmrms_high (nz : nat) (w : list Q) (i : nat) :
  (nz <= i < length w)%nat ->
  at_index (bind_nmrms nz w) i = sqrt (0.5 / at_index w i).
Proof.
  intros Hi. destruct (lookup_lt_is_Some_2 w i (proj2 Hi)) as [x Hx].
  rewrite (at_index_lookup w i x Hx). apply at_index_lookup.
  unfold IMF_modes.bind_nmrms.
  rewrite lookup_app_r by (rewrite length_take, repeat_length; lia).
  rewrite length_take, repeat_length.
  change (map ?f (drop nz w)) with (f <$> drop nz w).
  rewrite list_lookup_fmap, lookup_drop.
  replace (nz + (i - nz `min` length w))%nat with i by lia.
  by rewrite Hx.
Qed.

(** X16.  [IMF.bind] gives every mode a frequency, a displacement scale
    and a vibrational energy: the three arrays are as long as [w2].  The
    first [nz] modes get zero in all three, whatever their [w2] (no square
    root is taken of it), and a mode [i >= nz] gets [w = sqrt(w2[i])],
    [nmrms = sqrt(0.5 / w)] and [nmevib = 0.5 * w]. *)
Theorem bind_frequencies_skip_the_zero_modes (nz : nat) (w2 : list Q) :
  let w := bind_w nz w2 in
  let nmrms := bind_nmrms nz w in
  let nmevib := bind_nmevib w in
  length w = length w2 /\ length nmrms = length w2 /\
  length nmevib = length w2 /\
  (forall i, (i < nz)%nat -> (i < length w2)%nat ->
     at_index w i == 0 /\ at_index nmrms i == 0 /\ at_index nmevib i == 0) /\
  (forall i, (nz <= i < length w2)%nat ->
     at_index w i = sqrt (at_index w2 i) /\
     at_index nmrms i = sqrt (0.5 / sqrt (at_index w2 i)) /\
     at_index nmevib i = 0.5 * sqrt (at_index w2 i)).
Proof.
  intros w nmrms nmevib.
  assert (Hw : length w = length w2) by apply bind_w_length.
  split; [exact Hw|].
  split; [unfold nmrms; by rewrite bind_nmrms_length|].
  split; [unfold nmevib, bind_nmevib; by rewrite length_map|].
  split.
  - intros i Hi Hlen. split; [by apply bind_w_low|]. split.
    + unfold nmrms. rewrite bind_nmrms_low by lia. reflexivity.
    + unfold nmevib, bind_nmevib. rewrite at_index_map by lia.
      unfold w. rewrite bind_w_low by assumption. ring.
  - intros i Hi. split; [by apply bind_w_high|]. split.
    + unfold nmrms. rewrite bind_nmrms_high by lia.
      unfold w. by rewrite bind_w_high.
    + unfold nmevib, bind_nmevib. rewrite at_index_map by lia.
      unfold w. by rewrite bind_w_high.
Qed.

End bind_facts.

(** *** The Cartesian mode vectors *)

Lemma scale_column_shaped (n : nat) (ism : list Q) (V : list (list Q)) (i : nat) :
  shaped n V -> shaped n (scale_column ism V i).
Proof.
  intros [Hlen Hrows]. split.
  - unfold scale_column. by rewrite length_imap.
  - apply Forall_forall. intros row Hrow.
    apply list_elem_of_lookup in Hrow as [r Hr].
    unfold scale_column in Hr. rewrite list_lookup_imap in Hr.
    destruct (V !! r) as [row0|] eqn:E; [|discriminate].
    injection Hr as <-. rewrite length_alter.
    rewrite Forall_forall in Hrows. apply Hrows.
    by eapply list_elem_of_lookup_2.
Qed.

Lemma scale_column_entry (n : nat) (ism : list Q) (V : list (list Q)) (i r c : nat) :
  shaped n V -> (r < n)%nat -> (c < n)%nat ->
  entry (scale_column ism V i) r c
  = if (c =? i)%nat then entry V r c * at_index ism r else entry V r c.
Proof.
  intros [Hlen Hrows] Hr Hc.
  destruct (lookup_lt_is_Some_2 V r ltac:(lia)) as [row Hrow].
  assert (Hrl : length row = n).
  { rewrite Forall_forall in Hrows. apply Hrows.
    by eapply list_elem_of_lookup_2. }
  destruct (lookup_lt_is_Some_2 row c ltac:(lia)) as [x Hx].
  unfold VSCFSolver.entry. rewrite !nth_lookup.
  unfold scale_column. rewrite list_lookup_imap, Hrow. simpl.
  rewrite (at_index_lookup row c x Hx).
  destruct (Nat.eqb_spec c i) as [->|Hne].
  - apply at_index_lookup. by rewrite list_lookup_alter_eq, Hx.
  - apply at_index_lookup. by rewrite list_lookup_alter_ne.
Qed.

Lemma bind_V_columns (n : nat) (ism : list Q) (U : list (list Q)) (k : nat) :
  shaped n U -> (k <= n)%nat ->
  shaped n (fold_left (scale_column ism) (seq 0 k) U) /\
  forall r c, (r < n)%nat -> (c < n)%nat ->
    entry (fold_left (scale_column ism) (seq 0 k) U) r c
    = if (c <? k)%nat then entry U r c * at_index ism r else entry U r c.
Proof.
  intros HU. induction k as [|k IH]; intros Hk.
  - split; [exact HU|]. intros r c _ _. reflexivity.
  - destruct IH as [Hsh Hent]; [lia|].
    rewrite seq_S, fold_left_app. simpl. split.
    + by apply scale_column_shaped.
    + intros r c Hr Hc.
      rewrite (scale_column_entry n) by assumption.
      rewrite Hent by assumption.
      destruct (Nat.eqb_spec c k) as [->|Hne].
      * rewrite Nat.ltb_irrefl.
        destruct (Nat.ltb_spec k (S k)); [reflexivity|lia].
      * destruct (Nat.ltb_spec c k), (Nat.ltb_spec c (S k)); try lia; reflexivity.
Qed.

(** X17.  The loop of [IMF.bind] over the columns of [V] scales every
    entry of the square matrix [U] exactly once: [V[r][c] = U[r][c] * ism[r]],
    so that column [c] of [V] (which [step] reads as [V.T[c]]) is the
    eigenvector [c] with each coordinate multiplied by the inverse square
    root of its mass. *)
Theorem bind_V_scales_rows_by_ism
    (n : nat) (U : list (list Q)) (ism : list Q) (r c : nat) :
  shaped n U -> length ism = n -> (r < n)%nat -> (c < n)%nat ->
  shaped n (bind_V U ism) /\
  entry (bind_V U ism) r c = entry U r c * at_index ism r.
Proof.
  intros HU _ Hr Hc. unfold bind_V. rewrite (proj1 HU).
  destruct (bind_V_columns n ism U n HU (Nat.le_refl n)) as [Hsh Hent].
  split; [exact Hsh|]. rewrite Hent by assumption.
  destruct (Nat.ltb_spec c n); [reflexivity|lia].
Qed.

Lemma bind_V_scales_rows_by_ism_witness :
  entry (bind_V [[1; 2]; [3; 4]] [1 # 2; 1 # 3]) 1 0 = 3 * (1 # 3).
Proof.
  refine (proj2 (bind_V_scales_rows_by_ism 2 [[1; 2]; [3; 4]] [1 # 2; 1 # 3] 1 0
                   _ eq_refl _ _)); [|lia|lia].
  split; [reflexivity|]. repeat constructor.
Defined.

End IMF_modes.

(** ** [IMF.psi] and [IMF.solve_schroedingers_equation] *)

Module IMF_solve.

(** [np.min] and [np.max] of a non-empty array. *)
Definition Qmin_list (l : list Q) : Q :=
  fold_left (fun m x => if Qltb x m then x else m) (tl l) (hd 0 l).
Definition Qmax_list (l : list Q) : Q :=
  fold_left (fun m x => if Qltb m x then x else m) (tl l) (hd 0 l).

(** [np.nan_to_num] of the value of the spline, which is nan ([None])
    outside the sampled range since [bounds_error = False]. *)
Definition nan_to_num (x : option Q) : Q := default 0 x.

Section solve.

Variable hermite : nat -> Q -> Q.
Variable exp sqrt root4 : Q -> Q.
Variable pi : Q.
Variable eigh : list (list Q) -> list Q * list (list Q).
Variable logsumexp : list Q -> Q.
(** [self.nint], [self.nbasis] and [self.imm.temp]. *)
Variable nint : nat.
Variable self_nbasis : nat.
Variable temp : Q.

(** [self.hermite_functions], set by [bind]. *)
Definition hermite_functions : list (Q -> Q) :=
  map hermite (seq 0 (Nat.max 20 (4 * self_nbasis))).

(** [try: herfun = self.hermite_functions[n]  except: herfun = hermite(n)] *)
Definition herfun (n : nat) : Q -> Q :=
  match hermite_functions !! n with
  | Some h => h
  | None => hermite n
  end.

(** [IMF.psi] *)
Definition psi (n : nat) (m hw q : Q) : Q :=
  let alpha := m * hw in
  let norm := root4 (alpha / pi) * sqrt (1.0 / (2.0 ^ Z.of_nat n * VSCFSolver.factorial n)) in
  norm * exp (- alpha * Qsquare q / 2.0) * herfun n (sqrt alpha * q).

(** The grid in normal mode position space. *)
Definition dnmd (qlist : list Q) : list Q :=
  VSCFMapper.linspace (Qmin_list qlist) (Qmax_list qlist) nint.

(** [psigrid[:, i]] and [norm[i]]. *)
Definition psigrid_column (hw : Q) (qlist : list Q) (i : nat) : list Q :=
  map (psi i 1 hw) (dnmd qlist).
Definition norm (hw : Q) (qlist : list Q) (i : nat) : Q :=
  dot (psigrid_column hw qlist i) (psigrid_column hw qlist i).

Definition vsplinegrid (qlist : list Q) (vspline : Q -> option Q) : list Q :=
  map (fun x => nan_to_num (vspline x)) (dnmd qlist).

(** The matrix element of the potential between basis functions [i] and
    [j] as the loop computes it. *)
Definition element (hw : Q) (qlist : list Q) (vspline : Q -> option Q)
    (i j : nat) : Q :=
  dot (vmul (psigrid_column hw qlist i) (psigrid_column hw qlist j))
      (vsplinegrid qlist vspline)
  / sqrt (norm hw qlist i * norm hw qlist j).

(** [h] before [h += h.T]: the upper triangle, the diagonal halved and
    the harmonic level added. *)
Definition upper (hw : Q) (qlist : list Q) (vspline : Q -> option Q)
    (i j : nat) : Q :=
  if (i =? j)%nat then
    element hw qlist vspline i i * 0.5 + 0.5 * (inject_Z (Z.of_nat i) + 0.5) * hw
  else if (i <? j)%nat then element hw qlist vspline i j
  else 0.

(** [h] after [h += h.T]. *)
Definition hamiltonian (hw : Q) (nbasis : nat) (qlist : list Q)
    (vspline : Q -> option Q) : list (list Q) :=
  map (fun i => map (fun j => upper hw qlist vspline i j + upper hw qlist vspline j i)
                 (seq 0 nbasis))
      (seq 0 nbasis).

(** [IMF.solve_schroedingers_equation]: the free and the internal energy. *)
Definition solve_schroedingers_equation (hw : Q) (nbasis : nat) (qlist : list Q)
    (vspline : Q -> option Q) : Q * Q :=
  let evals := (eigh (hamiltonian hw nbasis qlist vspline)).1 in
  let A := - logsumexp (map (fun e => -1.0 * e / temp) evals) * temp in
  let E := Qsum (map (fun e => e * exp (-1.0 * e / temp)) evals)
           / Qsum (map (fun e => exp (-1.0 * e / temp)) evals) in
  (A, E).

End solve.

Section solve_facts.

Variable hermite : nat -> Q -> Q.
Variable exp sqrt root4 : Q -> Q.
Variable pi : Q.
Variable nint : nat.
Variable self_nbasis : nat.

Local Abbreviation herfun := (herfun hermite self_nbasis).
Local Abbreviation psi := (psi hermite exp sqrt root4 pi self_nbasis).
Local Abbreviation hamiltonian :=
  (hamiltonian hermite exp sqrt root4 pi nint self_nbasis).
Local Abbreviation element := (element hermite exp sqrt root4 pi nint self_nbasis).
Local Abbreviation upper := (upper hermite exp sqrt root4 pi nint self_nbasis).

Lemma herfun_hermite (n : nat) : herfun n = hermite n.
Proof.
  unfold IMF_solve.herfun, hermite_functions.
  change (map hermite ?l) with (hermite <$> l). rewrite list_lookup_fmap.
  destruct (seq 0 (Nat.max 20 (4 * self_nbasis)) !! n) as [k|] eqn:E;
    [|reflexivity].
  simpl. apply lookup_seq in E as [-> _]. reflexivity.
Qed.

(** X18.  [IMF.psi] is the harmonic-oscillator wave function of index
    [n] for every [n]: the list of Hermite functions that [bind] prepares
    ([max(20, 4 * nbasis)] of them) only saves their construction, and an
    index beyond the list falls back to [hermite(n)].  The value therefore
    does not depend on the configured [nbasis]. *)
Theorem psi_does_not_depend_on_the_cache (n : nat) (m hw q : Q) :
  psi n m hw q
  = root4 (m * hw / pi)
    * sqrt (1.0 / (2.0 ^ Z.of_nat n * VSCFSolver.factorial n))
    * exp (- (m * hw) * Qsquare q / 2.0)
    * hermite n (sqrt (m * hw) * q).
Proof. unfold IMF_solve.psi. by rewrite herfun_hermite. Qed.

Lemma hamiltonian_of_mode_entry (hw : Q) (nbasis : nat) (qlist : list Q)
    (vspline : Q -> option Q) (i j : nat) :
  (i < nbasis)%nat -> (j < nbasis)%nat ->
  VSCFSolver.entry (hamiltonian hw nbasis qlist vspline) i j
  = upper hw qlist vspline i j + upper hw qlist vspline j i.
Proof.
  intros Hi Hj. unfold VSCFSolver.entry, IMF_solve.hamiltonian, at_index.
  rewrite VSCFSolver.nth_map_seq by exact Hi.
  by rewrite VSCFSolver.nth_map_seq by exact Hj.
Qed.

(** X19.  The matrix that [IMF.solve_schroedingers_equation] hands to
    [np.linalg.eigh] is symmetric; its diagonal entry [i] is the normalised
    expectation of the spline in basis function [i] plus the harmonic level
    [(i + 1/2) * hw], and its entry [(i, j)] for [i < j] is the normalised
    matrix element of the spline: halving the diagonal before [h += h.T]
    makes up for the diagonal being added to itself. *)
Theorem hamiltonian_of_mode_is_symmetric (hw : Q) (nbasis : nat) (qlist : list Q)
    (vspline : Q -> option Q) (i j : nat) :
  (i < nbasis)%nat -> (j < nbasis)%nat ->
  VSCFSolver.entry (hamiltonian hw nbasis qlist vspline) i j
  == VSCFSolver.entry (hamiltonian hw nbasis qlist vspline) j i /\
  VSCFSolver.entry (hamiltonian hw nbasis qlist vspline) i i
  == element hw qlist vspline i i + (inject_Z (Z.of_nat i) + 0.5) * hw /\
  ((i < j)%nat ->
   VSCFSolver.entry (hamiltonian hw nbasis qlist vspline) i j
   == element hw qlist vspline i j).
Proof.
  intros Hi Hj. rewrite !hamiltonian_of_mode_entry by assumption.
  split; [apply Qplus_comm|]. split.
  - unfold IMF_solve.upper. rewrite Nat.eqb_refl. ring.
  - intros Hlt. unfold IMF_solve.upper.
    destruct (Nat.eqb_spec i j) as [->|_]; [lia|].
    destruct (Nat.eqb_spec j i) as [->|_]; [lia|].
    destruct (Nat.ltb_spec i j) as [_|?]; [|lia].
    destruct (Nat.ltb_spec j i) as [?|_]; [lia|].
    ring.
Qed.

End solve_facts.

Lemma hamiltonian_of_mode_is_symmetric_witness :
  VSCFSolver.entry
    (hamiltonian VSCFSolver.Example.hermite VSCFSolver.Example.exp
       VSCFSolver.Example.sqrt VSCFSolver.Example.root4 VSCFSolver.Example.pi
       3 2 1 2 [-1; 0; 1] (fun x => Some (Qsquare x / 2))) 0 1
  == VSCFSolver.entry
       (hamiltonian VSCFSolver.Example.hermite VSCFSolver.Example.exp
          VSCFSolver.Example.sqrt VSCFSolver.Example.root4 VSCFSolver.Example.pi
          3 2 1 2 [-1; 0; 1] (fun x => Some (Qsquare x / 2))) 1 0.
Proof.
  refine (proj1 (hamiltonian_of_mode_is_symmetric VSCFSolver.Example.hermite
                   VSCFSolver.Example.exp VSCFSolver.Example.sqrt
                   VSCFSolver.Example.root4 VSCFSolver.Example.pi 3 2 1 2
                   [-1; 0; 1] (fun x => Some (Qsquare x / 2)) 0 1 _ _)); lia.
Defined.

End IMF_solve.

(** ** [PC.transform]: the preconditioned dynamical matrix *)

Module PC_transform.

Import IMF_modes.
Local Abbreviation entry := VSCFSolver.entry.

(** [np.eye(dof) * 0.0] *)
Definition eye_times_zero (dof : nat) : list (list Q) :=
  map (fun i => map (fun j => (if (i =? j)%nat then 1 else 0) * 0.0) (seq 0 dof))
      (seq 0 dof).

Definition madd (A B : list (list Q)) : list (list Q) := zip_with vadd A B.
Definition mscale (c : Q) (A : list (list Q)) : list (list Q) := map (vscale c) A.

(** One pass of the loop: [U = imm.U.T[i].reshape((1, dof))] and
    [ddmpc += w2pc[i] * np.dot(U.T, U)].  [U_T] holds the rows of
    [imm.U.T]. *)
Definition add_mode (U_T : list (list Q)) (w2pc : list Q)
    (ddmpc : list (list Q)) (i : nat) : list (list Q) :=
  let U := nth i U_T [] in
  madd ddmpc (mscale (at_index w2pc i) (outer U U)).

(** The matrix written to [prefix.dmpc.data]. *)
Definition ddmpc (dof : nat) (U_T : list (list Q)) (w2pc : list Q)
  : list (list Q) :=
  fold_left (add_mode U_T w2pc) (seq 0 dof) (eye_times_zero dof).

(** [PC.transform]: the preconditioned position [dbeads.q] ([None] where
    [qpc] has left the finite numbers) and the matrix. *)
Definition transform (beads_q : list Q) (self : PC.preconditioner)
    (dof : nat) (U_T : list (list Q)) : option (list Q) * list (list Q) :=
  (option_map (vadd beads_q) (PC.qpc self), ddmpc dof U_T (PC.w2pc self)).

(** The contribution of mode [i] to the entry [(a, b)]. *)
Definition mode_term (U_T : list (list Q)) (w2pc : list Q) (a b i : nat) : Q :=
  at_index w2pc i * (entry U_T i a * entry U_T i b).

Lemma shaped_row (n : nat) (A : list (list Q)) (r : nat) :
  shaped n A -> (r < n)%nat -> length (nth r A []) = n.
Proof.
  intros [Hlen Hrows] Hr.
  destruct (lookup_lt_is_Some_2 A r ltac:(lia)) as [row Hrow].
  rewrite nth_lookup, Hrow. simpl.
  rewrite Forall_forall in Hrows. apply Hrows. by eapply list_elem_of_lookup_2.
Qed.

Lemma shaped_intro (n : nat) (A : list (list Q)) :
  length A = n -> (forall r, (r < n)%nat -> length (nth r A []) = n) ->
  shaped n A.
Proof.
  intros Hlen Hrows. split; [exact Hlen|]. apply Forall_forall.
  intros row Hrow. apply list_elem_of_lookup in Hrow as [r Hr].
  specialize (Hrows r ltac:(apply lookup_lt_Some in Hr; lia)).
  by rewrite nth_lookup, Hr in Hrows.
Qed.

Lemma nth_zip_with {A : Type} (f : A -> A -> A) (l k : list A) (i : nat) (d : A) :
  (i < length l)%nat -> (i < length k)%nat ->
  nth i (zip_with f l k) d = f (nth i l d) (nth i k d).
Proof.
  intros Hl Hk.
  destruct (lookup_lt_is_Some_2 l i Hl) as [x Hx].
  destruct (lookup_lt_is_Some_2 k i Hk) as [y Hy].
  by rewrite !nth_lookup, lookup_zip_with, Hx, Hy.
Qed.

Lemma madd_shaped (n : nat) (A B : list (list Q)) :
  shaped n A -> shaped n B -> shaped n (madd A B).
Proof.
  intros HA HB. apply shaped_intro.
  - unfold madd. rewrite length_zip_with. destruct HA, HB. lia.
  - intros r Hr. unfold madd.
    rewrite nth_zip_with by (destruct HA, HB; lia).
    unfold vadd. rewrite length_zip_with.
    rewrite (shaped_row n A r HA Hr), (shaped_row n B r HB Hr). lia.
Qed.

Lemma madd_entry (n : nat) (A B : list (list Q)) (a b : nat) :
  shaped n A -> shaped n B -> (a < n)%nat -> (b < n)%nat ->
  entry (madd A B) a b = entry A a b + entry B a b.
Proof.
  intros HA HB Ha Hb. unfold VSCFSolver.entry, madd, at_index.
  rewrite nth_zip_with by (destruct HA, HB; lia).
  unfold vadd. apply nth_zip_with.
  - by rewrite (shaped_row n A a HA Ha).
  - by rewrite (shaped_row n B a HB Ha).
Qed.

Lemma scaled_outer_shaped (n : nat) (c : Q) (u : list Q) :
  length u = n -> shaped n (mscale c (outer u u)).
Proof.
  intros Hu. split.
  - unfold mscale, outer. by rewrite !length_map.
  - unfold mscale, outer. rewrite map_map. apply Forall_forall.
    intros row Hrow. apply list_elem_of_In, in_map_iff in Hrow as (x & <- & _).
    unfold vscale. by rewrite !length_map.
Qed.

Lemma scaled_outer_entry (n : nat) (c : Q) (u : list Q) (a b : nat) :
  length u = n -> (a < n)%nat -> (b < n)%nat ->
  entry (mscale c (outer u u)) a b = c * (at_index u a * at_index u b).
Proof.
  intros Hu Ha Hb.
  destruct (lookup_lt_is_Some_2 u a ltac:(lia)) as [x Hx].
  destruct (lookup_lt_is_Some_2 u b ltac:(lia)) as [y Hy].
  rewrite (at_index_lookup u a x Hx), (at_index_lookup u b y Hy).
  unfold VSCFSolver.entry. apply at_index_lookup.
  unfold mscale, outer. rewrite map_map, nth_lookup.
  change (map ?f u) with (f <$> u) at 1. rewrite list_lookup_fmap, Hx. simpl.
  unfold vscale. rewrite map_map.
  change (map ?f u) with (f <$> u). by rewrite list_lookup_fmap, Hy.
Qed.

Lemma eye_times_zero_shaped (dof : nat) : shaped dof (eye_times_zero dof).
Proof.
  split.
  - unfold eye_times_zero. by rewrite length_map, length_seq.
  - apply Forall_forall. intros row Hrow.
    apply list_elem_of_In, in_map_iff in Hrow as (x & <- & _).
    by rewrite length_map, length_seq.
Qed.

Lemma eye_times_zero_entry (dof a b : nat) :
  (a < dof)%nat -> (b < dof)%nat -> entry (eye_times_zero dof) a b == 0.
Proof.
  intros Ha Hb. unfold VSCFSolver.entry, eye_times_zero, at_index.
  rewrite VSCFSolver.nth_map_seq by exact Ha.
  rewrite VSCFSolver.nth_map_seq by exact Hb. ring.
Qed.

Lemma Qsum_snoc (l : list Q) (x : Q) : Qsum (l ++ [x]) = Qsum l + x.
Proof. unfold Qsum. by rewrite fold_left_app. Qed.

Lemma ddmpc_partial (dof : nat) (U_T : list (list Q)) (w2pc : list Q) (k : nat) :
  shaped dof U_T -> (k <= dof)%nat ->
  shaped dof (fold_left (add_mode U_T w2pc) (seq 0 k) (eye_times_zero dof)) /\
  forall a b, (a < dof)%nat -> (b < dof)%nat ->
    entry (fold_left (add_mode U_T w2pc) (seq 0 k) (eye_times_zero dof)) a b
    == Qsum (map (mode_term U_T w2pc a b) (seq 0 k)).
Proof.
  intros HU. induction k as [|k IH]; intros Hk.
  - split; [apply eye_times_zero_shaped|].
    intros a b Ha Hb. by apply eye_times_zero_entry.
  - destruct IH as [Hsh Hent]; [lia|].
    assert (Hrow : length (nth k U_T []) = dof) by (apply shaped_row; [done|lia]).
    rewrite seq_S, fold_left_app.
    change (fold_left (add_mode U_T w2pc) [(0 + k)%nat] ?acc)
      with (madd acc (mscale (at_index w2pc k) (outer (nth k U_T []) (nth k U_T [])))).
    split.
    + apply madd_shaped; [exact Hsh|]. by apply scaled_outer_shaped.
    + intros a b Ha Hb.
      rewrite (madd_entry dof); try assumption; [|by apply scaled_outer_shaped].
      rewrite (scaled_outer_entry dof) by assumption.
      rewrite map_app. cbn [map]. rewrite Qsum_snoc.
      rewrite Hent by assumption. reflexivity.
Qed.

Lemma Qsum_map_ext (f g : nat -> Q) (l : list nat) :
  (forall i, f i == g i) -> Qsum (map f l) == Qsum (map g l).
Proof.
  intros Hfg. induction l as [|x l IH] using rev_ind; [reflexivity|].
  rewrite !map_app. cbn [map]. rewrite !Qsum_snoc. by rewrite IH, Hfg.
Qed.

(** X20.  The matrix that [PC.transform] writes to [prefix.dmpc.data] is
    the dynamical matrix rebuilt from the fitted curvatures: its entry
    [(a, b)] is the sum over the modes [i] of [w2pc[i] * U[a][i] * U[b][i]].
    It is symmetric, and a mode that [PC.step] ignored (its [w2pc] is still
    the 0 of [bind]) adds nothing to it. *)
Theorem transform_rebuilds_the_dynamical_matrix
    (dof : nat) (U_T : list (list Q)) (w2pc : list Q) (a b : nat) :
  shaped dof U_T -> length w2pc = dof -> (a < dof)%nat -> (b < dof)%nat ->
  entry (ddmpc dof U_T w2pc) a b
  == Qsum (map (mode_term U_T w2pc a b) (seq 0 dof)) /\
  entry (ddmpc dof U_T w2pc) a b == entry (ddmpc dof U_T w2pc) b a.
Proof.
  intros HU _ Ha Hb.
  destruct (ddmpc_partial dof U_T w2pc dof HU (Nat.le_refl dof)) as [_ Hent].
  unfold ddmpc. split; [by apply Hent|].
  rewrite !Hent by assumption. apply Qsum_map_ext.
  intros i. unfold mode_term. ring.
Qed.

Lemma transform_rebuilds_the_dynamical_matrix_witness :
  entry (ddmpc 2 [[1; 0]; [0; 1]] [3; 5]) 0 1
  == entry (ddmpc 2 [[1; 0]; [0; 1]] [3; 5]) 1 0.
Proof.
  refine (proj2 (transform_rebuilds_the_dynamical_matrix 2 [[1; 0]; [0; 1]] [3; 5]
                   0 1 _ eq_refl _ _)); [|lia|lia].
  split; [reflexivity|]. repeat constructor.
Defined.

(** *** One fitted mode *)

Lemma Qsum_single (f : nat -> Q) (k n : nat) :
  (forall i, i <> k -> f i == 0) ->
  Qsum (map f (seq 0 n)) == if (k <? n)%nat then f k else 0.
Proof.
  intros Hf. induction n as [|n IH]; [reflexivity|].
  rewrite seq_S, map_app. cbn [map]. rewrite Qsum_snoc, IH. simpl.
  destruct (Nat.ltb_spec k n), (Nat.ltb_spec k (S n)); try lia.
  - rewrite (Hf n) by lia. ring.
  - replace n with k by lia. ring.
  - rewrite (Hf n) by lia. ring.
Qed.

Lemma at_index_single (dof step i : nat) (x : Q) :
  i <> step -> at_index (<[step := x]> (repeat 0 dof)) i = 0.
Proof.
  intros Hne. unfold at_index.
  rewrite nth_lookup, list_lookup_insert_ne by done.
  destruct (repeat 0 dof !! i) as [y|] eqn:E; [|reflexivity].
  simpl. apply list_elem_of_lookup_2, list_elem_of_In, repeat_spec in E. exact E.
Qed.

Lemma at_index_inserted (dof step : nat) (x : Q) :
  (step < dof)%nat -> at_index (<[step := x]> (repeat 0 dof)) step = x.
Proof.
  intros Hlt. apply at_index_lookup. apply list_lookup_insert_eq.
  by rewrite repeat_length.
Qed.

Section fitted_mode.

Variable pots : list Q -> Q.
Variable forces : list Q -> list Q.
Variable sqrt : Q -> Q.
Variable polyfit2 : list Q -> list Q -> Q * Q * Q.
Variable imm : IMF.mover.

Lemma PC_step_w2pc (self self' : PC.preconditioner) (step fuel : nat)
    (s : IMF.samples) (cpos cneg : Z) (a b c : Q) :
  PC.PC_step pots forces sqrt polyfit2 imm self step fuel
  = Some (PC.Fitted s cpos cneg (a, b, c) self') ->
  PC.w2pc self' = <[step := 2 * a]> (PC.w2pc self).
Proof.
  unfold PC.PC_step. destruct (Qltb _ _); [discriminate|].
  destruct (PC.displace _ _ _ _ _ _ _ _ _ _) as [[s1 c1]|]; [|discriminate].
  simpl.
  destruct (PC.displace _ _ _ _ _ _ _ _ _ _) as [[s2 c2]|]; [|discriminate].
  simpl. destruct (polyfit2 _ _) as [[a' b'] c']. by intros [= _ _ _ -> _ _ <-].
Qed.

(** X22.  [PC.bind], one fitting call of [PC.step] and [PC.transform] in
    a row: with all other modes still at the zero of [bind], the matrix
    written to [prefix.dmpc.data] is the fitted curvature [2 * a] of the mode
    times the outer product of its eigenvector with itself. *)
Theorem one_fitted_mode_gives_its_projector
    (conf : IMF.calculator) (dof step fuel : nat) (self' : PC.preconditioner)
    (s : IMF.samples) (cpos cneg : Z) (a b c : Q)
    (U_T : list (list Q)) (i j : nat) :
  PC.PC_step pots forces sqrt polyfit2 imm (PC.PC_bind conf dof) step fuel
  = Some (PC.Fitted s cpos cneg (a, b, c) self') ->
  shaped dof U_T -> (step < dof)%nat -> (i < dof)%nat -> (j < dof)%nat ->
  entry (ddmpc dof U_T (PC.w2pc self')) i j
  == 2 * a * (entry U_T step i * entry U_T step j).
Proof.
  intros Hstep HU Hs Hi Hj.
  apply PC_step_w2pc in Hstep. rewrite Hstep. simpl.
  destruct (ddmpc_partial dof U_T (<[step := 2 * a]> (repeat 0 dof)) dof HU
              (Nat.le_refl dof)) as [_ Hent].
  unfold ddmpc. rewrite Hent by assumption.
  rewrite (Qsum_single _ step).
  - destruct (Nat.ltb_spec step dof); [|lia].
    unfold mode_term. by rewrite at_index_inserted.
  - intros k Hk. unfold mode_term. rewrite at_index_single by exact Hk. ring.
Qed.

End fitted_mode.

Lemma one_fitted_mode_gives_its_projector_witness :
  entry (ddmpc 1 [[1]] (PC.w2pc (PC.Example.fitted.2))) 0 0
  == 2 * (1 # 4) * (entry [[1]] 0 0 * entry [[1]] 0 0).
Proof.
  refine (one_fitted_mode_gives_its_projector PC.Example.pots PC.Example.forces
            PC.Example.sqrt PC.Example.polyfit2 PC.Example.imm
            PC.Example.configured 1 0 5 (PC.Example.fitted.2)
            (PC.Example.fitted.1.1.1.1) (PC.Example.fitted.1.1.1.2)
            (PC.Example.fitted.1.1.2) (1 # 4) 0 0 [[1]] 0 0
            PC.example_fit_run _ _ _ _); [|lia|lia|lia].
  split; [reflexivity|]. repeat constructor.
Defined.

End PC_transform.
